(** * A shallow embedding of the saturation core of the prover

    The development follows the C++ sources: Kernel/RobSubstitution.cpp,
    Kernel/KBO.cpp, Kernel/Ordering.hpp, Kernel/Clause.hpp,
    Inferences/Factoring.cpp, Inferences/Superposition.cpp,
    Inferences/ForwardDemodulation.cpp, Inferences/InterpretedEvaluation.cpp,
    Indexing/LiteralSubstitutionTree.cpp and Saturation/ClauseContainer.cpp.

    Machine integers are kept in [Z]; unsigned 32-bit arithmetic is written
    with its reduction modulo 2^32.  Finite maps of the sources (DHMap) are
    stdpp's [gmap]. *)

From Stdlib Require Import ZArith Lia List Bool.
From stdpp Require Import base option list gmap.

Open Scope Z_scope.

(** ** Terms (Kernel/Term.hpp) *)

(** Modelled from the spec: Kernel/Term.hpp is not among the sources.  The
    spec's data model says a term is "either a variable (identified by a
    non-negative integer) or an application of a function symbol to an
    ordered sequence of sub-terms"; the sources further distinguish the
    special variables of substitution trees ([isSpecialVar],
    [isOrdinaryVar]).  Terms are hash-consed, so that pointer equality
    ([==], [sameContent]) is structural equality. *)
#[warnings="-register-all"]
Inductive TermList : Type :=
| Var (v : nat)
| SpecialVar (v : nat)
| Term (functor : nat) (args : list TermList).

Section TermList_induction.
Variable P : TermList -> Prop.
Hypothesis HVar : forall v, P (Var v).
Hypothesis HSpecialVar : forall v, P (SpecialVar v).
Hypothesis HTerm : forall f args, Forall P args -> P (Term f args).

Fixpoint TermList_ind' (t : TermList) : P t :=
  match t with
  | Var v => HVar v
  | SpecialVar v => HSpecialVar v
  | Term f args =>
      HTerm f args
        ((fix go (l : list TermList) : Forall P l :=
            match l with
            | [] => @List.Forall_nil _ P
            | x :: l' => @List.Forall_cons _ P x l' (TermList_ind' x) (go l')
            end) args)
  end.
End TermList_induction.

Fixpoint TermList_eqb (s t : TermList) {struct s} : bool :=
  match s, t with
  | Var v, Var w => Nat.eqb v w
  | SpecialVar v, SpecialVar w => Nat.eqb v w
  | Term f ss, Term g ts =>
      Nat.eqb f g &&
      (fix go (l1 l2 : list TermList) {struct l1} : bool :=
         match l1, l2 with
         | [], [] => true
         | x :: l1', y :: l2' => TermList_eqb x y && go l1' l2'
         | _, _ => false
         end) ss ts
  | _, _ => false
  end.

Lemma TermList_eqb_spec (s t : TermList) : TermList_eqb s t = true <-> s = t.
Proof.
  revert t. induction s as [v|v|f ss IH] using TermList_ind'; intros [w|w|g ts]; simpl;
    try (split; [discriminate|congruence]).
  - rewrite Nat.eqb_eq. split; congruence.
  - rewrite Nat.eqb_eq. split; congruence.
  - rewrite andb_true_iff, Nat.eqb_eq.
    assert (Hl : forall ts,
      (fix go (l1 l2 : list TermList) {struct l1} : bool :=
         match l1, l2 with
         | [], [] => true
         | x :: l1', y :: l2' => TermList_eqb x y && go l1' l2'
         | _, _ => false
         end) ss ts = true <-> ss = ts).
    { clear ts. induction IH as [|x l Hx Hl IHl]; intros [|y ts]; simpl;
        try (split; [discriminate|congruence]); try tauto.
      rewrite andb_true_iff, Hx, IHl. split; [intros [-> ->]; reflexivity|].
      intros E; injection E; auto. }
    rewrite Hl. split; [intros [-> ->]; reflexivity|].
    intros E; injection E; auto.
Qed.

#[global] Instance TermList_eq_dec : EqDecision TermList.
Proof.
  intros s t. destruct (TermList_eqb s t) eqn:E.
  - left. apply TermList_eqb_spec, E.
  - right. intros H. apply TermList_eqb_spec in H. congruence.
Defined.

Definition isVar (t : TermList) : bool :=
  match t with Term _ _ => false | _ => true end.
Definition isTerm (t : TermList) : bool :=
  match t with Term _ _ => true | _ => false end.
Definition isSpecialVar (t : TermList) : bool :=
  match t with SpecialVar _ => true | _ => false end.
Definition isOrdinaryVar (t : TermList) : bool :=
  match t with Var _ => true | _ => false end.

(** [Term::arity] *)
Definition arity (t : TermList) : nat :=
  match t with Term _ args => length args | _ => 0%nat end.

(** [Term::shared() && Term::ground()]: a term without variables.  Terms
    that contain special variables are not shared. *)
Fixpoint ground (t : TermList) : bool :=
  match t with
  | Term _ args => forallb ground args
  | _ => false
  end.

(** Modelled from the spec: [TermList::sameTopFunctor] is defined in
    Kernel/Term.cpp, which is not among the sources.  Its callers in
    RobSubstitution.cpp and KBO.cpp assert, right after it answered true,
    that both sides are proper terms ([ASS(ss->isTerm() && tt->isTerm())]):
    it holds when both are applications of the same function symbol. *)
Definition sameTopFunctor (ss tt : TermList) : bool :=
  match ss, tt with
  | Term f _, Term g _ => Nat.eqb f g
  | _, _ => false
  end.

(** Modelled from the spec: [VariableIterator] (Kernel/TermIterators.hpp,
    not among the sources) yields the variable occurrences of a term,
    depth first and left to right. *)
Fixpoint variables (t : TermList) : list TermList :=
  match t with
  | Term _ args => flat_map variables args
  | v => [v]
  end.

(** [TermList::containsSubterm] *)
Fixpoint containsSubterm (t s : TermList) : bool :=
  if bool_decide (t = s) then true
  else match t with
       | Term _ args => existsb (fun a => containsSubterm a s) args
       | _ => false
       end.

(** ** Saturation/ClauseContainer.cpp : UnprocessedClauseContainer *)

Module Unprocessed.
Section Container.
Variable Clause : Type.

  (** The events fired by the container ([addedEvent], [selectedEvent]). *)
Inductive Event :=
  | AddedEvent (c : Clause)
  | SelectedEvent (c : Clause).

  (** Modelled from the spec: the member [_data] is a deque declared in
      ClauseContainer.hpp, which is not among the sources; the spec calls the
      container an "append-only deque".  [push_back] appends at the back,
      [pop_back] removes the element at the back and fails on an empty
      deque. *)
Definition push_back (d : list Clause) (c : Clause) : list Clause :=
    d ++ [c].

Definition pop_back (d : list Clause) : option (Clause * list Clause) :=
    match rev d with
    | [] => None
    | c :: r => Some (c, rev r)
    end.

Record container := mkContainer {
    _data : list Clause;
    fired : list Event
  }.

Definition empty : container := mkContainer [] [].

  (** [UnprocessedClauseContainer::add] *)
Definition add (c : Clause) (s : container) : container :=
    mkContainer (push_back (_data s) c) (fired s ++ [AddedEvent c]).

  (** [UnprocessedClauseContainer::pop] *)
Definition pop (s : container) : option (Clause * container) :=
    match pop_back (_data s) with
    | None => None
    | Some (res, d) => Some (res, mkContainer d (fired s ++ [SelectedEvent res]))
    end.

  (** A sequence of calls on the container. *)
Inductive op :=
  | Add (c : Clause)
  | Pop.

  (** Runs the calls in order and collects what each [pop] returned; a
      [pop] on an empty container aborts the run. *)
Fixpoint run (ops : list op) (s : container) : option (list Clause * container) :=
    match ops with
    | [] => Some ([], s)
    | Add c :: ops' => run ops' (add c s)
    | Pop :: ops' =>
        match pop s with
        | None => None
        | Some (res, s') =>
            match run ops' s' with
            | None => None
            | Some (out, s'') => Some (res :: out, s'')
            end
        end
    end.

  (** The reference last-in-first-out discipline: a stack whose head is the
      most recently added clause still stored. *)
Fixpoint lifo (ops : list op) (st : list Clause) : option (list Clause * list Clause) :=
    match ops with
    | [] => Some ([], st)
    | Add c :: ops' => lifo ops' (c :: st)
    | Pop :: ops' =>
        match st with
        | [] => None
        | res :: st' =>
            match lifo ops' st' with
            | None => None
            | Some (out, st'') => Some (res :: out, st'')
            end
        end
    end.

Lemma pop_back_push_back d c : pop_back (push_back d c) = Some (c, d).
Proof.
    unfold pop_back, push_back. rewrite rev_app_distr. simpl.
    now rewrite rev_involutive.
Qed.

Lemma pop_back_rev d :
    pop_back d = match rev d with [] => None | c :: r => Some (c, rev r) end.
Proof. reflexivity. Qed.

Lemma run_lifo ops : forall s,
    match run ops s, lifo ops (rev (_data s)) with
    | Some (out, s'), Some (out', st') => out = out' /\ rev (_data s') = st'
    | None, None => True
    | _, _ => False
    end.
Proof.
    induction ops as [|o ops IH]; intros s; simpl.
    - auto.
    - destruct o as [c|].
      + specialize (IH (add c s)). simpl in IH.
        unfold push_back in IH. rewrite rev_app_distr in IH. simpl in IH.
        exact IH.
      + unfold pop. rewrite pop_back_rev.
        destruct (rev (_data s)) as [|res r] eqn:E; [exact I|].
        specialize (IH (mkContainer (rev r) (fired s ++ [SelectedEvent res]))).
        simpl in IH. rewrite rev_involutive in IH.
        destruct (run ops _) as [[out s']|], (lifo ops r) as [[out' st']|];
          try contradiction; auto.
        destruct IH as [-> <-]. auto.
Qed.
End Container.
End Unprocessed.

(** C10: the Unprocessed container is last-in-first-out.  For every sequence
    of [add] and [pop] calls started on the empty container, the clauses
    returned by the [pop] calls and the clauses left in the container are
    those of a stack on which every [pop] returns and removes the most
    recently added clause still stored; and a [pop] issued right after
    [add c] returns [c] and leaves the stored clauses as they were. *)
Theorem unprocessed_is_lifo (Clause : Type) :
  (forall ops : list (Unprocessed.op Clause),
     (fun r => (r.1, rev (Unprocessed._data Clause r.2)))
       <$> Unprocessed.run Clause ops (Unprocessed.empty Clause)
     = Unprocessed.lifo Clause ops []) /\
  (forall (c : Clause) s,
     exists s', Unprocessed.pop Clause (Unprocessed.add Clause c s) = Some (c, s') /\
                Unprocessed._data Clause s' = Unprocessed._data Clause s).
Proof.
  split.
  - intros ops.
    pose proof (Unprocessed.run_lifo Clause ops (Unprocessed.empty Clause)) as H.
    simpl in H.
    destruct (Unprocessed.run Clause ops _) as [[out s']|],
             (Unprocessed.lifo Clause ops []) as [[out' st']|];
      simpl; try contradiction; auto.
    destruct H as [-> <-]. reflexivity.
  - intros c s. unfold Unprocessed.pop, Unprocessed.add. simpl.
    rewrite Unprocessed.pop_back_push_back. eexists. split; reflexivity.
Qed.

(** ** Literals (Kernel/Term.hpp) and comparison results (Kernel/Ordering.hpp) *)

(** Modelled from the spec: [Literal] is declared in Kernel/Term.hpp, which
    is not among the sources.  The spec: "a predicate application together
    with a polarity bit.  Equality literals additionally carry the argument
    sort."  Equality is the predicate number 0 and the only commutative
    one. *)
Record Literal := mkLiteral {
  lit_functor : nat;
  polarity : bool;
  lit_args : list TermList;
  eqArgSort : nat
}.

#[global] Instance Literal_eq_dec : EqDecision Literal.
Proof. solve_decision. Defined.

Definition isEquality (l : Literal) : bool := Nat.eqb (lit_functor l) 0.
Definition commutative (l : Literal) : bool := isEquality l.
Definition isPositive (l : Literal) : bool := polarity l.
Definition isNegative (l : Literal) : bool := negb (polarity l).
Definition lit_ground (l : Literal) : bool := forallb ground (lit_args l).

(** [Literal::nthArgument] *)
Definition nthArgument (l : Literal) (n : nat) : TermList :=
  nth n (lit_args l) (Var 0).

(** Modelled from the spec: [Literal::headersMatch] (Kernel/Term.hpp, not
    among the sources).  The header of a literal is "functor+polarity";
    the comment at the call in RobSubstitution.cpp adds that the test also
    fails "if the sorts of equality literals do not match". *)
Definition headersMatch (l1 l2 : Literal) (complementary : bool) : bool :=
  Nat.eqb (lit_functor l1) (lit_functor l2) &&
  eqb (polarity l1) (xorb (polarity l2) complementary) &&
  (negb (isEquality l1) || Nat.eqb (eqArgSort l1) (eqArgSort l2)).

(** [EqHelper::isEqTautology] (Kernel/EqHelper.hpp) *)
Definition isEqTautology (lit : Literal) : bool :=
  isEquality lit && isPositive lit &&
  bool_decide (nthArgument lit 0 = nthArgument lit 1).

(** [Ordering::Result] *)
Inductive Result :=
| GREATER | LESS | GREATER_EQ | LESS_EQ | EQUAL | INCOMPARABLE.

#[global] Instance Result_eq_dec : EqDecision Result.
Proof. solve_decision. Defined.

(** [Ordering::reverse] *)
Definition reverse (r : Result) : Result :=
  match r with
  | GREATER => LESS
  | GREATER_EQ => LESS_EQ
  | LESS => GREATER
  | LESS_EQ => GREATER_EQ
  | EQUAL => EQUAL
  | INCOMPARABLE => INCOMPARABLE
  end.

(** [Ordering::isGorGEorE] *)
Definition isGorGEorE (r : Result) : bool :=
  match r with
  | GREATER | GREATER_EQ | EQUAL => true
  | _ => false
  end.

(** ** Kernel/RobSubstitution.cpp *)

Module RobSubstitution.

Definition AUX_INDEX : Z := -3.
Definition SPECIAL_INDEX : Z := -2.
Definition UNBOUND_INDEX : Z := -1.

(** Modelled from the spec: [VarSpec] and [TermSpec] are declared in
    Kernel/RobSubstitution.hpp, which is not among the sources.  The spec
    describes a variable specification as "variable id x bank index" and a
    binding target as "another variable specification or a term
    specification". *)
Abbreviation VarSpec := (nat * Z)%type.

Record TermSpec := mkTermSpec { term : TermList; index : Z }.

#[global] Instance TermSpec_eq_dec : EqDecision TermSpec.
Proof. solve_decision. Defined.

(** [TermSpec::TermSpec(const VarSpec&)], as used by [derefBound] and
    [occurs]: the variable named by the specification, special when it
    lives in the special bank. *)
Definition TermSpec_of_VarSpec (vs : VarSpec) : TermSpec :=
  if vs.2 =? SPECIAL_INDEX then mkTermSpec (SpecialVar vs.1) vs.2
  else mkTermSpec (Var vs.1) vs.2.

(** [getVarSpec(TermList, int)]: special variables always live in the
    special bank.  The sources assert that the argument is a variable. *)
Definition getVarSpec (tl : TermList) (idx : Z) : VarSpec :=
  match tl with
  | Var v => (v, idx)
  | SpecialVar v => (v, SPECIAL_INDEX)
  | Term _ _ => (0%nat, idx)
  end.

(** Modelled from the spec: [TermSpec::sameTermContent] is declared in
    Kernel/RobSubstitution.hpp, which is not among the sources.  The spec
    has the variables of two banks "treated as disjoint even though they
    share integer identifiers", and special variables live in one bank: two
    term specifications have the same content when they hold the same term
    and either the same bank, or a special variable, or a term without
    variables, or a constant. *)
Definition sameTermContent (ts1 ts2 : TermSpec) : bool :=
  bool_decide (term ts1 = term ts2) &&
  ((index ts1 =? index ts2) || isSpecialVar (term ts1) ||
   (isTerm (term ts1) && (ground (term ts1) || Nat.eqb (arity (term ts1)) 0))).

Abbreviation TTPair := (TermSpec * TermSpec)%type.

(** Modelled from the spec: the backtrack log (Lib/Backtrackable.hpp and
    [BindingBacktrackObject] of RobSubstitution.hpp are not among the
    sources).  The spec: "Operations are recorded on a backtrack log",
    "model as a stack of undo records", "backtrack: undo all bindings
    added since mark".  An undo record keeps the variable and the binding it
    had before [bind] (none when it was absent); records are undone newest
    first. *)
Inductive BacktrackObject :=
| BindingBacktrackObject (v : VarSpec) (old : option TermSpec).

Abbreviation BacktrackData := (list BacktrackObject).

Record subst := mkSubst {
  _bank : gmap (nat * Z) TermSpec;
  _nextUnboundAvailable : nat;
  _bdStack : list (option BacktrackData)
}.

(** A freshly constructed substitution. *)
Definition empty : subst := mkSubst ∅ 0%nat [].

Definition bdIsRecording (s : subst) : bool :=
  match _bdStack s with
  | Some _ :: _ => true
  | _ => false
  end.

Definition bdRecord (s : subst) : subst :=
  mkSubst (_bank s) (_nextUnboundAvailable s) (Some [] :: _bdStack s).

(** [bdDone]: stops the innermost recording and hands its log back. *)
Definition bdDone (s : subst) : BacktrackData * subst :=
  match _bdStack s with
  | Some bd :: rest => (bd, mkSubst (_bank s) (_nextUnboundAvailable s) rest)
  | None :: rest => ([], mkSubst (_bank s) (_nextUnboundAvailable s) rest)
  | [] => ([], s)
  end.

(** [bdCommit]: the records of a finished log go to the enclosing one. *)
Definition bdCommit (bd : BacktrackData) (s : subst) : subst :=
  match _bdStack s with
  | Some outer :: rest =>
      mkSubst (_bank s) (_nextUnboundAvailable s) (Some (bd ++ outer) :: rest)
  | _ => s
  end.

Definition backtrackObject (bank : gmap (nat * Z) TermSpec) (o : BacktrackObject)
  : gmap (nat * Z) TermSpec :=
  match o with
  | BindingBacktrackObject v None => delete v bank
  | BindingBacktrackObject v (Some t) => <[v := t]> bank
  end.

(** [BacktrackData::backtrack] *)
Definition backtrack (bd : BacktrackData) (s : subst) : subst :=
  mkSubst (fold_left backtrackObject bd (_bank s)) (_nextUnboundAvailable s) (_bdStack s).

(** [RobSubstitution::bind] *)
Definition bind (s : subst) (v : VarSpec) (b : TermSpec) : subst :=
  mkSubst (<[v := b]> (_bank s)) (_nextUnboundAvailable s)
    (match _bdStack s with
     | Some bd :: rest => Some (BindingBacktrackObject v (_bank s !! v) :: bd) :: rest
     | stk => stk
     end).

(** The loops of the sources that follow bindings do not end on a cyclic
    bank; they are given a number of iterations and answer [None] when it
    does not suffice. *)

(** [RobSubstitution::isUnbound] *)
Fixpoint isUnbound (fuel : nat) (bank : gmap (nat * Z) TermSpec) (v : VarSpec) : option bool :=
  match fuel with
  | O => None
  | S fuel' =>
      match bank !! v with
      | None => Some true
      | Some binding =>
          if index binding =? UNBOUND_INDEX then Some true
          else if isTerm (term binding) then Some false
          else isUnbound fuel' bank (getVarSpec (term binding) (index binding))
      end
  end.

(** [RobSubstitution::root] *)
Fixpoint root (fuel : nat) (bank : gmap (nat * Z) TermSpec) (v : VarSpec) : option VarSpec :=
  match fuel with
  | O => None
  | S fuel' =>
      match bank !! v with
      | None => Some v
      | Some binding =>
          if (index binding =? UNBOUND_INDEX) || isTerm (term binding) then Some v
          else root fuel' bank (getVarSpec (term binding) (index binding))
      end
  end.

Fixpoint derefBound_var (fuel : nat) (bank : gmap (nat * Z) TermSpec) (v : VarSpec) : option TermSpec :=
  match fuel with
  | O => None
  | S fuel' =>
      match bank !! v with
      | None => Some (TermSpec_of_VarSpec v)
      | Some binding =>
          if index binding =? UNBOUND_INDEX then Some (TermSpec_of_VarSpec v)
          else if isTerm (term binding) then Some binding
          else derefBound_var fuel' bank (getVarSpec (term binding) (index binding))
      end
  end.

(** [RobSubstitution::derefBound] *)
Definition derefBound (fuel : nat) (bank : gmap (nat * Z) TermSpec) (t : TermSpec) : option TermSpec :=
  if isTerm (term t) then Some t
  else derefBound_var fuel bank (getVarSpec (term t) (index t)).

(** [RobSubstitution::deref]: an unbound root is given the next fresh
    variable of the unbound bank. *)
Fixpoint deref (fuel : nat) (s : subst) (v : VarSpec) : option (TermSpec * subst) :=
  match fuel with
  | O => None
  | S fuel' =>
      match _bank s !! v with
      | None =>
          let binding := mkTermSpec (Var (_nextUnboundAvailable s)) UNBOUND_INDEX in
          Some (binding,
                bind (mkSubst (_bank s) (S (_nextUnboundAvailable s)) (_bdStack s)) v binding)
      | Some binding =>
          if (index binding =? UNBOUND_INDEX) || isTerm (term binding) then Some (binding, s)
          else deref fuel' s (getVarSpec (term binding) (index binding))
      end
  end.

(** The [while(vit.hasNext())] loop of [occurs] over the variables of the
    term under inspection.  The answer [true] is the early [return true]. *)
Fixpoint occurs_vars (fuel : nat) (bank : gmap (nat * Z) TermSpec) (vs : VarSpec)
    (idx : Z) (vit : list TermList) (encountered : list VarSpec) (toDo : list TermSpec)
  : option (bool * list VarSpec * list TermSpec) :=
  match vit with
  | [] => Some (false, encountered, toDo)
  | x :: vit' =>
      match root fuel bank (getVarSpec x idx) with
      | None => None
      | Some tvar =>
          if bool_decide (tvar = vs) then Some (true, encountered, toDo)
          else if bool_decide (tvar ∈ encountered) then
            occurs_vars fuel bank vs idx vit' encountered toDo
          else
            match derefBound fuel bank (TermSpec_of_VarSpec tvar) with
            | None => None
            | Some dtvar =>
                if isVar (term dtvar) then
                  occurs_vars fuel bank vs idx vit' encountered toDo
                else
                  occurs_vars fuel bank vs idx vit' (tvar :: encountered) (dtvar :: toDo)
            end
      end
  end.

(** The outer [for(;;)] of [occurs]. *)
Fixpoint occurs_loop (fuel : nat) (bank : gmap (nat * Z) TermSpec) (vs : VarSpec)
    (ts : TermSpec) (encountered : list VarSpec) (toDo : list TermSpec) : option bool :=
  match fuel with
  | O => None
  | S fuel' =>
      match occurs_vars fuel' bank vs (index ts) (variables (term ts)) encountered toDo with
      | None => None
      | Some (true, _, _) => Some true
      | Some (false, encountered', []) => Some false
      | Some (false, encountered', ts' :: toDo') =>
          occurs_loop fuel' bank vs ts' encountered' toDo'
      end
  end.

(** [RobSubstitution::occurs] *)
Definition occurs (fuel : nat) (bank : gmap (nat * Z) TermSpec) (vs : VarSpec) (ts : TermSpec)
  : option bool :=
  match root fuel bank vs with
  | None => None
  | Some vs' =>
      if isVar (term ts) then
        match derefBound fuel bank ts with
        | None => None
        | Some ts' =>
            if isVar (term ts') then Some false
            else occurs_loop fuel bank vs' ts' [] []
        end
      else occurs_loop fuel bank vs' ts [] []
  end.

(** The test of the inner loop of [unify] that decides whether the pair
    [itm] goes on [toDo]: always when one side is an unbound variable,
    otherwise only the first time the pair is met. *)
Definition unify_push (fuel : nat) (bank : gmap (nat * Z) TermSpec) (itm : TTPair)
    (toDo : list TTPair) (encountered : list TTPair)
  : option (list TTPair * list TTPair) :=
  match (if isVar (term itm.1)
         then isUnbound fuel bank (getVarSpec (term itm.1) (index itm.1))
         else Some false) with
  | None => None
  | Some true => Some (itm :: toDo, encountered)
  | Some false =>
      match (if isVar (term itm.2)
             then isUnbound fuel bank (getVarSpec (term itm.2) (index itm.2))
             else Some false) with
      | None => None
      | Some true => Some (itm :: toDo, encountered)
      | Some false =>
          if bool_decide (itm ∈ encountered) then Some (toDo, encountered)
          else Some (itm :: toDo, itm :: encountered)
      end
  end.

(** What the inner loop does once a pair of subterms has been dealt with:
    [break] when [subterms] is empty, otherwise pop the next two argument
    positions and push their right neighbours.  An argument position (a
    [TermList*] into an argument array) is the list of the arguments from
    that position on.  The answer is the next positions and the stack. *)
Definition unify_pop (subterms : list (list TermList))
  : option (option (list TermList * list TermList * list (list TermList))) :=
  match subterms with
  | [] => Some None
  | tts :: sss :: subterms' =>
      match sss with
      | _ :: ((_ :: _) as ssn) => Some (Some (sss, tts, tl tts :: ssn :: subterms'))
      | _ => Some (Some (sss, tts, subterms'))
      end
  | [_] => None
  end.

(** The inner [for(;;)] of [unify], which walks two proper terms with
    distinct content side by side.  [ss] and [tt] are the current argument
    positions, [idx1] and [idx2] the banks of the two terms.  The answer is
    the [mismatch] flag and the stacks.  Reading past the end of an
    argument array (which the sources exclude by assertion, the function
    symbol fixing the arity) gives [None]. *)
Fixpoint unify_walk (fuel : nat) (bank : gmap (nat * Z) TermSpec) (idx1 idx2 : Z)
    (ss tt : list TermList) (subterms : list (list TermList))
    (toDo : list TTPair) (encountered : list TTPair)
  : option (bool * list (list TermList) * list TTPair * list TTPair) :=
  match fuel with
  | O => None
  | S fuel' =>
      match ss, tt with
      | s0 :: _, t0 :: _ =>
          let tsss := mkTermSpec s0 idx1 in
          let tstt := mkTermSpec t0 idx2 in
          if negb (sameTermContent tsss tstt) && sameTopFunctor s0 t0 then
            match s0, t0 with
            | Term _ ((_ :: sn) as sargs), Term _ ((_ :: tn) as targs) =>
                unify_walk fuel' bank idx1 idx2 sargs targs
                  (match sn with
                   | [] => subterms
                   | _ :: _ => tn :: sn :: subterms
                   end)
                  toDo encountered
            | _, _ => None
            end
          else
            match (if negb (sameTopFunctor s0 t0) then
                     if isVar s0 || isVar t0 then
                       match unify_push fuel bank (tsss, tstt) toDo encountered with
                       | None => None
                       | Some (toDo', encountered') => Some (false, toDo', encountered')
                       end
                     else Some (true, toDo, encountered)
                   else Some (false, toDo, encountered)) with
            | None => None
            | Some (true, toDo', encountered') =>
                Some (true, subterms, toDo', encountered')
            | Some (false, toDo', encountered') =>
                match unify_pop subterms with
                | None => None
                | Some None => Some (false, subterms, toDo', encountered')
                | Some (Some (ss', tt', subterms')) =>
                    unify_walk fuel' bank idx1 idx2 ss' tt' subterms' toDo' encountered'
                end
            end
      | _, _ => None
      end
  end.

(** The state of the outer loop of [unify]. *)
Record unify_state := mkUnifyState {
  us_subst : subst;
  us_toDo : list TTPair;
  us_subterms : list (list TermList);
  us_encountered : list TTPair;
  us_mismatch : bool
}.

(** The outer [for(;;)] of [unify].  A mismatch found by the occurs check
    leaves the loop at once; a mismatch found by the inner loop only leaves
    the inner loop, and the pairs still on [toDo] are processed before the
    outer loop ends. *)
Fixpoint unify_loop (fuel : nat) (t1 t2 : TermSpec) (st : unify_state)
  : option unify_state :=
  match fuel with
  | O => None
  | S fuel' =>
      let bank := _bank (us_subst st) in
      let next (st' : unify_state) : option unify_state :=
        match us_toDo st' with
        | [] => Some st'
        | (a, b) :: toDo' =>
            unify_loop fuel' a b
              (mkUnifyState (us_subst st') toDo' (us_subterms st')
                 (us_encountered st') (us_mismatch st'))
        end in
      match derefBound fuel' bank t1, derefBound fuel' bank t2 with
      | Some dt1, Some dt2 =>
          if sameTermContent dt1 dt2 then next st
          else if isVar (term dt1) then
            let v1 := getVarSpec (term dt1) (index dt1) in
            match occurs fuel' bank v1 dt2 with
            | None => None
            | Some true =>
                Some (mkUnifyState (us_subst st) (us_toDo st) (us_subterms st)
                        (us_encountered st) true)
            | Some false =>
                next (mkUnifyState (bind (us_subst st) v1 dt2) (us_toDo st)
                        (us_subterms st) (us_encountered st) (us_mismatch st))
            end
          else if isVar (term dt2) then
            let v2 := getVarSpec (term dt2) (index dt2) in
            match occurs fuel' bank v2 dt1 with
            | None => None
            | Some true =>
                Some (mkUnifyState (us_subst st) (us_toDo st) (us_subterms st)
                        (us_encountered st) true)
            | Some false =>
                next (mkUnifyState (bind (us_subst st) v2 dt1) (us_toDo st)
                        (us_subterms st) (us_encountered st) (us_mismatch st))
            end
          else
            match unify_walk fuel' bank (index dt1) (index dt2) [term dt1] [term dt2]
                    (us_subterms st) (us_toDo st) (us_encountered st) with
            | None => None
            | Some (mm, subterms', toDo', encountered') =>
                next (mkUnifyState (us_subst st) toDo' subterms' encountered'
                        (mm || us_mismatch st))
            end
      | _, _ => None
      end
  end.

(** [RobSubstitution::unify(TermSpec, TermSpec)].  The stacks [toDo] and
    [subterms] are static locals that are empty on entry and are reset on
    a mismatch; they are not part of the substitution. *)
Definition unify (fuel : nat) (s : subst) (t1 t2 : TermSpec) : option (bool * subst) :=
  if sameTermContent t1 t2 then Some (true, s)
  else
    match unify_loop fuel t1 t2 (mkUnifyState (bdRecord s) [] [] [] false) with
    | None => None
    | Some st =>
        let (localBD, s1) := bdDone (us_subst st) in
        if us_mismatch st then Some (false, backtrack localBD s1)
        else Some (true, if bdIsRecording s1 then bdCommit localBD s1 else s1)
    end.

(** [RobSubstitution::unify(TermList, int, TermList, int)] *)
Definition unify4 (fuel : nat) (s : subst) (t1 : TermList) (index1 : Z)
    (t2 : TermList) (index2 : Z) : option (bool * subst) :=
  unify fuel s (mkTermSpec t1 index1) (mkTermSpec t2 index2).

(** [RobSubstitution::unifyArgs]: the two literals (or terms) are unified
    as applications of their symbol to their arguments. *)
Definition unifyArgs (fuel : nat) (s : subst) (t1 : Literal) (index1 : Z)
    (t2 : Literal) (index2 : Z) : option (bool * subst) :=
  unify fuel s (mkTermSpec (Term (lit_functor t1) (lit_args t1)) index1)
               (mkTermSpec (Term (lit_functor t2) (lit_args t2)) index2).

(** [RobSubstitution::apply(TermList, int)].  The sources build the result
    with explicit stacks, arguments left to right; here the traversal is
    recursive.  [known] is the cache of the instances of the variables
    already met in this call. *)

(** The arguments of a term, left to right; [rec] applies the
    substitution to one argument. *)
Fixpoint apply_args
    (rec : subst -> gmap (nat * Z) TermList -> TermList ->
           option (TermList * subst * gmap (nat * Z) TermList))
    (l : list TermList) (s : subst) (known : gmap (nat * Z) TermList)
  : option (list TermList * subst * gmap (nat * Z) TermList) :=
  match l with
  | [] => Some ([], s, known)
  | a :: l' =>
      match rec s known a with
      | None => None
      | Some (a', s', known') =>
          match apply_args rec l' s' known' with
          | None => None
          | Some (l'', s'', known'') => Some (a' :: l'', s'', known'')
          end
      end
  end.

(** A proper term [t] of bank [tidx]: kept when it is ground, otherwise
    built from the instances of its arguments and recorded for the variable
    [ref] it was reached from. *)
Definition apply_term
    (rec : subst -> gmap (nat * Z) TermList -> TermList -> Z ->
           option (TermList * subst * gmap (nat * Z) TermList))
    (t : TermList) (tidx : Z) (ref : option VarSpec)
    (s : subst) (known : gmap (nat * Z) TermList)
  : option (TermList * subst * gmap (nat * Z) TermList) :=
  match t with
  | Term f targs =>
      if ground t then Some (t, s, known)
      else
        match apply_args (fun s known a => rec s known a tidx) targs s known with
        | None => None
        | Some (args', s', known') =>
            let constructed := Term f args' in
            Some (constructed, s',
                  match ref with
                  | Some vs =>
                      match known' !! vs with
                      | Some _ => known'
                      | None => <[vs := constructed]> known'
                      end
                  | None => known'
                  end)
        end
  | _ => None
  end.

Fixpoint apply_rec (fuel : nat) (s : subst) (known : gmap (nat * Z) TermList)
    (trm : TermList) (idx : Z) {struct fuel}
  : option (TermList * subst * gmap (nat * Z) TermList) :=
  match fuel with
  | O => None
  | S fuel' =>
      if isVar trm then
        match root fuel' (_bank s) (getVarSpec trm idx) with
        | None => None
        | Some vs =>
            match known !! vs with
            | Some found => Some (found, s, known)
            | None =>
                match deref fuel' s vs with
                | None => None
                | Some (ts, s') =>
                    if isVar (term ts) then Some (term ts, s', known)
                    else apply_term (apply_rec fuel') (term ts) (index ts) (Some vs) s' known
                end
            end
        end
      else apply_term (apply_rec fuel') trm idx None s known
  end.

Definition apply (fuel : nat) (s : subst) (trm : TermList) (idx : Z)
  : option (TermList * subst) :=
  match apply_rec fuel s ∅ trm idx with
  | None => None
  | Some (t, s', _) => Some (t, s')
  end.

Fixpoint apply_list (fuel : nat) (s : subst) (l : list TermList) (idx : Z)
  : option (list TermList * subst) :=
  match l with
  | [] => Some ([], s)
  | a :: l' =>
      match apply fuel s a idx with
      | None => None
      | Some (a', s') =>
          match apply_list fuel s' l' idx with
          | None => None
          | Some (l'', s'') => Some (a' :: l'', s'')
          end
      end
  end.

(** [RobSubstitution::apply(Literal*, int)] *)
Definition applyLit (fuel : nat) (s : subst) (lit : Literal) (idx : Z)
  : option (Literal * subst) :=
  if lit_ground lit then Some (lit, s)
  else
    match apply_list fuel s (lit_args lit) idx with
    | None => None
    | Some (ts, s') =>
        Some (mkLiteral (lit_functor lit) (polarity lit) ts (eqArgSort lit), s')
    end.

(** [RobSubstitution::unifiers] through [getAssocIterator<UnificationFn>]:
    the substitutions handed out by the iterator, in order.  The iterator
    hands out the one substitution object, restored between two results;
    here each result is the state of that object when it is handed out.
    For a commutative literal the arguments are tried straight and then
    crosswise. *)
Definition unifiers (fuel : nat) (s : subst) (l1 : Literal) (l1Index : Z)
    (l2 : Literal) (l2Index : Z) (complementary : bool) : option (list subst) :=
  if negb (headersMatch l1 l2 complementary) then Some []
  else if negb (commutative l1) then
    match unifyArgs fuel (bdRecord s) l1 l1Index l2 l2Index with
    | None => None
    | Some (true, s') => Some [s']
    | Some (false, _) => Some []
    end
  else
    match unifyArgs fuel (bdRecord s) l1 l1Index l2 l2Index with
    | None => None
    | Some (straight, s1) =>
        match unify4 fuel (bdRecord s) (nthArgument l1 0) l1Index
                (nthArgument l2 1) l2Index with
        | None => None
        | Some (false, _) => Some (if straight then [s1] else [])
        | Some (true, s2) =>
            match unify4 fuel s2 (nthArgument l1 1) l1Index
                    (nthArgument l2 0) l2Index with
            | None => None
            | Some (false, _) => Some (if straight then [s1] else [])
            | Some (true, s3) => Some ((if straight then [s1] else []) ++ [s3])
            end
        end
    end.

End RobSubstitution.

(** *** Failure of [unify] restores the substitution *)

Module RobSubstitutionBacktrack.
Import RobSubstitution.

(** Two substitutions that record on the same enclosing logs and whose
    innermost logs lead back to the same bank. *)
Definition same_origin (s s' : subst) : Prop :=
  exists bd bd' rest,
    _bdStack s = Some bd :: rest /\
    _bdStack s' = Some bd' :: rest /\
    _nextUnboundAvailable s = _nextUnboundAvailable s' /\
    fold_left backtrackObject bd (_bank s) = fold_left backtrackObject bd' (_bank s').

Lemma same_origin_refl s bd rest :
  _bdStack s = Some bd :: rest -> same_origin s s.
Proof. intros H. exists bd, bd, rest. auto. Qed.

Lemma same_origin_trans s1 s2 s3 :
  same_origin s1 s2 -> same_origin s2 s3 -> same_origin s1 s3.
Proof.
  intros (bd1 & bd2 & rest & H1 & H2 & Hn & Hb) (bd2' & bd3 & rest' & H2' & H3 & Hn' & Hb').
  rewrite H2 in H2'. injection H2' as <- <-.
  exists bd1, bd3, rest. repeat split; auto; congruence.
Qed.

Lemma backtrackObject_bind (bank : gmap (nat * Z) TermSpec) v b :
  backtrackObject (<[v := b]> bank) (BindingBacktrackObject v (bank !! v)) = bank.
Proof.
  simpl. destruct (bank !! v) as [old|] eqn:E.
  - rewrite insert_insert_eq. apply insert_id, E.
  - apply delete_insert_id, E.
Qed.

Lemma same_origin_bind s v b bd rest :
  _bdStack s = Some bd :: rest -> same_origin s (bind s v b).
Proof.
  intros H. exists bd, (BindingBacktrackObject v (_bank s !! v) :: bd), rest.
  unfold bind. rewrite H. cbn [_bdStack _bank _nextUnboundAvailable fold_left].
  rewrite backtrackObject_bind. auto.
Qed.

Lemma unify_loop_same_origin fuel : forall t1 t2 st st',
  unify_loop fuel t1 t2 st = Some st' ->
  same_origin (us_subst st) (us_subst st) ->
  same_origin (us_subst st) (us_subst st').
Proof.
  induction fuel as [|fuel IH]; intros t1 t2 st st' H Hrec; [discriminate|].
  assert (Hnext : forall st1 st2,
    match us_toDo st1 with
    | [] => Some st1
    | (a, b) :: toDo' =>
        unify_loop fuel a b
          (mkUnifyState (us_subst st1) toDo' (us_subterms st1)
             (us_encountered st1) (us_mismatch st1))
    end = Some st2 ->
    same_origin (us_subst st) (us_subst st1) ->
    same_origin (us_subst st) (us_subst st2)).
  { intros st1 st2 Hn Hso. destruct (us_toDo st1) as [|[a b] toDo'].
    - injection Hn as <-. exact Hso.
    - apply IH in Hn; simpl in *.
      + eapply same_origin_trans; eauto.
      + destruct Hso as (bd & bd' & rest & _ & H2 & _). eapply same_origin_refl; eauto. }
  simpl in H.
  destruct (derefBound fuel _ t1) as [dt1|]; [|discriminate].
  destruct (derefBound fuel _ t2) as [dt2|]; [|discriminate].
  destruct Hrec as (bd & _ & rest & Hstk & _).
  destruct (sameTermContent dt1 dt2).
  { apply (Hnext st st' H). eapply same_origin_refl; eauto. }
  destruct (isVar (term dt1)).
  { destruct (occurs fuel _ _ dt2) as [[|]|]; [| |discriminate].
    - injection H as <-. simpl. eapply same_origin_refl; eauto.
    - apply (Hnext (mkUnifyState (bind (us_subst st) (getVarSpec (term dt1) (index dt1)) dt2)
                      (us_toDo st) (us_subterms st) (us_encountered st) (us_mismatch st))
               st' H).
      simpl. eapply same_origin_bind; eauto. }
  destruct (isVar (term dt2)).
  { destruct (occurs fuel _ _ dt1) as [[|]|]; [| |discriminate].
    - injection H as <-. simpl. eapply same_origin_refl; eauto.
    - apply (Hnext (mkUnifyState (bind (us_subst st) (getVarSpec (term dt2) (index dt2)) dt1)
                      (us_toDo st) (us_subterms st) (us_encountered st) (us_mismatch st))
               st' H).
      simpl. eapply same_origin_bind; eauto. }
  destruct (unify_walk fuel _ _ _ _ _ _ _ _) as [[[[mm subterms'] toDo'] enc']|];
    [|discriminate].
  apply (Hnext (mkUnifyState (us_subst st) toDo' subterms' enc' (mm || us_mismatch st))
           st' H).
  simpl. eapply same_origin_refl; eauto.
Qed.

Lemma unify_false_restores fuel s t1 t2 s' :
  unify fuel s t1 t2 = Some (false, s') -> s' = s.
Proof.
  unfold unify. destruct (sameTermContent t1 t2); [discriminate|].
  destruct (unify_loop fuel t1 t2 _) as [st|] eqn:E; [|discriminate].
  apply unify_loop_same_origin in E;
    [|simpl; eapply (same_origin_refl (bdRecord s)); reflexivity].
  destruct E as (bd & bd' & rest & H1 & H2 & Hn & Hb). simpl in *.
  injection H1 as <- <-.
  unfold bdDone. rewrite H2.
  destruct (us_mismatch st); [|discriminate].
  intros H. injection H as <-.
  unfold backtrack. simpl. rewrite <- Hb, <- Hn. simpl. destruct s; reflexivity.
Qed.

End RobSubstitutionBacktrack.

(** C2: whenever [unify] answers false, the substitution is exactly as it
    was before the call: the bank holds the bindings it held, every binding
    added during the failed attempt has been undone, and neither the
    counter of fresh variables nor the stack of backtrack logs has
    changed. *)
Theorem unify_failure_restores_bindings (fuel : nat) (s : RobSubstitution.subst)
    (t1 : TermList) (index1 : Z) (t2 : TermList) (index2 : Z) (s' : RobSubstitution.subst) :
  RobSubstitution.unify4 fuel s t1 index1 t2 index2 = Some (false, s') ->
  s' = s /\ RobSubstitution._bank s' = RobSubstitution._bank s.
Proof.
  intros H. apply RobSubstitutionBacktrack.unify_false_restores in H.
  subst. auto.
Qed.

(** A failed attempt that had bound a variable: unifying f(x, a) with
    f(b, c) pushes the pair (x, b), meets the clash of a with c, still binds
    x to b, and undoes the binding. *)
Lemma unify_failure_restores_bindings_witness :
  RobSubstitution.unify4 20 RobSubstitution.empty
    (Term 10 [Var 0; Term 1 []]) 0 (Term 10 [Term 2 []; Term 3 []]) 1
  = Some (false, RobSubstitution.empty) /\
  (RobSubstitution.empty = RobSubstitution.empty /\
   RobSubstitution._bank RobSubstitution.empty = RobSubstitution._bank RobSubstitution.empty).
Proof.
  split; [vm_compute; reflexivity|].
  apply (unify_failure_restores_bindings 20 RobSubstitution.empty
           (Term 10 [Var 0; Term 1 []]) 0 (Term 10 [Term 2 []; Term 3 []]) 1).
  vm_compute. reflexivity.
Defined.

(** ** Clauses (Kernel/Clause.hpp) *)

(** The inference rules that label the clauses built below
    ([Inference::Rule]). *)
Inductive Rule :=
| INPUT | THEORY | FACTORING | SUPERPOSITION | CONSTRAINED_SUPERPOSITION
| FORWARD_DEMODULATION | EVALUATION.

(** A clause object: [_length] is the member [unsigned _length : 20], which
    holds the low 20 bits of the length given to the constructor
    ([new(length) Clause(length, inputType, inference)], see
    [storedLength]); [_literals] are the literals stored in its array, in
    order.  The inference is kept as its rule and the list of its premises.
    The input type is the number of the [Unit::InputType] value. *)
#[warnings="-register-all"]
Inductive Clause := mkClause {
  _length : nat;
  _literals : list Literal;
  inputType : Z;
  rule : Rule;
  premises : list Clause;
  _age : Z;
  _numSelected : nat
}.

(** [Clause::isEmpty] *)
Definition isEmpty (c : Clause) : bool := Nat.eqb (_length c) 0.

(** What the bit-field [unsigned _length : 20] keeps of the length that the
    constructor is given. *)
Definition LENGTH_MOD : Z := 2 ^ 20.
Definition storedLength (length : nat) : nat := Z.to_nat (Z.of_nat length mod LENGTH_MOD).
Arguments storedLength : simpl never.

Lemma storedLength_small (length : nat) :
  Z.of_nat length < LENGTH_MOD -> storedLength length = length.
Proof.
  intros H. unfold storedLength. rewrite Z.mod_small by lia. apply Nat2Z.id.
Qed.

(** Unsigned 32-bit arithmetic. *)
Definition UINT_MOD : Z := 2 ^ 32.
Definition to_unsigned (z : Z) : Z := z mod UINT_MOD.

(** The value of an [unsigned] passed where an [int] is expected. *)
Definition to_int (u : Z) : Z := if u <? 2 ^ 31 then u else u - UINT_MOD.

(** [Int::max] (Lib/Int.hpp) *)
Definition Int_max (i j : Z) : Z := if i >=? j then i else j.

(** [Clause::setAge] *)
Definition setAge (c : Clause) (a : Z) : Clause :=
  mkClause (_length c) (_literals c) (inputType c) (rule c) (premises c)
    (to_unsigned a) (_numSelected c).

(** ** Inferences/Factoring.cpp *)

Module Factoring.
Section Engine.

(** The substitutions handed out by [RobSubstitution::unifiers(l1,0,l2,0,false)]
    and [RobSubstitution::apply(Literal*, 0)], which gives fresh names to
    unbound variables and therefore changes the substitution object. *)
Variable Subst : Type.
Variable unifiers : Literal -> Literal -> list Subst.
Variable apply : Subst -> Literal -> Literal * Subst.

(** [LiteralSelector::isNegativeForSelection], [Ordering::compare] on
    literals, and the value of
    [literalMaximalityAftercheck() && isBGComplete()]. *)
Variable isNegativeForSelection : Literal -> bool.
Variable compare : Literal -> Literal -> Result.
Variable afterCheck : bool.

(** Modelled from the spec: [getCombinationIterator(from, to1, to2)] is
    defined in Lib/Metaiterators.hpp, which is not among the sources.  It
    yields every pair of positions once, the smaller position first; the
    first component ranges over [from, to1) and the second over the
    positions up to [to2] that follow it.  The comment of
    [Factoring::generateClauses] states the use made of it: "one of
    literals used in factoring has to be selected, the other one does
    not". *)
Definition getCombinationIterator (from to1 to2 : nat) : list (nat * nat) :=
  flat_map (fun i => map (fun j => (i, j)) (seq (S i) (to2 - S i))) (seq from (to1 - from)).

(** [Factoring::UnificationsOnPositiveFn::operator()] *)
Definition UnificationsOnPositiveFn (cl : Clause) (nums : nat * nat)
  : list (Literal * Subst) :=
  match _literals cl !! nums.1, _literals cl !! nums.2 with
  | Some l1, Some l2 =>
      if isEquality l1 then []
      else if isNegativeForSelection l1 then []
      else map (fun subst => (l2, subst)) (unifiers l1 l2)
  | _, _ => []
  end.

(** The [for] loop of [ResultsFn::operator()]: the literals of the premise
    other than [skipped], instantiated; [None] when the aftercheck blocks
    the inference.  [i] is the position of the head of [lits]. *)
Fixpoint ResultsFn_loop (numSelected : nat) (skipped : Literal)
    (skippedAfter : option Literal) (i : nat) (lits : list Literal) (subst : Subst)
  : option (list Literal) :=
  match lits with
  | [] => Some []
  | curr :: lits' =>
      if bool_decide (curr = skipped) then
        ResultsFn_loop numSelected skipped skippedAfter (S i) lits' subst
      else
        let (currAfter, subst') := apply subst curr in
        if match skippedAfter with
           | Some sa => Nat.ltb i numSelected && bool_decide (compare currAfter sa = GREATER)
           | None => false
           end
        then None
        else
          match ResultsFn_loop numSelected skipped skippedAfter (S i) lits' subst' with
          | None => None
          | Some res => Some (currAfter :: res)
          end
  end.

(** [Factoring::ResultsFn::operator()] *)
Definition ResultsFn (cl : Clause) (arg : Literal * Subst) : option Clause :=
  let newLength := (_length cl - 1)%nat in
  let skipped := arg.1 in
  let (skippedAfter, subst) :=
    if afterCheck && Nat.ltb 1 (_numSelected cl)
    then let (l, s) := apply arg.2 skipped in (Some l, s)
    else (None, arg.2) in
  match ResultsFn_loop (_numSelected cl) skipped skippedAfter 0 (_literals cl) subst with
  | None => None
  | Some lits =>
      Some (setAge (mkClause (storedLength newLength) lits (inputType cl) FACTORING [cl] 0 0)
                   (_age cl + 1))
  end.

(** [Factoring::generateClauses] *)
Definition generateClauses (premise : Clause) : list Clause :=
  if Nat.leb (_length premise) 1 then []
  else if Nat.eqb (_numSelected premise) 1 &&
          match _literals premise !! 0%nat with
          | Some l => isNegativeForSelection l
          | None => false
          end
  then []
  else
    let it1 := getCombinationIterator 0 (_numSelected premise) (_length premise) in
    let it2 := flat_map (UnificationsOnPositiveFn premise) it1 in
    let it3 := map (ResultsFn premise) it2 in
    omap id it3.

(** *** Properties *)

Lemma elem_of_getCombinationIterator from to1 to2 i j :
  (i, j) ∈ getCombinationIterator from to1 to2 <->
  (from <= i < to1 /\ i < j < to2)%nat.
Proof.
  unfold getCombinationIterator. rewrite list_elem_of_In, in_flat_map. split.
  - intros (i' & Hi & Hj). apply in_seq in Hi. apply in_map_iff in Hj.
    destruct Hj as (j' & E & Hj). injection E as -> ->. apply in_seq in Hj. lia.
  - intros [Hi Hj]. exists i. split; [apply in_seq; lia|].
    apply in_map_iff. exists j. split; [reflexivity|apply in_seq; lia].
Qed.

Lemma ResultsFn_age cl arg res :
  ResultsFn cl arg = Some res ->
  _age res = to_unsigned (_age cl + 1) /\ premises res = [cl] /\
  rule res = FACTORING /\ _length res = storedLength (_length cl - 1).
Proof.
  unfold ResultsFn.
  destruct (if afterCheck && _ then _ else _) as [skippedAfter subst].
  destruct (ResultsFn_loop _ _ _ _ _ _) as [lits|]; [|discriminate].
  intros H. injection H as <-. simpl. auto.
Qed.

(** The clauses produced once the two early exits have been passed. *)
Lemma elem_of_pipeline premise res :
  res ∈ omap id (map (ResultsFn premise)
                   (flat_map (UnificationsOnPositiveFn premise)
                      (getCombinationIterator 0 (_numSelected premise) (_length premise)))) <->
  exists i j l1 l2 subst,
    (i < _numSelected premise /\ i < j < _length premise)%nat /\
    _literals premise !! i = Some l1 /\ _literals premise !! j = Some l2 /\
    isEquality l1 = false /\ isNegativeForSelection l1 = false /\
    subst ∈ unifiers l1 l2 /\
    ResultsFn premise (l2, subst) = Some res.
Proof.
  rewrite list_elem_of_omap. split.
  - intros (o & Ho & Hres). simpl in Hres. subst o.
    apply list_elem_of_In, in_map_iff in Ho. destruct Ho as ([l2 subst] & Hr & Hin).
    apply in_flat_map in Hin. destruct Hin as ([i j] & Hij & Hin).
    apply list_elem_of_In, elem_of_getCombinationIterator in Hij.
    unfold UnificationsOnPositiveFn in Hin. simpl in Hin.
    destruct (_literals premise !! i) as [l1|] eqn:E1; [|destruct Hin].
    destruct (_literals premise !! j) as [l2'|] eqn:E2; [|destruct Hin].
    destruct (isEquality l1) eqn:Eeq; [destruct Hin|].
    destruct (isNegativeForSelection l1) eqn:En1; [destruct Hin|].
    apply in_map_iff in Hin. destruct Hin as (sb & E & Hsb). injection E as -> ->.
    exists i, j, l1, l2, subst. repeat split; auto; try lia.
    apply list_elem_of_In, Hsb.
  - intros (i & j & l1 & l2 & subst & Hij & E1 & E2 & Eeq & En1 & Hsb & Hr).
    exists (Some res). split; [|reflexivity].
    apply list_elem_of_In, in_map_iff. exists (l2, subst). split; [auto|].
    apply in_flat_map. exists (i, j). split.
    { apply list_elem_of_In, elem_of_getCombinationIterator. lia. }
    unfold UnificationsOnPositiveFn. simpl. rewrite E1, E2, Eeq, En1.
    apply in_map_iff. exists subst. split; [reflexivity|]. apply list_elem_of_In, Hsb.
Qed.

Lemma elem_of_generateClauses premise res :
  res ∈ generateClauses premise <->
  (1 < _length premise)%nat /\
  ~ (_numSelected premise = 1%nat /\
     exists l, _literals premise !! 0%nat = Some l /\ isNegativeForSelection l = true) /\
  exists i j l1 l2 subst,
    (i < _numSelected premise /\ i < j < _length premise)%nat /\
    _literals premise !! i = Some l1 /\ _literals premise !! j = Some l2 /\
    isEquality l1 = false /\ isNegativeForSelection l1 = false /\
    subst ∈ unifiers l1 l2 /\
    ResultsFn premise (l2, subst) = Some res.
Proof.
  unfold generateClauses.
  destruct (Nat.leb_spec (_length premise) 1) as [Hlen|Hlen].
  { split; [intros H; inversion H|lia]. }
  destruct (Nat.eqb (_numSelected premise) 1 && _) eqn:Eg.
  - split; [intros H; inversion H|].
    intros (_ & Hn & _). exfalso. apply Hn.
    apply andb_true_iff in Eg. destruct Eg as [Hs Hneg].
    apply Nat.eqb_eq in Hs. split; [exact Hs|].
    destruct (_literals premise !! 0%nat) as [l|]; [eauto|discriminate].
  - rewrite elem_of_pipeline. split.
    + intros H. split; [exact Hlen|]. split; [|exact H].
      intros (Hs & l & El & Hl). rewrite Hs, El, Hl in Eg. discriminate.
    + intros (_ & _ & H). exact H.
Qed.

(** The instances of a list of literals, the substitution being threaded
    from one application to the next. *)
Fixpoint applyAll (subst : Subst) (lits : list Literal) : list Literal :=
  match lits with
  | [] => []
  | l :: lits' => let (l', subst') := apply subst l in l' :: applyAll subst' lits'
  end.

Lemma ResultsFn_loop_Some numSelected skipped skippedAfter lits : forall i subst res,
  ResultsFn_loop numSelected skipped skippedAfter i lits subst = Some res ->
  res = applyAll subst (List.filter (fun curr => negb (bool_decide (curr = skipped))) lits).
Proof.
  induction lits as [|curr lits IH]; intros i subst res; simpl.
  - intros H. injection H as <-. reflexivity.
  - destruct (bool_decide (curr = skipped)); simpl; [apply IH|].
    destruct (apply subst curr) as [currAfter subst'].
    destruct (match skippedAfter with Some _ => _ | None => _ end); [discriminate|].
    destruct (ResultsFn_loop _ _ _ _ _ _) as [res'|] eqn:E; [|discriminate].
    intros H. injection H as <-. f_equal. eapply IH, E.
Qed.

Lemma ResultsFn_loop_None numSelected skipped skippedAfter lits : forall i subst,
  ResultsFn_loop numSelected skipped skippedAfter i lits subst = None ->
  exists sa k curr subst',
    skippedAfter = Some sa /\ lits !! k = Some curr /\ (i + k < numSelected)%nat /\
    curr <> skipped /\ compare (apply subst' curr).1 sa = GREATER.
Proof.
  induction lits as [|curr lits IH]; intros i subst; simpl; [discriminate|].
  destruct (bool_decide (curr = skipped)) eqn:Ec.
  - intros H. destruct (IH _ _ H) as (sa & k & c & sb & Hs & Hk & Hlt & Hne & Hc).
    exists sa, (S k), c, sb. repeat split; auto. lia.
  - destruct (apply subst curr) as [currAfter subst'] eqn:Ea.
    destruct skippedAfter as [sa|].
    + destruct (Nat.ltb i numSelected && bool_decide (compare currAfter sa = GREATER)) eqn:Eg.
      * intros _. apply andb_true_iff in Eg. destruct Eg as [Hlt Hg].
        apply Nat.ltb_lt in Hlt. apply bool_decide_eq_true in Hg.
        exists sa, 0%nat, curr, subst. rewrite Ea. simpl.
        apply bool_decide_eq_false in Ec. repeat split; auto. lia.
      * destruct (ResultsFn_loop _ _ _ _ _ _) as [res'|] eqn:E; [discriminate|].
        intros _. destruct (IH _ _ E) as (sa' & k & c & sb & Hs & Hk & Hlt & Hne & Hc).
        exists sa', (S k), c, sb. repeat split; auto. lia.
    + destruct (ResultsFn_loop _ _ _ _ _ _) as [res'|] eqn:E; [discriminate|].
      intros _. destruct (IH _ _ E) as (sa' & k & c & sb & Hs & _). discriminate.
Qed.

Lemma ResultsFn_literals cl l2 subst res :
  ResultsFn cl (l2, subst) = Some res ->
  _literals res =
    applyAll (if afterCheck && Nat.ltb 1 (_numSelected cl) then (apply subst l2).2 else subst)
      (List.filter (fun curr => negb (bool_decide (curr = l2))) (_literals cl)).
Proof.
  unfold ResultsFn. simpl.
  destruct (afterCheck && Nat.ltb 1 (_numSelected cl)).
  - destruct (apply subst l2) as [l s]. simpl.
    destruct (ResultsFn_loop _ _ _ _ _ _) as [lits|] eqn:E; [|discriminate].
    intros H. injection H as <-. simpl. eapply ResultsFn_loop_Some, E.
  - destruct (ResultsFn_loop _ _ _ _ _ _) as [lits|] eqn:E; [|discriminate].
    intros H. injection H as <-. simpl. eapply ResultsFn_loop_Some, E.
Qed.

Lemma ResultsFn_blocked cl l2 subst :
  ResultsFn cl (l2, subst) = None ->
  afterCheck = true /\ (1 < _numSelected cl)%nat /\
  exists k curr subst',
    _literals cl !! k = Some curr /\ (k < _numSelected cl)%nat /\ curr <> l2 /\
    compare (apply subst' curr).1 (apply subst l2).1 = GREATER.
Proof.
  unfold ResultsFn. simpl.
  destruct (afterCheck && Nat.ltb 1 (_numSelected cl)) eqn:Eac.
  - apply andb_true_iff in Eac. destruct Eac as [-> Hsel]. apply Nat.ltb_lt in Hsel.
    destruct (apply subst l2) as [l s]. simpl.
    destruct (ResultsFn_loop _ _ _ _ _ _) as [lits|] eqn:E; [discriminate|].
    intros _. apply ResultsFn_loop_None in E.
    destruct E as (sa & k & c & sb & Hs & Hk & Hlt & Hne & Hc). injection Hs as <-.
    split; [reflexivity|]. split; [exact Hsel|]. exists k, c, sb. auto.
  - destruct (ResultsFn_loop _ _ _ _ _ _) as [lits|] eqn:E; [discriminate|].
    intros _. apply ResultsFn_loop_None in E.
    destruct E as (sa & k & c & sb & Hs & _). discriminate.
Qed.

End Engine.
End Factoring.

(** ** Inferences/Superposition.cpp *)

Module Superposition.

(** The part of [Limits] read by [getWeightLimit]. *)
Record Limits := mkLimits {
  ageLimited : bool;
  ageLimit : Z;
  weightLimited : bool;
  weightLimit : Z;
  nonGoalWeightLimit : Z
}.

(** [EqHelper::getOtherEqualitySide]: the argument of the equality that is
    not [lhs]. *)
Definition getOtherEqualitySide (eq : Literal) (lhs : TermList) : TermList :=
  if bool_decide (nthArgument eq 0 = lhs) then nthArgument eq 1 else nthArgument eq 0.

(** Modelled from the spec: [EqHelper::replace] is defined in
    Kernel/EqHelper.cpp, which is not among the sources.  The spec:
    "replace(t, s, s') - build a new term with every occurrence of s
    replaced by s'". *)
Fixpoint replaceTerm (t what by_ : TermList) : TermList :=
  if bool_decide (t = what) then by_
  else match t with
       | Term f args => Term f (map (fun a => replaceTerm a what by_) args)
       | v => v
       end.

Definition replace (lit : Literal) (what by_ : TermList) : Literal :=
  mkLiteral (lit_functor lit) (polarity lit)
    (map (fun a => replaceTerm a what by_) (lit_args lit)) (eqArgSort lit).

Section Engine.

(** The result substitution of an index query ([ResultSubstitutionSP]):
    [apply(t, isResult)] on terms and on literals, [applyToQuery],
    [applyToResult]. *)
Variable Subst : Type.
Variable substApply : Subst -> TermList -> bool -> TermList.
Variable substApplyLit : Subst -> Literal -> bool -> Literal.
Variable applyToQuery : Subst -> TermList -> TermList.
Variable applyToResult : Subst -> TermList -> TermList.

(** [SortHelper::getTermSort], [SortHelper::getResultSort],
    [checkClauseColorCompatibility] (which reads the colors of the two
    clauses and the options), [Clause::isGoal], [Literal::weight], the
    ordering on terms and on literals, the cached orientation of an
    equality, the theory tests on the sides of a constraint. *)
Variable getTermSort : TermList -> Literal -> nat.
Variable getResultSort : TermList -> nat.
Variable checkClauseColorCompatibility : Clause -> Clause -> bool.
Variable isGoal : Clause -> bool.
Variable litWeight : Literal -> Z.
Variable compare : TermList -> TermList -> Result.
Variable compareLit : Literal -> Literal -> Result.
Variable getEqualityArgumentOrder : Literal -> Result.
Variable isInterpreted : TermList -> bool.

(** [earlyWeightLimitCheck], which estimates the weight of the result from
    the weights of the premises and of the instances of the two sides. *)
Variable earlyWeightLimitCheck :
  Clause -> Literal -> Clause -> Literal -> TermList -> TermList -> TermList ->
  Subst -> bool -> Z -> bool.

(** The options [literalMaximalityAftercheck() && isBGComplete()] and
    [unificationWithAbstraction() == GROUND]. *)
Variable afterCheck : bool.
Variable uwaGround : bool.

(** [Superposition::getWeightLimit] *)
Definition getWeightLimit (eqClause rwClause : Clause) (limits : Limits) : Z :=
  let newAge := to_unsigned (Int_max (to_int (_age rwClause)) (to_int (_age eqClause)) + 1) in
  if negb (ageLimited limits) || (newAge <=? ageLimit limits) || negb (weightLimited limits)
  then -1
  else if negb (isGoal rwClause) && negb (isGoal eqClause)
       then nonGoalWeightLimit limits
       else weightLimit limits.

(** [Superposition::checkSuperpositionFromVariable] *)
Definition checkSuperpositionFromVariable (eqClause : Clause) (eqLit : Literal)
    (eqLHS : TermList) : bool :=
  forallb (fun lit =>
    if bool_decide (lit = eqLit) then true
    else if isEquality lit then
      forallb (fun aIdx =>
                 let arg := nthArgument lit aIdx in
                 negb (isTerm arg && containsSubterm arg eqLHS)) [0%nat; 1%nat]
    else negb (existsb (fun a => containsSubterm a eqLHS) (lit_args lit)))
    (_literals eqClause).

(** The loop of [performSuperposition] over the literals of one premise
    other than the literal used: each is instantiated and appended.  [None]
    is the jump to [construction_fail].  [check currAfter i] is the
    aftercheck of that loop. *)
Fixpoint otherLiterals (subst : Subst) (bank : bool) (used : Literal) (wLimit : Z)
    (check : Literal -> nat -> bool) (i : nat) (lits : list Literal) (weight : Z)
  : option (list Literal * Z) :=
  match lits with
  | [] => Some ([], weight)
  | curr :: lits' =>
      if bool_decide (curr = used) then
        otherLiterals subst bank used wLimit check (S i) lits' weight
      else
        let currAfter := substApplyLit subst curr bank in
        if isEqTautology currAfter then None
        else
          let weight' := if wLimit =? -1 then weight else weight + litWeight currAfter in
          if negb (wLimit =? -1) && (weight' >? wLimit) then None
          else if check currAfter i then None
          else
            match otherLiterals subst bank used wLimit check (S i) lits' weight' with
            | None => None
            | Some (res, w) => Some (currAfter :: res, w)
            end
  end.

(** The loop over the constraints of a constrained unification. *)
Fixpoint constraintLiterals (subst : Subst) (constraints : list (TermList * TermList))
  : option (list Literal) :=
  match constraints with
  | [] => Some []
  | con :: constraints' =>
      let qT := applyToQuery subst con.1 in
      let rT := applyToResult subst con.2 in
      let sort := getResultSort rT in
      let constraint := mkLiteral 0 false [qT; rT] sort in
      if uwaGround && negb (lit_ground constraint) &&
         negb (isInterpreted qT) && negb (isInterpreted rT)
      then None
      else
        match constraintLiterals subst constraints' with
        | None => None
        | Some res => Some (constraint :: res)
        end
  end.

(** [Superposition::performSuperposition]; [None] is the null result. *)
Definition performSuperposition (rwClause : Clause) (rwLit : Literal) (rwTerm : TermList)
    (eqClause : Clause) (eqLit : Literal) (eqLHS : TermList)
    (subst : Subst) (eqIsResult : bool) (limits : Limits)
    (constraints : list (TermList * TermList)) : option Clause :=
  let hasConstraints := negb (Nat.eqb (length constraints) 0) in
  let sort := eqArgSort eqLit in
  if negb (Nat.eqb (getTermSort rwTerm rwLit) sort) then None
  else if isVar eqLHS && negb (checkSuperpositionFromVariable eqClause eqLit eqLHS) then None
  else if negb (checkClauseColorCompatibility eqClause rwClause) then None
  else
    let rwLength := _length rwClause in
    let eqLength := _length eqClause in
    let conLength := if hasConstraints then length constraints else 0%nat in
    let newAge := Int_max (to_int (_age rwClause)) (to_int (_age eqClause)) + 1 in
    let tgtTerm := getOtherEqualitySide eqLit eqLHS in
    let wLimit := getWeightLimit eqClause rwClause limits in
    if negb (wLimit =? -1) &&
       negb (earlyWeightLimitCheck eqClause eqLit rwClause rwLit rwTerm eqLHS tgtTerm
               subst eqIsResult wLimit)
    then None
    else
      let eqLHSS := substApply subst eqLHS eqIsResult in
      let tgtTermS := substApply subst tgtTerm eqIsResult in
      let rwLitS := substApplyLit subst rwLit (negb eqIsResult) in
      let rwTermS := substApply subst rwTerm (negb eqIsResult) in
      if isGorGEorE (compare tgtTermS rwTermS) then None
      else if isEquality rwLitS &&
              (if negb (containsSubterm (nthArgument rwLitS 0) rwTermS)
               then isGorGEorE (getEqualityArgumentOrder rwLitS)
               else if negb (containsSubterm (nthArgument rwLitS 1) rwTermS)
                    then isGorGEorE (reverse (getEqualityArgumentOrder rwLitS))
                    else false)
      then None
      else
        let tgtLitS := replace rwLitS rwTermS tgtTermS in
        if isEqTautology tgtLitS then None
        else
          let newLength := (rwLength + eqLength - 1 + conLength)%nat in
          let inf := if hasConstraints then CONSTRAINED_SUPERPOSITION else SUPERPOSITION in
          let inpType := Int_max (inputType rwClause) (inputType eqClause) in
          match otherLiterals subst (negb eqIsResult) rwLit wLimit
                  (fun currAfter i =>
                     afterCheck && Nat.ltb i (_numSelected rwClause) &&
                     bool_decide (compareLit currAfter rwLitS = GREATER))
                  0 (_literals rwClause) (litWeight tgtLitS) with
          | None => None
          | Some (rwLits, weight1) =>
              let eqLitS :=
                if afterCheck && Nat.ltb 1 (_numSelected eqClause)
                then Some (mkLiteral 0 true [eqLHSS; tgtTermS] sort)
                else None in
              match otherLiterals subst eqIsResult eqLit wLimit
                      (fun currAfter i =>
                         match eqLitS with
                         | Some l =>
                             Nat.ltb i (_numSelected eqClause) &&
                             isGorGEorE (compareLit currAfter l)
                         | None => false
                         end)
                      0 (_literals eqClause) weight1 with
              | None => None
              | Some (eqLits, weight2) =>
                  match (if hasConstraints then constraintLiterals subst constraints
                         else Some []) with
                  | None => None
                  | Some conLits =>
                      if negb (wLimit =? -1) && (weight2 >? wLimit) then None
                      else
                        Some (setAge
                                (mkClause (storedLength newLength)
                                   (tgtLitS :: rwLits ++ eqLits ++ conLits)
                                   inpType inf [rwClause; eqClause] 0 0)
                                newAge)
                  end
              end
          end.

Lemma performSuperposition_age rwClause rwLit rwTerm eqClause eqLit eqLHS subst
    eqIsResult limits constraints res :
  performSuperposition rwClause rwLit rwTerm eqClause eqLit eqLHS subst eqIsResult
    limits constraints = Some res ->
  _age res = to_unsigned (Int_max (to_int (_age rwClause)) (to_int (_age eqClause)) + 1) /\
  premises res = [rwClause; eqClause] /\
  (rule res = SUPERPOSITION \/ rule res = CONSTRAINED_SUPERPOSITION) /\
  _length res = storedLength
                  (_length rwClause + _length eqClause - 1 +
                   (if negb (Nat.eqb (length constraints) 0) then length constraints else 0)).
Proof.
  unfold performSuperposition. intros H.
  repeat match type of H with
         | (if ?c then _ else _) = Some _ => destruct c; [discriminate H|]
         | match ?c with _ => _ end = Some _ => destruct c as [[? ?]|]; [|discriminate H]
         end.
  destruct (if negb _ then constraintLiterals _ _ else _); [|discriminate].
  destruct (negb _ && _); [discriminate|].
  injection H as <-. simpl. repeat split; auto. destruct (negb _); auto.
Qed.

Lemma constraintLiterals_count subst constraints : forall res,
  constraintLiterals subst constraints = Some res -> length res = length constraints.
Proof.
  induction constraints as [|con constraints IH]; intros res H; cbn in H.
  { injection H as <-. reflexivity. }
  destruct (uwaGround && _ && _ && _); [discriminate|].
  destruct (constraintLiterals subst constraints) as [res'|]; [|discriminate].
  injection H as <-. cbn. f_equal. apply IH. reflexivity.
Qed.

(** The constraints of a conclusion are among its literals. *)
Lemma performSuperposition_constraints rwClause rwLit rwTerm eqClause eqLit eqLHS subst
    eqIsResult limits constraints res :
  performSuperposition rwClause rwLit rwTerm eqClause eqLit eqLHS subst eqIsResult
    limits constraints = Some res ->
  (length constraints <= length (_literals res))%nat.
Proof.
  unfold performSuperposition. intros H.
  repeat match type of H with
         | (if ?c then _ else _) = Some _ => destruct c; [discriminate H|]
         | match ?c with _ => _ end = Some _ => destruct c as [[? ?]|]; [|discriminate H]
         end.
  destruct (negb (Nat.eqb (length constraints) 0)) eqn:Hcon.
  - destruct (constraintLiterals subst constraints) as [conLits|] eqn:Ec; [|discriminate].
    apply constraintLiterals_count in Ec.
    destruct (negb _ && _); [discriminate|].
    injection H as <-. cbn [_literals setAge]. cbn [length]. rewrite !length_app. lia.
  - apply negb_false_iff, Nat.eqb_eq in Hcon. lia.
Qed.

End Engine.
End Superposition.

(** ** Inferences/InterpretedEvaluation.cpp *)

Module InterpretedEvaluation.

(** What [InterpretedLiteralEvaluator::evaluate] hands back: its boolean
    answer, and the values it leaves in [isConstant], [resLit], [resConst]
    and on the stack of side conditions. *)
Record Evaluation := mkEvaluation {
  okay : bool;
  constant : bool;
  resLit : Literal;
  constantTrue : bool;
  newSideConditions : list Literal
}.

Section Engine.

(** [Literal::hasInterpretedConstants] and the evaluator [_simpl]. *)
Variable hasInterpretedConstants : Literal -> bool.
Variable evaluate : Literal -> Evaluation.

(** [InterpretedEvaluation::simplifyLiteral]: its answer together with
    what the evaluator left in the out-parameters; the evaluator is not
    called on a propositional literal or one without interpreted
    constants. *)
Definition simplifyLiteral (lit : Literal) : bool * option Evaluation :=
  if Nat.eqb (length (lit_args lit)) 0 || negb (hasInterpretedConstants lit) then (false, None)
  else let e := evaluate lit in (okay e, Some e).

(** The loop of [simplify] over the literals.  The answer is the flag
    [modified], the literals kept so far and the stack of side conditions
    (in the order they were pushed), or [None] when a literal evaluated to
    true. *)
Fixpoint simplify_loop (lits : list Literal) (modified : bool)
    (newLits sideConditions : list Literal)
  : option (bool * list Literal * list Literal) :=
  match lits with
  | [] => Some (modified, newLits, sideConditions)
  | lit :: lits' =>
      match simplifyLiteral lit with
      | (litMod, ev) =>
          let sideConditions' :=
            match ev with
            | Some e => sideConditions ++ newSideConditions e
            | None => sideConditions
            end in
          match litMod, ev with
          | true, Some e =>
              if constant e then
                if constantTrue e then None
                else simplify_loop lits' true newLits sideConditions'
              else simplify_loop lits' true (newLits ++ [resLit e]) sideConditions'
          | _, _ => simplify_loop lits' modified (newLits ++ [lit]) sideConditions'
          end
      end
  end.

(** [InterpretedEvaluation::simplify]; [None] is the null result (the
    clause is deleted).  The side conditions are appended from the top of
    their stack. *)
Definition simplify (cl : Clause) : option Clause :=
  match rule cl with
  | THEORY => Some cl
  | _ =>
      match simplify_loop (_literals cl) false [] [] with
      | None => None
      | Some (false, _, _) => Some cl
      | Some (true, newLits, sideConditions) =>
          let lits := newLits ++ rev sideConditions in
          let newLength := length lits in
          Some (setAge (mkClause (storedLength newLength) lits (inputType cl) EVALUATION
                          [cl] 0 0)
                       (_age cl))
      end
  end.

End Engine.
End InterpretedEvaluation.

(** ** Inferences/ForwardDemodulation.cpp *)

Module ForwardDemodulation.

(** Modelled from the spec: [Renaming] (Kernel/Renaming.hpp) is not among
    the sources.  The spec describes normalisation as the "canonical
    renaming so that variables become 0,1,... in left-to-right first
    occurrence"; [makeInverse] turns the renaming round and [apply]
    renames the variables it knows. *)
Abbreviation Renaming := (list (nat * nat)).

Definition renaming_get (r : Renaming) (v : nat) : option nat :=
  match find (fun p => Nat.eqb p.1 v) r with
  | Some p => Some p.2
  | None => None
  end.

Definition normalizeVariables (r : Renaming) (t : TermList) : Renaming :=
  fold_left (fun r x =>
               match x with
               | Var v => match renaming_get r v with
                          | Some _ => r
                          | None => r ++ [(v, length r)]
                          end
               | _ => r
               end) (variables t) r.

Definition makeInverse (r : Renaming) : Renaming := map (fun p => (p.2, p.1)) r.

Fixpoint renaming_apply (r : Renaming) (t : TermList) : TermList :=
  match t with
  | Var v => match renaming_get r v with Some w => Var w | None => Var v end
  | SpecialVar v => SpecialVar v
  | Term f args => Term f (map (renaming_apply r) args)
  end.

(** The substitution of a query result, seen through the methods that
    [perform] calls on it. *)
Record ResultSubstitution := mkResultSubstitution {
  isIdentityOnQueryWhenResultBound : bool;
  applyToResult : TermList -> TermList;
  applyToBoundResult : TermList -> TermList;
  applyToBoundResultLit : Literal -> Literal
}.

(** [TermQueryResult]: the indexed left-hand side [qr_term] of the unit
    equality [qr_literal] of the clause [qr_clause], and the matcher. *)
Record TermQueryResult := mkTermQueryResult {
  qr_term : TermList;
  qr_literal : Literal;
  qr_clause : Clause;
  substitution : ResultSubstitution
}.

Section Engine.

(** The demodulator index ([_index->getGeneralizations(trm, true)]),
    [SortHelper::getTermSort], [ColorHelper::compatible] on the colors of
    two clauses, the ordering, and the options
    [demodulationRedundancyCheck()] and [_preorderedOnly]. *)
Variable getGeneralizations : TermList -> list TermQueryResult.
Variable getTermSort : TermList -> Literal -> nat.
Variable compatible : Clause -> Clause -> bool.
Variable compare : TermList -> TermList -> Result.
Variable compareLit : Literal -> Literal -> Result.
Variable getEqualityArgumentOrder : Literal -> Result.
Variable demodulationRedundancyCheck : bool.
Variable _preorderedOnly : bool.

(** The instance [rhsS] of the right-hand side under the matcher. *)
Definition instantiateRhs (qr : TermQueryResult) (trm rhs : TermList) : TermList :=
  if negb (isIdentityOnQueryWhenResultBound (substitution qr)) then
    let lhsSBadVars := applyToResult (substitution qr) (qr_term qr) in
    let rhsSBadVars := applyToResult (substitution qr) rhs in
    let rNorm := normalizeVariables [] lhsSBadVars in
    let qNorm := normalizeVariables [] trm in
    let qDenorm := makeInverse qNorm in
    renaming_apply qDenorm (renaming_apply rNorm rhsSBadVars)
  else applyToBoundResult (substitution qr) rhs.

Definition rhsS_of (qr : TermQueryResult) (trm : TermList) : TermList :=
  instantiateRhs qr trm (Superposition.getOtherEqualitySide (qr_literal qr) (qr_term qr)).

(** [preordered]: the unit equality is oriented by the ordering. *)
Definition preordered (qr : TermQueryResult) : bool :=
  let argOrder := getEqualityArgumentOrder (qr_literal qr) in
  bool_decide (argOrder = LESS) || bool_decide (argOrder = GREATER).

(** The test [!preordered && (_preorderedOnly || compare(trm,rhsS)!=GREATER)]
    that skips a candidate. *)
Definition unoriented (qr : TermQueryResult) (trm : TermList) : bool :=
  negb (preordered qr) &&
  (_preorderedOnly || negb (bool_decide (compare trm (rhsS_of qr trm) = GREATER))).

(** The top-level check that skips a candidate. *)
Definition toplevelBlocked (cl : Clause) (li : nat) (lit : Literal) (trm : TermList)
    (qr : TermQueryResult) : bool :=
  let other := Superposition.getOtherEqualitySide lit trm in
  let tord := compare (rhsS_of qr trm) other in
  if negb (bool_decide (tord = LESS)) && negb (bool_decide (tord = LESS_EQ)) then
    let eqLitS := applyToBoundResultLit (substitution qr) (qr_literal qr) in
    forallb (fun p => Nat.eqb li p.1 || negb (bool_decide (compareLit eqLitS p.2 = LESS)))
            (combine (seq 0 (length (_literals cl))) (_literals cl))
  else false.

(** The outcome of a successful call: the replacement (none when the
    rewritten literal is an equational tautology and the clause is just
    deleted) and the premise. *)
Definition outcome := (option Clause * Clause)%type.

(** The body of the [while(git.hasNext())] loop for one candidate;
    [None] is [continue]. *)
Definition tryCandidate (cl : Clause) (li : nat) (lit : Literal) (trm : TermList)
    (qr : TermQueryResult) : option outcome :=
  let querySort := getTermSort trm lit in
  let toplevelCheck :=
    demodulationRedundancyCheck && isEquality lit &&
    (bool_decide (trm = nthArgument lit 0) || bool_decide (trm = nthArgument lit 1)) in
  if negb (compatible cl (qr_clause qr)) then None
  else if negb (Nat.eqb querySort (eqArgSort (qr_literal qr))) then None
  else if unoriented qr trm then None
  else if toplevelCheck && toplevelBlocked cl li lit trm qr then None
  else
    let resLit := Superposition.replace lit trm (rhsS_of qr trm) in
    if isEqTautology resLit then Some (None, qr_clause qr)
    else
      let cLen := _length cl in
      let inpType := Int_max (inputType cl) (inputType (qr_clause qr)) in
      let others := filter (fun curr => curr <> lit) (_literals cl) in
      Some (Some (setAge (mkClause (storedLength cLen) (resLit :: others) inpType
                            FORWARD_DEMODULATION
                            [cl; qr_clause qr] 0 0)
                         (_age cl)),
            qr_clause qr).

Fixpoint tryCandidates (cl : Clause) (li : nat) (lit : Literal) (trm : TermList)
    (git : list TermQueryResult) : option outcome :=
  match git with
  | [] => None
  | qr :: git' =>
      match tryCandidate cl li lit trm qr with
      | Some r => Some r
      | None => tryCandidates cl li lit trm git'
      end
  end.

(** Modelled from the spec: [NonVariableIterator] (Kernel/TermIterators.hpp)
    is not among the sources.  The spec: "subterms(t) - depth-first,
    non-variable subterms; supports a skip-subtree operation"
    ([nvi.right()]).  The loop of [perform] over the subterms of one
    literal: a term already in [attempted] is skipped with its subterms; a
    new one is recorded, tried against the index, and then its arguments
    are visited.  The answer is the outcome, if any, and [attempted]. *)
Fixpoint tryTerm (cl : Clause) (li : nat) (lit : Literal) (trm : TermList)
    (attempted : list TermList) {struct trm} : option outcome * list TermList :=
  match trm with
  | Term _ args =>
      if bool_decide (trm ∈ attempted) then (None, attempted)
      else
        match tryCandidates cl li lit trm (getGeneralizations trm) with
        | Some r => (Some r, trm :: attempted)
        | None =>
            (fix tryArgs (l : list TermList) (attempted : list TermList)
               : option outcome * list TermList :=
               match l with
               | [] => (None, attempted)
               | a :: l' =>
                   match tryTerm cl li lit a attempted with
                   | (Some r, attempted') => (Some r, attempted')
                   | (None, attempted') => tryArgs l' attempted'
                   end
               end) args (trm :: attempted)
        end
  | _ => (None, attempted)
  end.

Fixpoint tryTerms (cl : Clause) (li : nat) (lit : Literal) (l : list TermList)
    (attempted : list TermList) : option outcome * list TermList :=
  match l with
  | [] => (None, attempted)
  | a :: l' =>
      match tryTerm cl li lit a attempted with
      | (Some r, attempted') => (Some r, attempted')
      | (None, attempted') => tryTerms cl li lit l' attempted'
      end
  end.

(** The loop of [perform] over the literals of the clause. *)
Fixpoint tryLiterals (cl : Clause) (li : nat) (lits : list Literal)
    (attempted : list TermList) : option outcome :=
  match lits with
  | [] => None
  | lit :: lits' =>
      match tryTerms cl li lit (lit_args lit) attempted with
      | (Some r, _) => Some r
      | (None, attempted') => tryLiterals cl (S li) lits' attempted'
      end
  end.

(** [ForwardDemodulation::perform]; [None] is the answer false, which
    leaves [replacement] and [premises] untouched. *)
Definition perform (cl : Clause) : option outcome :=
  tryLiterals cl 0 (_literals cl) [].

(** *** Properties *)

Lemma containsSubterm_refl t : containsSubterm t t = true.
Proof. destruct t; simpl; rewrite bool_decide_eq_true_2; reflexivity. Qed.

Lemma containsSubterm_arg f args a s :
  In a args -> containsSubterm a s = true -> containsSubterm (Term f args) s = true.
Proof.
  intros Hin Hs. simpl. destruct (bool_decide _); [reflexivity|].
  apply existsb_exists. eauto.
Qed.

Lemma tryCandidates_Some cl li lit trm git r :
  tryCandidates cl li lit trm git = Some r ->
  exists qr, In qr git /\ tryCandidate cl li lit trm qr = Some r.
Proof.
  induction git as [|qr git IH]; simpl; [discriminate|].
  destruct (tryCandidate cl li lit trm qr) as [r'|] eqn:E.
  - intros H. injection H as <-. eauto.
  - intros H. destruct (IH H) as (qr' & Hin & Hqr). eauto.
Qed.

Lemma tryCandidates_None cl li lit trm git :
  (forall qr, In qr git -> tryCandidate cl li lit trm qr = None) ->
  tryCandidates cl li lit trm git = None.
Proof.
  induction git as [|qr git IH]; simpl; [reflexivity|].
  intros H. rewrite (H qr) by auto. apply IH. auto.
Qed.

Lemma tryTerm_Some cl li lit trm : forall attempted r attempted',
  tryTerm cl li lit trm attempted = (Some r, attempted') ->
  exists t qr, containsSubterm trm t = true /\ isTerm t = true /\
               In qr (getGeneralizations t) /\ tryCandidate cl li lit t qr = Some r.
Proof.
  induction trm as [v|v|f args IH] using TermList_ind'; intros attempted r attempted';
    cbn [tryTerm]; try discriminate.
  destruct (bool_decide (Term f args ∈ attempted)); [discriminate|].
  destruct (tryCandidates cl li lit (Term f args) _) as [r'|] eqn:E.
  - intros H. injection H as <- <-. apply tryCandidates_Some in E.
    destruct E as (qr & Hin & Hqr). exists (Term f args), qr.
    split; [apply containsSubterm_refl|]. auto.
  - generalize (Term f args :: attempted). intros att.
    assert (Hsub : forall a, In a args -> In a args) by auto.
    revert Hsub. generalize args at 1 3 as l. intros l.
    revert att. induction l as [|a l IHl]; intros att Hsub; [discriminate|].
    destruct (tryTerm cl li lit a att) as [[r'|] att1] eqn:Ea.
    + intros H. injection H as <- <-.
      assert (Hin : In a args) by (apply Hsub; left; reflexivity).
      rewrite Forall_forall in IH.
      destruct (IH a ltac:(apply list_elem_of_In, Hin) _ _ _ Ea) as (t & qr & Hc & Ht & Hq & Hr).
      exists t, qr. split; [eapply containsSubterm_arg; eauto|]. auto.
    + intros H. apply (IHl att1); [|exact H]. intros b Hb. apply Hsub. right. exact Hb.
Qed.

Lemma tryTerm_None cl li lit trm : forall attempted,
  (forall t qr, containsSubterm trm t = true -> isTerm t = true ->
                In qr (getGeneralizations t) -> tryCandidate cl li lit t qr = None) ->
  (tryTerm cl li lit trm attempted).1 = None.
Proof.
  induction trm as [v|v|f args IH] using TermList_ind'; intros attempted Hall;
    cbn [tryTerm]; try reflexivity.
  destruct (bool_decide (Term f args ∈ attempted)); [reflexivity|].
  rewrite tryCandidates_None.
  2:{ intros qr Hin. apply Hall; auto. apply containsSubterm_refl. }
  generalize (Term f args :: attempted). intros att.
  assert (Hsub : forall a, In a args -> In a args) by auto.
  revert Hsub. generalize args at 1 3 as l. intros l.
  revert att. induction l as [|a l IHl]; intros att Hsub; [reflexivity|].
  assert (Hin : In a args) by (apply Hsub; left; reflexivity).
  rewrite Forall_forall in IH.
  specialize (IH a ltac:(apply list_elem_of_In, Hin) att).
  destruct (tryTerm cl li lit a att) as [[r'|] att1] eqn:Ea.
  - simpl in IH. rewrite IH; [reflexivity|].
    intros t qr Hc Ht Hq. apply Hall; auto. eapply containsSubterm_arg; eauto.
  - apply IHl. intros b Hb. apply Hsub. right. exact Hb.
Qed.

Lemma tryTerms_Some cl li lit l : forall attempted r attempted',
  tryTerms cl li lit l attempted = (Some r, attempted') ->
  exists a t qr, In a l /\ containsSubterm a t = true /\ isTerm t = true /\
                 In qr (getGeneralizations t) /\ tryCandidate cl li lit t qr = Some r.
Proof.
  induction l as [|a l IH]; intros attempted r attempted'; simpl; [discriminate|].
  destruct (tryTerm cl li lit a attempted) as [[r'|] att1] eqn:Ea.
  - intros H. injection H as <- <-. apply tryTerm_Some in Ea.
    destruct Ea as (t & qr & H). exists a, t, qr. split; [left; reflexivity|exact H].
  - intros H. destruct (IH _ _ _ H) as (b & t & qr & Hb & H').
    exists b, t, qr. split; [right; exact Hb|exact H'].
Qed.

Lemma tryTerms_None cl li lit l : forall attempted,
  (forall a t qr, In a l -> containsSubterm a t = true -> isTerm t = true ->
                  In qr (getGeneralizations t) -> tryCandidate cl li lit t qr = None) ->
  (tryTerms cl li lit l attempted).1 = None.
Proof.
  induction l as [|a l IH]; intros attempted Hall; simpl; [reflexivity|].
  pose proof (tryTerm_None cl li lit a attempted) as Ha.
  destruct (tryTerm cl li lit a attempted) as [[r'|] att1].
  - simpl in Ha. rewrite Ha; [reflexivity|]. intros t qr. apply Hall. left; reflexivity.
  - apply IH. intros b t qr Hb. apply Hall. right; exact Hb.
Qed.

Lemma tryLiterals_Some cl lits : forall li attempted r,
  tryLiterals cl li lits attempted = Some r ->
  exists k lit a t qr,
    lits !! k = Some lit /\ In a (lit_args lit) /\ containsSubterm a t = true /\
    isTerm t = true /\ In qr (getGeneralizations t) /\
    tryCandidate cl (li + k) lit t qr = Some r.
Proof.
  induction lits as [|lit lits IH]; intros li attempted r; simpl; [discriminate|].
  destruct (tryTerms cl li lit (lit_args lit) attempted) as [[r'|] att1] eqn:E.
  - intros H. injection H as <-. apply tryTerms_Some in E.
    destruct E as (a & t & qr & H). exists 0%nat, lit, a, t, qr.
    rewrite Nat.add_0_r. split; [reflexivity|exact H].
  - intros H. destruct (IH _ _ _ H) as (k & lit' & a & t & qr & Hk & H').
    exists (S k), lit', a, t, qr. rewrite Nat.add_succ_r. split; [exact Hk|exact H'].
Qed.

Lemma tryLiterals_None cl lits : forall li attempted,
  (forall k lit a t qr, lits !! k = Some lit -> In a (lit_args lit) ->
     containsSubterm a t = true -> isTerm t = true ->
     In qr (getGeneralizations t) -> tryCandidate cl (li + k) lit t qr = None) ->
  tryLiterals cl li lits attempted = None.
Proof.
  induction lits as [|lit lits IH]; intros li attempted Hall; simpl; [reflexivity|].
  pose proof (tryTerms_None cl li lit (lit_args lit) attempted) as Ht.
  destruct (tryTerms cl li lit (lit_args lit) attempted) as [[r'|] att1].
  - simpl in Ht. rewrite Ht; [reflexivity|].
    intros a t qr Ha Hc Hi Hq. specialize (Hall 0%nat lit a t qr).
    rewrite Nat.add_0_r in Hall. apply Hall; auto.
  - apply IH. intros k lit' a t qr Hk. specialize (Hall (S k) lit' a t qr).
    rewrite Nat.add_succ_r in Hall. apply Hall. exact Hk.
Qed.

Lemma tryCandidate_oriented cl li lit trm qr r :
  tryCandidate cl li lit trm qr = Some r ->
  unoriented qr trm = false /\ r.2 = qr_clause qr /\
  match r.1 with
  | None => isEqTautology (Superposition.replace lit trm (rhsS_of qr trm)) = true
  | Some res =>
      _literals res = Superposition.replace lit trm (rhsS_of qr trm)
                      :: filter (fun curr => curr <> lit) (_literals cl)
  end.
Proof.
  unfold tryCandidate.
  destruct (negb (compatible _ _)); [discriminate|].
  destruct (negb (Nat.eqb _ _)); [discriminate|].
  destruct (unoriented qr trm); [discriminate|].
  destruct (_ && toplevelBlocked _ _ _ _ _); [discriminate|].
  destruct (isEqTautology _) eqn:E; intros H; injection H as <-; simpl; auto.
Qed.

Lemma tryCandidate_unoriented cl li lit trm qr :
  unoriented qr trm = true -> tryCandidate cl li lit trm qr = None.
Proof.
  intros H. unfold tryCandidate.
  destruct (negb (compatible _ _)); [reflexivity|].
  destruct (negb (Nat.eqb _ _)); [reflexivity|].
  rewrite H. reflexivity.
Qed.

End Engine.
End ForwardDemodulation.

(** ** Indexing/LiteralSubstitutionTree.cpp *)

Module LiteralSubstitutionTree.

(** [SubstitutionTree::LeafData] as built by [handleLiteral]. *)
Record LeafData := mkLeafData {
  ld_clause : Clause;
  ld_literal : Literal
}.

(** Modelled from the spec: [Literal::header] and
    [Literal::complementaryHeader] (Kernel/Term.hpp, not among the
    sources): "a literal has a header (functor+polarity) and a
    complementary header". *)
Definition header (t : Literal) : nat :=
  (2 * lit_functor t + (if polarity t then 1 else 0))%nat.
Definition complementaryHeader (t : Literal) : nat :=
  (2 * lit_functor t + (if polarity t then 0 else 1))%nat.

(** [LiteralSubstitutionTree::getRootNodeIndex] *)
Definition getRootNodeIndex (t : Literal) (complementary : bool) : nat :=
  if complementary then complementaryHeader t else header t.

(** [Renaming::normalize] on a literal, with the renaming of
    [ForwardDemodulation]. *)
Definition normalize (lit : Literal) : Literal :=
  let r := fold_left ForwardDemodulation.normalizeVariables (lit_args lit) [] in
  mkLiteral (lit_functor lit) (polarity lit)
    (map (ForwardDemodulation.renaming_apply r) (lit_args lit)) (eqArgSort lit).

(** The retrieval algorithms that [getResultIterator] is instantiated
    with. *)
Inductive IteratorKind :=
| UnificationsIterator | FastGeneralizationsIterator | FastInstancesIterator.

(** The substitution carried by a query result. *)
Inductive ResultSubstitution (TreeSubst : Type) :=
| FromTree (s : TreeSubst)
| DisjunctQueryAndResultVariablesSubstitution
| FromRobSubstitution (s : RobSubstitution.subst) (queryBank resultBank : Z).
Arguments FromTree {TreeSubst} s.
Arguments DisjunctQueryAndResultVariablesSubstitution {TreeSubst}.
Arguments FromRobSubstitution {TreeSubst} s queryBank resultBank.

(** [SLQueryResult] *)
Record SLQueryResult (TreeSubst Constraints : Type) := mkSLQueryResult {
  literal : Literal;
  clause : Clause;
  substitution : option (ResultSubstitution TreeSubst);
  constraints : option Constraints
}.
Arguments mkSLQueryResult {TreeSubst Constraints}.
Arguments literal {TreeSubst Constraints}.
Arguments clause {TreeSubst Constraints}.
Arguments substitution {TreeSubst Constraints}.
Arguments constraints {TreeSubst Constraints}.

Definition QRS_QUERY_BANK : Z := 0.
Definition QRS_RESULT_BANK : Z := 1.

Section Index.

(** The inner nodes of a substitution tree, the substitutions and
    constraints that its iterators produce (Indexing/SubstitutionTree.cpp is
    not among the sources). *)
Variable Intermediate : Type.
Variable TreeSubst : Type.
Variable Constraints : Type.

Inductive Node :=
| Leaf (allChildren : list LeafData)
| IntermediateNode (n : Intermediate).

(** [SubstitutionTree::QueryResult] *)
Definition QueryResult := (LeafData * option TreeSubst * option Constraints)%type.

(** The results, in order, of the iterator
    [Iterator(this, root, lit, retrieveSubstitutions, reversed, withoutTop, useConstraints)],
    and [findLeaf(root, svBindings)] for the bindings of the special
    variables to the arguments of the normalised literal. *)
Variable iterate :
  IteratorKind -> Intermediate -> Literal -> bool -> bool -> bool -> bool -> list QueryResult.
Variable findLeaf : Intermediate -> list TermList -> option (list LeafData).

(** The array [_nodes] of roots, indexed by header; [None] is a null
    root. *)
Variable _nodes : nat -> option Node.

(** [SLQueryResultFunctor] *)
Definition SLQueryResultFunctor (qr : QueryResult) : SLQueryResult TreeSubst Constraints :=
  mkSLQueryResult (ld_literal qr.1.1) (ld_clause qr.1.1)
    (option_map FromTree qr.1.2) qr.2.

(** [LDToSLQueryResultFn] *)
Definition LDToSLQueryResultFn (ld : LeafData) : SLQueryResult TreeSubst Constraints :=
  mkSLQueryResult (ld_literal ld) (ld_clause ld) None None.

(** [PropositionalLDToSLQueryResultWithSubstFn] *)
Definition PropositionalLDToSLQueryResultWithSubstFn (ld : LeafData)
  : SLQueryResult TreeSubst Constraints :=
  mkSLQueryResult (ld_literal ld) (ld_clause ld)
    (Some DisjunctQueryAndResultVariablesSubstitution) None.

(** [EqualitySortFilter] *)
Definition EqualitySortFilter (queryLit : Literal) (res : SLQueryResult TreeSubst Constraints)
  : bool :=
  Nat.eqb (eqArgSort (literal res)) (eqArgSort queryLit).

(** [LiteralSubstitutionTree::getResultIterator<Iterator>] *)
Definition getResultIterator (kind : IteratorKind) (lit : Literal)
    (complementary retrieveSubstitutions useConstraints : bool)
  : list (SLQueryResult TreeSubst Constraints) :=
  match _nodes (getRootNodeIndex lit complementary) with
  | None => []
  | Some (Leaf ldit) =>
      if retrieveSubstitutions then map PropositionalLDToSLQueryResultWithSubstFn ldit
      else map LDToSLQueryResultFn ldit
  | Some (IntermediateNode root) =>
      if commutative lit then
        let qrit1 := iterate kind root lit retrieveSubstitutions false false useConstraints in
        let qrit2 := iterate kind root lit retrieveSubstitutions true false useConstraints in
        List.filter (EqualitySortFilter lit) (map SLQueryResultFunctor (qrit1 ++ qrit2))
      else
        map SLQueryResultFunctor
          (iterate kind root lit retrieveSubstitutions false false useConstraints)
  end.

(** [getUnifications], [getUnificationsWithConstraints],
    [getGeneralizations], [getInstances] *)
Definition getUnifications (lit : Literal) (complementary retrieveSubstitutions : bool) :=
  getResultIterator UnificationsIterator lit complementary retrieveSubstitutions false.
Definition getUnificationsWithConstraints (lit : Literal)
    (complementary retrieveSubstitutions : bool) :=
  getResultIterator UnificationsIterator lit complementary retrieveSubstitutions true.
Definition getGeneralizations (lit : Literal) (complementary retrieveSubstitutions : bool) :=
  getResultIterator FastGeneralizationsIterator lit complementary retrieveSubstitutions false.
Definition getInstances (lit : Literal) (complementary : bool) :=
  getResultIterator FastInstancesIterator lit complementary false false.

(** [LDToSLQueryResultWithSubstFn] under [UnifyingContext]: the result
    carries the substitution that unifies the arguments of the query with
    those of the indexed literal. *)
Definition variantWithSubst (fuel : nat) (queryLit : Literal) (ld : LeafData)
  : option (SLQueryResult TreeSubst Constraints) :=
  match RobSubstitution.unifyArgs fuel RobSubstitution.empty queryLit QRS_QUERY_BANK
          (ld_literal ld) QRS_RESULT_BANK with
  | None => None
  | Some (_, subst) =>
      Some (mkSLQueryResult (ld_literal ld) (ld_clause ld)
              (Some (FromRobSubstitution subst QRS_QUERY_BANK QRS_RESULT_BANK)) None)
  end.

(** [LiteralSubstitutionTree::getVariants]; [None] only when the
    unification of a result with the query runs out of [fuel]. *)
Definition getVariants (fuel : nat) (lit : Literal) (complementary retrieveSubstitutions : bool)
  : option (list (SLQueryResult TreeSubst Constraints)) :=
  match _nodes (getRootNodeIndex lit complementary) with
  | None => Some []
  | Some (Leaf ldit) =>
      if retrieveSubstitutions then Some (map PropositionalLDToSLQueryResultWithSubstFn ldit)
      else Some (map LDToSLQueryResultFn ldit)
  | Some (IntermediateNode root) =>
      let normLit := normalize lit in
      match findLeaf root (lit_args normLit) with
      | None => Some []
      | Some ldit =>
          if retrieveSubstitutions then mapM (variantWithSubst fuel lit) ldit
          else Some (map LDToSLQueryResultFn ldit)
      end
  end.

End Index.
End LiteralSubstitutionTree.

(** ** The inference engines on the substitutions of RobSubstitution.cpp *)

(** [Factoring::UnificationsOnPositiveFn] works on a substitution of its
    own, empty before every pair; the literals of a clause live in bank
    0. *)
Definition factoring_unifiers (fuel : nat) (l1 l2 : Literal) : list RobSubstitution.subst :=
  default [] (RobSubstitution.unifiers fuel RobSubstitution.empty l1 0 l2 0 false).

Definition factoring_apply (fuel : nat) (s : RobSubstitution.subst) (l : Literal)
  : Literal * RobSubstitution.subst :=
  default (l, s) (RobSubstitution.applyLit fuel s l 0).

(** The largest age among a list of premises. *)
Definition max_age (l : list Clause) : Z := fold_right Z.max 0 (map _age l).

(** The clauses produced by the generating inferences modelled here. *)
Inductive generated : Clause -> Prop :=
| generated_by_factoring Subst unifiers apply isNegativeForSelection compare afterCheck
    premise res :
    res ∈ Factoring.generateClauses Subst unifiers apply isNegativeForSelection compare
            afterCheck premise ->
    generated res
| generated_by_superposition Subst substApply substApplyLit applyToQuery applyToResult
    getTermSort getResultSort checkColors isGoal litWeight compare compareLit
    getEqualityArgumentOrder isInterpreted earlyWeightLimitCheck afterCheck uwaGround
    rwClause rwLit rwTerm eqClause eqLit eqLHS subst eqIsResult limits constraints res :
    Superposition.performSuperposition Subst substApply substApplyLit applyToQuery
      applyToResult getTermSort getResultSort checkColors isGoal litWeight compare
      compareLit getEqualityArgumentOrder isInterpreted earlyWeightLimitCheck afterCheck
      uwaGround rwClause rwLit rwTerm eqClause eqLit eqLHS subst eqIsResult limits
      constraints = Some res ->
    generated res.

(** The ages up to which the age computation of a rule is exact: factoring
    adds one in [unsigned], superposition takes the maximum and adds one in
    [int]. *)
Definition age_bound (r : Rule) : Z :=
  match r with
  | FACTORING => 2 ^ 32 - 1
  | _ => 2 ^ 31 - 1
  end.

Lemma generated_age_raw res :
  generated res ->
  (rule res = FACTORING /\ exists p, premises res = [p] /\
     _age res = to_unsigned (_age p + 1)) \/
  (rule res <> FACTORING /\ exists p q, premises res = [p; q] /\
     _age res = to_unsigned (Int_max (to_int (_age p)) (to_int (_age q)) + 1)).
Proof.
  intros [Subst unifiers apply isNeg compare afterCheck premise res0 H
         |Subst sa sal aq ar gts grs cc ig lw cmp cmpl geo ii ewl ac ug
            rwClause rwLit rwTerm eqClause eqLit eqLHS subst eqIsResult limits constraints
            res0 H].
  - left. apply Factoring.elem_of_generateClauses in H.
    destruct H as (_ & _ & i & j & l1 & l2 & sb & _ & _ & _ & _ & _ & _ & Hr).
    apply Factoring.ResultsFn_age in Hr. destruct Hr as (Ha & Hp & Hr & _).
    split; [exact Hr|]. exists premise. auto.
  - right. apply Superposition.performSuperposition_age in H.
    destruct H as (Ha & Hp & Hr & _). split.
    + destruct Hr as [-> | ->]; discriminate.
    + exists rwClause, eqClause. auto.
Qed.

(** C7 (as amended): every clause produced by factoring or superposition
    has its age set to the maximum of the ages of its premises plus one,
    provided the ages of the premises are below 2^32 - 1 for factoring
    (which adds one in unsigned 32-bit arithmetic) and below 2^31 - 1 for
    superposition (which takes the maximum and adds one in [int]). *)
Theorem generated_clause_age (res : Clause) :
  generated res ->
  (forall p, In p (premises res) -> 0 <= _age p < age_bound (rule res)) ->
  _age res = max_age (premises res) + 1.
Proof.
  intros Hg Hb. apply generated_age_raw in Hg.
  destruct Hg as [(Hr & p & Hp & Ha)|(Hr & p & q & Hp & Ha)]; rewrite Hp in *.
  - rewrite Ha. unfold max_age. simpl.
    specialize (Hb p (or_introl eq_refl)). rewrite Hr in Hb. unfold age_bound in Hb.
    unfold to_unsigned, UINT_MOD. rewrite Z.mod_small by lia. lia.
  - rewrite Ha. unfold max_age. simpl.
    pose proof (Hb p (or_introl eq_refl)) as Hbp.
    pose proof (Hb q (or_intror (or_introl eq_refl))) as Hbq.
    assert (Hab : age_bound (rule res) = 2 ^ 31 - 1).
    { unfold age_bound. destruct (rule res); congruence. }
    rewrite Hab in *.
    unfold to_int, Int_max, to_unsigned, UINT_MOD.
    destruct (Z.ltb_spec (_age p) (2 ^ 31)); [|lia].
    destruct (Z.ltb_spec (_age q) (2 ^ 31)); [|lia].
    destruct (Z.geb_spec (_age p) (_age q)); rewrite Z.mod_small by lia; lia.
Qed.

(** [Factoring::generateClauses] on the substitutions of
    RobSubstitution.cpp. *)
Definition factoring (fuel : nat) (isNegativeForSelection : Literal -> bool)
    (compare : Literal -> Literal -> Result) (afterCheck : bool) (premise : Clause)
  : list Clause :=
  Factoring.generateClauses RobSubstitution.subst (factoring_unifiers fuel)
    (factoring_apply fuel) isNegativeForSelection compare afterCheck premise.

Lemma factoring_generated fuel isNeg compare afterCheck premise res :
  res ∈ factoring fuel isNeg compare afterCheck premise -> generated res.
Proof.
  intros H.
  exact (generated_by_factoring RobSubstitution.subst (factoring_unifiers fuel)
           (factoring_apply fuel) isNeg compare afterCheck premise res H).
Qed.

(** The unifiers come from literals with the same header. *)
Lemma factoring_unifiers_headers fuel l1 l2 subst :
  subst ∈ factoring_unifiers fuel l1 l2 ->
  lit_functor l1 = lit_functor l2 /\ polarity l1 = polarity l2.
Proof.
  unfold factoring_unifiers, RobSubstitution.unifiers.
  destruct (headersMatch l1 l2 false) eqn:E; simpl.
  - intros _. unfold headersMatch in E.
    apply andb_true_iff in E. destruct E as [E _].
    apply andb_true_iff in E. destruct E as [Ef Ep].
    apply Nat.eqb_eq in Ef. apply eqb_prop in Ep.
    rewrite xorb_false_r in Ep. auto.
  - intros H. inversion H.
Qed.

(** The premise p(x) | p(a) with its first literal selected, and its
    factor p(a). *)
Definition example_premise (age : Z) : Clause :=
  mkClause 2 [mkLiteral 1 true [Var 0] 0; mkLiteral 1 true [Term 1 []] 0]
    0 INPUT [] age 1.

Definition example_factor (age : Z) : Clause :=
  mkClause 1 [mkLiteral 1 true [Term 1 []] 0] 0 FACTORING [example_premise age]
    (to_unsigned (age + 1)) 0.

Lemma example_factor_small :
  factoring 20 isNegative (fun _ _ => INCOMPARABLE) false (example_premise 7)
  = [example_factor 7].
Proof. vm_compute. reflexivity. Qed.

Lemma example_factor_large :
  factoring 20 isNegative (fun _ _ => INCOMPARABLE) false (example_premise 4294967295)
  = [example_factor 4294967295].
Proof. vm_compute. reflexivity. Qed.

Lemma generated_clause_age_witness :
  generated (example_factor 7) /\
  (forall p, In p (premises (example_factor 7)) ->
             0 <= _age p < age_bound (rule (example_factor 7))) /\
  _age (example_factor 7) = max_age (premises (example_factor 7)) + 1.
Proof.
  assert (Hg : generated (example_factor 7)).
  { apply (factoring_generated 20 isNegative (fun _ _ => INCOMPARABLE) false
             (example_premise 7)).
    rewrite example_factor_small. apply list_elem_of_In. left. reflexivity. }
  assert (Hb : forall p, In p (premises (example_factor 7)) ->
                         0 <= _age p < age_bound (rule (example_factor 7))).
  { intros p [<-|[]]. vm_compute. split; [discriminate|reflexivity]. }
  split; [exact Hg|]. split; [exact Hb|].
  exact (generated_clause_age (example_factor 7) Hg Hb).
Defined.

(** C7 as stated fails: the factor of a premise of age 2^32 - 1 has age 0,
    not the age of its premise plus one. *)
Lemma generated_clause_age_counterexample :
  ~ (forall res, generated res -> _age res = max_age (premises res) + 1).
Proof.
  intros H.
  specialize (H (example_factor 4294967295)).
  assert (Hg : generated (example_factor 4294967295)).
  { apply (factoring_generated 20 isNegative (fun _ _ => INCOMPARABLE) false
             (example_premise 4294967295)).
    rewrite example_factor_large. apply list_elem_of_In. left. reflexivity. }
  specialize (H Hg). vm_compute in H. discriminate H.
Qed.


(** The premise ~p(x) | ~p(a) with both literals selected. *)
Definition example_negative_premise : Clause :=
  mkClause 2 [mkLiteral 1 false [Var 0] 0; mkLiteral 1 false [Term 1 []] 0]
    0 INPUT [] 0 2.


(** ** Clause lengths *)

(** The clauses produced by forward demodulation. *)
Inductive demodulated : Clause -> Prop :=
| demodulated_by getGeneralizations getTermSort compatible compare compareLit
    getEqualityArgumentOrder demodulationRedundancyCheck preorderedOnly cl res premise :
    ForwardDemodulation.perform getGeneralizations getTermSort compatible compare compareLit
      getEqualityArgumentOrder demodulationRedundancyCheck preorderedOnly cl
    = Some (Some res, premise) ->
    demodulated res.

Lemma demodulated_length res :
  demodulated res ->
  exists cl q, premises res = [cl; q] /\ _length res = storedLength (_length cl).
Proof.
  intros [gg gts cmpt cmp cmpl geo drc po cl res0 premise H].
  unfold ForwardDemodulation.perform in H.
  apply ForwardDemodulation.tryLiterals_Some in H.
  destruct H as (k & lit & a & t & qr & _ & _ & _ & _ & _ & H).
  unfold ForwardDemodulation.tryCandidate in H.
  repeat match type of H with
         | (if ?c then _ else _) = Some _ => destruct c; [discriminate H|]
         end.
  injection H as <- _. simpl. eauto.
Qed.

(** The lengths that a conclusion is built from, those of its premises and
    the number of its own literals, add up to less than the 2^20 at which
    the 20 bits of [_length] start again from 0. *)
Definition lengthsFit (res : Clause) : Prop :=
  Z.of_nat (list_sum (map _length (premises res)) + length (_literals res)) < LENGTH_MOD.



(** The unit clause $less(1,0), an evaluator that finds the literal to be
    false (the predicate evaluator of [$less] on two numerals answers with
    the constant truth value of the comparison), and the clause that
    evaluation makes of it. *)
Definition example_false_literal : Literal :=
  mkLiteral 5 true [Term 21 []; Term 20 []] 0.

Definition example_unit_clause : Clause :=
  mkClause 1 [example_false_literal] 0 INPUT [] 3 0.

Definition example_evaluate (lit : Literal) : InterpretedEvaluation.Evaluation :=
  InterpretedEvaluation.mkEvaluation true true lit false [].

Definition example_empty_clause : Clause :=
  mkClause 0 [] 0 EVALUATION [example_unit_clause] 3 0.


(** ** Forward demodulation rewrites with oriented instances only *)

Section DemodulationOrientation.
Variable getGeneralizations : TermList -> list ForwardDemodulation.TermQueryResult.
Variable getTermSort : TermList -> Literal -> nat.
Variable compatible : Clause -> Clause -> bool.
Variable compare : TermList -> TermList -> Result.
Variable compareLit : Literal -> Literal -> Result.
Variable getEqualityArgumentOrder : Literal -> Result.
Variable demodulationRedundancyCheck : bool.
Variable _preorderedOnly : bool.

Lemma unoriented_false (qr : ForwardDemodulation.TermQueryResult) (trm : TermList) :
  ForwardDemodulation.unoriented compare getEqualityArgumentOrder _preorderedOnly qr trm
  = false ->
  (getEqualityArgumentOrder (ForwardDemodulation.qr_literal qr) = LESS \/
   getEqualityArgumentOrder (ForwardDemodulation.qr_literal qr) = GREATER) \/
  (_preorderedOnly = false /\
   compare trm (ForwardDemodulation.rhsS_of qr trm) = GREATER).
Proof.
  unfold ForwardDemodulation.unoriented, ForwardDemodulation.preordered.
  destruct (bool_decide_reflect (getEqualityArgumentOrder (ForwardDemodulation.qr_literal qr) = LESS));
    [auto|].
  destruct (bool_decide_reflect (getEqualityArgumentOrder (ForwardDemodulation.qr_literal qr) = GREATER));
    [auto|].
  simpl. destruct _preorderedOnly; simpl; [discriminate|].
  destruct (bool_decide_reflect (compare trm (ForwardDemodulation.rhsS_of qr trm) = GREATER));
    [auto|discriminate].
Qed.

Lemma unoriented_true (qr : ForwardDemodulation.TermQueryResult) (trm : TermList) :
  getEqualityArgumentOrder (ForwardDemodulation.qr_literal qr) <> LESS ->
  getEqualityArgumentOrder (ForwardDemodulation.qr_literal qr) <> GREATER ->
  compare trm (ForwardDemodulation.rhsS_of qr trm) <> GREATER ->
  ForwardDemodulation.unoriented compare getEqualityArgumentOrder _preorderedOnly qr trm
  = true.
Proof.
  intros H1 H2 H3.
  unfold ForwardDemodulation.unoriented, ForwardDemodulation.preordered.
  rewrite !bool_decide_eq_false_2 by assumption. simpl.
  destruct _preorderedOnly; reflexivity.
Qed.

End DemodulationOrientation.

(** C5: forward demodulation rewrites a non-variable subterm [trm] of a
    literal of the clause with a unit equality found by the index (whose
    left-hand side, instantiated by the matcher, is [trm], and whose
    instantiated right-hand side is [rhsS]) only if the equality was
    oriented by the ordering beforehand or [trm] is greater than [rhsS] in
    the ordering; and when no candidate is oriented in this way, the call
    answers false, which leaves the clause as it is. *)
Theorem forward_demodulation_oriented
    (getGeneralizations : TermList -> list ForwardDemodulation.TermQueryResult)
    (getTermSort : TermList -> Literal -> nat) (compatible : Clause -> Clause -> bool)
    (compare : TermList -> TermList -> Result) (compareLit : Literal -> Literal -> Result)
    (getEqualityArgumentOrder : Literal -> Result)
    (demodulationRedundancyCheck preorderedOnly : bool) (cl : Clause) :
  (forall replacement premise,
     ForwardDemodulation.perform getGeneralizations getTermSort compatible compare
       compareLit getEqualityArgumentOrder demodulationRedundancyCheck preorderedOnly cl
     = Some (replacement, premise) ->
     exists li lit a trm qr,
       _literals cl !! li = Some lit /\ In a (lit_args lit) /\
       containsSubterm a trm = true /\ isTerm trm = true /\
       In qr (getGeneralizations trm) /\ premise = ForwardDemodulation.qr_clause qr /\
       ((getEqualityArgumentOrder (ForwardDemodulation.qr_literal qr) = LESS \/
         getEqualityArgumentOrder (ForwardDemodulation.qr_literal qr) = GREATER) \/
        (preorderedOnly = false /\
         compare trm (ForwardDemodulation.rhsS_of qr trm) = GREATER)) /\
       match replacement with
       | Some res =>
           _literals res =
             Superposition.replace lit trm (ForwardDemodulation.rhsS_of qr trm)
             :: filter (fun curr => curr <> lit) (_literals cl)
       | None =>
           isEqTautology
             (Superposition.replace lit trm (ForwardDemodulation.rhsS_of qr trm)) = true
       end) /\
  ((forall li lit a trm qr,
      _literals cl !! li = Some lit -> In a (lit_args lit) ->
      containsSubterm a trm = true -> isTerm trm = true ->
      In qr (getGeneralizations trm) ->
      getEqualityArgumentOrder (ForwardDemodulation.qr_literal qr) <> LESS /\
      getEqualityArgumentOrder (ForwardDemodulation.qr_literal qr) <> GREATER /\
      compare trm (ForwardDemodulation.rhsS_of qr trm) <> GREATER) ->
   ForwardDemodulation.perform getGeneralizations getTermSort compatible compare
     compareLit getEqualityArgumentOrder demodulationRedundancyCheck preorderedOnly cl
   = None).
Proof.
  split.
  - intros replacement premise H. unfold ForwardDemodulation.perform in H.
    apply ForwardDemodulation.tryLiterals_Some in H.
    destruct H as (k & lit & a & t & qr & Hk & Ha & Hc & Ht & Hq & H).
    apply ForwardDemodulation.tryCandidate_oriented in H.
    destruct H as (Ho & Hp & Hr). simpl in Hp, Hr.
    exists k, lit, a, t, qr. repeat split; auto.
    apply unoriented_false, Ho.
  - intros Hall. unfold ForwardDemodulation.perform.
    apply ForwardDemodulation.tryLiterals_None.
    intros k lit a t qr Hk Ha Hc Ht Hq.
    apply ForwardDemodulation.tryCandidate_unoriented.
    destruct (Hall k lit a t qr Hk Ha Hc Ht Hq) as (H1 & H2 & H3).
    apply unoriented_true; assumption.
Qed.

(** The clause p(f(a)), the unit equality f(a) = a, an index that holds
    its left-hand side, and an ordering in which f(a) is greater than a. *)
Definition example_fa : TermList := Term 10 [Term 1 []].
Definition example_a : TermList := Term 1 [].
Definition example_demodulator : Clause :=
  mkClause 1 [mkLiteral 0 true [example_fa; example_a] 0] 0 INPUT [] 0 1.
Definition example_target : Clause :=
  mkClause 1 [mkLiteral 1 true [example_fa] 0] 0 INPUT [] 2 1.
Definition example_query_result : ForwardDemodulation.TermQueryResult :=
  ForwardDemodulation.mkTermQueryResult example_fa
    (mkLiteral 0 true [example_fa; example_a] 0) example_demodulator
    (ForwardDemodulation.mkResultSubstitution true (fun t => t) (fun t => t) (fun l => l)).
Definition example_index (trm : TermList) : list ForwardDemodulation.TermQueryResult :=
  if bool_decide (trm = example_fa) then [example_query_result] else [].
Definition example_ordering (s t : TermList) : Result :=
  if bool_decide (s = example_fa) && bool_decide (t = example_a) then GREATER
  else INCOMPARABLE.
Definition example_rewritten : Clause :=
  mkClause 1 [mkLiteral 1 true [example_a] 0] 0 FORWARD_DEMODULATION
    [example_target; example_demodulator] 2 0.

Lemma forward_demodulation_oriented_witness :
  ForwardDemodulation.perform example_index (fun _ _ => 0%nat) (fun _ _ => true)
    example_ordering (fun _ _ => INCOMPARABLE) (fun _ => INCOMPARABLE) true false
    example_target
  = Some (Some example_rewritten, example_demodulator) /\
  exists li lit a trm qr,
    _literals example_target !! li = Some lit /\ In a (lit_args lit) /\
    containsSubterm a trm = true /\ isTerm trm = true /\
    In qr (example_index trm) /\
    example_demodulator = ForwardDemodulation.qr_clause qr /\
    (((fun _ : Literal => INCOMPARABLE) (ForwardDemodulation.qr_literal qr) = LESS \/
      (fun _ : Literal => INCOMPARABLE) (ForwardDemodulation.qr_literal qr) = GREATER) \/
     (false = false /\
      example_ordering trm (ForwardDemodulation.rhsS_of qr trm) = GREATER)) /\
    _literals example_rewritten =
      Superposition.replace lit trm (ForwardDemodulation.rhsS_of qr trm)
      :: filter (fun curr => curr <> lit) (_literals example_target).
Proof.
  assert (H : ForwardDemodulation.perform example_index (fun _ _ => 0%nat) (fun _ _ => true)
                example_ordering (fun _ _ => INCOMPARABLE) (fun _ => INCOMPARABLE) true false
                example_target
              = Some (Some example_rewritten, example_demodulator))
    by (vm_compute; reflexivity).
  split; [exact H|].
  exact (proj1 (forward_demodulation_oriented example_index (fun _ _ => 0%nat)
                  (fun _ _ => true) example_ordering (fun _ _ => INCOMPARABLE)
                  (fun _ => INCOMPARABLE) true false example_target)
           (Some example_rewritten) example_demodulator H).
Defined.

(** ** Retrieval of commutative literals *)


(** An index on the equalities: the leaf reached by the normalised query
    X0 = X1 holds the equality X0 = X1 of sort 2; the straight sub-query
    finds that record, the reversed one the equality X0 = X1 of sort 1. *)
Definition example_eq (sort : nat) : Literal := mkLiteral 0 true [Var 0; Var 1] sort.
Definition example_leaf_data (sort : nat) : LiteralSubstitutionTree.LeafData :=
  LiteralSubstitutionTree.mkLeafData (mkClause 1 [example_eq sort] 0 INPUT [] 0 1)
    (example_eq sort).
Definition example_nodes (h : nat) : option (LiteralSubstitutionTree.Node unit) :=
  Some (LiteralSubstitutionTree.IntermediateNode unit tt).
Definition example_findLeaf (root : unit) (bindings : list TermList)
  : option (list LiteralSubstitutionTree.LeafData) :=
  Some [example_leaf_data 2].
Definition example_iterate (kind : LiteralSubstitutionTree.IteratorKind) (root : unit)
    (lit : Literal) (retrieveSubstitutions reversed withoutTop useConstraints : bool)
  : list (LiteralSubstitutionTree.QueryResult unit unit) :=
  if reversed then [(example_leaf_data 1, None, None)]
  else [(example_leaf_data 2, None, None)].



(** ** Kernel/KBO.cpp *)

Module KBO.

(** The number of symbols of a term. *)
Fixpoint tsize (t : TermList) : nat :=
  match t with
  | Term _ args => S (list_sum (map tsize args))
  | _ => 1%nat
  end.

(** [KBO::State].  [_weightDiff], [_posNum], [_negNum] and the values of
    [_varDiffs] are of type [int]. *)
Record State := mkState {
  _weightDiff : Z;
  _varDiffs : gmap nat Z;
  _posNum : Z;
  _negNum : Z;
  _lexResult : Result
}.

(** [KBO::State::init] *)
Definition init : State := mkState 0 ∅ 0 0 EQUAL.

Definition COLORED_WEIGHT_BOOST : Z := 65536.
Definition _variableWeight : Z := 1.
Definition _defaultSymbolWeight : Z := 1.

(** The range of [int], and the value that an [int] is left with by an
    arithmetic operation whose exact result is [z]: the low 32 bits, in
    two's complement. *)
Definition INT_MIN : Z := - 2 ^ 31.
Definition INT_MAX : Z := 2 ^ 31 - 1.
Definition int_of (z : Z) : Z := to_int (to_unsigned z).

Definition isLessOrLeOrE (res : Result) : bool :=
  match res with LESS | LESS_EQ | EQUAL => true | _ => false end.

(** [KBO::State::applyVariableCondition] *)
Definition applyVariableCondition (st : State) (res : Result) : Result :=
  if (0 <? _posNum st) && isLessOrLeOrE res then INCOMPARABLE
  else if (0 <? _negNum st) && isGorGEorE res then INCOMPARABLE
  else res.

(** [_weightDiff += w] *)
Definition addWeight (st : State) (w : Z) : State :=
  mkState (int_of (_weightDiff st + w)) (_varDiffs st) (_posNum st) (_negNum st)
    (_lexResult st).

Definition setLexResult (st : State) (res : Result) : State :=
  mkState (_weightDiff st) (_varDiffs st) (_posNum st) (_negNum st) res.

(** [KBO::State::recordVariable] *)
Definition recordVariable (st : State) (var : nat) (coef : Z) : State :=
  let pnum := int_of (default 0 (_varDiffs st !! var) + coef) in
  let varDiffs := <[var := pnum]> (_varDiffs st) in
  if coef =? 1 then
    if pnum =? 0 then
      mkState (_weightDiff st) varDiffs (_posNum st) (int_of (_negNum st - 1)) (_lexResult st)
    else if pnum =? 1 then
      mkState (_weightDiff st) varDiffs (int_of (_posNum st + 1)) (_negNum st) (_lexResult st)
    else mkState (_weightDiff st) varDiffs (_posNum st) (_negNum st) (_lexResult st)
  else
    if pnum =? 0 then
      mkState (_weightDiff st) varDiffs (int_of (_posNum st - 1)) (_negNum st) (_lexResult st)
    else if pnum =? -1 then
      mkState (_weightDiff st) varDiffs (_posNum st) (int_of (_negNum st + 1)) (_lexResult st)
    else mkState (_weightDiff st) varDiffs (_posNum st) (_negNum st) (_lexResult st).

Section Ordering.

(** The parameters of the ordering: which function symbols are colored
    ([env.signature->functionColored]) and the precedence of the function
    symbols ([PrecedenceOrdering::compareFunctionPrecedences], which reads
    the signature). *)
Variable functionColored : nat -> bool.
Variable compareFunctionPrecedences : nat -> nat -> Result.

(** [KBO::functionSymbolWeight]; the product is 65536. *)
Definition functionSymbolWeight (fn : nat) : Z :=
  if functionColored fn then _defaultSymbolWeight * COLORED_WEIGHT_BOOST
  else _defaultSymbolWeight.

(** What [traverse(TermList,int)] does with the symbol at one position. *)
Definition visit (st : State) (t : TermList) (coef : Z) : State :=
  match t with
  | Term f _ => addWeight st (int_of (functionSymbolWeight f * coef))
  | Var v | SpecialVar v =>
      recordVariable (addWeight st (int_of (_variableWeight * coef))) v coef
  end.

(** The loop of [traverse(TermList,int)]: [ts] is the current argument
    position, [stack] the positions still to visit.  The loop visits every
    symbol once; it is given the number of symbols as [fuel]. *)
Fixpoint traverse_loop (fuel : nat) (ts : list TermList) (stack : list (list TermList))
    (coef : Z) (st : State) : State :=
  match fuel with
  | O => st
  | S fuel' =>
      match ts with
      | [] => st
      | t :: next =>
          let stack1 := match next with [] => stack | _ :: _ => next :: stack end in
          let st' := visit st t coef in
          let stack2 := match t with
                        | Term _ ((_ :: _) as args) => args :: stack1
                        | _ => stack1
                        end in
          match stack2 with
          | [] => st'
          | ts' :: stack3 => traverse_loop fuel' ts' stack3 coef st'
          end
      end
  end.

(** [KBO::State::traverse(TermList,int)].  The sources assert that the
    variables met are ordinary ones. *)
Definition traverse (st : State) (tl : TermList) (coef : Z) : State :=
  match tl with
  | Var v | SpecialVar v =>
      recordVariable (addWeight st (int_of (_variableWeight * coef))) v coef
  | Term f args =>
      let st' := addWeight st (int_of (functionSymbolWeight f * coef)) in
      match args with
      | [] => st'
      | _ :: _ => traverse_loop (list_sum (map tsize args)) args [] coef st'
      end
  end.

(** [KBO::State::innerResult] *)
Definition innerResult (st : State) (tl1 tl2 : TermList) : Result :=
  if (0 <? _posNum st) && (0 <? _negNum st) then INCOMPARABLE
  else
    applyVariableCondition st
      (if negb (_weightDiff st =? 0) then
         if 0 <? _weightDiff st then GREATER else LESS
       else
         match tl1, tl2 with
         | Term f1 _, Term f2 _ => compareFunctionPrecedences f1 f2
         | Term _ _, _ => GREATER
         | _, _ => LESS
         end).

(** The step taken by the two-term [traverse] when the end of two argument
    lists is reached. *)
Definition closeLevel (depth lexValidDepth : nat) (st : State) : nat * State :=
  if negb (bool_decide (_lexResult st = EQUAL)) && Nat.ltb depth lexValidDepth then
    let st1 :=
      if negb (_weightDiff st =? 0)
      then setLexResult st (if 0 <? _weightDiff st then GREATER else LESS)
      else st in
    (depth, setLexResult st1 (applyVariableCondition st1 (_lexResult st1)))
  else (lexValidDepth, st).

(** The loop of the two-term [traverse].  The stack holds the pairs of
    argument positions pushed by the sources (the position in [t1] below the
    position in [t2]).  A pair of positions is visited once for each
    argument and once at the end of the list. *)
Fixpoint traverse2_loop (fuel : nat) (stack : list (list TermList * list TermList))
    (depth lexValidDepth : nat) (st : State) : State :=
  match fuel with
  | O => st
  | S fuel' =>
      match stack with
      | [] => st
      | ([], _) :: stack' =>
          let depth' := (depth - 1)%nat in
          let (lexValidDepth', st') := closeLevel depth' lexValidDepth st in
          traverse2_loop fuel' stack' depth' lexValidDepth' st'
      | (s :: ss', tts) :: stack' =>
          match tts with
          | [] => st
          | t :: tt' =>
              let stack1 := (ss', tt') :: stack' in
              if bool_decide (s = t) then
                traverse2_loop fuel' stack1 depth lexValidDepth st
              else if sameTopFunctor s t then
                match s, t with
                | Term _ sargs, Term _ targs =>
                    traverse2_loop fuel' ((sargs, targs) :: stack1) (S depth)
                      lexValidDepth st
                | _, _ => st
                end
              else
                let st1 := traverse (traverse st s 1) t (-1) in
                if bool_decide (_lexResult st1 = EQUAL) then
                  traverse2_loop fuel' stack1 depth depth
                    (setLexResult st1 (innerResult st1 s t))
                else traverse2_loop fuel' stack1 depth lexValidDepth st1
          end
      end
  end.

(** [KBO::State::traverse] on two applications of the same function
    symbol. *)
Definition traverse2 (st : State) (t1 t2 : TermList) : State :=
  match t1, t2 with
  | Term _ args1, Term _ args2 =>
      traverse2_loop (2 * tsize t1) [(args1, args2)] 1 0 st
  | _, _ => st
  end.

(** [KBO::State::result] for two terms. *)
Definition result (st : State) (t1 t2 : TermList) : Result :=
  applyVariableCondition st
    (if negb (_weightDiff st =? 0) then
       if 0 <? _weightDiff st then GREATER else LESS
     else
       match t1, t2 with
       | Term f1 _, Term f2 _ =>
           if negb (Nat.eqb f1 f2) then compareFunctionPrecedences f1 f2
           else _lexResult st
       | _, _ => _lexResult st
       end).

(** [KBO::compare(TermList,TermList)].  No function symbol has weight
    zero, so that [existsZeroWeightUnaryFunction()] is false. *)
Definition compare (tl1 tl2 : TermList) : Result :=
  if bool_decide (tl1 = tl2) then EQUAL
  else if isOrdinaryVar tl1 then
    if containsSubterm tl2 tl1 then LESS else INCOMPARABLE
  else if isOrdinaryVar tl2 then
    if containsSubterm tl1 tl2 then GREATER else INCOMPARABLE
  else
    let st :=
      if sameTopFunctor tl1 tl2 then traverse2 init tl1 tl2
      else traverse (traverse init tl1 1) tl2 (-1) in
    result st tl1 tl2.

End Ordering.
End KBO.

(** *** The comparison with counters that do not overflow

    The traversals of [KBO::State] once more, on the same states, with the
    additions to [_weightDiff], [_posNum], [_negNum] and [_varDiffs] carried
    out on unbounded integers.  The decision table is shown to be what
    these compute, and [KBO::compare] to agree with them as long as the
    weights of the two terms are in the range of [int]
    ([KBOInt.compare_exact]). *)

Module KBOUnbounded.
Import KBO.

Definition addWeight (st : State) (w : Z) : State :=
  mkState (_weightDiff st + w) (_varDiffs st) (_posNum st) (_negNum st) (_lexResult st).

Definition recordVariable (st : State) (var : nat) (coef : Z) : State :=
  let pnum := default 0 (_varDiffs st !! var) + coef in
  let varDiffs := <[var := pnum]> (_varDiffs st) in
  if coef =? 1 then
    if pnum =? 0 then
      mkState (_weightDiff st) varDiffs (_posNum st) (_negNum st - 1) (_lexResult st)
    else if pnum =? 1 then
      mkState (_weightDiff st) varDiffs (_posNum st + 1) (_negNum st) (_lexResult st)
    else mkState (_weightDiff st) varDiffs (_posNum st) (_negNum st) (_lexResult st)
  else
    if pnum =? 0 then
      mkState (_weightDiff st) varDiffs (_posNum st - 1) (_negNum st) (_lexResult st)
    else if pnum =? -1 then
      mkState (_weightDiff st) varDiffs (_posNum st) (_negNum st + 1) (_lexResult st)
    else mkState (_weightDiff st) varDiffs (_posNum st) (_negNum st) (_lexResult st).

Section Ordering.
Variable functionColored : nat -> bool.
Variable compareFunctionPrecedences : nat -> nat -> Result.

Definition visit (st : State) (t : TermList) (coef : Z) : State :=
  match t with
  | Term f _ => addWeight st (functionSymbolWeight functionColored f * coef)
  | Var v | SpecialVar v => recordVariable (addWeight st (_variableWeight * coef)) v coef
  end.

Fixpoint traverse_loop (fuel : nat) (ts : list TermList) (stack : list (list TermList))
    (coef : Z) (st : State) : State :=
  match fuel with
  | O => st
  | S fuel' =>
      match ts with
      | [] => st
      | t :: next =>
          let stack1 := match next with [] => stack | _ :: _ => next :: stack end in
          let st' := visit st t coef in
          let stack2 := match t with
                        | Term _ ((_ :: _) as args) => args :: stack1
                        | _ => stack1
                        end in
          match stack2 with
          | [] => st'
          | ts' :: stack3 => traverse_loop fuel' ts' stack3 coef st'
          end
      end
  end.

Definition traverse (st : State) (tl : TermList) (coef : Z) : State :=
  match tl with
  | Var v | SpecialVar v => recordVariable (addWeight st (_variableWeight * coef)) v coef
  | Term f args =>
      let st' := addWeight st (functionSymbolWeight functionColored f * coef) in
      match args with
      | [] => st'
      | _ :: _ => traverse_loop (list_sum (map tsize args)) args [] coef st'
      end
  end.

Fixpoint traverse2_loop (fuel : nat) (stack : list (list TermList * list TermList))
    (depth lexValidDepth : nat) (st : State) : State :=
  match fuel with
  | O => st
  | S fuel' =>
      match stack with
      | [] => st
      | ([], _) :: stack' =>
          let depth' := (depth - 1)%nat in
          let (lexValidDepth', st') := closeLevel depth' lexValidDepth st in
          traverse2_loop fuel' stack' depth' lexValidDepth' st'
      | (s :: ss', tts) :: stack' =>
          match tts with
          | [] => st
          | t :: tt' =>
              let stack1 := (ss', tt') :: stack' in
              if bool_decide (s = t) then
                traverse2_loop fuel' stack1 depth lexValidDepth st
              else if sameTopFunctor s t then
                match s, t with
                | Term _ sargs, Term _ targs =>
                    traverse2_loop fuel' ((sargs, targs) :: stack1) (S depth)
                      lexValidDepth st
                | _, _ => st
                end
              else
                let st1 := traverse (traverse st s 1) t (-1) in
                if bool_decide (_lexResult st1 = EQUAL) then
                  traverse2_loop fuel' stack1 depth depth
                    (setLexResult st1 (innerResult compareFunctionPrecedences st1 s t))
                else traverse2_loop fuel' stack1 depth lexValidDepth st1
          end
      end
  end.

Definition traverse2 (st : State) (t1 t2 : TermList) : State :=
  match t1, t2 with
  | Term _ args1, Term _ args2 =>
      traverse2_loop (2 * tsize t1) [(args1, args2)] 1 0 st
  | _, _ => st
  end.

Definition compare (tl1 tl2 : TermList) : Result :=
  if bool_decide (tl1 = tl2) then EQUAL
  else if isOrdinaryVar tl1 then
    if containsSubterm tl2 tl1 then LESS else INCOMPARABLE
  else if isOrdinaryVar tl2 then
    if containsSubterm tl1 tl2 then GREATER else INCOMPARABLE
  else
    let st :=
      if sameTopFunctor tl1 tl2 then traverse2 init tl1 tl2
      else traverse (traverse init tl1 1) tl2 (-1) in
    result compareFunctionPrecedences st tl1 tl2.

End Ordering.
End KBOUnbounded.

(** *** The decision table of the ordering and its refinement by [KBO::compare] *)

Module KBOSpec.
Import KBO KBOUnbounded.

(** Sum of a list of integers. *)
Definition sumZ (l : list Z) : Z := fold_right Z.add 0 l.

(** The number of occurrences of the variable [v]. *)
Fixpoint occurrences (v : nat) (t : TermList) : Z :=
  match t with
  | Var w | SpecialVar w => if Nat.eqb v w then 1 else 0
  | Term _ args => sumZ (map (occurrences v) args)
  end.

(** A term of a clause over a signature: no special variable, and every
    function symbol applied to as many arguments as its arity. *)
Fixpoint wellFormed (arityOf : nat -> nat) (t : TermList) : bool :=
  match t with
  | Var _ => true
  | SpecialVar _ => false
  | Term f args => Nat.eqb (length args) (arityOf f) && forallb (wellFormed arityOf) args
  end.

Section Table.
Variable functionColored : nat -> bool.
Variable compareFunctionPrecedences : nat -> nat -> Result.

(** The weight W of a term: the sum of the weights of its symbols. *)
Fixpoint weight (t : TermList) : Z :=
  match t with
  | Term f args => functionSymbolWeight functionColored f + sumZ (map weight args)
  | _ => _variableWeight
  end.

(** Some variable occurs more often in [s] than in [t]. *)
Definition occursMoreIn (s t : TermList) : bool :=
  existsb (fun x => match x with
                    | Var v | SpecialVar v => occurrences v t <? occurrences v s
                    | Term _ _ => false
                    end) (variables s).

(** Rule 1 of the table: the variable condition on a purported result. *)
Definition variableCondition (s t : TermList) (purported : Result) : Result :=
  if occursMoreIn s t && isLessOrLeOrE purported then INCOMPARABLE
  else if occursMoreIn t s && isGorGEorE purported then INCOMPARABLE
  else purported.

(** The sign of a non-zero weight difference. *)
Definition sign (weight_diff : Z) : Result :=
  if 0 <? weight_diff then GREATER else LESS.

(** The comparison of two distinct top symbols: the precedence of the
    function symbols; a variable is below whatever it is compared with. *)
Definition topPrecedence (s t : TermList) : Result :=
  match s, t with
  | Term f _, Term g _ => compareFunctionPrecedences f g
  | Term _ _, _ => GREATER
  | _, _ => LESS
  end.

(** The decision table for two distinct terms: rule 2 (the sign of the
    weight difference), rule 3 (the precedence of distinct top symbols),
    rule 4 (the lexicographic comparison of the arguments: the table on the
    first pair of arguments that differ), and rule 1 on their outcome. *)
Fixpoint decisionTable (s t : TermList) {struct s} : Result :=
  variableCondition s t
    (if negb (weight s - weight t =? 0) then sign (weight s - weight t)
     else if negb (sameTopFunctor s t) then topPrecedence s t
     else
       match s, t with
       | Term _ ss, Term _ ts =>
           (fix lexicographic (ss ts : list TermList) {struct ss} : Result :=
              match ss, ts with
              | s1 :: ss', t1 :: ts' =>
                  if bool_decide (s1 = t1) then lexicographic ss' ts'
                  else decisionTable s1 t1
              | _, _ => EQUAL
              end) ss ts
       | _, _ => EQUAL
       end).

Fixpoint lexicographic (ss ts : list TermList) : Result :=
  match ss, ts with
  | s1 :: ss', t1 :: ts' =>
      if bool_decide (s1 = t1) then lexicographic ss' ts' else decisionTable s1 t1
  | _, _ => EQUAL
  end.

Lemma decisionTable_eq s t :
  decisionTable s t =
  variableCondition s t
    (if negb (weight s - weight t =? 0) then sign (weight s - weight t)
     else if negb (sameTopFunctor s t) then topPrecedence s t
     else match s, t with
          | Term _ ss, Term _ ts => lexicographic ss ts
          | _, _ => EQUAL
          end).
Proof. destruct s; reflexivity. Qed.

(** **** The variable counters *)

Definition positives (m : gmap nat Z) : nat :=
  size (filter (fun kv : nat * Z => 0 < kv.2) m).
Definition negatives (m : gmap nat Z) : nat :=
  size (filter (fun kv : nat * Z => kv.2 < 0) m).

(** The difference recorded for a variable. *)
Definition varDiff (st : State) (v : nat) : Z := default 0 (_varDiffs st !! v).

(** [_posNum] and [_negNum] count the variables with a positive and with a
    negative difference. *)
Definition countersOk (st : State) : Prop :=
  _posNum st = Z.of_nat (positives (_varDiffs st)) /\
  _negNum st = Z.of_nat (negatives (_varDiffs st)).

Lemma filtered_size_insert (P : nat * Z -> Prop) `{!forall kv, Decision (P kv)}
    (m : gmap nat Z) (v : nat) (z : Z) :
  Z.of_nat (size (filter P (<[v := z]> m))) =
  Z.of_nat (size (filter P m))
  - (match m !! v with Some old => if decide (P (v, old)) then 1 else 0 | None => 0 end)
  + (if decide (P (v, z)) then 1 else 0).
Proof.
  rewrite map_filter_insert.
  assert (Hold : filter P m !! v =
                 match m !! v with
                 | Some old => if decide (P (v, old)) then Some old else None
                 | None => None
                 end).
  { destruct (m !! v) as [old|] eqn:E.
    - destruct (decide (P (v, old))).
      + apply map_lookup_filter_Some. auto.
      + apply map_lookup_filter_None. right. intros x Hx. congruence.
    - apply map_lookup_filter_None. left. exact E. }
  destruct (decide (P (v, z))).
  - rewrite map_size_insert, Hold.
    destruct (m !! v) as [old|]; [destruct (decide (P (v, old)))|]; simpl; lia.
  - rewrite map_filter_delete, map_size_delete, Hold.
    pose proof (map_size_ne_0_lookup_2 (filter P m) v) as Hsz. rewrite Hold in Hsz.
    destruct (m !! v) as [old|]; [destruct (decide (P (v, old)))|]; simpl; try lia.
    assert (size (filter P m) <> 0%nat) by (apply Hsz; eauto). lia.
Qed.

Lemma recordVariable_spec st v coef :
  countersOk st -> coef = 1 \/ coef = -1 ->
  countersOk (recordVariable st v coef) /\
  _weightDiff (recordVariable st v coef) = _weightDiff st /\
  _lexResult (recordVariable st v coef) = _lexResult st /\
  forall w, varDiff (recordVariable st v coef) w =
            varDiff st w + (if Nat.eqb w v then coef else 0).
Proof.
  intros [Hp Hn] Hc.
  assert (Hvd : forall st', _varDiffs st' = <[v := varDiff st v + coef]> (_varDiffs st) ->
                forall w, varDiff st' w = varDiff st w + (if Nat.eqb w v then coef else 0)).
  { intros st' E w. unfold varDiff at 1. rewrite E.
    destruct (Nat.eqb_spec w v) as [->|Hne].
    - rewrite lookup_insert_eq. reflexivity.
    - rewrite lookup_insert_ne by congruence. unfold varDiff. lia. }
  pose proof (filtered_size_insert (fun kv : nat * Z => 0 < kv.2) (_varDiffs st) v
                (varDiff st v + coef)) as Hpos.
  pose proof (filtered_size_insert (fun kv : nat * Z => kv.2 < 0) (_varDiffs st) v
                (varDiff st v + coef)) as Hneg.
  fold (positives (<[v:=varDiff st v + coef]> (_varDiffs st))) in Hpos.
  fold (negatives (<[v:=varDiff st v + coef]> (_varDiffs st))) in Hneg.
  fold (positives (_varDiffs st)) in Hpos. fold (negatives (_varDiffs st)) in Hneg.
  simpl in Hpos, Hneg.
  assert (Hold : varDiff st v = match _varDiffs st !! v with Some old => old | None => 0 end).
  { unfold varDiff. destruct (_varDiffs st !! v); reflexivity. }
  unfold recordVariable. fold (varDiff st v).
  unfold countersOk.
  destruct Hc as [-> | ->]; simpl;
    repeat match goal with
           | |- context [?a =? ?b] => destruct (Z.eqb_spec a b)
           end; simpl; (split; [|split; [reflexivity|split; [reflexivity|apply Hvd; reflexivity]]]);
    rewrite Hpos, Hneg, Hp, Hn;
    destruct (_varDiffs st !! v) as [old|]; subst;
    repeat match goal with
           | |- context [decide ?P] => destruct (decide P)
           end; lia.
Qed.

(** **** The one-term traversal visits every symbol *)

Fixpoint visitAll (st : State) (t : TermList) (coef : Z) : State :=
  match t with
  | Term f args =>
      fold_left (fun st a => visitAll st a coef) args
        (addWeight st (functionSymbolWeight functionColored f * coef))
  | v => visit functionColored st v coef
  end.

Definition visitList (coef : Z) (st : State) (l : list TermList) : State :=
  fold_left (fun st a => visitAll st a coef) l st.

Definition visitSegments (coef : Z) (st : State) (segs : list (list TermList)) : State :=
  fold_left (visitList coef) segs st.

Definition subterms (t : TermList) : list TermList :=
  match t with Term _ args => args | _ => [] end.

Lemma visitAll_unfold st t coef :
  visitAll st t coef = visitList coef (visit functionColored st t coef) (subterms t).
Proof. destruct t; reflexivity. Qed.

Definition segmentsSize (segs : list (list TermList)) : nat :=
  list_sum (map (fun seg => list_sum (map tsize seg)) segs).

Lemma traverse_loop_spec coef fuel : forall ts stack st,
  (segmentsSize (ts :: stack) <= fuel)%nat -> ts <> [] ->
  Forall (fun seg => seg <> []) stack ->
  traverse_loop functionColored fuel ts stack coef st = visitSegments coef st (ts :: stack).
Proof.
  induction fuel as [|fuel IH]; intros ts stack st Hfuel Hts Hstack.
  - destruct ts as [|t next]; [contradiction|].
    unfold segmentsSize in Hfuel. simpl in Hfuel. destruct t; simpl in Hfuel; lia.
  - destruct ts as [|t next]; [contradiction|]. cbn [traverse_loop].
    assert (Hstep : visitSegments coef st ((t :: next) :: stack) =
                    visitSegments coef (visit functionColored st t coef)
                      (subterms t :: next :: stack)).
    { unfold visitSegments. simpl. unfold visitList at 2. simpl.
      rewrite visitAll_unfold. reflexivity. }
    rewrite Hstep.
    assert (Hsz : (segmentsSize (subterms t :: next :: stack) <= fuel)%nat).
    { unfold segmentsSize in *. simpl in *. destruct t; simpl in *; lia. }
    clear Hstep Hfuel Hts.
    generalize dependent (visit functionColored st t coef). intros st'.
    destruct stack as [|ts' stack'];
      [|apply Forall_cons in Hstack; destruct Hstack as [Hts' Hstack']];
      destruct next as [|n next']; destruct t as [v|v|f [|a args]];
      cbn [subterms] in *; try reflexivity;
      (rewrite IH;
       [reflexivity
       |unfold segmentsSize in *; simpl in *; lia
       |first [discriminate|assumption]
       |repeat (apply Forall_cons; split); first [discriminate|assumption|apply Forall_nil; exact I]]).
Qed.

Lemma traverse_spec st t coef :
  traverse functionColored st t coef = visitAll st t coef.
Proof.
  destruct t as [v|v|f [|a args]]; try reflexivity.
  unfold traverse. rewrite traverse_loop_spec.
  - reflexivity.
  - unfold segmentsSize. simpl. lia.
  - discriminate.
  - apply Forall_nil. exact I.
Qed.

(** **** What a traversal adds to the state *)

(** [st'] is [st] with the weight difference raised by [dw] and the
    difference of every variable [w] raised by [dv w]. *)
Definition shifted (st st' : State) (dw : Z) (dv : nat -> Z) : Prop :=
  countersOk st' /\ _weightDiff st' = _weightDiff st + dw /\
  _lexResult st' = _lexResult st /\
  forall w, varDiff st' w = varDiff st w + dv w.

Lemma shifted_refl st : countersOk st -> shifted st st 0 (fun _ => 0).
Proof. intros H. split; [exact H|]. split; [lia|]. split; [reflexivity|]. intros w; lia. Qed.

Lemma shifted_trans st1 st2 st3 dw1 dv1 dw2 dv2 dw dv :
  shifted st1 st2 dw1 dv1 -> shifted st2 st3 dw2 dv2 ->
  dw = dw1 + dw2 -> (forall w, dv w = dv1 w + dv2 w) ->
  shifted st1 st3 dw dv.
Proof.
  intros (_ & Hw1 & Hl1 & Hv1) (Hc & Hw2 & Hl2 & Hv2) -> Hdv.
  split; [exact Hc|]. split; [lia|]. split; [congruence|].
  intros w. rewrite Hv2, Hv1, Hdv. lia.
Qed.

Lemma visitList_shifted coef l :
  Forall (fun a => forall st, countersOk st ->
            shifted st (visitAll st a coef) (coef * weight a)
              (fun w => coef * occurrences w a)) l ->
  forall st, countersOk st ->
  shifted st (visitList coef st l) (coef * sumZ (map weight l))
    (fun w => coef * sumZ (map (occurrences w) l)).
Proof.
  induction 1 as [|a l Ha _ IH]; intros st Hc.
  - simpl. rewrite Z.mul_0_r.
    split; [exact Hc|]. split; [lia|]. split; [reflexivity|]. intros w. lia.
  - specialize (Ha st Hc). cbn [visitList fold_left]. fold (visitList coef (visitAll st a coef) l).
    eapply shifted_trans; [exact Ha|apply IH, Ha| |].
    + simpl. lia.
    + intros w. simpl. lia.
Qed.

Lemma visitAll_shifted coef t : coef = 1 \/ coef = -1 -> forall st,
  countersOk st ->
  shifted st (visitAll st t coef) (coef * weight t) (fun w => coef * occurrences w t).
Proof.
  intros Hcoef.
  assert (Hvar : forall v st, countersOk st ->
    shifted st (recordVariable (addWeight st (_variableWeight * coef)) v coef)
      (coef * _variableWeight) (fun w => coef * (if Nat.eqb w v then 1 else 0))).
  { intros v st Hc.
    destruct (recordVariable_spec (addWeight st (_variableWeight * coef)) v coef Hc Hcoef)
      as (Hc' & Hw & Hl & Hv).
    split; [exact Hc'|]. split; [rewrite Hw; simpl; lia|]. split; [rewrite Hl; reflexivity|].
    intros w. rewrite Hv. unfold varDiff. simpl. destruct (Nat.eqb w v); lia. }
  induction t as [v|v|f args IH] using TermList_ind'; intros st Hc.
  - apply Hvar, Hc.
  - apply Hvar, Hc.
  - cbn [visitAll weight occurrences].
    assert (Hadd : shifted st (addWeight st (functionSymbolWeight functionColored f * coef))
                     (coef * functionSymbolWeight functionColored f) (fun _ => 0)).
    { split; [exact Hc|]. split; [simpl; lia|]. split; [reflexivity|].
      intros w. unfold varDiff. simpl. lia. }
    eapply shifted_trans; [exact Hadd|apply (visitList_shifted coef args IH), Hadd| |].
    + lia.
    + intros w. simpl. lia.
Qed.

Lemma traverse_shifted coef t st : coef = 1 \/ coef = -1 -> countersOk st ->
  shifted st (traverse functionColored st t coef) (coef * weight t)
    (fun w => coef * occurrences w t).
Proof. intros Hc Hst. rewrite traverse_spec. apply visitAll_shifted; assumption. Qed.

(** The two one-term traversals of a pair of terms. *)
Lemma traverse_pair_shifted s t st : countersOk st ->
  shifted st (traverse functionColored (traverse functionColored st s 1) t (-1))
    (weight s - weight t) (fun w => occurrences w s - occurrences w t).
Proof.
  intros Hst.
  pose proof (traverse_shifted 1 s st (or_introl eq_refl) Hst) as H1.
  pose proof (traverse_shifted (-1) t _ (or_intror eq_refl) (proj1 H1)) as H2.
  eapply shifted_trans; [exact H1|exact H2|lia|intros w; simpl; lia].
Qed.

(** **** The two-term traversal as a recursion on the terms *)

(** What the two-term traversal does with two arguments whose top symbols
    differ. *)
Definition leaf (depth : nat) (acc : nat * State) (s t : TermList) : nat * State :=
  let st1 := traverse functionColored (traverse functionColored acc.2 s 1) t (-1) in
  if bool_decide (_lexResult st1 = EQUAL)
  then (depth, setLexResult st1 (innerResult compareFunctionPrecedences st1 s t))
  else (acc.1, st1).

(** The effect on [lexValidDepth] and the state of visiting the pair of
    arguments [s], [t] found at depth [depth]. *)
Fixpoint walkPair (s t : TermList) (depth : nat) (acc : nat * State) {struct s}
  : nat * State :=
  if bool_decide (s = t) then acc
  else
    match s, t with
    | Term f ss, Term g ts =>
        if Nat.eqb f g then
          let acc' :=
            (fix walkList (ss ts : list TermList) (acc : nat * State) {struct ss} :=
               match ss, ts with
               | s1 :: ss', t1 :: ts' => walkList ss' ts' (walkPair s1 t1 (S depth) acc)
               | _, _ => acc
               end) ss ts acc in
          closeLevel depth acc'.1 acc'.2
        else leaf depth acc s t
    | _, _ => leaf depth acc s t
    end.

Fixpoint walkList (ss ts : list TermList) (depth : nat) (acc : nat * State)
  : nat * State :=
  match ss, ts with
  | s1 :: ss', t1 :: ts' => walkList ss' ts' depth (walkPair s1 t1 depth acc)
  | _, _ => acc
  end.

Lemma walkPair_eq s t depth acc :
  walkPair s t depth acc =
  if bool_decide (s = t) then acc
  else if sameTopFunctor s t then
    let acc' := walkList (subterms s) (subterms t) (S depth) acc in
    closeLevel depth acc'.1 acc'.2
  else leaf depth acc s t.
Proof.
  destruct s as [v|v|f ss], t as [w|w|g ts]; try reflexivity.
  cbn [walkPair sameTopFunctor subterms].
  destruct (bool_decide _); [reflexivity|]. destruct (Nat.eqb f g); [|reflexivity].
  f_equal; f_equal; clear; revert ts acc;
    induction ss as [|s1 ss IH]; intros [|t1 ts] acc; try reflexivity; apply IH.
Qed.

Variable arityOf : nat -> nat.

Lemma wellFormed_args f args :
  wellFormed arityOf (Term f args) = true ->
  length args = arityOf f /\ Forall (fun a => wellFormed arityOf a = true) args.
Proof.
  simpl. rewrite andb_true_iff, Nat.eqb_eq, forallb_forall, Forall_forall.
  intros [H1 H2]. split; [exact H1|]. intros a Ha. apply H2, list_elem_of_In, Ha.
Qed.

(** The loop takes [k] iterations over a pair of arguments, and then goes
    on with the rest of the two lists. *)
Definition pairSteps (s t : TermList) : Prop :=
  exists k, (k <= 2 * tsize s)%nat /\
    forall fuel ss' ts' rest depth lvd st,
      traverse2_loop functionColored compareFunctionPrecedences (k + fuel)
        ((s :: ss', t :: ts') :: rest) depth lvd st =
      traverse2_loop functionColored compareFunctionPrecedences fuel
        ((ss', ts') :: rest) depth
        (walkPair s t depth (lvd, st)).1 (walkPair s t depth (lvd, st)).2.

Definition listSteps (ss ts : list TermList) : Prop :=
  exists k, (k <= 2 * list_sum (map tsize ss) + 1)%nat /\
    forall fuel rest depth lvd st,
      traverse2_loop functionColored compareFunctionPrecedences (k + fuel)
        ((ss, ts) :: rest) depth lvd st =
      traverse2_loop functionColored compareFunctionPrecedences fuel rest (depth - 1)
        (closeLevel (depth - 1) (walkList ss ts depth (lvd, st)).1
           (walkList ss ts depth (lvd, st)).2).1
        (closeLevel (depth - 1) (walkList ss ts depth (lvd, st)).1
           (walkList ss ts depth (lvd, st)).2).2.

Lemma listSteps_of_pairs ss : forall ts,
  length ss = length ts ->
  Forall2 pairSteps ss ts -> listSteps ss ts.
Proof.
  induction ss as [|s ss IH]; intros [|t ts] Hlen Hpairs; try discriminate.
  - exists 1%nat. split; [simpl; lia|]. intros fuel rest depth lvd st.
    cbn [Nat.add traverse2_loop walkList].
    destruct (closeLevel _ _ _) as [lvd' st']. reflexivity.
  - apply Forall2_cons in Hpairs. destruct Hpairs as [(k1 & Hk1 & H1) Hrest].
    destruct (IH ts ltac:(simpl in Hlen; lia) Hrest) as (k2 & Hk2 & H2).
    exists (k1 + k2)%nat. split; [simpl; lia|].
    intros fuel rest depth lvd st.
    rewrite <- Nat.add_assoc, H1, H2. cbn [walkList].
    destruct (walkPair s t depth (lvd, st)) as [lvd1 st1]. reflexivity.
Qed.

Lemma pairSteps_leaf s t :
  sameTopFunctor s t = false -> pairSteps s t.
Proof.
  intros Hdiff. exists 1%nat. split; [destruct s; simpl; lia|].
  intros fuel ss' ts' rest depth lvd st.
  rewrite walkPair_eq, Hdiff. cbn [Nat.add traverse2_loop]. rewrite Hdiff.
  destruct (bool_decide (s = t)); [reflexivity|].
  unfold leaf. cbn [fst snd].
  destruct (bool_decide (_lexResult _ = EQUAL)); reflexivity.
Qed.

Lemma pairSteps_same s : pairSteps s s.
Proof.
  exists 1%nat. split; [destruct s; simpl; lia|].
  intros fuel ss' ts' rest depth lvd st.
  rewrite walkPair_eq. cbn [Nat.add traverse2_loop].
  rewrite bool_decide_eq_true_2 by reflexivity. reflexivity.
Qed.

Lemma pairSteps_wellFormed s : forall t,
  wellFormed arityOf s = true -> wellFormed arityOf t = true -> pairSteps s t.
Proof.
  induction s as [v|v|f ss IH] using TermList_ind'; intros t Hs Ht; try discriminate.
  - apply pairSteps_leaf. reflexivity.
  - destruct (decide (Term f ss = t)) as [<-|Hne]; [apply pairSteps_same|].
    destruct (sameTopFunctor (Term f ss) t) eqn:Hsame; [|apply pairSteps_leaf, Hsame].
    destruct t as [w|w|g ts]; try discriminate.
    cbn [sameTopFunctor] in Hsame. apply Nat.eqb_eq in Hsame. subst g.
    destruct (wellFormed_args _ _ Hs) as [Hlen Hwf].
    destruct (wellFormed_args _ _ Ht) as [Hlen' Hwf'].
    assert (Hargs : listSteps ss ts).
    { apply listSteps_of_pairs; [congruence|].
      assert (Hl : length ss = length ts) by congruence.
      clear Hlen Hlen' Hs Ht Hne. revert ts Hwf' Hl.
      induction ss as [|a ss IHss]; intros [|b ts] Hwf' Hl; try discriminate.
      - apply Forall2_nil. exact I.
      - apply List.Forall_cons_iff in IH. destruct IH as [Ha IH].
        apply Forall_cons in Hwf, Hwf'. destruct Hwf as [Hwa Hwf], Hwf' as [Hwb Hwf'].
        apply Forall2_cons. split; [apply Ha; assumption|].
        apply IHss; [assumption..|simpl in Hl; lia]. }
    destruct Hargs as (k & Hk & Hsteps).
    exists (S k). split; [simpl; lia|].
    intros fuel ss' ts' rest depth lvd st.
    rewrite walkPair_eq. cbn [Nat.add traverse2_loop sameTopFunctor subterms].
    rewrite Nat.eqb_refl, !bool_decide_eq_false_2 by exact Hne.
    rewrite Hsteps. cbn [Nat.sub]. rewrite Nat.sub_0_r. reflexivity.
Qed.

Lemma listSteps_wellFormed ss ts :
  length ss = length ts ->
  Forall (fun a => wellFormed arityOf a = true) ss ->
  Forall (fun a => wellFormed arityOf a = true) ts ->
  listSteps ss ts.
Proof.
  intros Hl Hwf Hwf'. apply listSteps_of_pairs; [exact Hl|].
  revert ts Hwf' Hl.
  induction ss as [|a ss IHss]; intros [|b ts] Hwf' Hl; try discriminate.
  - apply Forall2_nil. exact I.
  - apply Forall_cons in Hwf, Hwf'. destruct Hwf as [Hwa Hwf], Hwf' as [Hwb Hwf'].
    apply Forall2_cons. split; [apply pairSteps_wellFormed; assumption|].
    apply IHss; [assumption..|simpl in Hl; lia].
Qed.

(** The two-term traversal of two applications of the same function
    symbol is the walk over the pair. *)
Lemma traverse2_spec s t st :
  wellFormed arityOf s = true -> wellFormed arityOf t = true ->
  sameTopFunctor s t = true -> s <> t ->
  traverse2 functionColored compareFunctionPrecedences st s t =
  (walkPair s t 0 (0%nat, st)).2.
Proof.
  intros Hs Ht Hsame Hne.
  rewrite walkPair_eq, Hsame, bool_decide_eq_false_2 by exact Hne.
  destruct s as [v|v|f ss], t as [w|w|g ts]; try discriminate.
  cbn [sameTopFunctor] in Hsame. apply Nat.eqb_eq in Hsame. subst g.
  destruct (wellFormed_args _ _ Hs) as [Hlen Hwf].
  destruct (wellFormed_args _ _ Ht) as [Hlen' Hwf'].
  destruct (listSteps_wellFormed ss ts ltac:(congruence) Hwf Hwf') as (k & Hk & Hsteps).
  cbn [traverse2 subterms].
  replace (2 * tsize (Term f ss))%nat with (k + (2 * tsize (Term f ss) - k))%nat
    by (simpl; lia).
  rewrite Hsteps. cbn [Nat.sub].
  destruct (2 * tsize (Term f ss) - k)%nat; reflexivity.
Qed.

(** **** The counters and the variable condition *)

Lemma sumZ_nonneg l : Forall (fun z => 0 <= z) l -> 0 <= sumZ l.
Proof. induction 1; simpl; lia. Qed.

Lemma occurrences_nonneg v t : 0 <= occurrences v t.
Proof.
  induction t as [w|w|f args IH] using TermList_ind'; simpl.
  - destruct (Nat.eqb v w); lia.
  - destruct (Nat.eqb v w); lia.
  - apply sumZ_nonneg. apply Forall_map. exact IH.
Qed.

Lemma sumZ_pos_inv {A} (h : A -> Z) l :
  0 < sumZ (map h l) -> exists a, In a l /\ 0 < h a.
Proof.
  induction l as [|a l IH]; simpl; [lia|]. intros H.
  destruct (Z.ltb_spec 0 (h a)); [exists a; auto|].
  destruct IH as (b & Hb & Hpos); [lia|]. exists b. auto.
Qed.

Lemma occurrences_variables v t :
  0 < occurrences v t ->
  In (Var v) (variables t) \/ In (SpecialVar v) (variables t).
Proof.
  induction t as [w|w|f args IH] using TermList_ind'; simpl.
  - destruct (Nat.eqb_spec v w); [subst; auto|lia].
  - destruct (Nat.eqb_spec v w); [subst; auto|lia].
  - intros H. apply sumZ_pos_inv in H. destruct H as (a & Ha & Hpos).
    rewrite List.Forall_forall in IH. rewrite !in_flat_map.
    destruct (IH a Ha Hpos); [left|right]; exists a; auto.
Qed.

Lemma occursMoreIn_spec s t :
  occursMoreIn s t = true <-> exists v, occurrences v t < occurrences v s.
Proof.
  unfold occursMoreIn. rewrite existsb_exists. split.
  - intros (x & _ & Hx). destruct x as [v|v|]; try discriminate;
      exists v; apply Z.ltb_lt, Hx.
  - intros (v & Hv). pose proof (occurrences_nonneg v t).
    destruct (occurrences_variables v s ltac:(lia)) as [Hin|Hin];
      [exists (Var v)|exists (SpecialVar v)]; (split; [exact Hin|apply Z.ltb_lt, Hv]).
Qed.

Lemma filtered_size_pos (P : nat * Z -> Prop) `{HP : !forall kv, Decision (P kv)}
    (m : gmap nat Z) :
  (0 < size (filter P m))%nat <-> exists v z, m !! v = Some z /\ P (v, z).
Proof.
  split.
  - intros Hsz. destruct (map_size_ne_0_lookup_1 (filter P m) ltac:(lia)) as (v & z & Hz).
    apply map_lookup_filter_Some in Hz. exists v, z. exact Hz.
  - intros (v & z & Hz & Hv).
    assert (size (filter P m) <> 0%nat); [|lia].
    apply (map_size_ne_0_lookup_2 _ v). exists z. apply map_lookup_filter_Some. auto.
Qed.

Lemma posNum_spec st : countersOk st ->
  (0 <? _posNum st) = true <-> exists v, 0 < varDiff st v.
Proof.
  intros [Hp _]. rewrite Z.ltb_lt, Hp. unfold positives.
  rewrite <- Nat2Z.inj_0, <- Nat2Z.inj_lt, filtered_size_pos. unfold varDiff. split.
  - intros (v & z & Hz & HP). exists v. rewrite Hz. exact HP.
  - intros (v & Hv). destruct (_varDiffs st !! v) as [z|] eqn:E; simpl in Hv; [|lia].
    exists v, z. auto.
Qed.

Lemma negNum_spec st : countersOk st ->
  (0 <? _negNum st) = true <-> exists v, varDiff st v < 0.
Proof.
  intros [_ Hn]. rewrite Z.ltb_lt, Hn. unfold negatives.
  rewrite <- Nat2Z.inj_0, <- Nat2Z.inj_lt, filtered_size_pos. unfold varDiff. split.
  - intros (v & z & Hz & HP). exists v. rewrite Hz. exact HP.
  - intros (v & Hv). destruct (_varDiffs st !! v) as [z|] eqn:E; simpl in Hv; [|lia].
    exists v, z. auto.
Qed.

(** The state holds the differences between [s] and [t]. *)
Definition holds (st : State) (s t : TermList) : Prop :=
  countersOk st /\ _weightDiff st = weight s - weight t /\
  forall w, varDiff st w = occurrences w s - occurrences w t.

Lemma bool_eq_iff (a b : bool) : (a = true <-> b = true) -> a = b.
Proof. destruct a, b; intuition congruence. Qed.

Lemma holds_posNum st s t : holds st s t -> (0 <? _posNum st) = occursMoreIn s t.
Proof.
  intros (Hc & _ & Hv). apply bool_eq_iff.
  rewrite (posNum_spec st Hc), occursMoreIn_spec.
  split; intros (v & H); exists v; specialize (Hv v); lia.
Qed.

Lemma holds_negNum st s t : holds st s t -> (0 <? _negNum st) = occursMoreIn t s.
Proof.
  intros (Hc & _ & Hv). apply bool_eq_iff.
  rewrite (negNum_spec st Hc), occursMoreIn_spec.
  split; intros (v & H); exists v; specialize (Hv v); lia.
Qed.

Lemma applyVariableCondition_holds st s t r :
  holds st s t -> applyVariableCondition st r = variableCondition s t r.
Proof.
  intros H. unfold applyVariableCondition, variableCondition.
  rewrite (holds_posNum _ _ _ H), (holds_negNum _ _ _ H). reflexivity.
Qed.

Lemma holds_setLexResult st s t r : holds st s t -> holds (setLexResult st r) s t.
Proof. intros H. exact H. Qed.

(** **** The walk after the lexicographic result is settled *)

(** Once [_lexResult] is set and [lexValidDepth] is not below the current
    depth, the walk over a pair only adds the differences of the pair. *)
Definition settledWalk (s t : TermList) : Prop :=
  forall depth lvd st,
    countersOk st -> _lexResult st <> EQUAL -> (lvd <= depth)%nat ->
    exists st', walkPair s t depth (lvd, st) = (lvd, st') /\
      shifted st st' (weight s - weight t)
        (fun w => occurrences w s - occurrences w t).

Lemma walkList_settled f ss : forall ts,
  length ss = length ts -> Forall2 settledWalk ss ts ->
  forall depth lvd st,
    countersOk st -> _lexResult st <> EQUAL -> (lvd <= depth)%nat ->
    exists st', walkList ss ts depth (lvd, st) = (lvd, st') /\
      shifted st st' (weight (Term f ss) - weight (Term f ts))
        (fun w => occurrences w (Term f ss) - occurrences w (Term f ts)).
Proof.
  induction ss as [|s ss IH]; intros [|t ts] Hlen Hall depth lvd st Hc Hlex Hd;
    try discriminate.
  - exists st. split; [reflexivity|].
    split; [exact Hc|]. split; [simpl; lia|]. split; [reflexivity|]. intros w; simpl; lia.
  - apply Forall2_cons in Hall. destruct Hall as [Hs Hall].
    destruct (Hs depth lvd st Hc Hlex Hd) as (st1 & E1 & Hsh1).
    destruct Hsh1 as (Hc1 & Hw1 & Hl1 & Hv1).
    destruct (IH ts ltac:(simpl in Hlen; lia) Hall depth lvd st1 Hc1
                ltac:(congruence) Hd) as (st2 & E2 & Hc2 & Hw2 & Hl2 & Hv2).
    exists st2. cbn [walkList]. rewrite E1. split; [exact E2|].
    split; [exact Hc2|]. split; [simpl in *; lia|]. split; [congruence|].
    intros w. rewrite Hv2, Hv1. simpl. lia.
Qed.

Lemma closeLevel_settled depth lvd st :
  (lvd <= depth)%nat -> closeLevel depth lvd st = (lvd, st).
Proof.
  intros H. unfold closeLevel.
  replace (Nat.ltb depth lvd) with false by (symmetry; apply Nat.ltb_ge, H).
  rewrite andb_false_r. reflexivity.
Qed.

Lemma settledWalk_same s : settledWalk s s.
Proof.
  intros depth lvd st Hc Hlex Hd. exists st.
  rewrite walkPair_eq, bool_decide_eq_true_2 by reflexivity. split; [reflexivity|].
  split; [exact Hc|]. split; [lia|]. split; [reflexivity|]. intros w; lia.
Qed.

Lemma settledWalk_leaf s t : sameTopFunctor s t = false -> settledWalk s t.
Proof.
  intros Hdiff depth lvd st Hc Hlex Hd.
  destruct (decide (s = t)) as [<-|Hne]; [apply settledWalk_same; assumption|].
  rewrite walkPair_eq, Hdiff, bool_decide_eq_false_2 by exact Hne.
  pose proof (traverse_pair_shifted s t st Hc) as Hsh.
  eexists. split; [|exact Hsh]. unfold leaf. cbn [fst snd].
  rewrite bool_decide_eq_false_2; [reflexivity|].
  destruct Hsh as (_ & _ & -> & _). exact Hlex.
Qed.

Lemma settledWalk_wellFormed s : forall t,
  wellFormed arityOf s = true -> wellFormed arityOf t = true -> settledWalk s t.
Proof.
  induction s as [v|v|f ss IH] using TermList_ind'; intros t Hs Ht; try discriminate.
  - apply settledWalk_leaf. reflexivity.
  - destruct (decide (Term f ss = t)) as [<-|Hne]; [apply settledWalk_same|].
    destruct (sameTopFunctor (Term f ss) t) eqn:Hsame; [|apply settledWalk_leaf, Hsame].
    destruct t as [w|w|g ts]; try discriminate.
    cbn [sameTopFunctor] in Hsame. apply Nat.eqb_eq in Hsame. subst g.
    destruct (wellFormed_args _ _ Hs) as [Hlen Hwf].
    destruct (wellFormed_args _ _ Ht) as [Hlen' Hwf'].
    assert (Hall : Forall2 settledWalk ss ts).
    { assert (Hl : length ss = length ts) by congruence.
      clear Hlen Hlen' Hs Ht Hne. revert ts Hwf' Hl.
      induction ss as [|a ss IHss]; intros [|b ts] Hwf' Hl; try discriminate.
      - apply Forall2_nil. exact I.
      - apply List.Forall_cons_iff in IH. destruct IH as [Ha IH].
        apply Forall_cons in Hwf, Hwf'. destruct Hwf as [Hwa Hwf], Hwf' as [Hwb Hwf'].
        apply Forall2_cons. split; [apply Ha; assumption|].
        apply IHss; [assumption..|simpl in Hl; lia]. }
    intros depth lvd st Hc Hlex Hd.
    destruct (walkList_settled f ss ts ltac:(congruence) Hall (S depth) lvd st Hc Hlex
                ltac:(lia)) as (st' & E & Hsh).
    exists st'. rewrite walkPair_eq, bool_decide_eq_false_2 by exact Hne.
    cbn [sameTopFunctor subterms]. rewrite Nat.eqb_refl, E. cbn [fst snd].
    split; [apply closeLevel_settled, Hd|exact Hsh].
Qed.

Lemma settledWalk_list ss : forall ts,
  length ss = length ts ->
  Forall (fun a => wellFormed arityOf a = true) ss ->
  Forall (fun a => wellFormed arityOf a = true) ts ->
  Forall2 settledWalk ss ts.
Proof.
  induction ss as [|a ss IHss]; intros [|b ts] Hl Hwf Hwf'; try discriminate.
  - apply Forall2_nil. exact I.
  - apply Forall_cons in Hwf, Hwf'. destruct Hwf as [Hwa Hwf], Hwf' as [Hwb Hwf'].
    apply Forall2_cons. split; [apply settledWalk_wellFormed; assumption|].
    apply IHss; [simpl in Hl; lia|assumption..].
Qed.

(** **** The walk from the initial state *)

Hypothesis precedence_total : forall f g,
  f <> g -> compareFunctionPrecedences f g = GREATER \/ compareFunctionPrecedences f g = LESS.

(** Nothing has been recorded and [_lexResult] is not set. *)
Definition clean (st : State) : Prop :=
  countersOk st /\ _weightDiff st = 0 /\ (forall w, varDiff st w = 0) /\
  _lexResult st = EQUAL.

Lemma clean_init : clean init.
Proof. repeat split. Qed.

Lemma clean_shifted st st' s t :
  clean st ->
  shifted st st' (weight s - weight t) (fun w => occurrences w s - occurrences w t) ->
  holds st' s t /\ _lexResult st' = EQUAL.
Proof.
  intros (_ & Hw & Hv & Hl) (Hc' & Hw' & Hl' & Hv').
  split; [|congruence]. split; [exact Hc'|]. split; [lia|].
  intros w. rewrite Hv', Hv. lia.
Qed.

Lemma variableCondition_not_EQUAL s t r :
  r <> EQUAL -> variableCondition s t r <> EQUAL.
Proof.
  unfold variableCondition. intros H.
  destruct (_ && _); [discriminate|]. destruct (_ && _); [discriminate|exact H].
Qed.

Lemma sign_not_EQUAL z : sign z <> EQUAL.
Proof. unfold sign. destruct (0 <? z); discriminate. Qed.

Lemma sign_cases z : sign z = GREATER \/ sign z = LESS.
Proof. unfold sign. destruct (0 <? z); auto. Qed.

Lemma topPrecedence_cases s t :
  s <> t -> sameTopFunctor s t = false ->
  topPrecedence s t = GREATER \/ topPrecedence s t = LESS.
Proof.
  intros Hne Hdiff. destruct s as [v|v|f ss], t as [w|w|g ts]; simpl; auto.
  apply precedence_total. simpl in Hdiff. apply Nat.eqb_neq, Hdiff.
Qed.

(** [innerResult] is the table's outcome for two terms with distinct top
    symbols. *)
Lemma innerResult_spec st s t :
  holds st s t -> s <> t -> sameTopFunctor s t = false ->
  innerResult compareFunctionPrecedences st s t = decisionTable s t.
Proof.
  intros H Hne Hdiff. rewrite decisionTable_eq, Hdiff. cbn [negb].
  unfold innerResult. rewrite (applyVariableCondition_holds _ _ _ _ H).
  rewrite (holds_posNum _ _ _ H), (holds_negNum _ _ _ H).
  destruct H as (_ & -> & _). fold (sign (weight s - weight t)).
  set (r := if negb (weight s - weight t =? 0) then sign (weight s - weight t) else _).
  assert (Hr : r = if negb (weight s - weight t =? 0) then sign (weight s - weight t)
                   else topPrecedence s t).
  { subst r. destruct (negb _); [reflexivity|]. destruct s, t; reflexivity. }
  assert (Hcases : r = GREATER \/ r = LESS).
  { rewrite Hr. destruct (negb _); [apply sign_cases|apply topPrecedence_cases; assumption]. }
  unfold variableCondition.
  destruct (occursMoreIn s t), (occursMoreIn t s); try reflexivity.
  destruct Hcases as [-> | ->]; reflexivity.
Qed.

Lemma decisionTable_leaf_not_EQUAL s t :
  s <> t -> sameTopFunctor s t = false -> decisionTable s t <> EQUAL.
Proof.
  intros Hne Hdiff. rewrite decisionTable_eq, Hdiff. cbn [negb].
  apply variableCondition_not_EQUAL.
  destruct (negb _); [apply sign_not_EQUAL|].
  destruct (topPrecedence_cases s t Hne Hdiff) as [-> | ->]; discriminate.
Qed.

(** From a clean state, the walk over two distinct terms found at depth
    [depth] sets [_lexResult] to the table's outcome for them, valid at that
    depth, and records their differences. *)
Definition firstWalk (s t : TermList) : Prop :=
  forall depth lvd st, clean st ->
    exists st', walkPair s t depth (lvd, st) = (depth, st') /\
      holds st' s t /\ _lexResult st' = decisionTable s t /\
      decisionTable s t <> EQUAL.

Lemma firstWalk_leaf s t :
  s <> t -> sameTopFunctor s t = false -> firstWalk s t.
Proof.
  intros Hne Hdiff depth lvd st Hclean.
  rewrite walkPair_eq, Hdiff, bool_decide_eq_false_2 by exact Hne.
  pose proof (traverse_pair_shifted s t st (proj1 Hclean)) as Hsh.
  destruct (clean_shifted _ _ _ _ Hclean Hsh) as [Hholds Hlex].
  eexists. unfold leaf. cbn [fst snd].
  rewrite bool_decide_eq_true_2 by exact Hlex.
  split; [reflexivity|]. split; [apply holds_setLexResult, Hholds|].
  split; [apply innerResult_spec; assumption|].
  apply decisionTable_leaf_not_EQUAL; assumption.
Qed.

Lemma walkList_first f ss : forall ts,
  length ss = length ts ->
  Forall2 (fun s t => s <> t -> firstWalk s t) ss ts ->
  Forall2 settledWalk ss ts ->
  ss <> ts ->
  forall depth lvd st, clean st ->
    exists st', walkList ss ts depth (lvd, st) = (depth, st') /\
      holds st' (Term f ss) (Term f ts) /\
      _lexResult st' = lexicographic ss ts /\ lexicographic ss ts <> EQUAL.
Proof.
  induction ss as [|s ss IH]; intros [|t ts] Hlen Hfirst Hsettled Hne depth lvd st Hclean;
    try discriminate; [congruence|].
  apply Forall2_cons in Hfirst, Hsettled.
  destruct Hfirst as [Hs Hfirst], Hsettled as [_ Hsettled].
  cbn [walkList lexicographic].
  destruct (decide (s = t)) as [<-|Hst].
  - rewrite walkPair_eq, !bool_decide_eq_true_2 by reflexivity.
    destruct (IH ts ltac:(simpl in Hlen; lia) Hfirst Hsettled ltac:(congruence)
                depth lvd st Hclean) as (st' & E & (Hc & Hw & Hv) & Hl & Hn).
    exists st'. split; [exact E|]. split; [|split; assumption].
    split; [exact Hc|]. split; [simpl in *; lia|].
    intros w. rewrite Hv. simpl. lia.
  - rewrite bool_decide_eq_false_2 by exact Hst.
    destruct (Hs Hst depth lvd st Hclean) as (st1 & E1 & (Hc1 & Hw1 & Hv1) & Hl1 & Hn1).
    rewrite E1.
    destruct (walkList_settled f ss ts ltac:(simpl in Hlen; lia) Hsettled depth depth st1
                Hc1 ltac:(congruence) ltac:(lia)) as (st2 & E2 & Hc2 & Hw2 & Hl2 & Hv2).
    exists st2. split; [exact E2|]. split; [|split; [congruence|exact Hn1]].
    split; [exact Hc2|]. split; [simpl in *; lia|].
    intros w. rewrite Hv2, Hv1. simpl. lia.
Qed.

Lemma closeLevel_first depth st f ss ts :
  holds st (Term f ss) (Term f ts) ->
  _lexResult st = lexicographic ss ts -> lexicographic ss ts <> EQUAL ->
  exists st', closeLevel depth (S depth) st = (depth, st') /\
    holds st' (Term f ss) (Term f ts) /\
    _lexResult st' = decisionTable (Term f ss) (Term f ts).
Proof.
  intros Hholds Hlex Hne. unfold closeLevel.
  rewrite bool_decide_eq_false_2 by congruence.
  replace (Nat.ltb depth (S depth)) with true by (symmetry; apply Nat.ltb_lt; lia).
  cbn [negb andb]. eexists. split; [reflexivity|].
  split; [destruct (negb _); exact Hholds|].
  rewrite decisionTable_eq. cbn [sameTopFunctor]. rewrite Nat.eqb_refl. cbn [negb].
  cbn [setLexResult _lexResult].
  rewrite <- (proj1 (proj2 Hholds)). fold (sign (_weightDiff st)).
  destruct (negb (_weightDiff st =? 0)).
  - apply (applyVariableCondition_holds (setLexResult st _)), Hholds.
  - rewrite Hlex. apply applyVariableCondition_holds, Hholds.
Qed.

Lemma firstWalk_wellFormed s : forall t,
  wellFormed arityOf s = true -> wellFormed arityOf t = true ->
  s <> t -> firstWalk s t.
Proof.
  induction s as [v|v|f ss IH] using TermList_ind'; intros t Hs Ht Hne; try discriminate.
  - apply firstWalk_leaf; [exact Hne|reflexivity].
  - destruct (sameTopFunctor (Term f ss) t) eqn:Hsame; [|apply firstWalk_leaf; assumption].
    destruct t as [w|w|g ts]; try discriminate.
    cbn [sameTopFunctor] in Hsame. apply Nat.eqb_eq in Hsame. subst g.
    destruct (wellFormed_args _ _ Hs) as [Hlen Hwf].
    destruct (wellFormed_args _ _ Ht) as [Hlen' Hwf'].
    assert (Hl : length ss = length ts) by congruence.
    assert (Hall : Forall2 (fun s t => s <> t -> firstWalk s t) ss ts).
    { clear Hlen Hlen' Hs Ht Hne. revert ts Hwf' Hl.
      induction ss as [|a ss IHss]; intros [|b ts] Hwf' Hl; try discriminate.
      - apply Forall2_nil. exact I.
      - apply List.Forall_cons_iff in IH. destruct IH as [Ha IH].
        apply Forall_cons in Hwf, Hwf'. destruct Hwf as [Hwa Hwf], Hwf' as [Hwb Hwf'].
        apply Forall2_cons. split; [apply Ha; assumption|].
        apply IHss; [assumption..|simpl in Hl; lia]. }
    intros depth lvd st Hclean.
    destruct (walkList_first f ss ts Hl Hall (settledWalk_list ss ts Hl Hwf Hwf')
                ltac:(congruence) (S depth) lvd st Hclean) as (st1 & E1 & Hh1 & Hl1 & Hn1).
    destruct (closeLevel_first depth st1 f ss ts Hh1 Hl1 Hn1) as (st2 & E2 & Hh2 & Hl2).
    exists st2. rewrite walkPair_eq, bool_decide_eq_false_2 by exact Hne.
    cbn [sameTopFunctor subterms]. rewrite Nat.eqb_refl, E1. cbn [fst snd].
    split; [exact E2|]. split; [exact Hh2|]. split; [exact Hl2|].
    rewrite decisionTable_eq. apply variableCondition_not_EQUAL.
    cbn [sameTopFunctor]. rewrite Nat.eqb_refl. cbn [negb].
    destruct (negb _); [apply sign_not_EQUAL|exact Hn1].
Qed.

(** **** [KBO::compare] and the table *)

Lemma containsSubterm_occurrences v t :
  wellFormed arityOf t = true ->
  containsSubterm t (Var v) = true <-> 0 < occurrences v t.
Proof.
  induction t as [w|w|f args IH] using TermList_ind'; intros Hwf; try discriminate.
  - simpl. destruct (Nat.eqb_spec v w) as [->|Hne].
    + rewrite bool_decide_eq_true_2 by reflexivity. split; [lia|reflexivity].
    + rewrite bool_decide_eq_false_2 by congruence. split; [discriminate|lia].
  - destruct (wellFormed_args _ _ Hwf) as [_ Hargs]. clear Hwf.
    cbn [containsSubterm occurrences]. rewrite bool_decide_eq_false_2 by discriminate.
    induction args as [|a args IHargs]; [simpl; split; [discriminate|lia]|].
    apply List.Forall_cons_iff in IH. destruct IH as [Ha IH].
    apply Forall_cons in Hargs. destruct Hargs as [Hwa Hargs].
    cbn [existsb map sumZ fold_right]. rewrite orb_true_iff, (Ha Hwa), (IHargs IH Hargs).
    fold (sumZ (map (occurrences v) args)).
    pose proof (occurrences_nonneg v a).
    pose proof (occurrences_nonneg v (Term 0 args)) as Hs. simpl in Hs. lia.
Qed.

Lemma functionSymbolWeight_pos f : 1 <= functionSymbolWeight functionColored f.
Proof. unfold functionSymbolWeight. destruct (functionColored f); vm_compute; discriminate. Qed.

Lemma weight_pos t : 1 <= weight t.
Proof.
  induction t as [w|w|f args IH] using TermList_ind'; simpl; try (vm_compute; discriminate).
  pose proof (functionSymbolWeight_pos f).
  assert (0 <= sumZ (map weight args)); [|lia].
  apply sumZ_nonneg, Forall_map. eapply Forall_impl; [exact IH|]. simpl. intros; lia.
Qed.

Lemma occursMoreIn_var_l v t :
  occursMoreIn (Var v) t = negb (0 <? occurrences v t).
Proof.
  apply bool_eq_iff. rewrite occursMoreIn_spec, negb_true_iff, Z.ltb_ge. split.
  - intros (w & Hw). simpl in Hw. pose proof (occurrences_nonneg w t).
    destruct (Nat.eqb_spec w v); [subst; lia|lia].
  - intros H. exists v. simpl. rewrite Nat.eqb_refl. lia.
Qed.

Lemma compare_variable_left v t :
  wellFormed arityOf t = true ->
  (if containsSubterm t (Var v) then LESS else INCOMPARABLE) = decisionTable (Var v) t.
Proof.
  intros Hwf. rewrite decisionTable_eq. cbn [sameTopFunctor negb topPrecedence weight].
  assert (Hp : (if negb (_variableWeight - weight t =? 0)
                then sign (_variableWeight - weight t) else LESS) = LESS).
  { destruct (negb _); [|reflexivity]. unfold sign.
    pose proof (weight_pos t). replace (0 <? _variableWeight - weight t) with false;
      [reflexivity|]. symmetry. apply Z.ltb_ge. unfold _variableWeight. lia. }
  rewrite Hp. unfold variableCondition. rewrite occursMoreIn_var_l.
  pose proof (containsSubterm_occurrences v t Hwf) as Hc.
  cbn [isLessOrLeOrE isGorGEorE]. rewrite andb_false_r, andb_true_r.
  destruct (containsSubterm t (Var v)), (Z.ltb_spec 0 (occurrences v t));
    cbn [negb]; try reflexivity.
  - destruct Hc as [Hc _]. specialize (Hc eq_refl). lia.
  - destruct Hc as [_ Hc]. specialize (Hc ltac:(lia)). discriminate.
Qed.

Lemma compare_variable_right f args v :
  wellFormed arityOf (Term f args) = true ->
  (if containsSubterm (Term f args) (Var v) then GREATER else INCOMPARABLE) =
  decisionTable (Term f args) (Var v).
Proof.
  intros Hwf. rewrite decisionTable_eq.
  cbn [sameTopFunctor negb topPrecedence]. change (weight (Var v)) with _variableWeight.
  assert (Hp : (if negb (weight (Term f args) - _variableWeight =? 0)
                then sign (weight (Term f args) - _variableWeight) else GREATER) = GREATER).
  { destruct (Z.eqb_spec (weight (Term f args) - _variableWeight) 0); [reflexivity|].
    cbn [negb]. unfold sign.
    pose proof (weight_pos (Term f args)).
    replace (0 <? weight (Term f args) - _variableWeight) with true; [reflexivity|].
    symmetry. apply Z.ltb_lt. unfold _variableWeight in *. lia. }
  rewrite Hp. unfold variableCondition. rewrite occursMoreIn_var_l.
  pose proof (containsSubterm_occurrences v (Term f args) Hwf) as Hc.
  cbn [isLessOrLeOrE isGorGEorE]. rewrite andb_false_r, andb_true_r.
  destruct (containsSubterm (Term f args) (Var v)), (Z.ltb_spec 0 (occurrences v (Term f args)));
    cbn [negb]; try reflexivity.
  - destruct Hc as [Hc _]. specialize (Hc eq_refl). lia.
  - destruct Hc as [_ Hc]. specialize (Hc ltac:(lia)). discriminate.
Qed.

Lemma variableCondition_idempotent s t r :
  variableCondition s t (variableCondition s t r) = variableCondition s t r.
Proof.
  unfold variableCondition.
  destruct (occursMoreIn s t), (occursMoreIn t s), r; reflexivity.
Qed.

(** [KBO::compare] returns the outcome of the decision table on two
    distinct terms. *)
Lemma compare_decisionTable s t :
  wellFormed arityOf s = true -> wellFormed arityOf t = true -> s <> t ->
  compare functionColored compareFunctionPrecedences s t = decisionTable s t.
Proof.
  intros Hs Ht Hne. unfold compare. rewrite bool_decide_eq_false_2 by exact Hne.
  destruct s as [v|v|f ss]; try discriminate.
  { cbn [isOrdinaryVar]. apply compare_variable_left, Ht. }
  destruct t as [w|w|g ts]; try discriminate.
  { cbn [isOrdinaryVar]. apply compare_variable_right, Hs. }
  cbn [isOrdinaryVar].
  destruct (sameTopFunctor (Term f ss) (Term g ts)) eqn:Hsame.
  - rewrite (traverse2_spec _ _ _ Hs Ht Hsame Hne).
    destruct (firstWalk_wellFormed _ _ Hs Ht Hne 0%nat 0%nat init clean_init)
      as (st' & E & Hholds & Hlex & _).
    rewrite E. cbn [snd]. unfold result.
    rewrite (applyVariableCondition_holds _ _ _ _ Hholds).
    cbn [sameTopFunctor] in Hsame. rewrite Hsame. cbn [negb]. rewrite Hlex.
    rewrite (proj1 (proj2 Hholds)).
    fold (sign (weight (Term f ss) - weight (Term g ts))).
    rewrite (decisionTable_eq (Term f ss) (Term g ts)). cbn [sameTopFunctor].
    rewrite Hsame. cbn [negb].
    destruct (negb _); [reflexivity|apply variableCondition_idempotent].
  - pose proof (traverse_pair_shifted (Term f ss) (Term g ts) init (proj1 clean_init)) as Hsh.
    destruct (clean_shifted _ _ _ _ clean_init Hsh) as [Hholds _].
    unfold result. rewrite (applyVariableCondition_holds _ _ _ _ Hholds).
    rewrite (proj1 (proj2 Hholds)).
    rewrite decisionTable_eq, Hsame. cbn [sameTopFunctor] in Hsame. rewrite Hsame.
    reflexivity.
Qed.

(** The two-term traversal of two distinct terms leaves a lexicographic
    result behind. *)
Lemma traverse2_settles s t :
  wellFormed arityOf s = true -> wellFormed arityOf t = true ->
  sameTopFunctor s t = true -> s <> t ->
  _lexResult (traverse2 functionColored compareFunctionPrecedences init s t) <> EQUAL.
Proof.
  intros Hs Ht Hsame Hne. rewrite (traverse2_spec _ _ _ Hs Ht Hsame Hne).
  destruct (firstWalk_wellFormed _ _ Hs Ht Hne 0%nat 0%nat init clean_init)
    as (st' & E & _ & Hlex & Hneq).
  rewrite E. cbn [snd]. rewrite Hlex. exact Hneq.
Qed.

(** **** Reversing the comparison *)

Hypothesis precedence_antisymmetric : forall f g,
  f <> g -> compareFunctionPrecedences g f = reverse (compareFunctionPrecedences f g).

Lemma variableCondition_reverse s t r :
  variableCondition t s (reverse r) = reverse (variableCondition s t r).
Proof.
  unfold variableCondition.
  destruct (occursMoreIn s t), (occursMoreIn t s), r; reflexivity.
Qed.

Lemma sign_reverse z : z <> 0 -> sign (- z) = reverse (sign z).
Proof.
  intros Hz. unfold sign.
  destruct (Z.ltb_spec 0 (- z)), (Z.ltb_spec 0 z); try reflexivity; lia.
Qed.

Lemma sameTopFunctor_sym s t : sameTopFunctor t s = sameTopFunctor s t.
Proof. destruct s, t; simpl; try reflexivity. apply Nat.eqb_sym. Qed.

Lemma decisionTable_variables v w :
  v <> w -> decisionTable (Var v) (Var w) = INCOMPARABLE.
Proof.
  intros Hne. rewrite decisionTable_eq. cbn [weight sameTopFunctor negb topPrecedence].
  rewrite Z.sub_diag. cbn [Z.eqb negb]. unfold variableCondition.
  rewrite occursMoreIn_var_l. simpl.
  destruct (Nat.eqb_spec v w); [contradiction|reflexivity].
Qed.

Lemma decisionTable_reverse s : forall t,
  wellFormed arityOf s = true -> wellFormed arityOf t = true -> s <> t ->
  decisionTable t s = reverse (decisionTable s t).
Proof.
  induction s as [v|v|f ss IH] using TermList_ind'; intros t Hs Ht Hne; try discriminate.
  - destruct t as [w|w|g ts]; try discriminate.
    + rewrite !decisionTable_variables by congruence. reflexivity.
    + rewrite <- compare_variable_left, <- compare_variable_right by assumption.
      destruct (containsSubterm _ _); reflexivity.
  - destruct t as [w|w|g ts]; try discriminate.
    + rewrite <- compare_variable_left, <- compare_variable_right by assumption.
      destruct (containsSubterm _ _); reflexivity.
    + rewrite (decisionTable_eq (Term g ts)), (decisionTable_eq (Term f ss)).
      rewrite <- variableCondition_reverse. f_equal.
      rewrite (sameTopFunctor_sym (Term f ss) (Term g ts)).
      replace (weight (Term g ts) - weight (Term f ss))
        with (- (weight (Term f ss) - weight (Term g ts))) by lia.
      destruct (Z.eqb_spec (weight (Term f ss) - weight (Term g ts)) 0) as [E|E].
      * rewrite E. cbn [Z.opp Z.eqb negb].
        destruct (sameTopFunctor (Term f ss) (Term g ts)) eqn:Hsame; cbn [negb].
        -- cbn [sameTopFunctor] in Hsame. apply Nat.eqb_eq in Hsame. subst g.
           destruct (wellFormed_args _ _ Hs) as [Hlen Hwf].
           destruct (wellFormed_args _ _ Ht) as [Hlen' Hwf'].
           assert (Hl : length ss = length ts) by congruence.
           assert (Hargs : ss <> ts) by congruence.
           clear Hlen Hlen' Hs Ht Hne E. revert ts Hwf' Hl Hargs.
           induction ss as [|a ss IHss]; intros [|b ts] Hwf' Hl Hargs; try discriminate;
             [congruence|].
           apply List.Forall_cons_iff in IH. destruct IH as [Ha IH].
           apply Forall_cons in Hwf, Hwf'. destruct Hwf as [Hwa Hwf], Hwf' as [Hwb Hwf'].
           cbn [lexicographic].
           destruct (decide (a = b)) as [<-|Hab].
           ++ rewrite !bool_decide_eq_true_2 by reflexivity.
              apply IHss; [assumption..|simpl in Hl; lia|congruence].
           ++ rewrite !bool_decide_eq_false_2 by congruence. apply Ha; assumption.
        -- cbn [topPrecedence]. apply precedence_antisymmetric.
           cbn [sameTopFunctor] in Hsame. apply Nat.eqb_neq, Hsame.
      * replace (- (weight (Term f ss) - weight (Term g ts)) =? 0) with false
          by (symmetry; apply Z.eqb_neq; lia).
        cbn [negb]. apply sign_reverse, E.
Qed.

End Table.
End KBOSpec.

(** *** [KBO::compare] and the range of [int] *)

Module KBOInt.
Import KBO KBOSpec.

Lemma int_of_exact z : INT_MIN <= z <= INT_MAX -> int_of z = z.
Proof.
  unfold INT_MIN, INT_MAX, int_of, to_int, to_unsigned, UINT_MOD. intros H.
  destruct (Z_lt_le_dec z 0) as [Hneg|Hpos].
  - assert (E : z + 2 ^ 32 = z mod 2 ^ 32).
    { apply (Z.mod_unique z (2 ^ 32) (-1)); lia. }
    rewrite <- E. destruct (Z.ltb_spec (z + 2 ^ 32) (2 ^ 31)); lia.
  - rewrite Z.mod_small by lia. destruct (Z.ltb_spec z (2 ^ 31)); lia.
Qed.

(** The counters of the state lie between [- N] and [P]: [P] bounds what
    the traversals with coefficient 1 have added so far, [N] what those with
    coefficient -1 have. *)
Definition bounded (P N : Z) (st : State) : Prop :=
  0 <= P /\ 0 <= N /\
  - N <= _weightDiff st <= P /\
  (forall v, - N <= varDiff st v <= P) /\
  - N <= _posNum st <= P /\ - P <= _negNum st <= N.

Definition up (coef w : Z) : Z := if coef =? 1 then w else 0.
Definition down (coef w : Z) : Z := if coef =? 1 then 0 else w.

Lemma bounded_mono P N P' N' st :
  bounded P N st -> P <= P' -> N <= N' -> bounded P' N' st.
Proof.
  intros (HP & HN & Hw & Hv & Hp & Hn) H1 H2. unfold bounded.
  repeat split; try lia; specialize (Hv v); lia.
Qed.

Lemma bounded_setLexResult P N st r : bounded P N st -> bounded P N (setLexResult st r).
Proof. intros H. exact H. Qed.

Lemma bounded_init : bounded 0 0 init.
Proof.
  unfold bounded, varDiff. cbn. repeat split; try lia; rewrite lookup_empty; cbn; lia.
Qed.

Section Exact.
Variable functionColored : nat -> bool.
Variable compareFunctionPrecedences : nat -> nat -> Result.

Abbreviation W := (weight functionColored).

(** The weight of the symbol at the top of a term. *)
Definition symbolWeight (t : TermList) : Z :=
  match t with
  | Term f _ => functionSymbolWeight functionColored f
  | _ => _variableWeight
  end.

Lemma symbolWeight_range t : 1 <= symbolWeight t <= 65536.
Proof.
  destruct t as [v|v|f args]; cbn; unfold functionSymbolWeight, _variableWeight,
    _defaultSymbolWeight, COLORED_WEIGHT_BOOST; try lia.
  destruct (functionColored f); lia.
Qed.

Lemma weight_unfold t : W t = symbolWeight t + sumZ (map W (subterms t)).
Proof.
  destruct t as [v|v|f args]; [| |reflexivity];
    cbn [weight symbolWeight subterms map sumZ fold_right]; lia.
Qed.

Lemma weights_nonneg l : 0 <= sumZ (map W l).
Proof.
  apply sumZ_nonneg, Forall_map, Forall_forall. intros x _.
  pose proof (weight_pos functionColored x). cbn. lia.
Qed.

Lemma up_down_cases coef w :
  coef = 1 \/ coef = -1 ->
  (coef = 1 /\ up coef w = w /\ down coef w = 0) \/
  (coef = -1 /\ up coef w = 0 /\ down coef w = w).
Proof. intros [-> | ->]; [left|right]; repeat split; reflexivity. Qed.

Lemma addWeight_exact P N st w coef :
  coef = 1 \/ coef = -1 -> 0 <= w <= 65536 -> bounded P N st ->
  P + up coef w <= INT_MAX -> N + down coef w <= INT_MAX ->
  addWeight st (int_of (w * coef)) = KBOUnbounded.addWeight st (w * coef) /\
  bounded (P + up coef w) (N + down coef w) (KBOUnbounded.addWeight st (w * coef)).
Proof.
  intros Hc Hw (HP & HN & Hwd & Hv & Hp & Hn) H1 H2.
  unfold addWeight, KBOUnbounded.addWeight, bounded, varDiff in *.
  cbn [_weightDiff _varDiffs _posNum _negNum].
  unfold INT_MAX in H1, H2.
  destruct (up_down_cases coef w Hc) as [(-> & Eu & Ed)|(-> & Eu & Ed)];
    rewrite Eu, Ed in *;
    rewrite (int_of_exact (w * _)) by (unfold INT_MIN, INT_MAX; lia);
    rewrite int_of_exact by (unfold INT_MIN, INT_MAX; lia);
    (split; [reflexivity|]); repeat split; try lia; specialize (Hv v); lia.
Qed.

(** A variable: the weight of a variable is added and the variable is
    recorded. *)
Lemma recordVariable_exact P N st v coef :
  coef = 1 \/ coef = -1 -> bounded P N st ->
  P + up coef 1 <= INT_MAX -> N + down coef 1 <= INT_MAX ->
  recordVariable (addWeight st (int_of (_variableWeight * coef))) v coef =
  KBOUnbounded.recordVariable (KBOUnbounded.addWeight st (_variableWeight * coef)) v coef /\
  bounded (P + up coef 1) (N + down coef 1)
    (KBOUnbounded.recordVariable (KBOUnbounded.addWeight st (_variableWeight * coef)) v coef).
Proof.
  intros Hc Hb H1 H2.
  destruct (addWeight_exact P N st 1 coef Hc ltac:(lia) Hb H1 H2) as [E _].
  unfold _variableWeight. rewrite E. clear E.
  destruct Hb as (HP & HN & Hwd & Hv & Hp & Hn).
  unfold recordVariable, KBOUnbounded.recordVariable, KBOUnbounded.addWeight, bounded,
    varDiff in *.
  unfold INT_MAX in H1, H2. pose proof (Hv v) as Hvv.
  cbn [_weightDiff _varDiffs _posNum _negNum _lexResult].
  assert (Hins : forall (p : Z) (w : nat) (lo hi : Z),
            lo <= p <= hi -> lo <= - N -> P <= hi ->
            lo <= default 0 (<[v := p]> (_varDiffs st) !! w) <= hi).
  { intros p w lo hi Hp1 Hlo Hhi. destruct (decide (v = w)) as [->|Hne].
    - rewrite lookup_insert_eq. cbn. lia.
    - rewrite lookup_insert_ne by exact Hne. specialize (Hv w). lia. }
  destruct (up_down_cases coef 1 Hc) as [(-> & Eu & Ed)|(-> & Eu & Ed)];
    rewrite Eu, Ed in *;
    [change (1 =? 1) with true|change (-1 =? 1) with false]; cbv iota;
    rewrite !int_of_exact by (unfold INT_MIN, INT_MAX; lia);
    (split; [reflexivity|]);
    repeat match goal with
           | |- context [?a =? ?b] => destruct (Z.eqb_spec a b)
           end;
    cbn [_weightDiff _varDiffs _posNum _negNum _lexResult];
    (split; [lia|]); (split; [lia|]); (split; [lia|]);
    (split; [intros w0; apply Hins; lia|]); split; lia.
Qed.

Lemma visit_exact P N st t coef :
  coef = 1 \/ coef = -1 -> bounded P N st ->
  P + up coef (symbolWeight t) <= INT_MAX -> N + down coef (symbolWeight t) <= INT_MAX ->
  visit functionColored st t coef = KBOUnbounded.visit functionColored st t coef /\
  bounded (P + up coef (symbolWeight t)) (N + down coef (symbolWeight t))
    (KBOUnbounded.visit functionColored st t coef).
Proof.
  intros Hc Hb H1 H2. destruct t as [v|v|f args]; cbn [visit KBOUnbounded.visit].
  - apply recordVariable_exact; assumption.
  - apply recordVariable_exact; assumption.
  - apply addWeight_exact; try assumption.
    pose proof (symbolWeight_range (Term f args)) as Hr. cbn in Hr. lia.
Qed.

(** The weight of the positions that a one-term traversal has still to
    visit. *)
Definition segmentsWeight (segs : list (list TermList)) : Z :=
  sumZ (map (fun seg => sumZ (map W seg)) segs).

Lemma segmentsWeight_nonneg segs : 0 <= segmentsWeight segs.
Proof.
  apply sumZ_nonneg, Forall_map, Forall_forall. intros x _. cbn. apply weights_nonneg.
Qed.

Lemma up_add coef a b : up coef (a + b) = up coef a + up coef b.
Proof. unfold up. destruct (coef =? 1); lia. Qed.

Lemma down_add coef a b : down coef (a + b) = down coef a + down coef b.
Proof. unfold down. destruct (coef =? 1); lia. Qed.

Lemma up_nonneg coef a : 0 <= a -> 0 <= up coef a.
Proof. unfold up. destruct (coef =? 1); lia. Qed.

Lemma down_nonneg coef a : 0 <= a -> 0 <= down coef a.
Proof. unfold down. destruct (coef =? 1); lia. Qed.

(** The positions left once the symbol at [t] is visited. *)
Definition positionsAfter (t : TermList) (next : list TermList) (stack : list (list TermList))
  : list (list TermList) :=
  let stack1 := match next with [] => stack | _ :: _ => next :: stack end in
  match t with
  | Term _ ((_ :: _) as args) => args :: stack1
  | _ => stack1
  end.

Lemma positionsAfter_weight t next stack :
  segmentsWeight ((t :: next) :: stack) =
  symbolWeight t + segmentsWeight (positionsAfter t next stack).
Proof.
  rewrite (eq_refl : segmentsWeight ((t :: next) :: stack) =
                     W t + sumZ (map W next) + segmentsWeight stack).
  rewrite weight_unfold.
  assert (E : segmentsWeight (positionsAfter t next stack) =
              sumZ (map W (subterms t)) + sumZ (map W next) + segmentsWeight stack).
  { unfold positionsAfter. destruct t as [v|v|f [|a args]], next as [|n next];
      unfold segmentsWeight, sumZ; cbn [subterms map fold_right]; lia. }
  rewrite E. lia.
Qed.

Lemma traverse_loop_exact coef : coef = 1 \/ coef = -1 -> forall fuel ts stack st P N,
  bounded P N st ->
  P + up coef (segmentsWeight (ts :: stack)) <= INT_MAX ->
  N + down coef (segmentsWeight (ts :: stack)) <= INT_MAX ->
  traverse_loop functionColored fuel ts stack coef st =
  KBOUnbounded.traverse_loop functionColored fuel ts stack coef st /\
  bounded (P + up coef (segmentsWeight (ts :: stack)))
    (N + down coef (segmentsWeight (ts :: stack)))
    (KBOUnbounded.traverse_loop functionColored fuel ts stack coef st).
Proof.
  intros Hc.
  assert (Hstay : forall segs st P N, bounded P N st ->
            bounded (P + up coef (segmentsWeight segs))
              (N + down coef (segmentsWeight segs)) st).
  { intros segs st P N Hb. pose proof (segmentsWeight_nonneg segs) as Hs.
    pose proof (up_nonneg coef _ Hs). pose proof (down_nonneg coef _ Hs).
    eapply bounded_mono; [exact Hb|lia|lia]. }
  induction fuel as [|fuel IH]; intros ts stack st P N Hb H1 H2.
  { cbn [traverse_loop KBOUnbounded.traverse_loop]. split; [reflexivity|apply Hstay, Hb]. }
  destruct ts as [|t next].
  { cbn [traverse_loop KBOUnbounded.traverse_loop]. split; [reflexivity|apply Hstay, Hb]. }
  change (traverse_loop functionColored (S fuel) (t :: next) stack coef st)
    with (match positionsAfter t next stack with
          | [] => visit functionColored st t coef
          | ts' :: stack3 =>
              traverse_loop functionColored fuel ts' stack3 coef
                (visit functionColored st t coef)
          end).
  change (KBOUnbounded.traverse_loop functionColored (S fuel) (t :: next) stack coef st)
    with (match positionsAfter t next stack with
          | [] => KBOUnbounded.visit functionColored st t coef
          | ts' :: stack3 =>
              KBOUnbounded.traverse_loop functionColored fuel ts' stack3 coef
                (KBOUnbounded.visit functionColored st t coef)
          end).
  pose proof (positionsAfter_weight t next stack) as Hsplit.
  pose proof (segmentsWeight_nonneg (positionsAfter t next stack)) as Hrest.
  pose proof (up_nonneg coef _ Hrest) as Hup. pose proof (down_nonneg coef _ Hrest) as Hdown.
  rewrite Hsplit, up_add, down_add in *.
  destruct (visit_exact P N st t coef Hc Hb ltac:(lia) ltac:(lia)) as [Ev Hbv].
  rewrite Ev.
  destruct (positionsAfter t next stack) as [|ts' stack3].
  - split; [reflexivity|]. eapply bounded_mono; [exact Hbv|lia|lia].
  - destruct (IH ts' stack3 _ _ _ Hbv ltac:(lia) ltac:(lia)) as [El Hbl].
    rewrite El. split; [reflexivity|]. rewrite !Z.add_assoc. exact Hbl.
Qed.

Lemma traverse_exact P N st t coef :
  coef = 1 \/ coef = -1 -> bounded P N st ->
  P + up coef (W t) <= INT_MAX -> N + down coef (W t) <= INT_MAX ->
  traverse functionColored st t coef = KBOUnbounded.traverse functionColored st t coef /\
  bounded (P + up coef (W t)) (N + down coef (W t))
    (KBOUnbounded.traverse functionColored st t coef).
Proof.
  intros Hc Hb H1 H2. destruct t as [v|v|f args].
  - apply recordVariable_exact; assumption.
  - apply recordVariable_exact; assumption.
  - cbn [traverse KBOUnbounded.traverse]. cbn [weight] in *.
    rewrite up_add, down_add in *.
    pose proof (weights_nonneg args) as Hargs.
    pose proof (up_nonneg coef _ Hargs). pose proof (down_nonneg coef _ Hargs).
    pose proof (symbolWeight_range (Term f args)) as Hr. cbn [symbolWeight] in Hr.
    destruct (addWeight_exact P N st (functionSymbolWeight functionColored f) coef Hc
                ltac:(lia) Hb ltac:(lia) ltac:(lia)) as [Ea Hba].
    rewrite Ea. destruct args as [|a args].
    + split; [reflexivity|]. eapply bounded_mono; [exact Hba|lia|lia].
    + assert (Es : segmentsWeight [a :: args] = sumZ (map W (a :: args))).
      { unfold segmentsWeight, sumZ. cbn [map fold_right]. lia. }
      destruct (traverse_loop_exact coef Hc (list_sum (map tsize (a :: args))) (a :: args) []
                  _ _ _ Hba) as [El Hbl];
        [rewrite Es; lia|rewrite Es; lia|].
      rewrite El. split; [reflexivity|]. rewrite Es in Hbl. rewrite !Z.add_assoc. exact Hbl.
Qed.

(** The weights of the arguments that a two-term traversal has still to
    visit, on the side of the first term and on the side of the second. *)
Definition pendingLeft (stack : list (list TermList * list TermList)) : Z :=
  sumZ (map (fun p => sumZ (map W p.1)) stack).
Definition pendingRight (stack : list (list TermList * list TermList)) : Z :=
  sumZ (map (fun p => sumZ (map W p.2)) stack).

Lemma pendingLeft_cons ss tts stack :
  pendingLeft ((ss, tts) :: stack) = sumZ (map W ss) + pendingLeft stack.
Proof. reflexivity. Qed.

Lemma pendingRight_cons ss tts stack :
  pendingRight ((ss, tts) :: stack) = sumZ (map W tts) + pendingRight stack.
Proof. reflexivity. Qed.

Lemma pendingLeft_nonneg stack : 0 <= pendingLeft stack.
Proof.
  apply sumZ_nonneg, Forall_map, Forall_forall. intros x _. cbn. apply weights_nonneg.
Qed.

Lemma pendingRight_nonneg stack : 0 <= pendingRight stack.
Proof.
  apply sumZ_nonneg, Forall_map, Forall_forall. intros x _. cbn. apply weights_nonneg.
Qed.

Lemma weights_cons a l : sumZ (map W (a :: l)) = W a + sumZ (map W l).
Proof. reflexivity. Qed.

Lemma closeLevel_bounded P N depth lvd st :
  bounded P N st -> bounded P N (closeLevel depth lvd st).2.
Proof.
  intros Hb. unfold closeLevel. destruct (_ && _); [|exact Hb].
  cbn [snd]. destruct (negb _); exact Hb.
Qed.

Lemma traverse2_loop_exact fuel : forall stack depth lvd st P N,
  bounded P N st ->
  P + pendingLeft stack <= INT_MAX -> N + pendingRight stack <= INT_MAX ->
  traverse2_loop functionColored compareFunctionPrecedences fuel stack depth lvd st =
  KBOUnbounded.traverse2_loop functionColored compareFunctionPrecedences fuel stack depth
    lvd st.
Proof.
  induction fuel as [|fuel IH]; intros stack depth lvd st P N Hb H1 H2; [reflexivity|].
  cbn [traverse2_loop KBOUnbounded.traverse2_loop].
  destruct stack as [|[[|s ss'] tts] stack']; [reflexivity| |].
  - rewrite pendingLeft_cons, pendingRight_cons in *.
    pose proof (weights_nonneg tts).
    pose proof (closeLevel_bounded P N (depth - 1) lvd st Hb) as Hcl.
    destruct (closeLevel (depth - 1) lvd st) as [lvd' st']. cbn [snd] in Hcl.
    apply (IH _ _ _ _ P N Hcl); cbn [map sumZ fold_right] in *; lia.
  - destruct tts as [|t tt']; [reflexivity|].
    rewrite pendingLeft_cons, pendingRight_cons, !weights_cons in *.
    pose proof (weight_pos functionColored s) as Hs.
    pose proof (weight_pos functionColored t) as Ht.
    pose proof (weights_nonneg ss'). pose proof (weights_nonneg tt').
    pose proof (pendingLeft_nonneg stack'). pose proof (pendingRight_nonneg stack').
    destruct (bool_decide (s = t)).
    { apply (IH _ _ _ _ P N Hb); rewrite ?pendingLeft_cons, ?pendingRight_cons; lia. }
    destruct (sameTopFunctor s t).
    { destruct s as [v|v|f sargs], t as [w|w|g targs]; try reflexivity.
      pose proof (symbolWeight_range (Term f sargs)) as Hf.
      pose proof (symbolWeight_range (Term g targs)) as Hg.
      cbn [symbolWeight] in Hf, Hg. cbn [weight] in *.
      apply (IH _ _ _ _ P N Hb); rewrite ?pendingLeft_cons, ?pendingRight_cons; lia. }
    destruct (traverse_exact P N st s 1 (or_introl eq_refl) Hb) as [E1 Hb1];
      [change (up 1 (W s)) with (W s); lia|change (down 1 (W s)) with 0; lia|].
    change (up 1 (W s)) with (W s) in Hb1. change (down 1 (W s)) with 0 in Hb1.
    destruct (traverse_exact _ _ _ t (-1) (or_intror eq_refl) Hb1) as [E2 Hb2];
      [change (up (-1) (W t)) with 0; lia|change (down (-1) (W t)) with (W t); lia|].
    change (up (-1) (W t)) with 0 in Hb2. change (down (-1) (W t)) with (W t) in Hb2.
    rewrite E1, E2.
    destruct (bool_decide (_ = EQUAL)).
    + apply (IH _ _ _ _ _ _ (bounded_setLexResult _ _ _ _ Hb2));
        rewrite ?pendingLeft_cons, ?pendingRight_cons; lia.
    + apply (IH _ _ _ _ _ _ Hb2); rewrite ?pendingLeft_cons, ?pendingRight_cons; lia.
Qed.

(** [KBO::compare] on two terms whose weights are in the range of [int]
    answers as the comparison whose counters do not overflow. *)
Lemma compare_exact s t :
  W s <= INT_MAX -> W t <= INT_MAX ->
  compare functionColored compareFunctionPrecedences s t =
  KBOUnbounded.compare functionColored compareFunctionPrecedences s t.
Proof.
  intros Hs Ht. unfold compare, KBOUnbounded.compare.
  destruct (bool_decide (s = t)); [reflexivity|].
  destruct (isOrdinaryVar s); [reflexivity|]. destruct (isOrdinaryVar t); [reflexivity|].
  destruct (sameTopFunctor s t).
  - destruct s as [v|v|f ss], t as [w|w|g ts]; try reflexivity.
    cbn [traverse2 KBOUnbounded.traverse2]. cbn [weight] in Hs, Ht.
    pose proof (symbolWeight_range (Term f ss)) as Hf.
    pose proof (symbolWeight_range (Term g ts)) as Hg. cbn [symbolWeight] in Hf, Hg.
    rewrite (traverse2_loop_exact _ _ _ _ _ 0 0 bounded_init); [reflexivity| |];
      rewrite ?pendingLeft_cons, ?pendingRight_cons; cbn [pendingLeft pendingRight map sumZ
        fold_right]; lia.
  - destruct (traverse_exact 0 0 init s 1 (or_introl eq_refl) bounded_init) as [E1 Hb1];
      [change (up 1 (W s)) with (W s); lia|change (down 1 (W s)) with 0; unfold INT_MAX; lia|].
    change (up 1 (W s)) with (W s) in Hb1. change (down 1 (W s)) with 0 in Hb1.
    destruct (traverse_exact _ _ _ t (-1) (or_intror eq_refl) Hb1) as [E2 _];
      [change (up (-1) (W t)) with 0; lia|change (down (-1) (W t)) with (W t); lia|].
    rewrite E1, E2. reflexivity.
Qed.

End Exact.

(** **** What [KBO::compare] answers whatever the weights *)

Section Answers.
Variable functionColored : nat -> bool.
Variable compareFunctionPrecedences : nat -> nat -> Result.
Variable arityOf : nat -> nat.
Hypothesis precedence_total : forall f g,
  f <> g -> compareFunctionPrecedences f g = GREATER \/ compareFunctionPrecedences f g = LESS.

Definition isGround (t : TermList) : Prop := ground t = true.

Lemma positionsAfter_ground t next stack :
  Forall (Forall isGround) ((t :: next) :: stack) ->
  isTerm t = true /\ Forall (Forall isGround) (positionsAfter t next stack).
Proof.
  intros HF. apply Forall_cons in HF. destruct HF as [Htn Hst].
  apply Forall_cons in Htn. destruct Htn as [Ht Hn].
  destruct t as [v|v|f args]; try discriminate Ht. split; [reflexivity|].
  assert (Hargs : Forall isGround args).
  { unfold isGround in Ht. cbn [ground] in Ht. rewrite forallb_forall in Ht.
    apply Forall_forall. intros x Hx. apply Ht, list_elem_of_In, Hx. }
  unfold positionsAfter. destruct args as [|a args], next as [|n next];
    repeat first [assumption|apply Forall_cons; split].
Qed.

Lemma recordVariable_lexResult st v coef :
  _lexResult (recordVariable st v coef) = _lexResult st.
Proof.
  unfold recordVariable. cbv zeta.
  repeat match goal with |- context [if ?c then _ else _] => destruct c end; reflexivity.
Qed.

Lemma unbounded_recordVariable_lexResult st v coef :
  _lexResult (KBOUnbounded.recordVariable st v coef) = _lexResult st.
Proof.
  unfold KBOUnbounded.recordVariable. cbv zeta.
  repeat match goal with |- context [if ?c then _ else _] => destruct c end; reflexivity.
Qed.

(** A visit leaves [_lexResult] alone, and the counters of the variables
    too when the symbol is a function symbol. *)
Lemma visit_keeps st t coef :
  _lexResult (visit functionColored st t coef) = _lexResult st /\
  (isTerm t = true ->
   _posNum (visit functionColored st t coef) = _posNum st /\
   _negNum (visit functionColored st t coef) = _negNum st).
Proof.
  destruct t as [v|v|f args]; cbn [visit isTerm];
    try (split; [rewrite recordVariable_lexResult; reflexivity|discriminate]).
  split; [reflexivity|]. intros _. split; reflexivity.
Qed.

Lemma unbounded_visit_lexResult st t coef :
  _lexResult (KBOUnbounded.visit functionColored st t coef) = _lexResult st.
Proof.
  destruct t as [v|v|f args]; cbn [KBOUnbounded.visit];
    try (rewrite unbounded_recordVariable_lexResult); reflexivity.
Qed.

Lemma traverse_loop_keeps coef fuel : forall ts stack st,
  _lexResult (traverse_loop functionColored fuel ts stack coef st) = _lexResult st /\
  (Forall (Forall isGround) (ts :: stack) ->
   _posNum (traverse_loop functionColored fuel ts stack coef st) = _posNum st /\
   _negNum (traverse_loop functionColored fuel ts stack coef st) = _negNum st).
Proof.
  induction fuel as [|fuel IH]; intros ts stack st.
  { cbn [traverse_loop]. auto. }
  destruct ts as [|t next].
  { cbn [traverse_loop]. auto. }
  change (traverse_loop functionColored (S fuel) (t :: next) stack coef st)
    with (match positionsAfter t next stack with
          | [] => visit functionColored st t coef
          | ts' :: stack3 =>
              traverse_loop functionColored fuel ts' stack3 coef
                (visit functionColored st t coef)
          end).
  destruct (visit_keeps st t coef) as [Hl Hc].
  pose proof (positionsAfter_ground t next stack) as Hg.
  destruct (positionsAfter t next stack) as [|ts' stack3].
  - split; [exact Hl|]. intros HF. apply Hc, Hg, HF.
  - destruct (IH ts' stack3 (visit functionColored st t coef)) as [Hl' Hc'].
    split; [congruence|]. intros HF. destruct (Hg HF) as [Ht HF'].
    destruct (Hc Ht), (Hc' HF'). split; congruence.
Qed.

Lemma unbounded_traverse_loop_lexResult coef fuel : forall ts stack st,
  _lexResult (KBOUnbounded.traverse_loop functionColored fuel ts stack coef st)
  = _lexResult st.
Proof.
  induction fuel as [|fuel IH]; intros ts stack st; [reflexivity|].
  destruct ts as [|t next]; [reflexivity|].
  change (KBOUnbounded.traverse_loop functionColored (S fuel) (t :: next) stack coef st)
    with (match positionsAfter t next stack with
          | [] => KBOUnbounded.visit functionColored st t coef
          | ts' :: stack3 =>
              KBOUnbounded.traverse_loop functionColored fuel ts' stack3 coef
                (KBOUnbounded.visit functionColored st t coef)
          end).
  destruct (positionsAfter t next stack) as [|ts' stack3];
    [|rewrite IH]; apply unbounded_visit_lexResult.
Qed.

Lemma traverse_keeps st t coef :
  _lexResult (traverse functionColored st t coef) = _lexResult st /\
  (isGround t ->
   _posNum (traverse functionColored st t coef) = _posNum st /\
   _negNum (traverse functionColored st t coef) = _negNum st).
Proof.
  destruct t as [v|v|f args]; cbn [traverse];
    try (split; [rewrite recordVariable_lexResult; reflexivity|discriminate]).
  destruct args as [|a args].
  { split; [reflexivity|]. intros _. split; reflexivity. }
  destruct (traverse_loop_keeps coef (list_sum (map tsize (a :: args))) (a :: args) []
              (addWeight st (int_of (functionSymbolWeight functionColored f * coef))))
    as [Hl Hc].
  split; [exact Hl|]. intros Hg. apply Hc.
  apply Forall_cons. split; [|apply Forall_nil; exact I].
  unfold isGround in Hg. cbn [ground] in Hg. rewrite forallb_forall in Hg.
  apply Forall_forall. intros x Hx. apply Hg, list_elem_of_In, Hx.
Qed.

Lemma unbounded_traverse_lexResult st t coef :
  _lexResult (KBOUnbounded.traverse functionColored st t coef) = _lexResult st.
Proof.
  destruct t as [v|v|f [|a args]]; cbn [KBOUnbounded.traverse];
    try (rewrite unbounded_recordVariable_lexResult); try reflexivity.
  rewrite unbounded_traverse_loop_lexResult. reflexivity.
Qed.

(** The answers that are not one of GREATER_EQ and LESS_EQ. *)
Definition plain (r : Result) : Prop :=
  r = EQUAL \/ r = GREATER \/ r = LESS \/ r = INCOMPARABLE.

Definition decided (r : Result) : Prop := r = GREATER \/ r = LESS.

Lemma applyVariableCondition_answers st r :
  decided r ->
  (applyVariableCondition st r = r \/ applyVariableCondition st r = INCOMPARABLE) /\
  (_posNum st = 0 -> _negNum st = 0 -> applyVariableCondition st r = r).
Proof.
  intros Hr. unfold applyVariableCondition. split.
  - destruct (_ && _); [auto|]. destruct (_ && _); auto.
  - intros -> ->. reflexivity.
Qed.

(** The purported result of [innerResult] on two terms with distinct top
    symbols. *)
Lemma innerResult_answers st s t :
  sameTopFunctor s t = false ->
  (decided (innerResult compareFunctionPrecedences st s t) \/
   innerResult compareFunctionPrecedences st s t = INCOMPARABLE) /\
  (_posNum st = 0 -> _negNum st = 0 -> isTerm s = true -> isTerm t = true ->
   decided (innerResult compareFunctionPrecedences st s t)).
Proof.
  intros Hdiff. unfold innerResult.
  set (p := if negb (_weightDiff st =? 0) then
              if 0 <? _weightDiff st then GREATER else LESS
            else match s, t with
                 | Term f1 _, Term f2 _ => compareFunctionPrecedences f1 f2
                 | Term _ _, _ => GREATER
                 | _, _ => LESS
                 end).
  assert (Hp : decided p).
  { unfold p, decided. destruct (negb _); [destruct (0 <? _); auto|].
    destruct s as [v|v|f ss], t as [w|w|g ts]; auto.
    apply precedence_total. cbn [sameTopFunctor] in Hdiff. apply Nat.eqb_neq, Hdiff. }
  destruct (applyVariableCondition_answers st p Hp) as [Ha Hz]. split.
  - destruct (_ && _); [auto|]. destruct Ha as [-> | ->]; auto.
  - intros Hpos Hneg _ _. rewrite Hpos, Hneg. cbn [Z.ltb Z.compare andb].
    rewrite (Hz Hpos Hneg). exact Hp.
Qed.

(** The state of the code against the state of the comparison whose
    counters do not overflow: the lexicographic result is set in both or in
    neither; when [g] is set, the terms are ground and the code has counted
    no variable. *)
Definition related (g : bool) (stw stu : State) : Prop :=
  (_lexResult stw = EQUAL <-> _lexResult stu = EQUAL) /\ plain (_lexResult stw) /\
  (g = true -> _posNum stw = 0 /\ _negNum stw = 0 /\ _lexResult stw <> INCOMPARABLE).

Lemma related_init g : related g init init.
Proof.
  split; [reflexivity|]. split; [left; reflexivity|]. intros _.
  repeat split; discriminate.
Qed.

Lemma closeLevel_settled_answer depth lvd st :
  _lexResult st <> EQUAL -> plain (_lexResult st) ->
  _posNum (closeLevel depth lvd st).2 = _posNum st /\
  _negNum (closeLevel depth lvd st).2 = _negNum st /\
  _lexResult (closeLevel depth lvd st).2 <> EQUAL /\
  plain (_lexResult (closeLevel depth lvd st).2) /\
  (_posNum st = 0 -> _negNum st = 0 -> _lexResult st <> INCOMPARABLE ->
   _lexResult (closeLevel depth lvd st).2 <> INCOMPARABLE).
Proof.
  intros Hne Hplain. unfold closeLevel.
  destruct (_ && _); [|cbn [snd]; repeat split; auto].
  cbn [snd]. unfold plain in *.
  set (st1 := if negb (_weightDiff st =? 0)
              then setLexResult st (if 0 <? _weightDiff st then GREATER else LESS)
              else st).
  assert (H1 : _posNum st1 = _posNum st /\ _negNum st1 = _negNum st /\
               (decided (_lexResult st1) \/ _lexResult st1 = INCOMPARABLE) /\
               (_lexResult st <> INCOMPARABLE -> decided (_lexResult st1))).
  { unfold st1, decided. destruct (negb _).
    - cbn. destruct (0 <? _); auto 6.
    - repeat split; try reflexivity; destruct Hplain as [E|[E|[E|E]]]; auto; congruence. }
  destruct H1 as (Hp1 & Hn1 & Hl1 & Hd1).
  cbn [setLexResult _posNum _negNum _lexResult]. rewrite Hp1, Hn1.
  split; [reflexivity|]. split; [reflexivity|].
  assert (Hcases : decided (applyVariableCondition st1 (_lexResult st1)) \/
                   applyVariableCondition st1 (_lexResult st1) = INCOMPARABLE).
  { destruct Hl1 as [Hd|Hi].
    - destruct (applyVariableCondition_answers st1 _ Hd) as [[E|E] _]; rewrite E; auto.
    - rewrite Hi. unfold applyVariableCondition. cbn [isLessOrLeOrE isGorGEorE].
      rewrite !andb_false_r. auto. }
  split; [destruct Hcases as [[E|E]|E]; rewrite E; discriminate|].
  split; [destruct Hcases as [[E|E]|E]; rewrite E; auto|].
  intros Hp0 Hn0 Hni. specialize (Hd1 Hni).
  destruct (applyVariableCondition_answers st1 _ Hd1) as [_ Hz].
  rewrite Hz by congruence. destruct Hd1 as [E|E]; rewrite E; discriminate.
Qed.

Lemma closeLevel_related g depth lvd stw stu :
  related g stw stu ->
  (closeLevel depth lvd stw).1 = (closeLevel depth lvd stu).1 /\
  related g (closeLevel depth lvd stw).2 (closeLevel depth lvd stu).2.
Proof.
  intros (Hiff & Hplain & Hg).
  destruct (decide (_lexResult stw = EQUAL)) as [Ew|Ew].
  - pose proof (proj1 Hiff Ew) as Eu. unfold closeLevel.
    rewrite !bool_decide_eq_true_2 by assumption. cbn [negb andb fst snd].
    split; [reflexivity|]. split; [exact Hiff|]. split; assumption.
  - assert (Eu : _lexResult stu <> EQUAL) by (intros E; apply Ew, Hiff, E).
    split.
    + unfold closeLevel. rewrite !bool_decide_eq_false_2 by assumption.
      cbn [negb andb]. destruct (Nat.ltb depth lvd); reflexivity.
    + destruct (closeLevel_settled_answer depth lvd stw Ew Hplain)
        as (Hp & Hn & Hne & Hpl & Hni).
      assert (Hu : _lexResult (closeLevel depth lvd stu).2 <> EQUAL).
      { unfold closeLevel. rewrite bool_decide_eq_false_2 by assumption. cbn [negb andb].
        destruct (Nat.ltb depth lvd); [|exact Eu]. cbn [snd setLexResult _lexResult].
        unfold applyVariableCondition.
        destruct (negb (_weightDiff stu =? 0)); cbn [setLexResult _lexResult _posNum _negNum].
        - destruct (0 <? _weightDiff stu); cbn [isLessOrLeOrE isGorGEorE];
            rewrite ?andb_false_r, ?andb_true_r;
            repeat match goal with |- context [if ?c then _ else _] => destruct c end;
            discriminate.
        - destruct (_lexResult stu); try congruence; cbn [isLessOrLeOrE isGorGEorE];
            rewrite ?andb_false_r, ?andb_true_r;
            repeat match goal with |- context [if ?c then _ else _] => destruct c end;
            discriminate. }
      split; [split; intros E; contradiction|]. split; [exact Hpl|].
      intros Eg. destruct (Hg Eg) as (Hp0 & Hn0 & Hi0).
      rewrite Hp, Hn. repeat split; auto.
Qed.

Lemma traverse2_loop_related g fuel : forall stack depth lvd stw stu,
  related g stw stu ->
  (g = true -> Forall (fun p => Forall isGround p.1 /\ Forall isGround p.2) stack) ->
  related g
    (traverse2_loop functionColored compareFunctionPrecedences fuel stack depth lvd stw)
    (KBOUnbounded.traverse2_loop functionColored compareFunctionPrecedences fuel stack depth
       lvd stu).
Proof.
  induction fuel as [|fuel IH]; intros stack depth lvd stw stu Hrel Hgr; [exact Hrel|].
  cbn [traverse2_loop KBOUnbounded.traverse2_loop].
  destruct stack as [|[[|s ss'] tts] stack']; [exact Hrel| |].
  - destruct (closeLevel_related g (depth - 1) lvd stw stu Hrel) as [E1 Hrel'].
    destruct (closeLevel (depth - 1) lvd stw) as [lw stw'].
    destruct (closeLevel (depth - 1) lvd stu) as [lu stu'].
    cbn [fst snd] in E1, Hrel'. subst lu. apply IH; [exact Hrel'|].
    intros Eg. specialize (Hgr Eg). apply Forall_cons in Hgr. apply Hgr.
  - destruct tts as [|t tt']; [exact Hrel|].
    assert (Hrest : g = true ->
              Forall (fun p => Forall isGround p.1 /\ Forall isGround p.2)
                ((ss', tt') :: stack') /\ isGround s /\ isGround t).
    { intros Eg. specialize (Hgr Eg). apply Forall_cons in Hgr.
      destruct Hgr as [[Hs Ht] Hst]. cbn [fst snd] in Hs, Ht.
      apply Forall_cons in Hs, Ht. destruct Hs as [Hs Hss], Ht as [Ht Htt].
      split; [|split; assumption]. apply Forall_cons. split; [split; assumption|exact Hst]. }
    destruct (bool_decide (s = t)).
    { apply IH; [exact Hrel|]. intros Eg. apply (Hrest Eg). }
    destruct (sameTopFunctor s t) eqn:Hsame.
    { destruct s as [v|v|f sargs], t as [w|w|h targs]; try exact Hrel.
      apply IH; [exact Hrel|]. intros Eg. destruct (Hrest Eg) as (Hst & Hs & Ht).
      apply Forall_cons. split; [|exact Hst]. cbn [fst snd].
      unfold isGround in Hs, Ht. cbn [ground] in Hs, Ht. rewrite forallb_forall in Hs, Ht.
      split; apply Forall_forall; intros x Hx;
        [apply Hs|apply Ht]; apply list_elem_of_In, Hx. }
    set (st1w := traverse functionColored (traverse functionColored stw s 1) t (-1)).
    set (st1u := KBOUnbounded.traverse functionColored
                   (KBOUnbounded.traverse functionColored stu s 1) t (-1)).
    destruct Hrel as (Hiff & Hplain & Hg).
    destruct (traverse_keeps stw s 1) as [Hl1 Hc1].
    destruct (traverse_keeps (traverse functionColored stw s 1) t (-1)) as [Hl2 Hc2].
    assert (Elw : _lexResult st1w = _lexResult stw) by (unfold st1w; congruence).
    assert (Elu : _lexResult st1u = _lexResult stu).
    { unfold st1u. rewrite !unbounded_traverse_lexResult. reflexivity. }
    assert (Hcount : g = true -> _posNum st1w = 0 /\ _negNum st1w = 0).
    { intros Eg. destruct (Hrest Eg) as (_ & Hs & Ht). destruct (Hg Eg) as (Hp0 & Hn0 & _).
      destruct (Hc1 Hs), (Hc2 Ht). unfold st1w. split; congruence. }
    assert (Hrel1 : related g st1w st1u).
    { split; [rewrite Elw, Elu; exact Hiff|]. split; [rewrite Elw; exact Hplain|].
      intros Eg. destruct (Hcount Eg). destruct (Hg Eg) as (_ & _ & Hi).
      repeat split; try assumption. rewrite Elw. exact Hi. }
    destruct (decide (_lexResult st1w = EQUAL)) as [Ew|Ew].
    + rewrite !bool_decide_eq_true_2 by (try exact Ew; apply (proj1 Hrel1), Ew).
      apply IH; [|intros Eg; apply (Hrest Eg)].
      destruct (innerResult_answers st1w s t Hsame) as [Hw Hwg].
      destruct (innerResult_answers st1u s t Hsame) as [Hu _].
      cbn [related setLexResult _lexResult _posNum _negNum]. unfold related.
      cbn [setLexResult _lexResult _posNum _negNum].
      split; [|split].
      * split; intros E; [destruct Hw as [[H|H]|H]|destruct Hu as [[H|H]|H]]; congruence.
      * unfold plain. destruct Hw as [[H|H]|H]; rewrite H; auto.
      * intros Eg. destruct (Hcount Eg) as [Hp0 Hn0]. destruct (Hrest Eg) as (_ & Hs & Ht).
        split; [exact Hp0|]. split; [exact Hn0|].
        assert (Hts : isTerm s = true) by (destruct s; try discriminate Hs; reflexivity).
        assert (Htt : isTerm t = true) by (destruct t; try discriminate Ht; reflexivity).
        destruct (Hwg Hp0 Hn0 Hts Htt) as [H|H]; rewrite H; discriminate.
    + rewrite !bool_decide_eq_false_2
        by (try exact Ew; intros E; apply Ew, (proj2 (proj1 Hrel1)), E).
      apply IH; [exact Hrel1|]. intros Eg. apply (Hrest Eg).
Qed.

(** [KBO::compare] on two distinct terms of a signature never answers
    EQUAL, GREATER_EQ or LESS_EQ, whatever their weights. *)
Lemma compare_answers s t :
  wellFormed arityOf s = true -> wellFormed arityOf t = true -> s <> t ->
  (decided (compare functionColored compareFunctionPrecedences s t) \/
   compare functionColored compareFunctionPrecedences s t = INCOMPARABLE) /\
  (isGround s -> isGround t ->
   decided (compare functionColored compareFunctionPrecedences s t)).
Proof.
  intros Hs Ht Hne. unfold compare. rewrite bool_decide_eq_false_2 by exact Hne.
  destruct s as [v|v|f ss]; try discriminate Hs.
  { cbn [isOrdinaryVar]. unfold decided.
    split; [destruct (containsSubterm _ _); auto|discriminate]. }
  destruct t as [w|w|h ts]; try discriminate Ht.
  { cbn [isOrdinaryVar]. unfold decided.
    split; [destruct (containsSubterm _ _); auto|intros _ H; discriminate H]. }
  cbn [isOrdinaryVar].
  set (st := if sameTopFunctor (Term f ss) (Term h ts)
             then traverse2 functionColored compareFunctionPrecedences init
                    (Term f ss) (Term h ts)
             else traverse functionColored (traverse functionColored init (Term f ss) 1)
                    (Term h ts) (-1)).
  assert (Hst : (sameTopFunctor (Term f ss) (Term h ts) = true ->
                 _lexResult st <> EQUAL /\ plain (_lexResult st)) /\
                (isGround (Term f ss) -> isGround (Term h ts) ->
                 _posNum st = 0 /\ _negNum st = 0 /\ _lexResult st <> INCOMPARABLE)).
  { unfold st. destruct (sameTopFunctor (Term f ss) (Term h ts)) eqn:Hsame.
    - assert (Hrel : forall g, (g = true -> isGround (Term f ss) /\ isGround (Term h ts)) ->
                related g
                  (traverse2 functionColored compareFunctionPrecedences init
                     (Term f ss) (Term h ts))
                  (KBOUnbounded.traverse2 functionColored compareFunctionPrecedences init
                     (Term f ss) (Term h ts))).
      { intros g Hg. cbn [traverse2 KBOUnbounded.traverse2].
        apply traverse2_loop_related; [apply related_init|].
        intros Eg. destruct (Hg Eg) as [Hgs Hgt].
        unfold isGround in Hgs, Hgt. cbn [ground] in Hgs, Hgt.
        rewrite forallb_forall in Hgs, Hgt.
        apply Forall_cons. split; [|apply Forall_nil; exact I]. cbn [fst snd].
        split; apply Forall_forall; intros x Hx;
          [apply Hgs|apply Hgt]; apply list_elem_of_In, Hx. }
      pose proof (traverse2_settles functionColored compareFunctionPrecedences arityOf
                    precedence_total _ _ Hs Ht Hsame Hne) as Hu.
      split.
      + intros _. destruct (Hrel false ltac:(discriminate)) as (Hiff & Hpl & _).
        split; [intros E; apply Hu, Hiff, E|exact Hpl].
      + intros Hgs Hgt. destruct (Hrel true ltac:(auto)) as (_ & _ & Hg). apply Hg.
        reflexivity.
    - split; [discriminate|]. intros Hgs Hgt.
      destruct (traverse_keeps init (Term f ss) 1) as [Hl1 Hc1].
      destruct (traverse_keeps (traverse functionColored init (Term f ss) 1) (Term h ts) (-1))
        as [Hl2 Hc2].
      destruct (Hc1 Hgs) as [Hp1 Hn1], (Hc2 Hgt) as [Hp2 Hn2].
      rewrite Hp2, Hn2, Hp1, Hn1, Hl2, Hl1. repeat split; discriminate. }
  destruct Hst as [Hsame Hground]. unfold result.
  set (p := if negb (_weightDiff st =? 0) then
              if 0 <? _weightDiff st then GREATER else LESS
            else if negb (Nat.eqb f h) then compareFunctionPrecedences f h
                 else _lexResult st).
  assert (Hp : decided p \/ p = INCOMPARABLE).
  { unfold p, decided. destruct (negb (_weightDiff st =? 0)); [destruct (0 <? _); auto|].
    destruct (Nat.eqb_spec f h) as [E|E]; cbn [negb].
    - destruct Hsame as [Hne' Hpl]; [cbn; apply Nat.eqb_eq, E|].
      destruct Hpl as [H|[H|[H|H]]]; auto. contradiction.
    - left. apply precedence_total, E. }
  split.
  - destruct Hp as [Hd|Hi].
    + destruct (applyVariableCondition_answers st p Hd) as [[E|E] _]; rewrite E; auto.
    + rewrite Hi. unfold applyVariableCondition. cbn [isLessOrLeOrE isGorGEorE].
      rewrite !andb_false_r. auto.
  - intros Hgs Hgt. destruct (Hground Hgs Hgt) as (Hp0 & Hn0 & Hni).
    assert (Hd : decided p).
    { destruct Hp as [Hd|Hi]; [exact Hd|]. exfalso. unfold p in Hi.
      destruct (negb (_weightDiff st =? 0)); [destruct (0 <? _); discriminate|].
      destruct (Nat.eqb_spec f h) as [E|E]; cbn [negb] in Hi; [contradiction|].
      destruct (precedence_total f h E); congruence. }
    destruct (applyVariableCondition_answers st p Hd) as [_ Hz].
    rewrite (Hz Hp0 Hn0). exact Hd.
Qed.

End Answers.
End KBOInt.

(** A precedence for the examples: the function symbols in the order of
    their numbers. *)
Definition example_precedence (f g : nat) : Result :=
  if Nat.ltb f g then LESS else if Nat.ltb g f then GREATER else EQUAL.

Lemma example_precedence_total f g :
  f <> g -> example_precedence f g = GREATER \/ example_precedence f g = LESS.
Proof.
  intros Hne. unfold example_precedence.
  destruct (Nat.ltb_spec f g); [right; reflexivity|].
  destruct (Nat.ltb_spec g f); [left; reflexivity|lia].
Defined.

Lemma example_precedence_antisymmetric f g :
  f <> g -> example_precedence g f = reverse (example_precedence f g).
Proof.
  intros Hne. unfold example_precedence.
  destruct (Nat.ltb_spec f g), (Nat.ltb_spec g f); try reflexivity; lia.
Defined.

(** The signature of the examples: the constants 0 and 1, the unary symbol
    2 and binary symbols. *)
Definition example_arity (f : nat) : nat :=
  match f with
  | 0 | 1 => 0
  | 2 => 1
  | _ => 2
  end%nat.

(** h(x, g(a)) and h(x, g(b)) *)
Definition example_s : TermList := Term 3 [Var 0; Term 2 [Term 0 []]].
Definition example_t : TermList := Term 3 [Var 0; Term 2 [Term 1 []]].

(** The term f^n(a), and a signature in which f is colored. *)
Definition example_tower (n : nat) : TermList :=
  Nat.iter n (fun t => Term 2 [t]) (Term 0 []).
Definition example_colored (f : nat) : bool := Nat.eqb f 2.
Definition example_height : nat := Z.to_nat 32768.

Lemma example_tower_S n : example_tower (S n) = Term 2 [example_tower n].
Proof. reflexivity. Qed.

Lemma example_tower_wellFormed n :
  KBOSpec.wellFormed example_arity (example_tower n) = true.
Proof.
  induction n as [|n IH]; [reflexivity|]. rewrite example_tower_S.
  change (KBOSpec.wellFormed example_arity (Term 2 [example_tower n]))
    with (Nat.eqb 1 1 && (KBOSpec.wellFormed example_arity (example_tower n) && true)).
  rewrite IH. reflexivity.
Qed.

Lemma example_tower_tsize n : KBO.tsize (example_tower n) = S n.
Proof.
  induction n as [|n IH]; [reflexivity|]. rewrite example_tower_S.
  change (KBO.tsize (Term 2 [example_tower n]))
    with (S (KBO.tsize (example_tower n) + 0)).
  rewrite IH. lia.
Qed.

Lemma example_tower_variables n : variables (example_tower n) = [].
Proof.
  induction n as [|n IH]; [reflexivity|]. rewrite example_tower_S.
  change (variables (Term 2 [example_tower n])) with (variables (example_tower n) ++ []).
  rewrite IH. reflexivity.
Qed.

(** The weight of f^n(a), f colored: n * 0x10000 + 1. *)
Lemma example_tower_weight n :
  KBOSpec.weight example_colored (example_tower n) = 65536 * Z.of_nat n + 1.
Proof.
  induction n as [|n IH]; [reflexivity|]. rewrite example_tower_S.
  change (KBOSpec.weight example_colored (Term 2 [example_tower n]))
    with (65536 + (KBOSpec.weight example_colored (example_tower n) + 0)).
  rewrite IH. lia.
Qed.

Lemma example_tower_table n :
  (0 < n)%nat ->
  KBOSpec.decisionTable example_colored example_precedence (example_tower n) (Term 1 [])
  = GREATER.
Proof.
  intros Hn. rewrite KBOSpec.decisionTable_eq.
  assert (Hw : KBOSpec.weight example_colored (example_tower n)
               - KBOSpec.weight example_colored (Term 1 []) = 65536 * Z.of_nat n).
  { rewrite example_tower_weight.
    change (KBOSpec.weight example_colored (Term 1 [])) with 1. lia. }
  rewrite Hw. rewrite (proj2 (Z.eqb_neq _ 0)) by lia. cbn [negb]. unfold KBOSpec.sign.
  rewrite (proj2 (Z.ltb_lt 0 _)) by lia.
  unfold KBOSpec.variableCondition, KBOSpec.occursMoreIn.
  rewrite example_tower_variables. reflexivity.
Qed.

(** Two additions into an [int] leave what one addition of the sum
    leaves. *)
Lemma int_of_add_l a b : KBO.int_of (KBO.int_of a + b) = KBO.int_of (a + b).
Proof.
  unfold KBO.int_of, to_unsigned. f_equal. unfold to_int.
  destruct (a mod UINT_MOD <? 2 ^ 31).
  - apply Z.add_mod_idemp_l. unfold UINT_MOD. lia.
  - replace (a mod UINT_MOD - UINT_MOD + b) with (a mod UINT_MOD + b + (-1) * UINT_MOD) by lia.
    rewrite Z.mod_add by (unfold UINT_MOD; lia).
    apply Z.add_mod_idemp_l. unfold UINT_MOD. lia.
Qed.

Lemma int_of_add_r a b : KBO.int_of (a + KBO.int_of b) = KBO.int_of (a + b).
Proof. rewrite Z.add_comm, int_of_add_l, Z.add_comm. reflexivity. Qed.

(** The state with another weight difference. *)
Definition example_weighed (st : KBO.State) (w : Z) : KBO.State :=
  KBO.mkState w (KBO._varDiffs st) (KBO._posNum st) (KBO._negNum st) (KBO._lexResult st).

Lemma example_tower_loop n : forall fuel coef st,
  (n < fuel)%nat ->
  KBO.traverse_loop example_colored fuel [example_tower n] [] coef st =
  example_weighed st (KBO.int_of (KBO._weightDiff st + coef * (65536 * Z.of_nat n + 1))).
Proof.
  induction n as [|n IH]; intros fuel coef st Hf; (destruct fuel as [|fuel]; [lia|]).
  - change (KBO.traverse_loop example_colored (S fuel) [example_tower 0] [] coef st)
      with (KBO.addWeight st (KBO.int_of (1 * coef))).
    unfold KBO.addWeight, example_weighed. f_equal. rewrite int_of_add_r. f_equal. lia.
  - rewrite example_tower_S.
    change (KBO.traverse_loop example_colored (S fuel) [Term 2 [example_tower n]] [] coef st)
      with (KBO.traverse_loop example_colored fuel [example_tower n] [] coef
              (KBO.addWeight st (KBO.int_of (65536 * coef)))).
    rewrite IH by lia. unfold KBO.addWeight, example_weighed.
    cbn [KBO._weightDiff KBO._varDiffs KBO._posNum KBO._negNum KBO._lexResult].
    f_equal. rewrite int_of_add_r, int_of_add_l. f_equal. lia.
Qed.

Lemma example_tower_traverse n coef st :
  KBO.traverse example_colored st (example_tower n) coef =
  example_weighed st (KBO.int_of (KBO._weightDiff st + coef * (65536 * Z.of_nat n + 1))).
Proof.
  destruct n as [|n].
  - change (KBO.traverse example_colored st (example_tower 0) coef)
      with (KBO.addWeight st (KBO.int_of (1 * coef))).
    unfold KBO.addWeight, example_weighed. f_equal. rewrite int_of_add_r. f_equal. lia.
  - rewrite example_tower_S.
    change (KBO.traverse example_colored st (Term 2 [example_tower n]) coef)
      with (KBO.traverse_loop example_colored (KBO.tsize (example_tower n) + 0)
              [example_tower n] [] coef (KBO.addWeight st (KBO.int_of (65536 * coef)))).
    rewrite example_tower_tsize, example_tower_loop by lia.
    unfold KBO.addWeight, example_weighed.
    cbn [KBO._weightDiff KBO._varDiffs KBO._posNum KBO._negNum KBO._lexResult].
    f_equal. rewrite int_of_add_r, int_of_add_l. f_equal. lia.
Qed.

(** The comparisons of f^n(a) and the constant b go by the weight
    difference n * 0x10000 as it is left in an [int]. *)
Lemma example_tower_compare_left n :
  (0 < n)%nat -> KBO.int_of (65536 * Z.of_nat n) < 0 ->
  KBO.compare example_colored example_precedence (example_tower n) (Term 1 []) = LESS.
Proof.
  intros Hn Hneg. destruct n as [|n]; [lia|].
  unfold KBO.compare. rewrite example_tower_S.
  rewrite bool_decide_eq_false_2 by discriminate.
  change (isOrdinaryVar (Term 2 [example_tower n])) with false.
  change (isOrdinaryVar (Term 1 [])) with false.
  change (sameTopFunctor (Term 2 [example_tower n]) (Term 1 [])) with false.
  cbv iota. rewrite <- example_tower_S, example_tower_traverse.
  change (KBO.traverse example_colored ?st (Term 1 []) (-1))
    with (KBO.addWeight st (KBO.int_of (1 * -1))).
  unfold KBO.addWeight, example_weighed, KBO.init.
  cbn [KBO._weightDiff KBO._varDiffs KBO._posNum KBO._negNum KBO._lexResult].
  rewrite int_of_add_r, int_of_add_l.
  replace (0 + 1 * (65536 * Z.of_nat (S n) + 1) + 1 * -1) with (65536 * Z.of_nat (S n)) by lia.
  unfold KBO.result, KBO.applyVariableCondition.
  cbn [KBO._weightDiff KBO._posNum KBO._negNum].
  rewrite (proj2 (Z.eqb_neq _ 0)) by lia. cbn [negb].
  rewrite (proj2 (Z.ltb_ge 0 (KBO.int_of (65536 * Z.of_nat (S n))))) by lia. reflexivity.
Qed.

Lemma example_tower_compare_right n :
  (0 < n)%nat -> KBO.int_of (- (65536 * Z.of_nat n)) < 0 ->
  KBO.compare example_colored example_precedence (Term 1 []) (example_tower n) = LESS.
Proof.
  intros Hn Hneg. destruct n as [|n]; [lia|].
  unfold KBO.compare. rewrite example_tower_S.
  rewrite bool_decide_eq_false_2 by discriminate.
  change (isOrdinaryVar (Term 2 [example_tower n])) with false.
  change (isOrdinaryVar (Term 1 [])) with false.
  change (sameTopFunctor (Term 1 []) (Term 2 [example_tower n])) with false.
  cbv iota. rewrite <- example_tower_S, example_tower_traverse.
  change (KBO.traverse example_colored KBO.init (Term 1 []) 1)
    with (KBO.addWeight KBO.init (KBO.int_of (1 * 1))).
  unfold KBO.addWeight, example_weighed, KBO.init.
  cbn [KBO._weightDiff KBO._varDiffs KBO._posNum KBO._negNum KBO._lexResult].
  rewrite int_of_add_r, int_of_add_l.
  replace (0 + 1 * 1 + -1 * (65536 * Z.of_nat (S n) + 1))
    with (- (65536 * Z.of_nat (S n))) by lia.
  unfold KBO.result, KBO.applyVariableCondition.
  cbn [KBO._weightDiff KBO._posNum KBO._negNum].
  rewrite (proj2 (Z.eqb_neq _ 0)) by lia. cbn [negb].
  rewrite (proj2 (Z.ltb_ge 0 (KBO.int_of (- (65536 * Z.of_nat (S n)))))) by lia.
  reflexivity.
Qed.

Lemma example_height_value : Z.of_nat example_height = 32768.
Proof. unfold example_height. apply Z2Nat.id. lia. Qed.

Lemma example_height_positive : (0 < example_height)%nat.
Proof. apply Nat2Z.inj_lt. rewrite example_height_value. lia. Qed.

(** The comparisons of f^32768(a) and the constant b, in which the weight
    difference 2^31 is one more than the largest [int]. *)
Lemma example_tower_compare :
  KBO.compare example_colored example_precedence (example_tower example_height) (Term 1 [])
  = LESS /\
  KBO.compare example_colored example_precedence (Term 1 []) (example_tower example_height)
  = LESS.
Proof.
  split.
  - apply example_tower_compare_left; [exact example_height_positive|].
    rewrite example_height_value. reflexivity.
  - apply example_tower_compare_right; [exact example_height_positive|].
    rewrite example_height_value. reflexivity.
Qed.

(** C3 (as amended).  On two distinct terms over a signature whose
    weights are in the range of [int], with a total precedence of the
    function symbols, [KBO::compare] returns the outcome of the decision
    table: the purported result is the sign of the weight difference
    W(s) - W(t) if it is not zero, else the precedence comparison if the top
    symbols differ (a variable being below the term it is compared with, as
    in [innerResult]), else the lexicographic result, which is the table's
    outcome on the first pair of arguments that differ; and the purported
    result is replaced by INCOMPARABLE when a variable occurs more often in
    the side it claims smaller. *)
Theorem kbo_compare_follows_decision_table
    (functionColored : nat -> bool) (compareFunctionPrecedences : nat -> nat -> Result)
    (arityOf : nat -> nat) (s t : TermList) :
  (forall f g, f <> g ->
     compareFunctionPrecedences f g = GREATER \/ compareFunctionPrecedences f g = LESS) ->
  KBOSpec.wellFormed arityOf s = true -> KBOSpec.wellFormed arityOf t = true ->
  s <> t ->
  KBOSpec.weight functionColored s <= KBO.INT_MAX ->
  KBOSpec.weight functionColored t <= KBO.INT_MAX ->
  KBO.compare functionColored compareFunctionPrecedences s t =
  KBOSpec.decisionTable functionColored compareFunctionPrecedences s t.
Proof.
  intros Htotal Hs Ht Hne Hws Hwt.
  rewrite (KBOInt.compare_exact _ _ s t Hws Hwt).
  exact (KBOSpec.compare_decisionTable functionColored compareFunctionPrecedences arityOf
           Htotal s t Hs Ht Hne).
Qed.

Lemma kbo_compare_follows_decision_table_witness :
  KBO.compare (fun _ => false) example_precedence example_s example_t =
  KBOSpec.decisionTable (fun _ => false) example_precedence example_s example_t.
Proof.
  apply (kbo_compare_follows_decision_table _ _ example_arity).
  - exact example_precedence_total.
  - reflexivity.
  - reflexivity.
  - discriminate.
  - vm_compute. discriminate.
  - vm_compute. discriminate.
Defined.

(** C3 as stated fails: f^32768(a), with f colored, weighs
    32768 * 65536 + 1 and the constant b weighs 1; the difference 2^31 does
    not fit [_weightDiff], which is left negative, and [KBO::compare] answers
    LESS where the sign of W(s) - W(t) is GREATER. *)
Lemma kbo_compare_follows_decision_table_counterexample :
  KBOSpec.wellFormed example_arity (example_tower example_height) = true /\
  KBOSpec.wellFormed example_arity (Term 1 []) = true /\
  KBOSpec.weight example_colored (example_tower example_height)
  - KBOSpec.weight example_colored (Term 1 []) = 2 ^ 31 /\
  KBOSpec.decisionTable example_colored example_precedence (example_tower example_height) (Term 1 [])
  = GREATER /\
  KBO.compare example_colored example_precedence (example_tower example_height) (Term 1 []) = LESS.
Proof.
  split; [apply example_tower_wellFormed|]. split; [reflexivity|].
  split; [rewrite example_tower_weight, example_height_value; reflexivity|].
  split; [apply example_tower_table, example_height_positive|].
  exact (proj1 example_tower_compare).
Qed.

(** C4 (as amended).  [KBO::compare] of a term with itself is EQUAL; over
    a signature with a total precedence that is reversed when its arguments
    are exchanged, and for two terms whose weights are in the range of
    [int], [compare s t] is GREATER exactly when [compare t s] is LESS, and
    the two are never both GREATER. *)
Theorem kbo_stability
    (functionColored : nat -> bool) (compareFunctionPrecedences : nat -> nat -> Result)
    (arityOf : nat -> nat) (s t : TermList) :
  (forall f g, f <> g ->
     compareFunctionPrecedences f g = GREATER \/ compareFunctionPrecedences f g = LESS) ->
  (forall f g, f <> g ->
     compareFunctionPrecedences g f = reverse (compareFunctionPrecedences f g)) ->
  KBOSpec.wellFormed arityOf s = true -> KBOSpec.wellFormed arityOf t = true ->
  KBOSpec.weight functionColored s <= KBO.INT_MAX ->
  KBOSpec.weight functionColored t <= KBO.INT_MAX ->
  KBO.compare functionColored compareFunctionPrecedences s s = EQUAL /\
  (KBO.compare functionColored compareFunctionPrecedences s t = GREATER <->
   KBO.compare functionColored compareFunctionPrecedences t s = LESS) /\
  ~ (KBO.compare functionColored compareFunctionPrecedences s t = GREATER /\
     KBO.compare functionColored compareFunctionPrecedences t s = GREATER).
Proof.
  intros Htotal Hanti Hs Ht Hws Hwt.
  assert (Hrefl : forall u, KBO.compare functionColored compareFunctionPrecedences u u = EQUAL).
  { intros u. unfold KBO.compare. rewrite bool_decide_eq_true_2 by reflexivity. reflexivity. }
  split; [apply Hrefl|].
  assert (Hrev : KBO.compare functionColored compareFunctionPrecedences t s =
                 reverse (KBO.compare functionColored compareFunctionPrecedences s t)).
  { destruct (decide (s = t)) as [<-|Hne]; [rewrite Hrefl; reflexivity|].
    rewrite (KBOInt.compare_exact _ _ s t Hws Hwt), (KBOInt.compare_exact _ _ t s Hwt Hws).
    rewrite (KBOSpec.compare_decisionTable _ _ arityOf Htotal s t Hs Ht Hne).
    rewrite (KBOSpec.compare_decisionTable _ _ arityOf Htotal t s Ht Hs ltac:(congruence)).
    apply (KBOSpec.decisionTable_reverse _ _ arityOf Hanti); assumption. }
  rewrite Hrev.
  destruct (KBO.compare functionColored compareFunctionPrecedences s t); simpl;
    split; try split; try discriminate; try reflexivity; intros [? ?]; discriminate.
Qed.

Lemma kbo_stability_witness :
  KBO.compare (fun _ => false) example_precedence example_s example_s = EQUAL /\
  (KBO.compare (fun _ => false) example_precedence example_s example_t = GREATER <->
   KBO.compare (fun _ => false) example_precedence example_t example_s = LESS) /\
  ~ (KBO.compare (fun _ => false) example_precedence example_s example_t = GREATER /\
     KBO.compare (fun _ => false) example_precedence example_t example_s = GREATER).
Proof.
  apply (kbo_stability _ _ example_arity).
  - exact example_precedence_total.
  - exact example_precedence_antisymmetric.
  - reflexivity.
  - reflexivity.
  - vm_compute. discriminate.
  - vm_compute. discriminate.
Defined.

(** C4 as stated fails: the constant b is LESS than f^32768(a), with f
    colored, but f^32768(a) is not GREATER than b: the weight difference
    2^31 is left negative in [_weightDiff], and the answer is LESS in both
    directions. *)
Lemma kbo_stability_counterexample :
  KBOSpec.wellFormed example_arity (example_tower example_height) = true /\
  KBOSpec.wellFormed example_arity (Term 1 []) = true /\
  KBO.compare example_colored example_precedence (Term 1 []) (example_tower example_height) = LESS /\
  KBO.compare example_colored example_precedence (example_tower example_height) (Term 1 []) = LESS /\
  ~ (KBO.compare example_colored example_precedence (example_tower example_height) (Term 1 [])
     = GREATER <->
     KBO.compare example_colored example_precedence (Term 1 []) (example_tower example_height)
     = LESS).
Proof.
  destruct example_tower_compare as [H2 H1].
  split; [apply example_tower_wellFormed|]. split; [reflexivity|].
  split; [exact H1|]. split; [exact H2|].
  intros [_ H]. pose proof (eq_trans (eq_sym H2) (H H1)) as C. discriminate C.
Qed.

(** *** Soundness of unification *)

Module RobSubstitutionSound.
Import RobSubstitution.

Abbreviation Bank := (gmap (nat * Z) TermSpec).

(** The binding of a variable as [isUnbound], [root] and [derefBound]
    read it: an entry with index [UNBOUND_INDEX] names the fresh variable
    given to an unbound variable and is no binding. *)
Definition binding (bank : Bank) (v : VarSpec) : option TermSpec :=
  match bank !! v with
  | Some b => if index b =? UNBOUND_INDEX then None else Some b
  | None => None
  end.

Lemma root_S n bank v :
  root (S n) bank v =
  match binding bank v with
  | None => Some v
  | Some b => if isTerm (term b) then Some v
              else root n bank (getVarSpec (term b) (index b))
  end.
Proof.
  unfold binding. simpl.
  destruct (bank !! v) as [b|]; [destruct (index b =? UNBOUND_INDEX)|]; reflexivity.
Qed.

Lemma derefBound_var_S n bank v :
  derefBound_var (S n) bank v =
  match binding bank v with
  | None => Some (TermSpec_of_VarSpec v)
  | Some b => if isTerm (term b) then Some b
              else derefBound_var n bank (getVarSpec (term b) (index b))
  end.
Proof.
  unfold binding. simpl.
  destruct (bank !! v) as [b|]; [destruct (index b =? UNBOUND_INDEX)|]; reflexivity.
Qed.

(** The terms of a signature: every function symbol is applied to as many
    arguments as its arity. *)
Fixpoint wellArity (arityOf : nat -> nat) (t : TermList) : bool :=
  match t with
  | Term f args => Nat.eqb (length args) (arityOf f) && forallb (wellArity arityOf) args
  | _ => true
  end.

(** The instance of a term under the bindings of a bank, with the unbound
    variables at the leaves. *)
#[warnings="-register-all"]
Inductive ITerm : Type :=
| ILeaf (v : VarSpec)
| INode (f : nat) (args : list ITerm).

Section ITerm_induction.
Variable P : ITerm -> Prop.
Hypothesis HLeaf : forall v, P (ILeaf v).
Hypothesis HNode : forall f args, Forall P args -> P (INode f args).

Fixpoint ITerm_ind' (t : ITerm) : P t :=
  match t with
  | ILeaf v => HLeaf v
  | INode f args =>
      HNode f args
        ((fix go (l : list ITerm) : Forall P l :=
            match l with
            | [] => @List.Forall_nil _ P
            | x :: l' => @List.Forall_cons _ P x l' (ITerm_ind' x) (go l')
            end) args)
  end.
End ITerm_induction.

Fixpoint leaves (t : ITerm) : list VarSpec :=
  match t with
  | ILeaf v => [v]
  | INode _ args => flat_map leaves args
  end.

(** [instance n bank t idx]: the instance of the term [t] of bank [idx],
    when it is found within [n] steps. *)
Fixpoint instance (n : nat) (bank : Bank) (t : TermList) (idx : Z) : option ITerm :=
  match n with
  | O => None
  | S n' =>
      match t with
      | Term f args => INode f <$> mapM (fun a => instance n' bank a idx) args
      | _ =>
          match binding bank (getVarSpec t idx) with
          | None => Some (ILeaf (getVarSpec t idx))
          | Some b => instance n' bank (term b) (index b)
          end
      end
  end.

(** No binding is cyclic: every term has a finite instance. *)
Definition acyclic (bank : Bank) : Prop :=
  forall t idx, exists n it, instance n bank t idx = Some it.

Lemma instance_mono bank n : forall m t idx it,
  (n <= m)%nat -> instance n bank t idx = Some it -> instance m bank t idx = Some it.
Proof.
  induction n as [|n IH]; intros m t idx it Hle H; [discriminate|].
  destruct m as [|m]; [lia|]. cbn [instance] in *.
  destruct t as [v|v|f args].
  - destruct (binding bank _) as [b|]; [|exact H]. apply IH; [lia|exact H].
  - destruct (binding bank _) as [b|]; [|exact H]. apply IH; [lia|exact H].
  - destruct (mapM _ args) as [its|] eqn:E; [|discriminate].
    apply mapM_Some in E.
    assert (E' : mapM (fun a => instance m bank a idx) args = Some its).
    { apply mapM_Some. eapply Forall2_impl; [exact E|].
      intros a y Ha. apply IH; [lia|exact Ha]. }
    rewrite E'. exact H.
Qed.

Lemma instance_functional bank n m t idx it it' :
  instance n bank t idx = Some it -> instance m bank t idx = Some it' -> it = it'.
Proof.
  intros H H'.
  apply (instance_mono _ _ (n + m)) in H; [|lia].
  apply (instance_mono _ _ (n + m)) in H'; [|lia]. congruence.
Qed.

(** The instance depends on the bank through [binding] only. *)
Lemma instance_ext bank bank' n : forall t idx,
  (forall v, binding bank v = binding bank' v) ->
  instance n bank t idx = instance n bank' t idx.
Proof.
  induction n as [|n IH]; intros t idx Hext; [reflexivity|]. cbn [instance].
  destruct t as [v|v|f args].
  - rewrite <- Hext. destruct (binding bank _); [apply IH, Hext|reflexivity].
  - rewrite <- Hext. destruct (binding bank _); [apply IH, Hext|reflexivity].
  - f_equal. apply mapM_ext. intros a. apply IH, Hext.
Qed.

(** The instances of a list of terms, within a common number of steps. *)
Lemma instance_list bank idx args :
  Forall (fun a => exists n it, instance n bank a idx = Some it) args ->
  exists n its, mapM (fun a => instance n bank a idx) args = Some its.
Proof.
  induction 1 as [|a args (n & it & Ha) _ (m & its & IH)].
  - exists 0%nat, []. reflexivity.
  - exists (n + m)%nat, (it :: its). apply mapM_Some. apply Forall2_cons. split.
    + apply (instance_mono _ n); [lia|exact Ha].
    + apply mapM_Some in IH. eapply Forall2_impl; [exact IH|].
      intros x y Hx. apply (instance_mono _ m); [lia|exact Hx].
Qed.

Lemma acyclic_empty : acyclic ∅.
Proof.
  intros t idx. induction t as [v|v|f args IH] using TermList_ind'.
  - exists 1%nat. eexists. reflexivity.
  - exists 1%nat. eexists. reflexivity.
  - destruct (instance_list ∅ idx args IH) as (n & its & E).
    exists (S n), (INode f its). cbn [instance]. rewrite E. reflexivity.
Qed.

(** **** Following the bindings *)

Lemma getVarSpec_TermSpec_of_VarSpec v :
  getVarSpec (term (TermSpec_of_VarSpec v)) (index (TermSpec_of_VarSpec v)) = v.
Proof.
  destruct v as [x i]. unfold TermSpec_of_VarSpec. cbn [fst snd].
  destruct (Z.eqb_spec i SPECIAL_INDEX) as [->|Hne]; reflexivity.
Qed.

Lemma isTerm_TermSpec_of_VarSpec v : isTerm (term (TermSpec_of_VarSpec v)) = false.
Proof. unfold TermSpec_of_VarSpec. destruct (_ =? _); reflexivity. Qed.

Lemma instance_variable n bank t idx :
  isTerm t = false ->
  instance (S n) bank t idx =
  match binding bank (getVarSpec t idx) with
  | None => Some (ILeaf (getVarSpec t idx))
  | Some b => instance n bank (term b) (index b)
  end.
Proof. destruct t; [reflexivity|reflexivity|discriminate]. Qed.

(** [Reaches bank a d]: the bindings lead from [a] to [d]. *)
Inductive Reaches (bank : Bank) : TermSpec -> TermSpec -> Prop :=
| Reaches_refl a : Reaches bank a a
| Reaches_alias a d :
    isTerm (term a) = false -> isTerm (term d) = false ->
    getVarSpec (term a) (index a) = getVarSpec (term d) (index d) ->
    Reaches bank a d
| Reaches_step a b d :
    isTerm (term a) = false ->
    binding bank (getVarSpec (term a) (index a)) = Some b ->
    Reaches bank b d -> Reaches bank a d.

Lemma Reaches_instance bank a d :
  Reaches bank a d ->
  forall n it, instance n bank (term a) (index a) = Some it ->
  exists n', (n' <= n)%nat /\ instance n' bank (term d) (index d) = Some it.
Proof.
  induction 1 as [a|a d Ha Hd E|a b d Ha Hb _ IH]; intros n it Hi.
  - exists n. auto.
  - exists n. split; [lia|]. destruct n as [|n]; [discriminate|].
    rewrite instance_variable in * by assumption. rewrite <- E. exact Hi.
  - destruct n as [|n]; [discriminate|].
    rewrite instance_variable, Hb in Hi by assumption.
    destruct (IH n it Hi) as (n' & Hle & Hn'). exists n'. split; [lia|exact Hn'].
Qed.

Lemma Reaches_trans bank a b d :
  Reaches bank a b -> Reaches bank b d -> Reaches bank a d.
Proof.
  induction 1 as [a|a b Ha Hb E|a c b Ha Hc _ IH]; intros Hbd.
  - exact Hbd.
  - inversion Hbd as [|? ? _ Hd E'|? c ? _ Hc Hcd]; subst.
    + apply Reaches_alias; assumption.
    + apply Reaches_alias; [assumption..|congruence].
    + apply (Reaches_step _ a c d); [assumption|rewrite E; assumption|assumption].
  - apply (Reaches_step _ a c d); auto.
Qed.

(** The binding views of two banks: the second keeps the bindings of the
    first. *)
Definition extends (bank bank' : Bank) : Prop :=
  forall v b, binding bank v = Some b -> binding bank' v = Some b.

Lemma Reaches_extends bank bank' a d :
  extends bank bank' -> Reaches bank a d -> Reaches bank' a d.
Proof.
  intros Hext. induction 1 as [a|a d Ha Hd E|a b d Ha Hb _ IH].
  - apply Reaches_refl.
  - apply Reaches_alias; assumption.
  - apply (Reaches_step _ a b d); auto.
Qed.

Lemma derefBound_var_Reaches bank n : forall v d,
  derefBound_var n bank v = Some d ->
  (forall a, isTerm (term a) = false -> getVarSpec (term a) (index a) = v ->
             Reaches bank a d) /\
  (isTerm (term d) = false ->
   d = TermSpec_of_VarSpec (getVarSpec (term d) (index d)) /\
   binding bank (getVarSpec (term d) (index d)) = None) /\
  (isTerm (term d) = true -> exists r, binding bank r = Some d).
Proof.
  induction n as [|n IH]; intros v d H; [discriminate|].
  rewrite derefBound_var_S in H. destruct (binding bank v) as [b|] eqn:Hb.
  - destruct (isTerm (term b)) eqn:Hterm.
    + injection H as <-. split; [|split].
      * intros a Ha Hv. apply (Reaches_step _ a b b); [exact Ha|congruence|apply Reaches_refl].
      * congruence.
      * eauto.
    + destruct (IH _ _ H) as (Hr & Hvar & Ht). split; [|split; assumption].
      intros a Ha Hv. apply (Reaches_step _ a b d); [exact Ha|congruence|].
      apply Hr; [exact Hterm|reflexivity].
  - injection H as <-. split; [|split].
    + intros a Ha Hv. apply Reaches_alias;
        [exact Ha|apply isTerm_TermSpec_of_VarSpec|].
      rewrite getVarSpec_TermSpec_of_VarSpec. exact Hv.
    + intros _. rewrite getVarSpec_TermSpec_of_VarSpec. auto.
    + rewrite isTerm_TermSpec_of_VarSpec. discriminate.
Qed.

Lemma derefBound_Reaches bank n t d :
  derefBound n bank t = Some d ->
  Reaches bank t d /\
  (isTerm (term d) = false ->
   d = TermSpec_of_VarSpec (getVarSpec (term d) (index d)) /\
   binding bank (getVarSpec (term d) (index d)) = None) /\
  (isTerm (term d) = true -> d = t \/ exists r, binding bank r = Some d).
Proof.
  unfold derefBound. destruct (isTerm (term t)) eqn:Ht.
  - intros H. injection H as <-. split; [apply Reaches_refl|]. split; [congruence|auto].
  - intros H. destruct (derefBound_var_Reaches _ _ _ _ H) as (Hr & Hvar & Hterm).
    split; [apply Hr; [exact Ht|reflexivity]|]. split; [exact Hvar|auto].
Qed.

(** [Root bank v r]: [r] is the last variable of the chain of bindings
    that starts at [v]. *)
Inductive Root (bank : Bank) : VarSpec -> VarSpec -> Prop :=
| Root_unbound v : binding bank v = None -> Root bank v v
| Root_term v b : binding bank v = Some b -> isTerm (term b) = true -> Root bank v v
| Root_next v b r :
    binding bank v = Some b -> isTerm (term b) = false ->
    Root bank (getVarSpec (term b) (index b)) r -> Root bank v r.

Lemma root_Root bank n : forall v r, root n bank v = Some r -> Root bank v r.
Proof.
  induction n as [|n IH]; intros v r H; [discriminate|].
  rewrite root_S in H. destruct (binding bank v) as [b|] eqn:Hb.
  - destruct (isTerm (term b)) eqn:Hterm.
    + injection H as <-. eapply Root_term; eauto.
    + eapply Root_next; eauto.
  - injection H as <-. apply Root_unbound, Hb.
Qed.

Lemma Root_instance bank v r :
  Root bank v r ->
  forall n t idx it, isTerm t = false -> getVarSpec t idx = v ->
    instance n bank t idx = Some it ->
    (binding bank r = None /\ it = ILeaf r) \/
    (exists b n', binding bank r = Some b /\ isTerm (term b) = true /\
                  (n' < n)%nat /\ instance n' bank (term b) (index b) = Some it).
Proof.
  induction 1 as [v Hv|v b Hb Hterm|v b r Hb Hterm _ IH]; intros n t idx it Ht E Hi;
    (destruct n as [|n]; [discriminate|]); rewrite instance_variable, E in Hi by exact Ht.
  - rewrite Hv in Hi. injection Hi as <-. auto.
  - rewrite Hb in Hi. right. exists b, n. auto.
  - rewrite Hb in Hi.
    destruct (IH n (term b) (index b) it Hterm eq_refl Hi) as [?|(b' & n' & ? & ? & ? & ?)];
      [left; assumption|].
    right. exists b', n'. repeat split; try assumption. lia.
Qed.

(** **** Terms with the same content *)

Lemma ground_instance bank n : forall t i j,
  ground t = true -> instance n bank t i = instance n bank t j.
Proof.
  induction n as [|n IH]; intros t i j Hg; [reflexivity|].
  destruct t as [v|v|f args]; try discriminate.
  cbn [instance ground] in *. f_equal. apply Forall_mapM_ext.
  rewrite forallb_forall in Hg. apply Forall_forall. intros a Ha.
  apply IH, Hg, list_elem_of_In, Ha.
Qed.

Lemma sameTermContent_instance bank n a b :
  sameTermContent a b = true ->
  instance n bank (term a) (index a) = instance n bank (term b) (index b).
Proof.
  unfold sameTermContent. rewrite andb_true_iff, bool_decide_eq_true.
  intros [<- H]. rewrite !orb_true_iff, andb_true_iff, orb_true_iff in H.
  destruct H as [[H|H]|[Hterm [H|H]]].
  - apply Z.eqb_eq in H. rewrite H. reflexivity.
  - destruct (term a); try discriminate. destruct n; reflexivity.
  - apply ground_instance, H.
  - destruct (term a) as [v|v|f [|x args]]; try discriminate. destruct n; reflexivity.
Qed.

Lemma sameTermContent_refl a : sameTermContent a a = true.
Proof.
  unfold sameTermContent. rewrite bool_decide_eq_true_2 by reflexivity.
  rewrite Z.eqb_refl. reflexivity.
Qed.

(** **** The occurs check *)

Lemma isVar_isTerm t : isVar t = negb (isTerm t).
Proof. destruct t; reflexivity. Qed.

Lemma variables_isTerm t x : In x (variables t) -> isTerm x = false.
Proof.
  induction t as [v|v|f args IH] using TermList_ind'; simpl.
  - intros [<-|[]]. reflexivity.
  - intros [<-|[]]. reflexivity.
  - rewrite in_flat_map. intros (a & Ha & Hx).
    rewrite List.Forall_forall in IH. exact (IH a Ha Hx).
Qed.

Lemma Root_is_root bank v r :
  Root bank v r ->
  binding bank r = None \/ exists b, binding bank r = Some b /\ isTerm (term b) = true.
Proof. induction 1; eauto. Qed.

Lemma derefBound_root bank n r d :
  (binding bank r = None \/ exists b, binding bank r = Some b /\ isTerm (term b) = true) ->
  derefBound n bank (TermSpec_of_VarSpec r) = Some d ->
  (binding bank r = None /\ isTerm (term d) = false) \/
  (binding bank r = Some d /\ isTerm (term d) = true).
Proof.
  intros Hr. unfold derefBound.
  rewrite isTerm_TermSpec_of_VarSpec, getVarSpec_TermSpec_of_VarSpec.
  destruct n as [|n]; [discriminate|]. rewrite derefBound_var_S.
  destruct Hr as [Hr|(b & Hr & Hb)]; rewrite Hr.
  - intros H. injection H as <-. left. split; [reflexivity|apply isTerm_TermSpec_of_VarSpec].
  - rewrite Hb. intros H. injection H as <-. auto.
Qed.

(** The variables of [ts] lead to roots other than [vs], each unbound or
    among [E]. *)
Definition varsGood (bank : Bank) (vs : VarSpec) (E : list VarSpec) (ts : TermSpec) : Prop :=
  forall x, In x (variables (term ts)) ->
    exists r, Root bank (getVarSpec x (index ts)) r /\ r <> vs /\
              (binding bank r = None \/ In r E).

Lemma varsGood_incl bank vs E E' ts :
  incl E E' -> varsGood bank vs E ts -> varsGood bank vs E' ts.
Proof.
  intros Hincl H x Hx. destruct (H x Hx) as (r & Hr & Hne & [Hb|HE]); exists r; auto.
Qed.

Lemma occurs_vars_false fuel bank vs idx vit : forall enc toDo enc' toDo',
  occurs_vars fuel bank vs idx vit enc toDo = Some (false, enc', toDo') ->
  (forall x, In x vit ->
     exists r, Root bank (getVarSpec x idx) r /\ r <> vs /\
               (binding bank r = None \/ In r enc')) /\
  incl enc enc' /\ incl toDo toDo' /\
  (forall r, In r enc' ->
     In r enc \/ exists b, In b toDo' /\ binding bank r = Some b /\ isTerm (term b) = true).
Proof.
  induction vit as [|x vit IH]; intros enc toDo enc' toDo' H; cbn [occurs_vars] in H.
  - injection H as <- <-. split; [intros x []|]. split; [apply incl_refl|].
    split; [apply incl_refl|auto].
  - destruct (root fuel bank (getVarSpec x idx)) as [tvar|] eqn:Hroot; [|discriminate].
    apply root_Root in Hroot.
    destruct (bool_decide (tvar = vs)) eqn:Hvs; [discriminate|].
    apply bool_decide_eq_false in Hvs.
    destruct (bool_decide (tvar ∈ enc)) eqn:Henc.
    + apply bool_decide_eq_true in Henc. apply list_elem_of_In in Henc.
      destruct (IH _ _ _ _ H) as (Hvit & Hinc & HtoDo & Hnew).
      split; [|auto]. intros y [<-|Hy]; [|auto].
      exists tvar. auto.
    + destruct (derefBound fuel bank (TermSpec_of_VarSpec tvar)) as [dtvar|] eqn:Hd;
        [|discriminate].
      apply (derefBound_root _ _ _ _ (Root_is_root _ _ _ Hroot)) in Hd.
      rewrite isVar_isTerm in H.
      destruct Hd as [[Hb Hterm]|[Hb Hterm]]; rewrite Hterm in H; cbn [negb] in H;
        destruct (IH _ _ _ _ H) as (Hvit & Hinc & HtoDo & Hnew).
      * split; [|auto]. intros y [<-|Hy]; [|auto]. exists tvar. auto.
      * split; [|split; [|split]].
        -- intros y [<-|Hy]; [|auto]. exists tvar.
           split; [exact Hroot|]. split; [exact Hvs|]. right. apply Hinc. left. reflexivity.
        -- intros r Hr. apply Hinc. right. exact Hr.
        -- intros t Ht. apply HtoDo. right. exact Ht.
        -- intros r Hr. destruct (Hnew r Hr) as [[<-|Hin]|Hex]; auto.
           right. exists dtvar. split; [apply HtoDo; left; reflexivity|auto].
Qed.

Lemma occurs_loop_false bank vs fuel : forall ts enc toDo,
  occurs_loop fuel bank vs ts enc toDo = Some false ->
  exists E, incl enc E /\ varsGood bank vs E ts /\
    (forall t, In t toDo -> varsGood bank vs E t) /\
    (forall r, In r E ->
       In r enc \/ exists b, binding bank r = Some b /\ isTerm (term b) = true /\
                            varsGood bank vs E b).
Proof.
  induction fuel as [|fuel IH]; intros ts enc toDo H; [discriminate|].
  cbn [occurs_loop] in H.
  destruct (occurs_vars fuel bank vs (index ts) (variables (term ts)) enc toDo)
    as [[[[|] enc'] toDo']|] eqn:Hvars; try discriminate.
  destruct (occurs_vars_false _ _ _ _ _ _ _ _ _ Hvars) as (Hvit & Hinc & HtoDo & Hnew).
  destruct toDo' as [|ts' toDo''].
  - exists enc'. split; [exact Hinc|]. split; [exact Hvit|]. split.
    + intros t Ht. destruct (HtoDo t Ht).
    + intros r Hr. destruct (Hnew r Hr) as [?|(b & [] & _)]. auto.
  - destruct (IH _ _ _ H) as (E & HincE & Hts' & HtoDo' & HE).
    exists E. split; [intros r Hr; auto|]. split; [|split].
    + eapply varsGood_incl; [exact HincE|exact Hvit].
    + intros t Ht. destruct (HtoDo t Ht) as [<-|Hin]; auto.
    + intros r Hr. destruct (HE r Hr) as [Hin|Hgood]; [|auto].
      destruct (Hnew r Hin) as [?|(b & Hb & Hbind & Hterm)]; [auto|].
      right. exists b. split; [exact Hbind|]. split; [exact Hterm|].
      destruct Hb as [<-|Hb]; auto.
Qed.

Lemma Forall2_In_r {A B} (P : A -> B -> Prop) l k y :
  Forall2 P l k -> In y k -> exists x, In x l /\ P x y.
Proof.
  induction 1 as [|x y' l k Hxy _ IH]; intros Hy; [destruct Hy|].
  destruct Hy as [<-|Hy]; [exists x; simpl; auto|].
  destruct (IH Hy) as (x' & Hx' & HP). exists x'. simpl. auto.
Qed.

Lemma instance_Term n bank f args idx it :
  instance n bank (Term f args) idx = Some it ->
  exists n' its, n = S n' /\ it = INode f its /\
    Forall2 (fun a y => instance n' bank a idx = Some y) args its.
Proof.
  destruct n as [|n]; [discriminate|]. cbn [instance].
  destruct (mapM _ args) as [its|] eqn:E; [|discriminate].
  intros H. injection H as <-. apply mapM_Some in E. eauto.
Qed.

(** When the roots met are closed under the bindings, [vs] is not a leaf
    of the instance. *)
Lemma varsGood_leaves bank vs E :
  (forall r, In r E -> exists b, binding bank r = Some b /\ isTerm (term b) = true /\
                                 varsGood bank vs E b) ->
  forall n t idx it,
    varsGood bank vs E (mkTermSpec t idx) ->
    instance n bank t idx = Some it -> ~ In vs (leaves it).
Proof.
  intros Hclosed n. induction n as [n IH] using lt_wf_ind. intros t idx it Hgood Hi.
  destruct (isTerm t) eqn:Ht.
  - destruct t as [v|v|f args]; try discriminate.
    apply instance_Term in Hi. destruct Hi as (n' & its & -> & -> & Hargs).
    cbn [leaves]. rewrite in_flat_map. intros (y & Hy & Hvs).
    destruct (Forall2_In_r _ _ _ _ Hargs Hy) as (a & Ha & Hinst).
    apply (IH n' ltac:(lia) a idx y); [|exact Hinst|exact Hvs].
    intros x Hx. apply Hgood. cbn [term variables]. rewrite in_flat_map. eauto.
  - assert (Hx : In t (variables (term (mkTermSpec t idx)))).
    { destruct t; try discriminate; simpl; auto. }
    destruct (Hgood t Hx) as (r & Hroot & Hne & Hr). cbn [index] in Hroot.
    destruct (Root_instance _ _ _ Hroot n t idx it Ht eq_refl Hi)
      as [[_ ->]|(b & n' & Hb & Hterm & Hlt & Hinst)].
    + simpl. intros [?|[]]. congruence.
    + destruct Hr as [Hr|Hr]; [congruence|].
      destruct (Hclosed r Hr) as (b' & Hb' & _ & Hgood').
      assert (b' = b) by congruence. subst b'.
      apply (IH n' Hlt (term b) (index b) it); [|exact Hinst].
      destruct b; exact Hgood'.
Qed.

Lemma occurs_false bank fuel vs ts :
  occurs fuel bank vs ts = Some false -> isTerm (term ts) = true ->
  exists vs', Root bank vs vs' /\
    forall n it, instance n bank (term ts) (index ts) = Some it -> ~ In vs' (leaves it).
Proof.
  unfold occurs. intros H Hterm.
  destruct (root fuel bank vs) as [vs'|] eqn:Hroot; [|discriminate].
  rewrite isVar_isTerm, Hterm in H. cbn [negb] in H.
  exists vs'. split; [eapply root_Root, Hroot|].
  destruct (occurs_loop_false _ _ _ _ _ _ H) as (E & _ & Hts & _ & HE).
  intros n it Hi. apply (varsGood_leaves bank vs' E) with (n := n) (t := term ts) (idx := index ts).
  - intros r Hr. destruct (HE r Hr) as [[]|?]. assumption.
  - destruct ts; exact Hts.
  - exact Hi.
Qed.

(** **** Binding an unbound variable *)

Lemma binding_insert_eq (bank : Bank) v b :
  index b <> UNBOUND_INDEX -> binding (<[v := b]> bank) v = Some b.
Proof.
  intros Hb. unfold binding. rewrite lookup_insert_eq.
  destruct (Z.eqb_spec (index b) UNBOUND_INDEX); [contradiction|reflexivity].
Qed.

Lemma binding_insert_ne (bank : Bank) v w b :
  v <> w -> binding (<[v := b]> bank) w = binding bank w.
Proof. intros Hne. unfold binding. rewrite lookup_insert_ne by exact Hne. reflexivity. Qed.

Lemma extends_insert (bank : Bank) v b :
  binding bank v = None -> extends bank (<[v := b]> bank).
Proof.
  intros Hv w c Hw. rewrite binding_insert_ne; [exact Hw|]. congruence.
Qed.

(** An instance without the leaf [v] is not changed by binding [v]. *)
Lemma instance_insert (bank : Bank) v b n : forall t idx it,
  binding bank v = None ->
  instance n bank t idx = Some it -> ~ In v (leaves it) ->
  instance n (<[v := b]> bank) t idx = Some it.
Proof.
  induction n as [|n IH]; intros t idx it Hv Hi Hleaf; [discriminate|].
  destruct (isTerm t) eqn:Ht.
  - destruct t as [x|x|f args]; try discriminate.
    apply instance_Term in Hi. destruct Hi as (n' & its & E & -> & Hargs).
    injection E as <-. cbn [instance].
    assert (E' : mapM (fun a => instance n (<[v:=b]> bank) a idx) args = Some its).
    { apply mapM_Some. cbn [leaves] in Hleaf. rewrite in_flat_map in Hleaf.
      clear -IH Hv Hargs Hleaf. induction Hargs as [|a y args its Ha _ IHargs].
      - apply Forall2_nil. exact I.
      - apply Forall2_cons. split.
        + apply IH; [exact Hv|exact Ha|]. intros Hin. apply Hleaf. exists y. simpl. auto.
        + apply IHargs. intros (y' & Hy' & Hin). apply Hleaf. exists y'. simpl. auto. }
    rewrite E'. reflexivity.
  - rewrite instance_variable in * by exact Ht.
    assert (Hne : v <> getVarSpec t idx).
    { intros E. rewrite <- E, Hv in Hi. injection Hi as <-. apply Hleaf. simpl. auto. }
    rewrite binding_insert_ne by exact Hne.
    destruct (binding bank (getVarSpec t idx)) as [c|]; [|exact Hi].
    apply IH; assumption.
Qed.

(** Binding a variable to a term in whose instance it does not occur
    leaves the bank acyclic. *)
Lemma acyclic_insert (bank : Bank) v b :
  acyclic bank -> binding bank v = None -> index b <> UNBOUND_INDEX ->
  (forall n it, instance n bank (term b) (index b) = Some it -> ~ In v (leaves it)) ->
  acyclic (<[v := b]> bank).
Proof.
  intros Hacyclic Hv Hb Hoccurs.
  destruct (Hacyclic (term b) (index b)) as (nb & itb & Hitb).
  pose proof (instance_insert bank v b nb _ _ _ Hv Hitb (Hoccurs _ _ Hitb)) as Hitb'.
  assert (Hall : forall n t idx it, instance n bank t idx = Some it ->
                 exists n' it', instance n' (<[v := b]> bank) t idx = Some it').
  { induction n as [|n IH]; intros t idx it Hi; [discriminate|].
    destruct (isTerm t) eqn:Ht.
    - destruct t as [x|x|f args]; try discriminate.
      apply instance_Term in Hi. destruct Hi as (n' & its & E & -> & Hargs).
      injection E as <-.
      destruct (instance_list (<[v := b]> bank) idx args) as (m & its' & E').
      { clear -IH Hargs. induction Hargs as [|a y args its Ha _ IHargs].
        - apply Forall_nil. exact I.
        - apply Forall_cons. split; [eapply IH, Ha|exact IHargs]. }
      exists (S m), (INode f its'). cbn [instance]. rewrite E'. reflexivity.
    - rewrite instance_variable in Hi by exact Ht.
      destruct (decide (v = getVarSpec t idx)) as [E|Hne].
      + exists (S nb), itb. rewrite instance_variable by exact Ht.
        rewrite <- E, binding_insert_eq by exact Hb. exact Hitb'.
      + destruct (binding bank (getVarSpec t idx)) as [c|] eqn:Hc.
        * destruct (IH _ _ _ Hi) as (n' & it' & Hi'). exists (S n'), it'.
          rewrite instance_variable by exact Ht.
          rewrite binding_insert_ne, Hc by exact Hne. exact Hi'.
        * exists 1%nat, it. rewrite instance_variable by exact Ht.
          rewrite binding_insert_ne, Hc by exact Hne. exact Hi. }
  intros t idx. destruct (Hacyclic t idx) as (n & it & Hi). eapply Hall, Hi.
Qed.

(** **** The pairs of subterms visited by the inner loop of [unify] *)

Section Sound.
Variable arityOf : nat -> nat.

(** A term specification of the signature, in a bank other than the one
    of the fresh variables. *)
Definition wfTS (a : TermSpec) : Prop :=
  index a <> UNBOUND_INDEX /\ wellArity arityOf (term a) = true.

Definition wfPair (p : TTPair) : Prop := wfTS p.1 /\ wfTS p.2.

(** The entries of the bank are terms of the signature, and the entries
    with index [UNBOUND_INDEX] are variables. *)
Definition wfBank (bank : Bank) : Prop :=
  forall v b, bank !! v = Some b ->
    wellArity arityOf (term b) = true /\
    (index b = UNBOUND_INDEX -> isTerm (term b) = false).

Lemma binding_wfTS bank v b : wfBank bank -> binding bank v = Some b -> wfTS b.
Proof.
  unfold binding. intros Hwf H. destruct (bank !! v) as [c|] eqn:Hc; [|discriminate].
  destruct (Z.eqb_spec (index c) UNBOUND_INDEX); [discriminate|].
  injection H as <-. split; [assumption|]. apply (Hwf v c Hc).
Qed.

Lemma wellArity_args f args :
  wellArity arityOf (Term f args) = true ->
  length args = arityOf f /\ Forall (fun a => wellArity arityOf a = true) args.
Proof.
  simpl. rewrite andb_true_iff, Nat.eqb_eq, forallb_forall, Forall_forall.
  intros [H1 H2]. split; [exact H1|]. intros a Ha. apply H2, list_elem_of_In, Ha.
Qed.

(** [covered P i1 i2 s t]: the subterms [s] of bank [i1] and [t] of bank
    [i2] have the same content, or they are applications of the same
    function symbol to covered arguments, or one of them is a variable and
    the pair is among [P]. *)
Fixpoint covered (P : TTPair -> Prop) (i1 i2 : Z) (s t : TermList) {struct s} : Prop :=
  sameTermContent (mkTermSpec s i1) (mkTermSpec t i2) = true \/
  match s, t with
  | Term f ss, Term g ts =>
      f = g /\
      (fix coveredArgs (ss ts : list TermList) {struct ss} : Prop :=
         match ss, ts with
         | [], [] => True
         | s1 :: ss', t1 :: ts' => covered P i1 i2 s1 t1 /\ coveredArgs ss' ts'
         | _, _ => False
         end) ss ts
  | _, _ => P (mkTermSpec s i1, mkTermSpec t i2)
  end.

Fixpoint coveredArgs (P : TTPair -> Prop) (i1 i2 : Z) (ss ts : list TermList) : Prop :=
  match ss, ts with
  | [], [] => True
  | s1 :: ss', t1 :: ts' => covered P i1 i2 s1 t1 /\ coveredArgs P i1 i2 ss' ts'
  | _, _ => False
  end.

Lemma covered_eq P i1 i2 s t :
  covered P i1 i2 s t <->
  (sameTermContent (mkTermSpec s i1) (mkTermSpec t i2) = true \/
   match s, t with
   | Term f ss, Term g ts => f = g /\ coveredArgs P i1 i2 ss ts
   | _, _ => P (mkTermSpec s i1, mkTermSpec t i2)
   end).
Proof.
  destruct s as [v|v|f ss], t as [w|w|g ts]; try reflexivity.
  cbn [covered].
  assert (E : forall ts,
    (fix coveredArgs (ss ts : list TermList) {struct ss} : Prop :=
       match ss, ts with
       | [], [] => True
       | s1 :: ss', t1 :: ts' => covered P i1 i2 s1 t1 /\ coveredArgs ss' ts'
       | _, _ => False
       end) ss ts <-> coveredArgs P i1 i2 ss ts).
  { clear. induction ss as [|s ss IH]; intros [|t ts]; simpl; try reflexivity.
    rewrite IH. reflexivity. }
  rewrite E. reflexivity.
Qed.

Lemma covered_mono (P Q : TTPair -> Prop) i1 i2 s :
  (forall p, P p -> Q p) -> forall t, covered P i1 i2 s t -> covered Q i1 i2 s t.
Proof.
  intros HPQ. induction s as [v|v|f ss IH] using TermList_ind'; intros t;
    rewrite !covered_eq; intros [H|H]; auto; right.
  destruct t as [w|w|g ts]; auto. destruct H as [-> H]. split; [reflexivity|].
  revert ts H. induction IH as [|s ss Hs _ IHss]; intros [|t ts]; simpl; auto.
    intros [H1 H2]. auto.
Qed.

Lemma coveredArgs_mono (P Q : TTPair -> Prop) i1 i2 ss :
  (forall p, P p -> Q p) -> forall ts, coveredArgs P i1 i2 ss ts -> coveredArgs Q i1 i2 ss ts.
Proof.
  intros HPQ. induction ss as [|s ss IH]; intros [|t ts]; simpl; auto.
  intros [H1 H2]. split; [eapply covered_mono; eauto|auto].
Qed.

(** Covered subterms have the same instance, when the pairs of [P] have
    the same instances within fewer steps. *)
Lemma covered_instance (P : TTPair -> Prop) bank i1 i2 n :
  (forall p k m x y, P p -> (k < n)%nat ->
     instance k bank (term p.1) (index p.1) = Some x ->
     instance m bank (term p.2) (index p.2) = Some y -> x = y) ->
  forall s t k m x y, covered P i1 i2 s t -> (k < n)%nat ->
    instance k bank s i1 = Some x -> instance m bank t i2 = Some y -> x = y.
Proof.
  intros HP. induction s as [v|v|f ss IH] using TermList_ind'; intros t k m x y Hc Hk Hx Hy;
    apply covered_eq in Hc;
    (destruct Hc as [Hc|Hc];
     [apply (sameTermContent_instance bank k) in Hc; cbn [term index] in Hc;
      rewrite Hx in Hc; symmetry in Hc; exact (instance_functional _ _ _ _ _ _ _ Hc Hy)|]).
  - destruct t; exact (HP _ k m x y Hc Hk Hx Hy).
  - destruct t; exact (HP _ k m x y Hc Hk Hx Hy).
  - destruct t as [w|w|g ts]; try exact (HP _ k m x y Hc Hk Hx Hy).
    destruct Hc as [<- Hc].
    apply instance_Term in Hx, Hy.
    destruct Hx as (k' & xs & -> & -> & Hxs), Hy as (m' & ys & -> & -> & Hys).
    f_equal. revert ts xs ys Hc Hxs Hys.
    induction IH as [|s ss Hs _ IHss]; intros [|t ts] xs ys Hc Hxs Hys;
      try contradiction.
    + inversion Hxs; inversion Hys; reflexivity.
    + destruct Hc as [Hc1 Hc2].
      inversion Hxs as [|? x1 ? xs' Hx1 Hxs']; subst.
      inversion Hys as [|? y1 ? ys' Hy1 Hys']; subst.
      f_equal; [apply (Hs t k' m' x1 y1 Hc1); [lia|assumption..]|].
      apply (IHss ts); assumption.
Qed.

(** The argument positions on the stack of the inner loop: each entry
    stands for the pairs of arguments from the two positions on. *)
Fixpoint stackCovered (P : TTPair -> Prop) (i1 i2 : Z) (subterms : list (list TermList))
  : Prop :=
  match subterms with
  | [] => True
  | tts :: sss :: rest => coveredArgs P i1 i2 sss tts /\ stackCovered P i1 i2 rest
  | [_] => False
  end.

Fixpoint stackWf (subterms : list (list TermList)) : Prop :=
  match subterms with
  | [] => True
  | tts :: sss :: rest =>
      sss <> [] /\ length sss = length tts /\
      Forall (fun a => wellArity arityOf a = true) sss /\
      Forall (fun a => wellArity arityOf a = true) tts /\ stackWf rest
  | [_] => False
  end.

Lemma unify_push_spec fuel bank itm toDo enc toDo1 enc1 :
  unify_push fuel bank itm toDo enc = Some (toDo1, enc1) ->
  (In itm toDo1 \/ In itm enc1) /\
  (toDo1 = toDo \/ toDo1 = itm :: toDo) /\
  (enc1 = enc \/ (enc1 = itm :: enc /\ toDo1 = itm :: toDo)).
Proof.
  unfold unify_push.
  destruct (if isVar (term itm.1) then _ else _) as [[|]|]; try discriminate.
  { intros H. injection H as <- <-. simpl. auto. }
  destruct (if isVar (term itm.2) then _ else _) as [[|]|]; try discriminate.
  { intros H. injection H as <- <-. simpl. auto. }
  destruct (bool_decide (itm ∈ enc)) eqn:Henc; intros H; injection H as <- <-.
  - apply bool_decide_eq_true in Henc. apply list_elem_of_In in Henc. auto.
  - simpl. auto.
Qed.

Lemma unify_pop_spec subterms :
  stackWf subterms ->
  (subterms = [] /\ unify_pop subterms = Some None) \/
  (exists s1 sr t1 tr subterms',
     unify_pop subterms = Some (Some (s1 :: sr, t1 :: tr, subterms')) /\
     wellArity arityOf s1 = true /\ wellArity arityOf t1 = true /\
     stackWf subterms' /\
     forall P i1 i2, covered P i1 i2 s1 t1 -> stackCovered P i1 i2 subterms' ->
                     stackCovered P i1 i2 subterms).
Proof.
  destruct subterms as [|tts [|sss rest]]; [auto|intros []|].
  intros (Hne & Hlen & Hs & Ht & Hrest). right.
  destruct sss as [|s1 sr]; [contradiction|]. destruct tts as [|t1 tr]; [discriminate|].
  apply Forall_cons in Hs, Ht. destruct Hs as [Hs1 Hsr], Ht as [Ht1 Htr].
  destruct sr as [|s2 sr].
  - exists s1, [], t1, tr, rest. split; [reflexivity|].
    split; [exact Hs1|]. split; [exact Ht1|]. split; [exact Hrest|].
    intros P i1 i2 Hc Hst. destruct tr; [|discriminate]. simpl. auto.
  - exists s1, (s2 :: sr), t1, tr, (tr :: (s2 :: sr) :: rest).
    split; [reflexivity|]. split; [exact Hs1|]. split; [exact Ht1|]. split.
    + simpl. split; [discriminate|]. split; [simpl in Hlen; lia|]. auto.
    + intros P i1 i2 Hc [Hargs Hst]. simpl. auto.
Qed.

(** What a run of the inner loop without mismatch has done: the stack is
    empty again, and the pair of subterms it started with and the pairs on
    the stack are covered by the pairs now on [toDo] or encountered. *)
Definition walked (i1 i2 : Z) (s0 t0 : TermList) (subterms : list (list TermList))
    (toDo enc : list TTPair) (sub' : list (list TermList)) (toDo' enc' : list TTPair)
  : Prop :=
  sub' = [] /\
  covered (fun p => In p toDo' \/ In p enc') i1 i2 s0 t0 /\
  stackCovered (fun p => In p toDo' \/ In p enc') i1 i2 subterms /\
  (exists new, toDo' = new ++ toDo /\ Forall wfPair new) /\
  incl enc enc' /\
  (forall p, In p enc' -> In p enc \/ In p toDo').

(** One pair of subterms dealt with at once: nothing changes, or the pair
    is pushed on [toDo], and then possibly recorded as encountered. *)
Definition stepped (itm : TTPair) (toDo enc toDo1 enc1 : list TTPair) : Prop :=
  (toDo1 = toDo \/ (toDo1 = itm :: toDo /\ wfPair itm)) /\
  (enc1 = enc \/ (enc1 = itm :: enc /\ toDo1 = itm :: toDo)).

Lemma walked_continue bank i1 i2 fuel s0 t0 itm subterms toDo enc toDo1 enc1
    sub' toDo' enc' :
  (forall s1 sr t1 tr subterms1,
     unify_walk fuel bank i1 i2 (s1 :: sr) (t1 :: tr) subterms1 toDo1 enc1 =
       Some (false, sub', toDo', enc') ->
     wellArity arityOf s1 = true -> wellArity arityOf t1 = true -> stackWf subterms1 ->
     walked i1 i2 s1 t1 subterms1 toDo1 enc1 sub' toDo' enc') ->
  stepped itm toDo enc toDo1 enc1 ->
  (forall P : TTPair -> Prop,
     (forall p, In p toDo1 \/ In p enc1 -> P p) -> covered P i1 i2 s0 t0) ->
  stackWf subterms ->
  match unify_pop subterms with
  | None => None
  | Some None => Some (false, subterms, toDo1, enc1)
  | Some (Some (ss', tt', subterms')) =>
      unify_walk fuel bank i1 i2 ss' tt' subterms' toDo1 enc1
  end = Some (false, sub', toDo', enc') ->
  walked i1 i2 s0 t0 subterms toDo enc sub' toDo' enc'.
Proof.
  intros IH [HtoDo Henc] Hnow Hwf H.
  assert (Hnew1 : exists new, toDo1 = new ++ toDo /\ Forall wfPair new).
  { destruct HtoDo as [->|[-> Hitm]]; [exists []|exists [itm]]; split; try reflexivity.
    - apply Forall_nil. exact I.
    - apply Forall_cons. split; [exact Hitm|apply Forall_nil; exact I]. }
  assert (Hinc1 : incl enc enc1).
  { destruct Henc as [->|[-> _]]; [apply incl_refl|apply incl_tl, incl_refl]. }
  assert (Hback1 : forall p, In p enc1 -> In p enc \/ In p toDo1).
  { intros p Hp. destruct Henc as [->|[-> ->]]; [auto|].
    destruct Hp as [<-|Hp]; simpl; auto. }
  destruct (unify_pop_spec subterms Hwf)
    as [[-> Hpop]|(s1 & sr & t1 & tr & subterms1 & Hpop & Hs1 & Ht1 & Hwf1 & Hstack)];
    rewrite Hpop in H.
  - injection H as <- <- <-. split; [reflexivity|]. split; [apply Hnow; auto|].
    split; [exact I|]. auto.
  - destruct (IH _ _ _ _ _ H Hs1 Ht1 Hwf1) as (Hsub & Hc1 & Hst1 & (new & -> & Hnew) & Hinc & Hback).
    split; [exact Hsub|]. split; [|split; [|split; [|split]]].
    + apply Hnow. intros p [Hp|Hp]; [left; apply in_or_app; auto|right; auto].
    + apply Hstack; assumption.
    + destruct Hnew1 as (new1 & -> & Hnew1). exists (new ++ new1).
      split; [rewrite app_assoc; reflexivity|]. apply Forall_app. auto.
    + intros p Hp. auto.
    + intros p Hp. destruct (Hback p Hp) as [Hp1|Hp1]; [|auto].
      destruct (Hback1 p Hp1) as [?|Hp2]; [auto|]. right. apply in_or_app. auto.
Qed.

Lemma unify_walk_walked bank i1 i2 fuel :
  i1 <> UNBOUND_INDEX -> i2 <> UNBOUND_INDEX ->
  forall s0 sr t0 tr subterms toDo enc sub' toDo' enc',
    unify_walk fuel bank i1 i2 (s0 :: sr) (t0 :: tr) subterms toDo enc =
      Some (false, sub', toDo', enc') ->
    wellArity arityOf s0 = true -> wellArity arityOf t0 = true -> stackWf subterms ->
    walked i1 i2 s0 t0 subterms toDo enc sub' toDo' enc'.
Proof.
  intros Hi1 Hi2. induction fuel as [|fuel IH];
    intros s0 sr t0 tr subterms toDo enc sub' toDo' enc' H Hs0 Ht0 Hwf; [discriminate|].
  cbn [unify_walk] in H.
  destruct (sameTermContent (mkTermSpec s0 i1) (mkTermSpec t0 i2)) eqn:Hsame;
    destruct (sameTopFunctor s0 t0) eqn:Htop; cbn [negb andb] in H.
  - (* the same content *)
    apply (walked_continue bank i1 i2 fuel s0 t0 (mkTermSpec s0 i1, mkTermSpec t0 i2)
             subterms toDo enc toDo enc);
      [intros; eapply IH; eassumption|split; auto| |exact Hwf|exact H].
    intros P _. apply covered_eq. auto.
  - (* the same content, a variable or a constant *)
    destruct (isVar s0 || isVar t0) eqn:Hvar; [|discriminate].
    destruct (unify_push _ _ _ _ _) as [[toDo1 enc1]|] eqn:Hpush; [|discriminate].
    destruct (unify_push_spec _ _ _ _ _ _ _ Hpush) as (Hin & HtoDo & Henc).
    apply (walked_continue bank i1 i2 fuel s0 t0 (mkTermSpec s0 i1, mkTermSpec t0 i2)
             subterms toDo enc toDo1 enc1);
      [intros; eapply IH; eassumption| | |exact Hwf|exact H].
    + split; [|exact Henc]. destruct HtoDo as [?|?]; [auto|right].
      split; [assumption|]. split; split; assumption.
    + intros P _. apply covered_eq. auto.
  - (* applications of the same function symbol *)
    destruct s0 as [v|v|f [|s1 sn]], t0 as [w|w|g [|t1 tn]]; try discriminate.
    cbn [sameTopFunctor] in Htop. apply Nat.eqb_eq in Htop. subst g.
    destruct (wellArity_args _ _ Hs0) as [Hlen Hargs].
    destruct (wellArity_args _ _ Ht0) as [Hlen' Hargs'].
    apply Forall_cons in Hargs, Hargs'.
    destruct Hargs as [Hs1 Hsn], Hargs' as [Ht1 Htn].
    assert (Hl : length sn = length tn) by (simpl in *; lia).
    apply IH in H; [|assumption..|].
    + destruct H as (Hsub & Hc1 & Hst & Hnew & Hinc & Hback).
      split; [exact Hsub|]. split; [|split; [|auto]].
      * apply covered_eq. right. split; [reflexivity|]. cbn [coveredArgs].
        split; [exact Hc1|].
        destruct sn as [|s2 sn]; [destruct tn; [exact I|discriminate]|].
        destruct Hst as [Hst _]. exact Hst.
      * destruct sn as [|s2 sn]; [exact Hst|]. destruct Hst as [_ Hst]. exact Hst.
    + destruct sn as [|s2 sn]; [exact Hwf|]. simpl. split; [discriminate|]. auto.
  - (* distinct top symbols *)
    destruct (isVar s0 || isVar t0) eqn:Hvar; [|discriminate].
    destruct (unify_push _ _ _ _ _) as [[toDo1 enc1]|] eqn:Hpush; [|discriminate].
    destruct (unify_push_spec _ _ _ _ _ _ _ Hpush) as (Hin & HtoDo & Henc).
    apply (walked_continue bank i1 i2 fuel s0 t0 (mkTermSpec s0 i1, mkTermSpec t0 i2)
             subterms toDo enc toDo1 enc1);
      [intros; eapply IH; eassumption| | |exact Hwf|exact H].
    + split; [|exact Henc]. destruct HtoDo as [?|?]; [auto|right].
      split; [assumption|]. split; split; assumption.
    + intros P HP. apply covered_eq. right.
      destruct s0 as [v|v|f ss]; [apply HP, Hin..|].
      destruct t0 as [w|w|g ts]; [apply HP, Hin..|discriminate].
Qed.

(** **** The outer loop of [unify] *)

Lemma coveredArgs_instance (P : TTPair -> Prop) bank i1 i2 n :
  (forall p k m x y, P p -> (k < n)%nat ->
     instance k bank (term p.1) (index p.1) = Some x ->
     instance m bank (term p.2) (index p.2) = Some y -> x = y) ->
  forall ss ts k m xs ys, coveredArgs P i1 i2 ss ts -> (k < n)%nat ->
    Forall2 (fun a x => instance k bank a i1 = Some x) ss xs ->
    Forall2 (fun a y => instance m bank a i2 = Some y) ts ys -> xs = ys.
Proof.
  intros HP. induction ss as [|s ss IH]; intros [|t ts] k m xs ys Hc Hk Hxs Hys;
    try contradiction.
  - inversion Hxs; inversion Hys; reflexivity.
  - destruct Hc as [Hc1 Hc2].
    inversion Hxs as [|? x1 ? xs' Hx1 Hxs']; subst.
    inversion Hys as [|? y1 ? ys' Hy1 Hys']; subst.
    f_equal; [exact (covered_instance P bank i1 i2 n HP s t k m x1 y1 Hc1 Hk Hx1 Hy1)|].
    apply (IH ts k m); assumption.
Qed.

(** The pair [p] has been dealt with: the bindings lead from its two
    sides to terms with the same content, or to two applications of the same
    function symbol whose arguments are covered by the pairs of [P]. *)
Definition locallyOk (bank : Bank) (P : TTPair -> Prop) (p : TTPair) : Prop :=
  exists da db, Reaches bank p.1 da /\ Reaches bank p.2 db /\
    (sameTermContent da db = true \/
     (isTerm (term da) = true /\ isTerm (term db) = true /\
      covered P (index da) (index db) (term da) (term db))).

Lemma locallyOk_mono bank bank' (P Q : TTPair -> Prop) p :
  extends bank bank' -> (forall q, P q -> Q q) ->
  locallyOk bank P p -> locallyOk bank' Q p.
Proof.
  intros Hext HPQ (da & db & Ha & Hb & H). exists da, db.
  split; [eapply Reaches_extends; eauto|]. split; [eapply Reaches_extends; eauto|].
  destruct H as [H|(H1 & H2 & H3)]; [auto|right].
  split; [exact H1|]. split; [exact H2|]. eapply covered_mono; eauto.
Qed.

Lemma extends_refl bank : extends bank bank.
Proof. intros v b H. exact H. Qed.

Lemma extends_trans b1 b2 b3 : extends b1 b2 -> extends b2 b3 -> extends b1 b3.
Proof. intros H1 H2 v b H. auto. Qed.

(** When every pair of [Done] has been dealt with relative to [Done]
    itself, the two sides of each pair have the same instance. *)
Lemma done_instance bank (Done : list TTPair) :
  (forall p, In p Done -> locallyOk bank (fun q => In q Done) p) ->
  forall n p k m x y, In p Done -> (k < n)%nat ->
    instance k bank (term p.1) (index p.1) = Some x ->
    instance m bank (term p.2) (index p.2) = Some y -> x = y.
Proof.
  intros Hok. induction n as [|n IH]; intros p k m x y Hp Hk Hx Hy; [lia|].
  destruct (Hok p Hp) as (da & db & Ha & Hb & H).
  destruct (Reaches_instance _ _ _ Ha _ _ Hx) as (k' & Hk' & Hx').
  destruct (Reaches_instance _ _ _ Hb _ _ Hy) as (m' & Hm' & Hy').
  assert (Hsame : sameTermContent da db = true -> x = y).
  { intros Hs. apply (sameTermContent_instance bank k') in Hs.
    rewrite Hx' in Hs. symmetry in Hs. exact (instance_functional _ _ _ _ _ _ _ Hs Hy'). }
  destruct H as [H|(Hta & Htb & Hc)]; [auto|].
  apply covered_eq in Hc. destruct Hc as [Hc|Hc]; [destruct da, db; auto|].
  destruct (term da) as [v|v|f ss]; try discriminate.
  destruct (term db) as [w|w|g ts]; try discriminate.
  destruct Hc as [<- Hc].
  apply instance_Term in Hx', Hy'.
  destruct Hx' as (k'' & xs & -> & -> & Hxs), Hy' as (m'' & ys & -> & -> & Hys).
  f_equal.
  apply (coveredArgs_instance (fun q => In q Done) bank (index da) (index db) n)
    with (ss := ss) (ts := ts) (k := k'') (m := m''); [|exact Hc|lia|exact Hxs|exact Hys].
  intros q k0 m0 x0 y0 Hq Hk0. apply IH; assumption.
Qed.

Lemma getVarSpec_index t idx :
  idx <> UNBOUND_INDEX -> (getVarSpec t idx).2 <> UNBOUND_INDEX.
Proof. intros H. destruct t; simpl; [exact H|discriminate|exact H]. Qed.

Lemma derefBound_var_wfTS bank n : forall v d,
  wfBank bank -> v.2 <> UNBOUND_INDEX ->
  derefBound_var n bank v = Some d -> wfTS d.
Proof.
  induction n as [|n IH]; intros v d Hwf Hv H; [discriminate|].
  rewrite derefBound_var_S in H. destruct (binding bank v) as [b|] eqn:Hb.
  - pose proof (binding_wfTS _ _ _ Hwf Hb) as Hwb.
    destruct (isTerm (term b)); [injection H as <-; exact Hwb|].
    apply (IH _ _ Hwf) in H; [exact H|]. apply getVarSpec_index, Hwb.
  - injection H as <-. unfold TermSpec_of_VarSpec.
    destruct (v.2 =? SPECIAL_INDEX); split; auto.
Qed.

Lemma derefBound_wfTS bank n t d :
  wfBank bank -> wfTS t -> derefBound n bank t = Some d -> wfTS d.
Proof.
  intros Hwf Ht. unfold derefBound. destruct (isTerm (term t)).
  - intros H. injection H as <-. exact Ht.
  - apply derefBound_var_wfTS; [exact Hwf|]. apply getVarSpec_index, Ht.
Qed.

Lemma wfBank_insert (bank : Bank) v b :
  wfBank bank -> wfTS b -> wfBank (<[v := b]> bank).
Proof.
  intros Hwf [Hb1 Hb2] w c. destruct (decide (v = w)) as [<-|Hne].
  - rewrite lookup_insert_eq. intros E. injection E as <-. split; [exact Hb2|contradiction].
  - rewrite lookup_insert_ne by exact Hne. apply Hwf.
Qed.

(** The pairs of [Done] have been dealt with, those of [toDo] are still
    to be; an encountered pair is one or the other. *)
Definition pendingInv (bank : Bank) (Done toDo enc : list TTPair) : Prop :=
  wfBank bank /\ acyclic bank /\ Forall wfPair toDo /\
  (forall p, In p enc -> In p Done \/ In p toDo) /\
  (forall p, In p Done -> locallyOk bank (fun q => In q Done \/ In q toDo) p).

(** The end of an iteration of the outer loop: leave when [toDo] is
    empty, otherwise go on with the pair on its top. *)
Definition unify_next (fuel : nat) (st : unify_state) : option unify_state :=
  match us_toDo st with
  | [] => Some st
  | (a, b) :: toDo' =>
      unify_loop fuel a b
        (mkUnifyState (us_subst st) toDo' (us_subterms st)
           (us_encountered st) (us_mismatch st))
  end.

Lemma unify_loop_S fuel t1 t2 st :
  unify_loop (S fuel) t1 t2 st =
  let bank := _bank (us_subst st) in
  match derefBound fuel bank t1, derefBound fuel bank t2 with
  | Some dt1, Some dt2 =>
      if sameTermContent dt1 dt2 then unify_next fuel st
      else if isVar (term dt1) then
        let v1 := getVarSpec (term dt1) (index dt1) in
        match occurs fuel bank v1 dt2 with
        | None => None
        | Some true =>
            Some (mkUnifyState (us_subst st) (us_toDo st) (us_subterms st)
                    (us_encountered st) true)
        | Some false =>
            unify_next fuel
              (mkUnifyState (bind (us_subst st) v1 dt2) (us_toDo st)
                 (us_subterms st) (us_encountered st) (us_mismatch st))
        end
      else if isVar (term dt2) then
        let v2 := getVarSpec (term dt2) (index dt2) in
        match occurs fuel bank v2 dt1 with
        | None => None
        | Some true =>
            Some (mkUnifyState (us_subst st) (us_toDo st) (us_subterms st)
                    (us_encountered st) true)
        | Some false =>
            unify_next fuel
              (mkUnifyState (bind (us_subst st) v2 dt1) (us_toDo st)
                 (us_subterms st) (us_encountered st) (us_mismatch st))
        end
      else
        match unify_walk fuel bank (index dt1) (index dt2) [term dt1] [term dt2]
                (us_subterms st) (us_toDo st) (us_encountered st) with
        | None => None
        | Some (mm, subterms', toDo', encountered') =>
            unify_next fuel
              (mkUnifyState (us_subst st) toDo' subterms' encountered'
                 (mm || us_mismatch st))
        end
  | _, _ => None
  end.
Proof. reflexivity. Qed.

(** The mismatch flag is never lowered. *)
Lemma unify_loop_mismatch fuel : forall t1 t2 st st',
  unify_loop fuel t1 t2 st = Some st' -> us_mismatch st = true -> us_mismatch st' = true.
Proof.
  induction fuel as [|fuel IH]; intros t1 t2 st st' H Hmm; [discriminate|].
  assert (Hnext : forall st1,
    unify_next fuel st1 = Some st' -> us_mismatch st1 = true -> us_mismatch st' = true).
  { intros st1 Hn Hmm1. unfold unify_next in Hn. destruct (us_toDo st1) as [|[a b] toDo'].
    - injection Hn as <-. exact Hmm1.
    - apply IH in Hn; [exact Hn|exact Hmm1]. }
  rewrite unify_loop_S in H. cbv zeta in H.
  destruct (derefBound fuel _ t1) as [dt1|]; [|discriminate].
  destruct (derefBound fuel _ t2) as [dt2|]; [|discriminate].
  destruct (sameTermContent dt1 dt2); [apply (Hnext st H Hmm)|].
  destruct (isVar (term dt1)).
  { destruct (occurs fuel _ _ dt2) as [[|]|]; [| |discriminate].
    - injection H as <-. reflexivity.
    - apply (Hnext _ H). exact Hmm. }
  destruct (isVar (term dt2)).
  { destruct (occurs fuel _ _ dt1) as [[|]|]; [| |discriminate].
    - injection H as <-. reflexivity.
    - apply (Hnext _ H). exact Hmm. }
  destruct (unify_walk fuel _ _ _ _ _ _ _ _) as [[[[mm subterms'] toDo'] enc']|];
    [|discriminate].
  apply (Hnext _ H). simpl. rewrite Hmm. apply orb_true_r.
Qed.

Lemma pendingInv_done bank Done toDo enc p :
  pendingInv bank Done (p :: toDo) enc ->
  locallyOk bank (fun q => In q (p :: Done) \/ In q toDo) p ->
  pendingInv bank (p :: Done) toDo enc.
Proof.
  intros (Hwf & Hac & HtoDo & Henc & Hdone) Hp.
  apply Forall_cons in HtoDo. destruct HtoDo as [_ HtoDo].
  split; [exact Hwf|]. split; [exact Hac|]. split; [exact HtoDo|]. split.
  - intros q Hq. destruct (Henc q Hq) as [?|[<-|?]]; simpl; auto.
  - intros q [<-|Hq]; [exact Hp|].
    eapply locallyOk_mono; [apply extends_refl| |exact (Hdone q Hq)].
    simpl. intros r [?|[<-|?]]; auto.
Qed.

Lemma unify_next_mismatch fuel st st' :
  unify_next fuel st = Some st' -> us_mismatch st = true -> us_mismatch st' = true.
Proof.
  unfold unify_next. destruct (us_toDo st) as [|[a b] toDo'].
  - intros H. injection H as <-. auto.
  - intros H Hmm. apply unify_loop_mismatch in H; auto.
Qed.

Lemma Reaches_insert (bank : Bank) t d b :
  Reaches bank t d -> isTerm (term d) = false ->
  binding bank (getVarSpec (term d) (index d)) = None ->
  index b <> UNBOUND_INDEX ->
  Reaches (<[getVarSpec (term d) (index d) := b]> bank) t b.
Proof.
  intros Hr Hvar Hunbound Hb.
  apply (Reaches_trans _ _ d).
  - eapply Reaches_extends; [apply extends_insert, Hunbound|exact Hr].
  - apply (Reaches_step _ d b b); [exact Hvar| |apply Reaches_refl].
    apply binding_insert_eq, Hb.
Qed.

(** Binding the unbound variable [v] to [b] deals with a pair whose two
    sides now lead to [b]. *)
Lemma pendingInv_insert bank Done toDo enc p v b :
  pendingInv bank Done (p :: toDo) enc ->
  binding bank v = None -> wfTS b ->
  (forall n it, instance n bank (term b) (index b) = Some it -> ~ In v (leaves it)) ->
  Reaches (<[v := b]> bank) p.1 b -> Reaches (<[v := b]> bank) p.2 b ->
  pendingInv (<[v := b]> bank) (p :: Done) toDo enc.
Proof.
  intros (Hwf & Hac & HtoDo & Henc & Hdone) Hunbound Hwfb Hoccurs Hr1 Hr2.
  apply Forall_cons in HtoDo. destruct HtoDo as [_ HtoDo].
  split; [apply wfBank_insert; assumption|].
  split; [apply acyclic_insert; [assumption|assumption|exact (proj1 Hwfb)|assumption]|].
  split; [exact HtoDo|]. split.
  - intros q Hq. destruct (Henc q Hq) as [?|[<-|?]]; simpl; auto.
  - intros q [<-|Hq].
    + exists b, b. split; [exact Hr1|]. split; [exact Hr2|].
      left. apply sameTermContent_refl.
    + eapply locallyOk_mono; [apply extends_insert, Hunbound| |exact (Hdone q Hq)].
      simpl. intros r [?|[<-|?]]; auto.
Qed.

(** The occurs check of [unify]: the unbound variable [d] is no leaf of
    the instance of [b]. *)
Lemma occurs_unbound bank fuel d b :
  isTerm (term d) = false ->
  d = TermSpec_of_VarSpec (getVarSpec (term d) (index d)) ->
  binding bank (getVarSpec (term d) (index d)) = None ->
  (isTerm (term b) = false ->
   b = TermSpec_of_VarSpec (getVarSpec (term b) (index b)) /\
   binding bank (getVarSpec (term b) (index b)) = None) ->
  sameTermContent d b = false ->
  occurs fuel bank (getVarSpec (term d) (index d)) b = Some false ->
  forall n it, instance n bank (term b) (index b) = Some it ->
    ~ In (getVarSpec (term d) (index d)) (leaves it).
Proof.
  intros Hvar Hd Hunbound Hb Hsame Hocc n it Hi.
  destruct (isTerm (term b)) eqn:Hterm.
  - destruct (occurs_false _ _ _ _ Hocc Hterm) as (vs' & Hroot & Hleaves).
    assert (vs' = getVarSpec (term d) (index d)) as ->.
    { inversion Hroot; congruence. }
    eapply Hleaves, Hi.
  - destruct (Hb eq_refl) as [Eb Hub].
    destruct n as [|n]; [discriminate|].
    rewrite instance_variable, Hub in Hi by exact Hterm. injection Hi as <-.
    simpl. intros [E|[]].
    rewrite Hd, Eb, E, sameTermContent_refl in Hsame. discriminate.
Qed.

Lemma unify_loop_sound fuel : forall t1 t2 st st' Done,
  unify_loop fuel t1 t2 st = Some st' -> us_mismatch st' = false ->
  us_subterms st = [] ->
  pendingInv (_bank (us_subst st)) Done ((t1, t2) :: us_toDo st) (us_encountered st) ->
  exists Done',
    pendingInv (_bank (us_subst st')) Done' [] [] /\
    incl ((t1, t2) :: Done) Done' /\
    extends (_bank (us_subst st)) (_bank (us_subst st')).
Proof.
  induction fuel as [|fuel IH]; intros t1 t2 st st' Done H Hmm Hsub Hinv; [discriminate|].
  assert (Hnext : forall st1 Done1,
    unify_next fuel st1 = Some st' -> us_subterms st1 = [] ->
    pendingInv (_bank (us_subst st1)) Done1 (us_toDo st1) (us_encountered st1) ->
    exists Done',
      pendingInv (_bank (us_subst st')) Done' [] [] /\
      incl Done1 Done' /\
      extends (_bank (us_subst st1)) (_bank (us_subst st'))).
  { intros st1 Done1 Hn Hsub1 Hinv1. unfold unify_next in Hn. revert Hn Hinv1.
    destruct (us_toDo st1) as [|[a b] toDo']; intros Hn Hinv1.
    - injection Hn as <-. exists Done1.
      split; [|split; [apply incl_refl|apply extends_refl]].
      destruct Hinv1 as (? & ? & ? & ? & ?).
      split; [assumption|]. split; [assumption|]. split; [assumption|].
      split; [intros p []|assumption].
    - destruct (IH _ _ _ _ Done1 Hn Hmm Hsub1 Hinv1) as (Done' & ? & Hincl & ?).
      exists Done'. split; [assumption|]. split; [|assumption].
      intros q Hq. apply Hincl. right. exact Hq. }
  rewrite unify_loop_S in H. cbv zeta in H.
  destruct (derefBound fuel _ t1) as [dt1|] eqn:Hd1; [|discriminate].
  destruct (derefBound fuel _ t2) as [dt2|] eqn:Hd2; [|discriminate].
  pose proof Hinv as (Hwf & Hac & HtoDo & _ & _).
  apply Forall_cons in HtoDo. destruct HtoDo as [[Hwt1 Hwt2] HtoDo]. cbn [fst snd] in *.
  destruct (derefBound_Reaches _ _ _ _ Hd1) as (Hr1 & Hv1 & _).
  destruct (derefBound_Reaches _ _ _ _ Hd2) as (Hr2 & Hv2 & _).
  pose proof (derefBound_wfTS _ _ _ _ Hwf Hwt1 Hd1) as Hwd1.
  pose proof (derefBound_wfTS _ _ _ _ Hwf Hwt2 Hd2) as Hwd2.
  destruct (sameTermContent dt1 dt2) eqn:Hsame.
  { apply (Hnext st ((t1, t2) :: Done) H Hsub).
    apply pendingInv_done; [exact Hinv|]. exists dt1, dt2. auto. }
  rewrite !isVar_isTerm in H.
  destruct (isTerm (term dt1)) eqn:Hterm1; cbn [negb] in H.
  2:{ destruct (occurs fuel _ _ dt2) as [[|]|] eqn:Hocc; [| |discriminate].
      { injection H as <-. discriminate. }
      destruct (Hv1 eq_refl) as [Ed1 Hub1].
      destruct (Hnext _ ((t1, t2) :: Done) H Hsub) as (Done' & Hinv' & Hincl & Hext).
      { cbn [us_subst us_toDo us_encountered bind _bank].
        apply pendingInv_insert; [exact Hinv|exact Hub1|exact Hwd2| | |].
        - apply (occurs_unbound _ fuel dt1 dt2 Hterm1 Ed1 Hub1 Hv2 Hsame Hocc).
        - apply Reaches_insert; [exact Hr1|exact Hterm1|exact Hub1|exact (proj1 Hwd2)].
        - eapply Reaches_extends; [apply extends_insert, Hub1|exact Hr2]. }
      exists Done'. split; [exact Hinv'|]. split; [exact Hincl|].
      eapply extends_trans; [|exact Hext]. apply extends_insert, Hub1. }
  destruct (isTerm (term dt2)) eqn:Hterm2; cbn [negb] in H.
  2:{ destruct (occurs fuel _ _ dt1) as [[|]|] eqn:Hocc; [| |discriminate].
      { injection H as <-. discriminate. }
      destruct (Hv2 eq_refl) as [Ed2 Hub2].
      destruct (Hnext _ ((t1, t2) :: Done) H Hsub) as (Done' & Hinv' & Hincl & Hext).
      { cbn [us_subst us_toDo us_encountered bind _bank].
        apply pendingInv_insert; [exact Hinv|exact Hub2|exact Hwd1| | |].
        - apply (occurs_unbound _ fuel dt2 dt1 Hterm2 Ed2 Hub2);
            [intros; congruence| |exact Hocc].
          unfold sameTermContent. rewrite bool_decide_eq_false_2; [reflexivity|].
          intros E. rewrite E in Hterm2. congruence.
        - eapply Reaches_extends; [apply extends_insert, Hub2|exact Hr1].
        - apply Reaches_insert; [exact Hr2|exact Hterm2|exact Hub2|exact (proj1 Hwd1)]. }
      exists Done'. split; [exact Hinv'|]. split; [exact Hincl|].
      eapply extends_trans; [|exact Hext]. apply extends_insert, Hub2. }
  rewrite Hsub in H.
  destruct (unify_walk fuel _ _ _ _ _ _ _ _) as [[[[mm sub'] toDo'] enc']|] eqn:Hwalk;
    [|discriminate].
  destruct mm; [apply unify_next_mismatch in H; [congruence|reflexivity]|].
  destruct (unify_walk_walked _ _ _ _ (proj1 Hwd1) (proj1 Hwd2) _ _ _ _ _ _ _ _ _ _
              Hwalk (proj2 Hwd1) (proj2 Hwd2) I)
    as (-> & Hcov & _ & (new & -> & Hnew) & Hinc & Hback).
  destruct Hinv as (_ & _ & _ & Henc & Hdone).
  assert (Henc' : forall p, In p enc' ->
                  In p ((t1, t2) :: Done) \/ In p (new ++ us_toDo st)).
  { intros p Hp. destruct (Hback p Hp) as [Hp'|Hp']; [|auto].
    destruct (Henc p Hp') as [?|[<-|?]]; simpl; auto.
    right. apply in_or_app. auto. }
  apply (Hnext _ ((t1, t2) :: Done) H); [reflexivity|].
  cbn [us_subst us_toDo us_encountered].
  split; [exact Hwf|]. split; [exact Hac|].
  split; [apply Forall_app; auto|]. split; [exact Henc'|].
  intros q [<-|Hq].
  - exists dt1, dt2. split; [exact Hr1|]. split; [exact Hr2|]. right.
    split; [exact Hterm1|]. split; [exact Hterm2|].
    eapply covered_mono; [|exact Hcov]. intros p [Hp|Hp]; auto.
  - eapply locallyOk_mono; [apply extends_refl| |exact (Hdone q Hq)].
    intros r [?|[<-|?]]; simpl; auto. right. apply in_or_app. auto.
Qed.

(** **** [unify] *)

Lemma unify_sound_instance fuel s t1 t2 s' :
  wfBank (_bank s) -> acyclic (_bank s) -> wfTS t1 -> wfTS t2 ->
  unify fuel s t1 t2 = Some (true, s') ->
  wfBank (_bank s') /\ acyclic (_bank s') /\
  exists n it, instance n (_bank s') (term t1) (index t1) = Some it /\
               instance n (_bank s') (term t2) (index t2) = Some it.
Proof.
  intros Hwf Hac Hw1 Hw2. unfold unify.
  destruct (sameTermContent t1 t2) eqn:Hsame.
  - intros H. injection H as <-. split; [exact Hwf|]. split; [exact Hac|].
    destruct (Hac (term t1) (index t1)) as (n & it & Hi). exists n, it.
    split; [exact Hi|]. rewrite <- (sameTermContent_instance _ _ _ _ Hsame). exact Hi.
  - destruct (unify_loop fuel t1 t2 _) as [st|] eqn:Hloop; [|discriminate].
    destruct (bdDone (us_subst st)) as [localBD s1] eqn:Hdone.
    destruct (us_mismatch st) eqn:Hmm; [discriminate|].
    intros H. injection H as <-.
    assert (Hbank : _bank (if bdIsRecording s1 then bdCommit localBD s1 else s1) =
                    _bank (us_subst st)).
    { assert (_bank s1 = _bank (us_subst st)) as <-.
      { unfold bdDone in Hdone. destruct (_bdStack (us_subst st)) as [|[bd|] rest];
          injection Hdone as _ <-; reflexivity. }
      destruct (bdIsRecording s1); [|reflexivity].
      unfold bdCommit. destruct (_bdStack s1) as [|[outer|] rest]; reflexivity. }
    rewrite Hbank.
    destruct (unify_loop_sound _ _ _ _ _ [] Hloop Hmm eq_refl) as (Done & Hinv & Hincl & _).
    { cbn [us_subst us_toDo us_encountered bdRecord _bank].
      split; [exact Hwf|]. split; [exact Hac|].
      split; [apply Forall_cons; split; [split; assumption|apply Forall_nil; exact I]|].
      split; intros p []. }
    destruct Hinv as (Hwf' & Hac' & _ & _ & Hok).
    split; [exact Hwf'|]. split; [exact Hac'|].
    destruct (Hac' (term t1) (index t1)) as (n & it & Hi).
    destruct (Hac' (term t2) (index t2)) as (m & it' & Hi').
    assert (it = it') as <-.
    { apply (done_instance (_bank (us_subst st)) Done) with (n := S n) (p := (t1, t2))
                                                             (k := n) (m := m).
      - intros p Hp. eapply locallyOk_mono; [apply extends_refl| |exact (Hok p Hp)].
        intros q [?|[]]. assumption.
      - apply Hincl. left. reflexivity.
      - lia.
      - exact Hi.
      - exact Hi'. }
    exists (n + m)%nat, it. split; eapply instance_mono; try eassumption; lia.
Qed.


(** **** Applying the substitution *)

(** The fresh variable that [deref] has given to an unbound variable. *)
Definition marker (bank : Bank) (v : VarSpec) : option TermList :=
  match bank !! v with
  | Some b => if index b =? UNBOUND_INDEX then Some (term b) else None
  | None => None
  end.

(** The instance with the fresh variables at its leaves. *)
Fixpoint output (bank : Bank) (it : ITerm) : option TermList :=
  match it with
  | ILeaf v => marker bank v
  | INode f args => Term f <$> mapM (output bank) args
  end.

(** [apply] only adds fresh variables for unbound variables. *)
Definition grows (bank bank' : Bank) : Prop :=
  (forall v, binding bank v = binding bank' v) /\
  (forall v t, marker bank v = Some t -> marker bank' v = Some t).

Lemma grows_refl bank : grows bank bank.
Proof. split; auto. Qed.

Lemma grows_trans b1 b2 b3 : grows b1 b2 -> grows b2 b3 -> grows b1 b3.
Proof.
  intros [H1 H2] [H3 H4]. split; [intros v; rewrite H1; apply H3|auto].
Qed.

Lemma output_grows bank bank' it : forall r,
  grows bank bank' -> output bank it = Some r -> output bank' it = Some r.
Proof.
  intros r Hg. revert r.
  induction it as [v|f args IH] using ITerm_ind'; intros r; cbn [output].
  - apply Hg.
  - destruct (mapM (output bank) args) as [rs|] eqn:E; [|discriminate].
    intros H. apply mapM_Some in E.
    assert (E' : mapM (output bank') args = Some rs).
    { apply mapM_Some. clear H. induction E as [|a y args rs Ha _ IHE].
      - apply Forall2_nil. exact I.
      - apply List.Forall_cons_iff in IH. destruct IH as [IHa IH].
        apply Forall2_cons. split; [apply IHa, Ha|apply IHE, IH]. }
    rewrite E'. exact H.
Qed.

Lemma ground_output bank bank' n : forall t idx it,
  ground t = true -> instance n bank t idx = Some it -> output bank' it = Some t.
Proof.
  induction n as [|n IH]; intros t idx it Hg Hi; [discriminate|].
  destruct t as [v|v|f args]; try discriminate.
  apply instance_Term in Hi. destruct Hi as (n' & its & E & -> & Hargs).
  injection E as <-. cbn [output ground] in *.
  assert (E' : mapM (output bank') its = Some args).
  { apply mapM_Some. rewrite forallb_forall in Hg.
    induction Hargs as [|a y args its Ha _ IHargs].
    - apply Forall2_nil. exact I.
    - apply Forall2_cons. split.
      + apply (IH a idx); [apply Hg; left; reflexivity|exact Ha].
      + apply IHargs. intros x Hx. apply Hg. right. exact Hx. }
  rewrite E'. reflexivity.
Qed.

Lemma root_total bank n : forall fuel t idx it,
  (n <= fuel)%nat -> isTerm t = false -> instance n bank t idx = Some it ->
  exists r, root fuel bank (getVarSpec t idx) = Some r.
Proof.
  induction n as [|n IH]; intros fuel t idx it Hle Ht Hi; [discriminate|].
  destruct fuel as [|fuel]; [lia|].
  rewrite instance_variable in Hi by exact Ht. rewrite root_S.
  destruct (binding bank (getVarSpec t idx)) as [b|]; [|eauto].
  destruct (isTerm (term b)) eqn:Hb; [eauto|].
  apply (IH fuel (term b) (index b) it); [lia|exact Hb|exact Hi].
Qed.

Lemma deref_unbound fuel s vs :
  wfBank (_bank s) -> binding (_bank s) vs = None ->
  exists m s', deref (S fuel) s vs = Some (m, s') /\
    isVar (term m) = true /\ marker (_bank s') vs = Some (term m) /\
    grows (_bank s) (_bank s') /\ wfBank (_bank s').
Proof.
  intros Hwf Hunbound. cbn [deref]. unfold binding in Hunbound.
  destruct (_bank s !! vs) as [b|] eqn:Hb.
  - destruct (Z.eqb_spec (index b) UNBOUND_INDEX) as [Eb|]; [|discriminate].
    cbn [orb]. exists b, s. split; [reflexivity|].
    split; [rewrite isVar_isTerm, (proj2 (Hwf vs b Hb) Eb); reflexivity|].
    split; [|split; [apply grows_refl|exact Hwf]].
    unfold marker. rewrite Hb, Eb. reflexivity.
  - eexists _, _. split; [reflexivity|]. cbn [term bind _bank].
    split; [reflexivity|]. split; [|split].
    + unfold marker. rewrite lookup_insert_eq. reflexivity.
    + split.
      * intros v. unfold binding. destruct (decide (vs = v)) as [<-|Hne].
        -- rewrite lookup_insert_eq, Hb. reflexivity.
        -- rewrite lookup_insert_ne by exact Hne. reflexivity.
      * intros v t. unfold marker. destruct (decide (vs = v)) as [<-|Hne].
        -- rewrite Hb. discriminate.
        -- rewrite lookup_insert_ne by exact Hne. auto.
    + intros v c. destruct (decide (vs = v)) as [<-|Hne].
      * rewrite lookup_insert_eq. intros E. injection E as <-. auto.
      * rewrite lookup_insert_ne by exact Hne. apply Hwf.
Qed.

Lemma deref_bound fuel s vs b :
  binding (_bank s) vs = Some b -> isTerm (term b) = true ->
  deref (S fuel) s vs = Some (b, s).
Proof.
  intros Hb Hterm. cbn [deref]. unfold binding in Hb.
  destruct (_bank s !! vs) as [c|]; [|discriminate].
  destruct (index c =? UNBOUND_INDEX); [discriminate|].
  injection Hb as ->. rewrite Hterm. reflexivity.
Qed.

(** The cache holds the outputs of variables bound to proper terms. *)
Definition knownOk (bank : Bank) (known : gmap (nat * Z) TermList) : Prop :=
  forall vs r, known !! vs = Some r ->
    exists b n it, binding bank vs = Some b /\ isTerm (term b) = true /\
      instance n bank (term b) (index b) = Some it /\ output bank it = Some r.

Lemma knownOk_grows bank bank' known :
  grows bank bank' -> knownOk bank known -> knownOk bank' known.
Proof.
  intros Hg Hk vs r Hr. destruct (Hk vs r Hr) as (b & n & it & Hb & Hterm & Hi & Ho).
  exists b, n, it. split; [rewrite <- (proj1 Hg); exact Hb|]. split; [exact Hterm|].
  split; [rewrite <- (instance_ext bank bank' n _ _ (proj1 Hg)); exact Hi|].
  eapply output_grows; eauto.
Qed.

(** The result of applying the substitution to a term whose instance is
    [it]. *)
Definition applied (it : ITerm) (s : subst) (known : gmap (nat * Z) TermList)
    (res : option (TermList * subst * gmap (nat * Z) TermList)) : Prop :=
  exists r s' known', res = Some (r, s', known') /\
    output (_bank s') it = Some r /\ grows (_bank s) (_bank s') /\
    wfBank (_bank s') /\ knownOk (_bank s') known'.

Section ApplyTerm.
Variable rec : subst -> gmap (nat * Z) TermList -> TermList -> Z ->
               option (TermList * subst * gmap (nat * Z) TermList).
Variable bound : nat.
Hypothesis rec_applied : forall n trm idx it s known,
  (n < bound)%nat -> instance n (_bank s) trm idx = Some it ->
  wfBank (_bank s) -> knownOk (_bank s) known ->
  applied it s known (rec s known trm idx).

Lemma apply_args_spec n tidx args : forall its s known,
  (n < bound)%nat ->
  Forall2 (fun a y => instance n (_bank s) a tidx = Some y) args its ->
  wfBank (_bank s) -> knownOk (_bank s) known ->
  exists rs s' known',
    apply_args (fun s known a => rec s known a tidx) args s known = Some (rs, s', known') /\
    Forall2 (fun y r => output (_bank s') y = Some r) its rs /\
    grows (_bank s) (_bank s') /\ wfBank (_bank s') /\ knownOk (_bank s') known'.
Proof.
  induction args as [|a args IH]; intros its s known Hn Hargs Hwf Hk.
  - inversion Hargs; subst. exists [], s, known. split; [reflexivity|].
    split; [apply Forall2_nil; exact I|]. split; [apply grows_refl|auto].
  - inversion Hargs as [|? y ? its' Ha Hargs']; subst. cbn [apply_args].
    destruct (rec_applied n a tidx y s known Hn Ha Hwf Hk)
      as (r & s1 & known1 & -> & Ho & Hg & Hwf1 & Hk1).
    destruct (IH its' s1 known1 Hn) as (rs & s2 & known2 & -> & Hos & Hg2 & Hwf2 & Hk2);
      [|exact Hwf1|exact Hk1|].
    { eapply Forall2_impl; [exact Hargs'|]. intros x z Hx.
      rewrite <- (instance_ext _ _ n _ _ (proj1 Hg)). exact Hx. }
    exists (r :: rs), s2, known2. split; [reflexivity|].
    split; [|split; [eapply grows_trans; eauto|auto]].
    apply Forall2_cons. split; [eapply output_grows; eauto|exact Hos].
Qed.

Lemma apply_term_spec n f args tidx it ref s known :
  (n <= bound)%nat -> instance n (_bank s) (Term f args) tidx = Some it ->
  wfBank (_bank s) -> knownOk (_bank s) known ->
  (forall vs, ref = Some vs ->
     binding (_bank s) vs = Some (mkTermSpec (Term f args) tidx)) ->
  applied it s known (apply_term rec (Term f args) tidx ref s known).
Proof.
  intros Hn Hi Hwf Hk Href. unfold apply_term.
  destruct (ground (Term f args)) eqn:Hg.
  - exists (Term f args), s, known. split; [reflexivity|].
    split; [eapply ground_output; eauto|]. split; [apply grows_refl|auto].
  - pose proof Hi as Hi0.
    apply instance_Term in Hi. destruct Hi as (n' & its & -> & -> & Hargs).
    destruct (apply_args_spec n' tidx args its s known ltac:(lia) Hargs Hwf Hk)
      as (rs & s' & known' & -> & Hos & Hgr & Hwf' & Hk').
    eexists _, _, _. split; [reflexivity|].
    assert (Hout : output (_bank s') (INode f its) = Some (Term f rs)).
    { cbn [output]. apply mapM_Some in Hos. rewrite Hos. reflexivity. }
    split; [exact Hout|]. split; [exact Hgr|]. split; [exact Hwf'|].
    destruct ref as [vs|]; [|exact Hk'].
    destruct (known' !! vs) eqn:Hvs; [exact Hk'|].
    intros v r. destruct (decide (vs = v)) as [<-|Hne].
    + rewrite lookup_insert_eq. intros E. injection E as <-.
      exists (mkTermSpec (Term f args) tidx), (S n'), (INode f its).
      split; [rewrite <- (proj1 Hgr); apply Href; reflexivity|].
      split; [reflexivity|]. split; [|exact Hout].
      rewrite <- (instance_ext _ _ _ _ _ (proj1 Hgr)). exact Hi0.
    + rewrite lookup_insert_ne by exact Hne. apply Hk'.
Qed.

End ApplyTerm.

Lemma apply_rec_spec fuel : forall n trm idx it s known,
  (n < fuel)%nat -> instance n (_bank s) trm idx = Some it ->
  wfBank (_bank s) -> knownOk (_bank s) known ->
  applied it s known (apply_rec fuel s known trm idx).
Proof.
  induction fuel as [|fuel IH]; intros n trm idx it s known Hn Hi Hwf Hk; [lia|].
  cbn [apply_rec]. rewrite isVar_isTerm.
  destruct (isTerm trm) eqn:Hterm; cbn [negb].
  - destruct trm as [v|v|f args]; try discriminate.
    apply (apply_term_spec (apply_rec fuel) fuel IH n); [lia|assumption..|discriminate].
  - destruct (root_total _ n fuel trm idx it ltac:(lia) Hterm Hi) as (vs & Hroot).
    rewrite Hroot. apply root_Root in Hroot.
    destruct (Root_instance _ _ _ Hroot n trm idx it Hterm eq_refl Hi)
      as [[Hunbound ->]|(b & n' & Hb & Hbterm & Hlt & Hib)].
    + destruct (known !! vs) as [found|] eqn:Hfound.
      { destruct (Hk vs found Hfound) as (b & _ & _ & Hb & _). congruence. }
      destruct fuel as [|fuel]; [destruct n; [discriminate|lia]|].
      destruct (deref_unbound fuel s vs Hwf Hunbound) as (m & s' & -> & Hm & Hmark & Hg & Hwf').
      rewrite Hm. exists (term m), s', known. split; [reflexivity|].
      split; [exact Hmark|]. split; [exact Hg|]. split; [exact Hwf'|].
      eapply knownOk_grows; eauto.
    + destruct (known !! vs) as [found|] eqn:Hfound.
      { destruct (Hk vs found Hfound) as (b' & m & it' & Hb' & _ & Hi' & Ho).
        assert (b' = b) by congruence. subst b'.
        rewrite (instance_functional _ _ _ _ _ _ _ Hib Hi').
        exists found, s, known. split; [reflexivity|]. split; [exact Ho|].
        split; [apply grows_refl|auto]. }
      destruct fuel as [|fuel]; [destruct n; [discriminate|lia]|].
      rewrite (deref_bound fuel s vs b Hb Hbterm).
      rewrite isVar_isTerm, Hbterm. cbn [negb].
      destruct b as [tb ib]. cbn [term index] in *.
      destruct tb as [v|v|f args]; try discriminate.
      apply (apply_term_spec (apply_rec (S fuel)) (S fuel) IH n'); [lia|assumption..|].
      intros vs' E. injection E as <-. exact Hb.
Qed.

(** [apply] gives the output of the instance, within one step more than
    the instance takes. *)
Lemma apply_spec fuel n s trm idx it :
  (n < fuel)%nat -> instance n (_bank s) trm idx = Some it -> wfBank (_bank s) ->
  exists r s', apply fuel s trm idx = Some (r, s') /\
    output (_bank s') it = Some r /\ grows (_bank s) (_bank s') /\ wfBank (_bank s').
Proof.
  intros Hn Hi Hwf. unfold apply.
  destruct (apply_rec_spec fuel n trm idx it s ∅ Hn Hi Hwf)
    as (r & s' & known' & -> & Ho & Hg & Hwf' & _).
  { intros vs r. rewrite lookup_empty. discriminate. }
  exists r, s'. auto.
Qed.

Lemma wfBank_empty : wfBank ∅.
Proof. intros v b. rewrite lookup_empty. discriminate. Qed.

(** After a successful [unify], the bank is acyclic and [apply] gives the
    same term for the two sides. *)
Lemma unify_apply fuel s t1 t2 s' :
  wfBank (_bank s) -> acyclic (_bank s) -> wfTS t1 -> wfTS t2 ->
  unify fuel s t1 t2 = Some (true, s') ->
  acyclic (_bank s') /\
  exists n, forall fuel', (n <= fuel')%nat ->
    exists r s1 s2,
      apply fuel' s' (term t1) (index t1) = Some (r, s1) /\
      apply fuel' s1 (term t2) (index t2) = Some (r, s2).
Proof.
  intros Hwf Hac Hw1 Hw2 H.
  destruct (unify_sound_instance _ _ _ _ _ Hwf Hac Hw1 Hw2 H)
    as (Hwf' & Hac' & n & it & Hi1 & Hi2).
  split; [exact Hac'|]. exists (S n). intros fuel' Hfuel.
  destruct (apply_spec fuel' n s' _ _ it ltac:(lia) Hi1 Hwf')
    as (r & s1 & E1 & Ho1 & Hg1 & Hwf1).
  rewrite (instance_ext _ _ n _ _ (proj1 Hg1)) in Hi2.
  destruct (apply_spec fuel' n s1 _ _ it ltac:(lia) Hi2 Hwf1)
    as (r' & s2 & E2 & Ho2 & Hg2 & _).
  rewrite (output_grows _ _ _ _ Hg2 Ho1) in Ho2. injection Ho2 as <-.
  exists r, s1, s2. split; [exact E1|exact E2].
Qed.

End Sound.

End RobSubstitutionSound.

(** f(x, a) in bank 0 and f(b, y) in bank 1, and the substitution that
    [unify] leaves for them. *)
Definition example_left : TermList := Term 3 [Var 0; Term 0 []].
Definition example_right : TermList := Term 3 [Term 1 []; Var 0].
Definition example_unifier : RobSubstitution.subst :=
  RobSubstitution.mkSubst
    (<[(0%nat, 1) := RobSubstitution.mkTermSpec (Term 0 []) 0]>
       (<[(0%nat, 0) := RobSubstitution.mkTermSpec (Term 1 []) 1]> ∅))
    0 [].

(** C1.  Over a signature, from a substitution without cyclic bindings
    whose entries of the bank of fresh variables are variables, and for two
    terms of banks other than that one: when [unify] answers true, the
    resulting substitution has no cyclic binding, and [apply] gives, for the
    first term and then for the second, the same term, as soon as it is
    given enough steps. *)
Theorem unify_sound (arityOf : nat -> nat) (fuel : nat) (s : RobSubstitution.subst)
    (t1 : TermList) (index1 : Z) (t2 : TermList) (index2 : Z)
    (s' : RobSubstitution.subst) :
  RobSubstitutionSound.wfBank arityOf (RobSubstitution._bank s) ->
  RobSubstitutionSound.acyclic (RobSubstitution._bank s) ->
  RobSubstitutionSound.wellArity arityOf t1 = true ->
  RobSubstitutionSound.wellArity arityOf t2 = true ->
  index1 <> RobSubstitution.UNBOUND_INDEX -> index2 <> RobSubstitution.UNBOUND_INDEX ->
  RobSubstitution.unify4 fuel s t1 index1 t2 index2 = Some (true, s') ->
  RobSubstitutionSound.acyclic (RobSubstitution._bank s') /\
  exists n, forall fuel', (n <= fuel')%nat ->
    exists r s1 s2,
      RobSubstitution.apply fuel' s' t1 index1 = Some (r, s1) /\
      RobSubstitution.apply fuel' s1 t2 index2 = Some (r, s2).
Proof.
  intros Hwf Hac Hw1 Hw2 Hi1 Hi2 H.
  apply (RobSubstitutionSound.unify_apply arityOf fuel s
           (RobSubstitution.mkTermSpec t1 index1) (RobSubstitution.mkTermSpec t2 index2) s');
    try assumption; split; assumption.
Qed.

Lemma unify_sound_witness :
  RobSubstitutionSound.acyclic (RobSubstitution._bank example_unifier) /\
  exists n, forall fuel', (n <= fuel')%nat ->
    exists r s1 s2,
      RobSubstitution.apply fuel' example_unifier example_left 0 = Some (r, s1) /\
      RobSubstitution.apply fuel' s1 example_right 1 = Some (r, s2).
Proof.
  apply (unify_sound example_arity 20 RobSubstitution.empty example_left 0 example_right 1).
  - exact (RobSubstitutionSound.wfBank_empty example_arity).
  - exact RobSubstitutionSound.acyclic_empty.
  - reflexivity.
  - reflexivity.
  - discriminate.
  - discriminate.
  - vm_compute. reflexivity.
Defined.

(** * Further properties of the code *)

(** ** Kernel/KBO.cpp: what [KBO::compare] answers *)

Module KBOFacts.
Import KBO KBOUnbounded KBOSpec.

Section Facts.
Variable functionColored : nat -> bool.
Variable compareFunctionPrecedences : nat -> nat -> Result.
Variable arityOf : nat -> nat.
Hypothesis precedence_total : forall f g,
  f <> g -> compareFunctionPrecedences f g = GREATER \/ compareFunctionPrecedences f g = LESS.

Abbreviation table := (decisionTable functionColored compareFunctionPrecedences).
Abbreviation W := (weight functionColored).

Lemma variableCondition_cases s t r :
  variableCondition s t r = r \/ variableCondition s t r = INCOMPARABLE.
Proof.
  unfold variableCondition. destruct (_ && _); [auto|]. destruct (_ && _); auto.
Qed.

(** The purported result of the table on two distinct terms is GREATER or
    LESS, and so is the purported result of its lexicographic rule, as long
    as the table's outcome on the arguments is in [Q]. *)
Lemma decisionTable_outcome (Q : Result -> Prop) s :
  Q GREATER -> Q LESS -> (forall x y r, Q r -> Q (variableCondition x y r)) ->
  (forall t, wellFormed arityOf s = true -> wellFormed arityOf t = true ->
             (forall a b, In a (subterms s) -> In b (subterms t) -> a <> b ->
                          wellFormed arityOf a = true -> wellFormed arityOf b = true ->
                          Q (table a b)) ->
             s <> t -> Q (table s t)).
Proof.
  intros HG HL Hvc t Hs Ht Hargs Hne. rewrite decisionTable_eq. apply Hvc.
  destruct (negb (W s - W t =? 0)).
  { destruct (sign_cases (W s - W t)) as [-> | ->]; assumption. }
  destruct (sameTopFunctor s t) eqn:Hsame; cbn [negb].
  2:{ destruct (topPrecedence_cases compareFunctionPrecedences precedence_total s t Hne Hsame)
        as [-> | ->]; assumption. }
  destruct s as [v|v|f ss], t as [w|w|g ts]; try discriminate.
  cbn [sameTopFunctor] in Hsame. apply Nat.eqb_eq in Hsame. subst g.
  destruct (wellFormed_args _ _ _ Hs) as [Hlen Hwf].
  destruct (wellFormed_args _ _ _ Ht) as [Hlen' Hwf'].
  assert (Hl : length ss = length ts) by congruence.
  assert (Hd : ss <> ts) by congruence.
  cbn [subterms] in Hargs. clear Hs Ht Hne Hlen Hlen'.
  revert ts Hwf' Hl Hd Hargs.
  induction ss as [|a ss IH]; intros [|b ts] Hwf' Hl Hd Hargs; try discriminate;
    [congruence|].
  apply Forall_cons in Hwf, Hwf'. destruct Hwf as [Ha Hwf], Hwf' as [Hb Hwf'].
  cbn [lexicographic]. destruct (decide (a = b)) as [<-|Hab].
  - rewrite bool_decide_eq_true_2 by reflexivity.
    apply IH; [assumption..|simpl in Hl; lia|congruence|].
    intros x y Hx Hy. apply Hargs; simpl; auto.
  - rewrite bool_decide_eq_false_2 by exact Hab.
    apply Hargs; simpl; auto.
Qed.

Lemma decisionTable_cases s : forall t,
  wellFormed arityOf s = true -> wellFormed arityOf t = true -> s <> t ->
  table s t = GREATER \/ table s t = LESS \/ table s t = INCOMPARABLE.
Proof.
  induction s as [v|v|f ss IH] using TermList_ind'; intros t Hs Ht Hne;
    (apply (decisionTable_outcome
              (fun r => r = GREATER \/ r = LESS \/ r = INCOMPARABLE));
     [auto|auto| |exact Hs|exact Ht| |exact Hne]);
    try (intros x y r Hr; destruct (variableCondition_cases x y r) as [-> | ->]; auto);
    try (intros a b []).
  intros a b Ha Hb Hab Hwa Hwb. rewrite List.Forall_forall in IH. apply IH; assumption.
Qed.

(** **** Ground terms *)

Lemma ground_variables t : ground t = true -> variables t = [].
Proof.
  induction t as [v|v|f args IH] using TermList_ind'; try discriminate.
  cbn [ground variables]. rewrite forallb_forall. intros Hg.
  induction IH as [|a args Ha _ IHargs]; [reflexivity|].
  cbn [flat_map]. rewrite Ha by (apply Hg; left; reflexivity).
  apply IHargs. intros x Hx. apply Hg. right. exact Hx.
Qed.

Lemma variableCondition_ground s t r :
  ground s = true -> ground t = true -> variableCondition s t r = r.
Proof.
  intros Hs Ht. unfold variableCondition, occursMoreIn.
  rewrite (ground_variables s Hs), (ground_variables t Ht). reflexivity.
Qed.

Lemma ground_args f args a : ground (Term f args) = true -> In a args -> ground a = true.
Proof. cbn [ground]. rewrite forallb_forall. auto. Qed.

Lemma decisionTable_ground s : forall t,
  wellFormed arityOf s = true -> wellFormed arityOf t = true ->
  ground s = true -> ground t = true -> s <> t ->
  table s t = GREATER \/ table s t = LESS.
Proof.
  induction s as [v|v|f ss IH] using TermList_ind'; intros t Hs Ht Hgs Hgt Hne;
    try discriminate.
  destruct t as [w|w|g ts]; try discriminate.
  assert (Hrec : forall a b, In a ss -> In b ts -> a <> b ->
                 wellFormed arityOf a = true -> wellFormed arityOf b = true ->
                 table a b = GREATER \/ table a b = LESS).
  { intros a b Ha Hb Hab Hwa Hwb. rewrite List.Forall_forall in IH.
    apply IH; try assumption;
      [exact (ground_args f ss a Hgs Ha)|exact (ground_args g ts b Hgt Hb)]. }
  rewrite decisionTable_eq, variableCondition_ground by assumption.
  destruct (negb (W (Term f ss) - W (Term g ts) =? 0)); [apply sign_cases|].
  destruct (sameTopFunctor (Term f ss) (Term g ts)) eqn:Hsame; cbn [negb].
  2:{ apply (topPrecedence_cases compareFunctionPrecedences precedence_total); assumption. }
  cbn [sameTopFunctor] in Hsame. apply Nat.eqb_eq in Hsame. subst g.
  destruct (wellFormed_args _ _ _ Hs) as [Hlen Hwf].
  destruct (wellFormed_args _ _ _ Ht) as [Hlen' Hwf'].
  assert (Hl : length ss = length ts) by congruence.
  assert (Hd : ss <> ts) by congruence.
  clear Hs Ht Hne Hlen Hlen' Hgs Hgt IH.
  revert ts Hwf' Hl Hd Hrec.
  induction ss as [|a ss IHss]; intros [|b ts] Hwf' Hl Hd Hrec; try discriminate;
    [congruence|].
  apply Forall_cons in Hwf, Hwf'. destruct Hwf as [Ha Hwf], Hwf' as [Hb Hwf'].
  cbn [lexicographic]. destruct (decide (a = b)) as [<-|Hab].
  - rewrite bool_decide_eq_true_2 by reflexivity.
    apply IHss; [assumption..|simpl in Hl; lia|congruence|].
    intros x y Hx Hy. apply Hrec; simpl; auto.
  - rewrite bool_decide_eq_false_2 by exact Hab. apply Hrec; simpl; auto.
Qed.

(** **** Subterms *)

Lemma sumZ_In_le {A} (h : A -> Z) l a :
  (forall x, 0 <= h x) -> In a l -> h a <= sumZ (map h l).
Proof.
  intros Hh. induction l as [|x l IH]; [intros []|].
  assert (0 <= sumZ (map h l)) by (apply sumZ_nonneg, Forall_map, Forall_forall; auto).
  intros [<-|Ha]; simpl; [lia|]. specialize (IH Ha). specialize (Hh x). lia.
Qed.

Lemma containsSubterm_inv s t :
  containsSubterm s t = true ->
  s = t \/ exists f args a, s = Term f args /\ In a args /\ containsSubterm a t = true.
Proof.
  destruct (decide (s = t)) as [E|E]; [auto|].
  destruct s as [v|v|f args]; cbn [containsSubterm];
    rewrite bool_decide_eq_false_2 by exact E; try (intros H; discriminate H).
  rewrite existsb_exists. intros (a & Ha & Hc). right. exists f, args, a. auto.
Qed.

Lemma containsSubterm_measures s : forall t,
  containsSubterm s t = true ->
  W t <= W s /\ (s <> t -> W t < W s) /\
  (forall v, occurrences v t <= occurrences v s) /\
  (wellFormed arityOf s = true -> wellFormed arityOf t = true).
Proof.
  induction s as [v|v|f args IH] using TermList_ind'; intros t Hc;
    apply containsSubterm_inv in Hc;
    (destruct Hc as [<-|(g & l & a & E & Ha & Hc)];
     [split; [lia|]; split; [congruence|]; split; [intros; lia|auto]|]);
    try discriminate.
  injection E as <- <-. rewrite List.Forall_forall in IH.
  destruct (IH a Ha t Hc) as (Hw & _ & Ho & Hwf).
  assert (Hsum : W a <= sumZ (map W args)).
  { apply sumZ_In_le; [|exact Ha]. intros x. pose proof (weight_pos functionColored x). lia. }
  pose proof (functionSymbolWeight_pos functionColored f) as Hf.
  cbn [weight occurrences].
  split; [lia|]. split; [intros; lia|]. split.
  - intros v. pose proof (sumZ_In_le (occurrences v) args a (occurrences_nonneg v) Ha).
    specialize (Ho v). lia.
  - intros Hs. apply Hwf. destruct (wellFormed_args _ _ _ Hs) as [_ Hall].
    rewrite Forall_forall in Hall. apply Hall, list_elem_of_In, Ha.
Qed.

Lemma compare_proper_subterm s t :
  wellFormed arityOf s = true -> containsSubterm s t = true -> s <> t ->
  compare functionColored compareFunctionPrecedences s t = GREATER.
Proof.
  intros Hs Hc Hne.
  destruct (containsSubterm_measures s t Hc) as (_ & Hw & Ho & Hwf).
  rewrite (compare_decisionTable functionColored compareFunctionPrecedences arityOf
             precedence_total s t Hs (Hwf Hs) Hne).
  rewrite decisionTable_eq. specialize (Hw Hne).
  replace (negb (W s - W t =? 0)) with true
    by (symmetry; apply negb_true_iff, Z.eqb_neq; lia).
  unfold sign. replace (0 <? W s - W t) with true by (symmetry; apply Z.ltb_lt; lia).
  unfold variableCondition. cbn [isLessOrLeOrE isGorGEorE]. rewrite andb_false_r, andb_true_r.
  destruct (occursMoreIn t s) eqn:Hmore; [|reflexivity].
  apply occursMoreIn_spec in Hmore. destruct Hmore as (v & Hv). specialize (Ho v). lia.
Qed.

End Facts.
End KBOFacts.

(** X1.  [KBO::compare] on two distinct terms of a signature answers
    GREATER, LESS or INCOMPARABLE: never EQUAL (the assertion at the end of
    [KBO::State::result]), GREATER_EQ or LESS_EQ. *)
Theorem kbo_compare_distinct
    (functionColored : nat -> bool) (compareFunctionPrecedences : nat -> nat -> Result)
    (arityOf : nat -> nat) (s t : TermList) :
  (forall f g, f <> g ->
     compareFunctionPrecedences f g = GREATER \/ compareFunctionPrecedences f g = LESS) ->
  KBOSpec.wellFormed arityOf s = true -> KBOSpec.wellFormed arityOf t = true ->
  s <> t ->
  KBO.compare functionColored compareFunctionPrecedences s t = GREATER \/
  KBO.compare functionColored compareFunctionPrecedences s t = LESS \/
  KBO.compare functionColored compareFunctionPrecedences s t = INCOMPARABLE.
Proof.
  intros Htotal Hs Ht Hne.
  destruct (KBOInt.compare_answers functionColored _ arityOf Htotal s t Hs Ht Hne) as [[[H|H]|H] _]; auto.
Qed.

Lemma kbo_compare_distinct_witness :
  KBO.compare (fun _ => false) example_precedence example_s example_t = GREATER \/
  KBO.compare (fun _ => false) example_precedence example_s example_t = LESS \/
  KBO.compare (fun _ => false) example_precedence example_s example_t = INCOMPARABLE.
Proof.
  apply (kbo_compare_distinct _ _ example_arity).
  - exact example_precedence_total.
  - reflexivity.
  - reflexivity.
  - discriminate.
Defined.

(** X2.  Two distinct ground terms of a signature are comparable:
    [KBO::compare] answers GREATER or LESS (the assertion
    [!t1->ground() || !t2->ground() || res!=INCOMPARABLE] of
    [KBO::State::result]). *)
Theorem kbo_compare_ground
    (functionColored : nat -> bool) (compareFunctionPrecedences : nat -> nat -> Result)
    (arityOf : nat -> nat) (s t : TermList) :
  (forall f g, f <> g ->
     compareFunctionPrecedences f g = GREATER \/ compareFunctionPrecedences f g = LESS) ->
  KBOSpec.wellFormed arityOf s = true -> KBOSpec.wellFormed arityOf t = true ->
  ground s = true -> ground t = true -> s <> t ->
  KBO.compare functionColored compareFunctionPrecedences s t = GREATER \/
  KBO.compare functionColored compareFunctionPrecedences s t = LESS.
Proof.
  intros Htotal Hs Ht Hgs Hgt Hne.
  destruct (KBOInt.compare_answers functionColored _ arityOf Htotal s t Hs Ht Hne) as [_ Hg].
  exact (Hg Hgs Hgt).
Qed.

(** g(a) and h(b, a) *)
Definition example_ground_s : TermList := Term 2 [Term 0 []].
Definition example_ground_t : TermList := Term 3 [Term 1 []; Term 0 []].

Lemma kbo_compare_ground_witness :
  KBO.compare (fun _ => false) example_precedence example_ground_s example_ground_t = GREATER \/
  KBO.compare (fun _ => false) example_precedence example_ground_s example_ground_t = LESS.
Proof.
  apply (kbo_compare_ground _ _ example_arity).
  - exact example_precedence_total.
  - reflexivity.
  - reflexivity.
  - reflexivity.
  - reflexivity.
  - discriminate.
Defined.

(** X3.  The subterm property: a term of a signature whose weight is in
    the range of [int] is GREATER than each of its proper subterms. *)
Theorem kbo_subterm_property
    (functionColored : nat -> bool) (compareFunctionPrecedences : nat -> nat -> Result)
    (arityOf : nat -> nat) (s t : TermList) :
  (forall f g, f <> g ->
     compareFunctionPrecedences f g = GREATER \/ compareFunctionPrecedences f g = LESS) ->
  KBOSpec.wellFormed arityOf s = true ->
  KBOSpec.weight functionColored s <= KBO.INT_MAX ->
  containsSubterm s t = true -> s <> t ->
  KBO.compare functionColored compareFunctionPrecedences s t = GREATER.
Proof.
  intros Htotal Hs Hws Hc Hne.
  destruct (KBOFacts.containsSubterm_measures functionColored arityOf s t Hc) as (Hw & _).
  rewrite (KBOInt.compare_exact _ _ s t Hws ltac:(lia)).
  exact (KBOFacts.compare_proper_subterm _ _ arityOf Htotal s t Hs Hc Hne).
Qed.

Lemma kbo_subterm_property_witness :
  KBO.compare (fun _ => false) example_precedence example_s (Term 2 [Term 0 []]) = GREATER.
Proof.
  apply (kbo_subterm_property _ _ example_arity).
  - exact example_precedence_total.
  - reflexivity.
  - vm_compute. discriminate.
  - vm_compute. reflexivity.
  - discriminate.
Defined.

(** X4.  [KBO::State::traverse(TermList,int)], from a state whose counters
    [_posNum] and [_negNum] count the variables with a positive and with a
    negative difference and whose numbers lie between [- N] and [P], on a
    term whose weight added to [P] and to [N] is in the range of [int]: it
    adds [coef] times the weight of the term to [_weightDiff] and [coef]
    times its number of occurrences to the difference of every variable,
    keeps the counters right and leaves [_lexResult] alone. *)
Theorem kbo_traverse_effect (functionColored : nat -> bool) (st : KBO.State)
    (t : TermList) (coef P N : Z) :
  coef = 1 \/ coef = -1 -> KBOSpec.countersOk st ->
  KBOInt.bounded P N st ->
  P + KBOSpec.weight functionColored t <= KBO.INT_MAX ->
  N + KBOSpec.weight functionColored t <= KBO.INT_MAX ->
  let st' := KBO.traverse functionColored st t coef in
  KBOSpec.countersOk st' /\
  KBO._weightDiff st' = KBO._weightDiff st + coef * KBOSpec.weight functionColored t /\
  KBO._lexResult st' = KBO._lexResult st /\
  forall w, KBOSpec.varDiff st' w = KBOSpec.varDiff st w + coef * KBOSpec.occurrences w t.
Proof.
  intros Hcoef Hst Hb HP HN.
  pose proof (KBOSpec.weight_pos functionColored t) as Hw.
  destruct (KBOInt.traverse_exact functionColored P N st t coef Hcoef Hb) as [E _].
  - unfold KBOInt.up. destruct (coef =? 1); [lia|]. destruct Hb as (? & ? & _). lia.
  - unfold KBOInt.down. destruct (coef =? 1); [|lia]. destruct Hb as (? & ? & _). lia.
  - cbv zeta. rewrite E.
    exact (KBOSpec.traverse_shifted functionColored coef t st Hcoef Hst).
Qed.

Lemma kbo_traverse_effect_witness :
  let st' := KBO.traverse (fun _ => false) KBO.init example_s (-1) in
  KBOSpec.countersOk st' /\
  KBO._weightDiff st' = KBO._weightDiff KBO.init + (-1) * KBOSpec.weight (fun _ => false) example_s /\
  KBO._lexResult st' = KBO._lexResult KBO.init /\
  forall w, KBOSpec.varDiff st' w =
            KBOSpec.varDiff KBO.init w + (-1) * KBOSpec.occurrences w example_s.
Proof.
  apply (kbo_traverse_effect (fun _ => false) KBO.init example_s (-1) 0 0).
  - right. reflexivity.
  - split; reflexivity.
  - exact KBOInt.bounded_init.
  - vm_compute. discriminate.
  - vm_compute. discriminate.
Defined.

(** ** Kernel/RobSubstitution.cpp: bindings, the log and the occurs check *)

Module RobSubstitutionFacts.
Import RobSubstitution RobSubstitutionBacktrack RobSubstitutionSound.

(** [AssocContext<UnificationFn>::enter]: start a log, unify the two
    literals, and drop the log when they do not unify. *)
Definition enter (fuel : nat) (s : subst) (l1 : Literal) (l1i : Z) (l2 : Literal) (l2i : Z)
  : option (bool * subst) :=
  match unifyArgs fuel (bdRecord s) l1 l1i l2 l2i with
  | None => None
  | Some (true, s') => Some (true, s')
  | Some (false, s') => Some (false, (bdDone s').2)
  end.

(** [AssocContext::leave]: stop the log and undo what it recorded. *)
Definition leave (s : subst) : subst :=
  let (bd, s1) := bdDone s in backtrack bd s1.

(** A successful [unify] inside a recording puts its records in front of
    the log, and undoing them leads back to the bank before the call. *)
Lemma unify_true_log fuel s t1 t2 s' bd0 rest :
  _bdStack s = Some bd0 :: rest ->
  unify fuel s t1 t2 = Some (true, s') ->
  exists bd, _bdStack s' = Some (bd ++ bd0) :: rest /\
    _nextUnboundAvailable s' = _nextUnboundAvailable s /\
    fold_left backtrackObject bd (_bank s') = _bank s.
Proof.
  intros Hstk. unfold unify. destruct (sameTermContent t1 t2).
  { intros H. injection H as <-. exists []. auto. }
  destruct (unify_loop fuel t1 t2 _) as [st|] eqn:E; [|discriminate].
  apply unify_loop_same_origin in E;
    [|simpl; eapply (same_origin_refl (bdRecord s)); reflexivity].
  destruct E as (bd & bd' & rest' & H1 & H2 & Hn & Hb). simpl in *.
  injection H1 as <- <-.
  unfold bdDone. rewrite H2.
  destruct (us_mismatch st); [discriminate|].
  intros H. injection H as <-.
  unfold bdIsRecording, bdCommit. cbn [_bdStack]. rewrite Hstk.
  exists bd'. cbn [_bdStack _bank _nextUnboundAvailable]. auto.
Qed.

Lemma leave_enter fuel s l1 l1i l2 l2i b s' :
  enter fuel s l1 l1i l2 l2i = Some (b, s') ->
  (if b then leave s' else s') = s.
Proof.
  unfold enter, unifyArgs.
  destruct (unify fuel (bdRecord s) _ _) as [[[|] s1]|] eqn:E; try discriminate;
    intros H; injection H as <- <-.
  - assert (Hrec : _bdStack (bdRecord s) = Some [] :: _bdStack s) by reflexivity.
    destruct (unify_true_log _ _ _ _ _ [] (_bdStack s) Hrec E) as (bd & Hstk & Hn & Hb).
    unfold leave, bdDone. rewrite Hstk, app_nil_r. unfold backtrack.
    cbn [_bank _nextUnboundAvailable _bdStack]. rewrite Hb, Hn. destruct s; reflexivity.
  - apply unify_false_restores in E. subst s1. destruct s; reflexivity.
Qed.

(** [unify] only binds unbound variables. *)
Lemma unify_loop_extends fuel : forall t1 t2 st st',
  unify_loop fuel t1 t2 st = Some st' ->
  extends (_bank (us_subst st)) (_bank (us_subst st')) /\
  _nextUnboundAvailable (us_subst st') = _nextUnboundAvailable (us_subst st).
Proof.
  induction fuel as [|fuel IH]; intros t1 t2 st st' H; [discriminate|].
  assert (Hnext : forall st1,
    unify_next fuel st1 = Some st' ->
    extends (_bank (us_subst st1)) (_bank (us_subst st')) /\
    _nextUnboundAvailable (us_subst st') = _nextUnboundAvailable (us_subst st1)).
  { intros st1 Hn. unfold unify_next in Hn. destruct (us_toDo st1) as [|[a b] toDo'].
    - injection Hn as <-. split; [apply extends_refl|reflexivity].
    - apply IH in Hn. exact Hn. }
  rewrite unify_loop_S in H. cbv zeta in H.
  destruct (derefBound fuel _ t1) as [dt1|] eqn:Hd1; [|discriminate].
  destruct (derefBound fuel _ t2) as [dt2|] eqn:Hd2; [|discriminate].
  destruct (derefBound_Reaches _ _ _ _ Hd1) as (_ & Hv1 & _).
  destruct (derefBound_Reaches _ _ _ _ Hd2) as (_ & Hv2 & _).
  destruct (sameTermContent dt1 dt2); [apply (Hnext st H)|].
  rewrite !isVar_isTerm in H.
  destruct (isTerm (term dt1)) eqn:Hterm1; cbn [negb] in H.
  2:{ destruct (occurs fuel _ _ dt2) as [[|]|]; [| |discriminate].
      { injection H as <-. split; [apply extends_refl|reflexivity]. }
      destruct (Hnext _ H) as [Hext Hn]. cbn [us_subst bind _bank _nextUnboundAvailable] in *.
      split; [|exact Hn].
      eapply extends_trans; [|exact Hext]. apply extends_insert, Hv1. reflexivity. }
  destruct (isTerm (term dt2)) eqn:Hterm2; cbn [negb] in H.
  2:{ destruct (occurs fuel _ _ dt1) as [[|]|]; [| |discriminate].
      { injection H as <-. split; [apply extends_refl|reflexivity]. }
      destruct (Hnext _ H) as [Hext Hn]. cbn [us_subst bind _bank _nextUnboundAvailable] in *.
      split; [|exact Hn].
      eapply extends_trans; [|exact Hext]. apply extends_insert, Hv2. reflexivity. }
  destruct (unify_walk fuel _ _ _ _ _ _ _ _) as [[[[mm subterms'] toDo'] enc']|];
    [|discriminate].
  apply (Hnext _ H).
Qed.

Lemma unify_extends fuel s t1 t2 b s' :
  unify fuel s t1 t2 = Some (b, s') ->
  extends (_bank s) (_bank s') /\ _nextUnboundAvailable s' = _nextUnboundAvailable s.
Proof.
  destruct b.
  2:{ intros H. apply unify_false_restores in H. subst s'.
      split; [apply extends_refl|reflexivity]. }
  unfold unify. destruct (sameTermContent t1 t2).
  { intros H. injection H as <-. split; [apply extends_refl|reflexivity]. }
  destruct (unify_loop fuel t1 t2 _) as [st|] eqn:E; [|discriminate].
  apply unify_loop_extends in E. cbn [us_subst bdRecord _bank _nextUnboundAvailable] in E.
  destruct (bdDone (us_subst st)) as [localBD s1] eqn:Hdone.
  destruct (us_mismatch st); [discriminate|].
  intros H. injection H as <-.
  assert (Hs1 : _bank s1 = _bank (us_subst st) /\
                _nextUnboundAvailable s1 = _nextUnboundAvailable (us_subst st)).
  { unfold bdDone in Hdone. destruct (_bdStack (us_subst st)) as [|[bd|] rest];
      injection Hdone as _ <-; auto. }
  assert (Hc : _bank (if bdIsRecording s1 then bdCommit localBD s1 else s1) = _bank s1 /\
               _nextUnboundAvailable (if bdIsRecording s1 then bdCommit localBD s1 else s1)
               = _nextUnboundAvailable s1).
  { destruct (bdIsRecording s1); [|auto].
    unfold bdCommit. destruct (_bdStack s1) as [|[outer|] rest]; auto. }
  destruct Hs1 as [-> ->] in Hc. destruct Hc as [-> ->]. exact E.
Qed.

(** [isUnbound] answers what [derefBound] finds: the variable is unbound
    exactly when following its bindings ends in a variable. *)
Lemma isUnbound_derefBound_var n bank : forall v,
  isUnbound n bank v = (fun d => isVar (term d)) <$> derefBound_var n bank v.
Proof.
  induction n as [|n IH]; intros v; [reflexivity|].
  cbn [isUnbound derefBound_var]. destruct (bank !! v) as [b|].
  - destruct (index b =? UNBOUND_INDEX).
    + cbn. rewrite isVar_isTerm, isTerm_TermSpec_of_VarSpec. reflexivity.
    + destruct (isTerm (term b)) eqn:Hb.
      * cbn. rewrite isVar_isTerm, Hb. reflexivity.
      * apply IH.
  - cbn. rewrite isVar_isTerm, isTerm_TermSpec_of_VarSpec. reflexivity.
Qed.

Lemma Root_functional bank v r :
  Root bank v r -> forall r', Root bank v r' -> r' = r.
Proof.
  induction 1 as [v Hv|v b Hb Hterm|v b r Hb Hterm _ IH]; intros r' H';
    inversion H'; subst; try congruence.
  apply IH. congruence.
Qed.

(** The variable [root] answers is the end of the chain: it is its own
    root, and [derefBound] and [isUnbound] give for it what they give for
    the variable the chain started at. *)
Lemma root_end n bank : forall v r,
  root n bank v = Some r ->
  root 1 bank r = Some r /\
  derefBound_var n bank v = derefBound_var 1 bank r /\
  isUnbound n bank v = isUnbound 1 bank r.
Proof.
  induction n as [|n IH]; intros v r H; [discriminate|].
  rewrite !isUnbound_derefBound_var.
  rewrite root_S in H. rewrite (derefBound_var_S n), (derefBound_var_S 0), (root_S 0).
  destruct (binding bank v) as [b|] eqn:Hb.
  - destruct (isTerm (term b)) eqn:Hterm.
    + injection H as <-. rewrite Hb, Hterm. auto.
    + destruct (IH _ _ H) as (H1 & H2 & _).
      rewrite (root_S 0) in H1. rewrite (derefBound_var_S 0) in H2.
      rewrite H2. auto.
  - injection H as <-. rewrite Hb. auto.
Qed.

Lemma derefBound_var_unbound n bank : forall v r d,
  Root bank v r -> binding bank r = None ->
  derefBound_var n bank v = Some d -> d = TermSpec_of_VarSpec r.
Proof.
  induction n as [|n IH]; intros v r d HR Hr H; [discriminate|].
  rewrite derefBound_var_S in H. inversion HR; subst.
  - rewrite Hr in H. injection H as <-. reflexivity.
  - congruence.
  - rewrite H0, H1 in H. eapply IH; eauto.
Qed.

(** The occurs check finds a variable of the term whose chain of bindings
    ends where the checked variable is. *)
Lemma occurs_vars_true fuel bank r idx y : forall vit enc toDo res,
  In y vit -> Root bank (getVarSpec y idx) r ->
  occurs_vars fuel bank r idx vit enc toDo = Some res -> res.1.1 = true.
Proof.
  induction vit as [|x vit IH]; intros enc toDo res Hin HR H; [destruct Hin|].
  cbn [occurs_vars] in H.
  destruct (root fuel bank (getVarSpec x idx)) as [tvar|] eqn:Hroot; [|discriminate].
  destruct (bool_decide (tvar = r)) eqn:Hd; [injection H as <-; reflexivity|].
  apply bool_decide_eq_false_1 in Hd.
  destruct Hin as [->|Hin].
  { apply root_Root in Hroot. destruct Hd. exact (Root_functional _ _ _ HR _ Hroot). }
  destruct (bool_decide (tvar ∈ enc)); [eapply IH; eauto|].
  destruct (derefBound fuel bank _) as [dtvar|]; [|discriminate].
  destruct (isVar (term dtvar)); eapply IH; eauto.
Qed.

Lemma occurs_true fuel bank r ts y b :
  binding bank r = None -> isTerm (term ts) = true ->
  In y (variables (term ts)) -> Root bank (getVarSpec y (index ts)) r ->
  occurs fuel bank r ts = Some b -> b = true.
Proof.
  intros Hr Hterm Hin HR. unfold occurs.
  destruct (root fuel bank r) as [r'|] eqn:Hroot; [|discriminate].
  apply root_Root in Hroot.
  rewrite (Root_functional _ _ _ (Root_unbound _ _ Hr) _ Hroot).
  rewrite isVar_isTerm, Hterm. cbn [negb].
  destruct fuel as [|fuel]; [discriminate|]. cbn [occurs_loop].
  destruct (occurs_vars fuel bank r _ _ [] []) as [res|] eqn:E; [|discriminate].
  apply (occurs_vars_true _ _ _ _ y) in E; [|exact Hin|exact HR].
  destruct res as [[[|] enc] toDo]; [|discriminate E].
  intros H. injection H as <-. reflexivity.
Qed.

(** A second [deref] of the same variable gives the same answer and
    leaves the substitution as it is. *)
Lemma deref_stable fuel : forall s v ts s',
  deref fuel s v = Some (ts, s') ->
  deref fuel s' v = Some (ts, s') /\
  (forall w b, _bank s !! w = Some b -> _bank s' !! w = Some b).
Proof.
  induction fuel as [|fuel IH]; intros s v ts s' H; [discriminate|].
  cbn [deref] in *. destruct (_bank s !! v) as [b|] eqn:Hb.
  - destruct ((index b =? UNBOUND_INDEX) || isTerm (term b)) eqn:Hend.
    + injection H as <- <-. rewrite Hb, Hend. auto.
    + destruct (IH _ _ _ _ H) as [H1 H2]. rewrite (H2 _ _ Hb), Hend. auto.
  - injection H as <- <-. cbn [bind _bank index term]. rewrite lookup_insert_eq.
    cbn [index]. rewrite Z.eqb_refl. cbn [orb]. split; [reflexivity|].
    intros w b Hw. rewrite lookup_insert_ne; [exact Hw|congruence].
Qed.


(** Unifying a variable with a proper term in which it occurs fails,
    whichever side the variable is on. *)
Lemma unify_loop_occurs fuel bank_s x i1 t i2 r y st (swap : bool) :
  isTerm t = true -> In y (variables t) ->
  Root (_bank bank_s) (x, i1) r -> binding (_bank bank_s) r = None ->
  Root (_bank bank_s) (getVarSpec y i2) r ->
  unify_loop fuel
    (if swap then mkTermSpec t i2 else mkTermSpec (Var x) i1)
    (if swap then mkTermSpec (Var x) i1 else mkTermSpec t i2)
    (mkUnifyState bank_s [] [] [] false) = Some st ->
  us_mismatch st = true.
Proof.
  intros Hterm Hin HRx Hr HRy H.
  destruct fuel as [|fuel]; [discriminate|].
  rewrite unify_loop_S in H. cbv zeta in H. cbn [us_subst] in H.
  assert (Hdx : forall d, derefBound fuel (_bank bank_s) (mkTermSpec (Var x) i1) = Some d ->
                          d = TermSpec_of_VarSpec r).
  { intros d Hd. unfold derefBound in Hd. cbn in Hd.
    exact (derefBound_var_unbound _ _ _ _ _ HRx Hr Hd). }
  assert (Hdt : derefBound fuel (_bank bank_s) (mkTermSpec t i2) = Some (mkTermSpec t i2)).
  { unfold derefBound. cbn [term]. rewrite Hterm. reflexivity. }
  assert (Hne1 : sameTermContent (TermSpec_of_VarSpec r) (mkTermSpec t i2) = false).
  { unfold sameTermContent. rewrite bool_decide_eq_false_2; [reflexivity|].
    intros E. pose proof (isTerm_TermSpec_of_VarSpec r) as Hv. rewrite E in Hv.
    cbn in Hv. congruence. }
  assert (Hne2 : sameTermContent (mkTermSpec t i2) (TermSpec_of_VarSpec r) = false).
  { unfold sameTermContent. rewrite bool_decide_eq_false_2; [reflexivity|].
    intros E. pose proof (isTerm_TermSpec_of_VarSpec r) as Hv. rewrite <- E in Hv.
    cbn in Hv. congruence. }
  assert (Hocc : forall b, occurs fuel (_bank bank_s) r (mkTermSpec t i2) = Some b -> b = true).
  { intros b. apply (occurs_true _ _ _ _ y); assumption. }
  destruct swap.
  - rewrite Hdt in H.
    destruct (derefBound fuel _ (mkTermSpec (Var x) i1)) as [d|] eqn:Hd; [|discriminate].
    rewrite (Hdx _ eq_refl) in H. rewrite Hne2 in H.
    rewrite !isVar_isTerm, isTerm_TermSpec_of_VarSpec in H. cbn [term negb] in H.
    rewrite Hterm in H. cbn [negb] in H.
    rewrite getVarSpec_TermSpec_of_VarSpec in H.
    destruct (occurs fuel _ r _) as [b|] eqn:Ho; [|discriminate].
    rewrite (Hocc b eq_refl) in H. injection H as <-. reflexivity.
  - rewrite Hdt in H.
    destruct (derefBound fuel _ (mkTermSpec (Var x) i1)) as [d|] eqn:Hd; [|discriminate].
    rewrite (Hdx _ eq_refl) in H. rewrite Hne1 in H.
    rewrite !isVar_isTerm, isTerm_TermSpec_of_VarSpec in H. cbn [negb] in H.
    rewrite getVarSpec_TermSpec_of_VarSpec in H.
    destruct (occurs fuel _ r _) as [b|] eqn:Ho; [|discriminate].
    rewrite (Hocc b eq_refl) in H. injection H as <-. reflexivity.
Qed.

Lemma unify_occurs fuel s x i1 t i2 r y b s' (swap : bool) :
  isTerm t = true -> In y (variables t) ->
  Root (_bank s) (x, i1) r -> binding (_bank s) r = None ->
  Root (_bank s) (getVarSpec y i2) r ->
  unify fuel s
    (if swap then mkTermSpec t i2 else mkTermSpec (Var x) i1)
    (if swap then mkTermSpec (Var x) i1 else mkTermSpec t i2) = Some (b, s') ->
  b = false /\ s' = s.
Proof.
  intros Hterm Hin HRx Hr HRy H.
  assert (Hb : b = false).
  { revert H. unfold unify.
    assert (Hne : sameTermContent
              (if swap then mkTermSpec t i2 else mkTermSpec (Var x) i1)
              (if swap then mkTermSpec (Var x) i1 else mkTermSpec t i2) = false).
    { unfold sameTermContent. rewrite bool_decide_eq_false_2; [reflexivity|].
      destruct swap; cbn [term]; intros E;
        [rewrite E in Hterm|rewrite <- E in Hterm]; discriminate. }
    rewrite Hne.
    destruct (unify_loop fuel _ _ _) as [st|] eqn:E; [|discriminate].
    apply (unify_loop_occurs _ (bdRecord s) x i1 t i2 r y) in E; try assumption.
    destruct (bdDone (us_subst st)). rewrite E. intros H. injection H as <- _. reflexivity. }
  subst b. split; [reflexivity|]. eapply unify_false_restores; eauto.
Qed.

(** The loops that follow a chain of bindings come to its end when they
    are given enough iterations. *)
Lemma root_returns bank v r :
  Root bank v r -> exists N, forall fuel, (N <= fuel)%nat -> root fuel bank v = Some r.
Proof.
  induction 1 as [v Hv|v b Hb Hterm|v b r Hb Hterm _ (N & IH)].
  - exists 1%nat. intros [|fuel] Hf; [lia|]. rewrite root_S, Hv. reflexivity.
  - exists 1%nat. intros [|fuel] Hf; [lia|]. rewrite root_S, Hb, Hterm. reflexivity.
  - exists (S N). intros [|fuel] Hf; [lia|]. rewrite root_S, Hb, Hterm. apply IH. lia.
Qed.

Lemma derefBound_var_returns bank v r :
  Root bank v r ->
  exists d N, forall fuel, (N <= fuel)%nat -> derefBound_var fuel bank v = Some d.
Proof.
  induction 1 as [v Hv|v b Hb Hterm|v b r Hb Hterm _ (d & N & IH)].
  - exists (TermSpec_of_VarSpec v), 1%nat. intros [|fuel] Hf; [lia|].
    rewrite derefBound_var_S, Hv. reflexivity.
  - exists b, 1%nat. intros [|fuel] Hf; [lia|].
    rewrite derefBound_var_S, Hb, Hterm. reflexivity.
  - exists d, (S N). intros [|fuel] Hf; [lia|].
    rewrite derefBound_var_S, Hb, Hterm. apply IH. lia.
Qed.

Lemma derefBound_root_returns bank r fuel :
  (binding bank r = None \/ exists b, binding bank r = Some b /\ isTerm (term b) = true) ->
  exists d, derefBound (S fuel) bank (TermSpec_of_VarSpec r) = Some d.
Proof.
  intros Hr. unfold derefBound.
  rewrite isTerm_TermSpec_of_VarSpec, getVarSpec_TermSpec_of_VarSpec, derefBound_var_S.
  destruct Hr as [Hr|(b & Hr & Hb)]; rewrite Hr; [|rewrite Hb]; eauto.
Qed.

(** The inner loop of [occurs] over variables whose chains of bindings
    end. *)
Lemma occurs_vars_returns bank vs idx vit :
  (forall z, In z vit -> exists rz, Root bank (getVarSpec z idx) rz) ->
  exists N, forall fuel, (N <= fuel)%nat -> forall enc toDo,
    exists res, occurs_vars fuel bank vs idx vit enc toDo = Some res.
Proof.
  induction vit as [|x vit IH]; intros Hroots.
  - exists 0%nat. intros fuel _ enc toDo. cbn [occurs_vars]. eauto.
  - destruct IH as (N2 & IH); [intros z Hz; apply Hroots; right; exact Hz|].
    destruct (Hroots x (or_introl eq_refl)) as (rx & HRx).
    destruct (root_returns _ _ _ HRx) as (N1 & Hroot).
    exists (S (N1 + N2)). intros fuel Hf enc toDo. cbn [occurs_vars].
    rewrite Hroot by lia.
    destruct (bool_decide (rx = vs)); [eauto|].
    destruct (bool_decide (rx ∈ enc)); [apply IH; lia|].
    destruct fuel as [|fuel]; [lia|].
    destruct (derefBound_root_returns bank rx fuel (Root_is_root _ _ _ HRx)) as (d & Hd).
    rewrite Hd. destruct (isVar (term d)); apply IH; lia.
Qed.

(** With enough iterations, the occurs check on a variable that ends a
    chain and a proper term one of whose variables leads to it answers
    true. *)
Lemma occurs_true_returns bank r ts y :
  binding bank r = None -> isTerm (term ts) = true ->
  In y (variables (term ts)) -> Root bank (getVarSpec y (index ts)) r ->
  (forall z, In z (variables (term ts)) ->
     exists rz, Root bank (getVarSpec z (index ts)) rz) ->
  exists N, forall fuel, (N <= fuel)%nat -> occurs fuel bank r ts = Some true.
Proof.
  intros Hr Hterm Hin HR Hroots.
  destruct (occurs_vars_returns bank r (index ts) (variables (term ts)) Hroots) as (N & Hvars).
  exists (S N). intros fuel Hf. destruct fuel as [|fuel]; [lia|].
  destruct (Hvars fuel ltac:(lia) [] []) as (res & Hres).
  pose proof (occurs_vars_true fuel bank r (index ts) y _ _ _ res Hin HR Hres) as Ht.
  unfold occurs. rewrite root_S, Hr, isVar_isTerm, Hterm. cbn [negb occurs_loop].
  rewrite Hres. destruct res as [[[|] enc] toDo]; [reflexivity|discriminate Ht].
Qed.

(** With enough iterations, [unify] on a variable and a proper term in
    which it occurs gives its answer. *)
Lemma unify_occurs_returns s x i1 t i2 r y (swap : bool) :
  isTerm t = true -> In y (variables t) ->
  Root (_bank s) (x, i1) r -> binding (_bank s) r = None ->
  Root (_bank s) (getVarSpec y i2) r ->
  (forall z, In z (variables t) -> exists rz, Root (_bank s) (getVarSpec z i2) rz) ->
  exists N, forall fuel, (N <= fuel)%nat ->
    unify fuel s
      (if swap then mkTermSpec t i2 else mkTermSpec (Var x) i1)
      (if swap then mkTermSpec (Var x) i1 else mkTermSpec t i2) = Some (false, s).
Proof.
  intros Hterm Hin HRx Hr HRy Hroots.
  destruct (derefBound_var_returns _ _ _ HRx) as (d & N1 & Hd).
  destruct (occurs_true_returns (_bank s) r (mkTermSpec t i2) y Hr Hterm Hin HRy Hroots)
    as (N2 & Hocc).
  exists (S (N1 + N2)). intros fuel Hf.
  assert (H : exists res,
    unify fuel s
      (if swap then mkTermSpec t i2 else mkTermSpec (Var x) i1)
      (if swap then mkTermSpec (Var x) i1 else mkTermSpec t i2) = Some res).
  { destruct fuel as [|fuel]; [lia|].
    assert (Hdx : derefBound fuel (_bank s) (mkTermSpec (Var x) i1)
                  = Some (TermSpec_of_VarSpec r)).
    { unfold derefBound. cbn [term index isTerm getVarSpec].
      rewrite Hd by lia. f_equal.
      apply (derefBound_var_unbound fuel (_bank s) (x, i1) r d HRx Hr). apply Hd. lia. }
    assert (Hdt : derefBound fuel (_bank s) (mkTermSpec t i2) = Some (mkTermSpec t i2)).
    { unfold derefBound. cbn [term]. rewrite Hterm. reflexivity. }
    assert (Hne1 : sameTermContent (TermSpec_of_VarSpec r) (mkTermSpec t i2) = false).
    { unfold sameTermContent. rewrite bool_decide_eq_false_2; [reflexivity|].
      intros E. pose proof (isTerm_TermSpec_of_VarSpec r) as Hv. rewrite E in Hv.
      cbn in Hv. congruence. }
    assert (Hne2 : sameTermContent (mkTermSpec t i2) (TermSpec_of_VarSpec r) = false).
    { unfold sameTermContent. rewrite bool_decide_eq_false_2; [reflexivity|].
      intros E. pose proof (isTerm_TermSpec_of_VarSpec r) as Hv. rewrite <- E in Hv.
      cbn in Hv. congruence. }
    unfold unify.
    match goal with
    | |- context [if ?c then Some (true, s) else _] => destruct c; [eauto|]
    end.
    rewrite unify_loop_S. cbv zeta. cbn [us_subst bdRecord _bank].
    destruct swap.
    - rewrite Hdt, Hdx, Hne2, !isVar_isTerm, isTerm_TermSpec_of_VarSpec. cbn [term negb].
      rewrite Hterm. cbn [negb]. rewrite getVarSpec_TermSpec_of_VarSpec, Hocc by lia.
      cbn [us_subst bdDone bdRecord _bdStack us_mismatch]. eauto.
    - rewrite Hdt, Hdx, Hne1, !isVar_isTerm, isTerm_TermSpec_of_VarSpec. cbn [negb].
      rewrite getVarSpec_TermSpec_of_VarSpec, Hocc by lia.
      cbn [us_subst bdDone bdRecord _bdStack us_mismatch]. eauto. }
  destruct H as ([b s'] & H). rewrite H. f_equal.
  destruct (unify_occurs fuel s x i1 t i2 r y b s' swap Hterm Hin HRx Hr HRy H) as [-> ->].
  reflexivity.
Qed.

End RobSubstitutionFacts.

(** X5.  [AssocContext::enter] followed by [AssocContext::leave] gives the
    substitution back as it was: when [enter] answers true, [leave] on the
    substitution it produced restores the one [enter] started from, log
    included; when it answers false, nothing has changed at all. *)
Theorem assoc_context_enter_leave fuel (s : RobSubstitution.subst) l1 l1i l2 l2i b s' :
  RobSubstitutionFacts.enter fuel s l1 l1i l2 l2i = Some (b, s') ->
  (if b then RobSubstitutionFacts.leave s' else s') = s.
Proof. apply RobSubstitutionFacts.leave_enter. Qed.

Definition example_query : Literal := mkLiteral 5 true [Var 0; Term 0 []] 0.
Definition example_result : Literal := mkLiteral 5 true [Term 1 []; Var 0] 0.

Lemma assoc_context_enter_leave_witness :
  exists s', RobSubstitutionFacts.enter 20 RobSubstitution.empty example_query 0 example_result 1
             = Some (true, s') /\
             s' <> RobSubstitution.empty /\
             RobSubstitutionFacts.leave s' = RobSubstitution.empty.
Proof.
  destruct (RobSubstitutionFacts.enter 20 RobSubstitution.empty example_query 0 example_result 1)
    as [[b s']|] eqn:E; [|vm_compute in E; discriminate E].
  assert (Hb : b = true).
  { vm_compute in E. injection E as <- _. reflexivity. }
  subst b. exists s'. split; [reflexivity|]. split.
  - intros ->. vm_compute in E. discriminate E.
  - exact (assoc_context_enter_leave 20 RobSubstitution.empty example_query 0
             example_result 1 true s' E).
Defined.

(** X6.  [unify] never changes or removes a binding: whatever it answers,
    every variable that was bound before the call is bound to the same term
    after it, and the counter of fresh variables is the same. *)
Theorem unify_keeps_bindings fuel (s : RobSubstitution.subst) t1 i1 t2 i2 b s' :
  RobSubstitution.unify4 fuel s t1 i1 t2 i2 = Some (b, s') ->
  (forall v c, RobSubstitutionSound.binding (RobSubstitution._bank s) v = Some c ->
               RobSubstitutionSound.binding (RobSubstitution._bank s') v = Some c) /\
  RobSubstitution._nextUnboundAvailable s' = RobSubstitution._nextUnboundAvailable s.
Proof. apply RobSubstitutionFacts.unify_extends. Qed.

Lemma unify_keeps_bindings_witness :
  exists s',
    RobSubstitution.unify4 20 example_unifier (Var 1) 0 (Term 2 [Var 0]) 0 = Some (true, s') /\
    RobSubstitutionSound.binding (RobSubstitution._bank s') (0%nat, 0)
    = Some (RobSubstitution.mkTermSpec (Term 1 []) 1).
Proof.
  destruct (RobSubstitution.unify4 20 example_unifier (Var 1) 0 (Term 2 [Var 0]) 0)
    as [[b s']|] eqn:E; [|vm_compute in E; discriminate E].
  assert (Hb : b = true).
  { vm_compute in E. injection E as <- _. reflexivity. }
  subst b. exists s'. split; [reflexivity|].
  apply (proj1 (unify_keeps_bindings 20 example_unifier _ _ _ _ true s' E)).
  vm_compute. reflexivity.
Defined.

(** X7.  [isUnbound] and [derefBound] agree: with the same bound on the
    length of the chain of bindings, [isUnbound] answers true exactly when
    [derefBound] of the variable ends in a variable and false when it ends in
    a proper term, and the one gives up exactly when the other does. *)
Theorem isUnbound_agrees_with_derefBound n bank (v : RobSubstitution.VarSpec) :
  RobSubstitution.isUnbound n bank v
  = (fun d => isVar (RobSubstitution.term d)) <$> RobSubstitution.derefBound_var n bank v.
Proof. apply RobSubstitutionFacts.isUnbound_derefBound_var. Qed.

(** X8.  The variable that [root] answers is the end of the chain of
    bindings: [root] maps it to itself in one step, and [derefBound] and
    [isUnbound] read from it, in one step, what they give for the variable
    the chain started at. *)
Theorem root_is_chain_end n bank (v r : RobSubstitution.VarSpec) :
  RobSubstitution.root n bank v = Some r ->
  RobSubstitution.root 1 bank r = Some r /\
  RobSubstitution.derefBound_var n bank v = RobSubstitution.derefBound_var 1 bank r /\
  RobSubstitution.isUnbound n bank v = RobSubstitution.isUnbound 1 bank r.
Proof. apply RobSubstitutionFacts.root_end. Qed.

Definition example_chain : gmap (nat * Z) RobSubstitution.TermSpec :=
  <[(1%nat, 0) := RobSubstitution.mkTermSpec (Var 2) 1]>
    (<[(0%nat, 0) := RobSubstitution.mkTermSpec (Var 1) 0]> ∅).

Lemma root_is_chain_end_witness :
  RobSubstitution.root 5 example_chain (0%nat, 0) = Some (2%nat, 1) /\
  RobSubstitution.derefBound_var 5 example_chain (0%nat, 0)
  = RobSubstitution.derefBound_var 1 example_chain (2%nat, 1).
Proof.
  assert (E : RobSubstitution.root 5 example_chain (0%nat, 0) = Some (2%nat, 1))
    by (vm_compute; reflexivity).
  split; [exact E|].
  exact (proj1 (proj2 (root_is_chain_end 5 example_chain _ _ E))).
Defined.

(** X9.  The occurs check: on a substitution in which the chains of
    bindings of the variables concerned end, unifying a variable whose chain
    ends in an unbound variable [r] with a proper term that has a variable
    whose chain ends in [r] as well is answered false, on whichever side the
    variable is given, and the substitution is left as it was: given enough
    iterations, [unify] returns exactly that. *)
Theorem unify_occurs_check (s : RobSubstitution.subst) x i1 t i2 r y :
  isTerm t = true -> In y (variables t) ->
  RobSubstitutionSound.Root (RobSubstitution._bank s) (x, i1) r ->
  RobSubstitutionSound.binding (RobSubstitution._bank s) r = None ->
  RobSubstitutionSound.Root (RobSubstitution._bank s) (RobSubstitution.getVarSpec y i2) r ->
  (forall z, In z (variables t) ->
     exists rz, RobSubstitutionSound.Root (RobSubstitution._bank s)
                  (RobSubstitution.getVarSpec z i2) rz) ->
  exists N, forall fuel, (N <= fuel)%nat ->
    RobSubstitution.unify4 fuel s (Var x) i1 t i2 = Some (false, s) /\
    RobSubstitution.unify4 fuel s t i2 (Var x) i1 = Some (false, s).
Proof.
  intros Hterm Hin HRx Hr HRy Hroots.
  destruct (RobSubstitutionFacts.unify_occurs_returns s x i1 t i2 r y false
              Hterm Hin HRx Hr HRy Hroots) as (N1 & H1).
  destruct (RobSubstitutionFacts.unify_occurs_returns s x i1 t i2 r y true
              Hterm Hin HRx Hr HRy Hroots) as (N2 & H2).
  exists (N1 + N2)%nat. intros fuel Hf. split; [apply H1|apply H2]; lia.
Qed.

Definition example_bound : RobSubstitution.subst :=
  RobSubstitution.mkSubst
    (<[(0%nat, 0) := RobSubstitution.mkTermSpec (Var 1) 0]> ∅) 0 [].

Lemma unify_occurs_check_witness :
  exists N, forall fuel, (N <= fuel)%nat ->
    RobSubstitution.unify4 fuel example_bound (Var 0) 0
      (Term 3 [Term 0 []; Term 2 [Var 1]]) 0 = Some (false, example_bound) /\
    RobSubstitution.unify4 fuel example_bound (Term 3 [Term 0 []; Term 2 [Var 1]]) 0
      (Var 0) 0 = Some (false, example_bound).
Proof.
  apply (unify_occurs_check example_bound 0%nat 0 (Term 3 [Term 0 []; Term 2 [Var 1]]) 0
           (1%nat, 0) (Var 1)).
  - reflexivity.
  - simpl. left. reflexivity.
  - eapply RobSubstitutionSound.Root_next.
    + vm_compute. reflexivity.
    + reflexivity.
    + apply RobSubstitutionSound.Root_unbound. vm_compute. reflexivity.
  - vm_compute. reflexivity.
  - apply RobSubstitutionSound.Root_unbound. vm_compute. reflexivity.
  - intros z [<-|[]]. exists (1%nat, 0).
    apply RobSubstitutionSound.Root_unbound. vm_compute. reflexivity.
Defined.

(** X10.  [deref] is idempotent: asked a second time for the same variable,
    on the substitution the first call left, it gives the same answer and
    changes nothing; in particular an unbound variable is given its fresh
    name once.  The first call keeps every entry of the bank. *)
Theorem deref_idempotent fuel (s : RobSubstitution.subst) v ts s' :
  RobSubstitution.deref fuel s v = Some (ts, s') ->
  RobSubstitution.deref fuel s' v = Some (ts, s') /\
  (forall w b, RobSubstitution._bank s !! w = Some b ->
               RobSubstitution._bank s' !! w = Some b).
Proof. apply RobSubstitutionFacts.deref_stable. Qed.

Lemma deref_idempotent_witness :
  exists ts s',
    RobSubstitution.deref 5 example_bound (0%nat, 0) = Some (ts, s') /\
    s' <> example_bound /\
    RobSubstitution.deref 5 s' (0%nat, 0) = Some (ts, s').
Proof.
  destruct (RobSubstitution.deref 5 example_bound (0%nat, 0)) as [[ts s']|] eqn:E;
    [|vm_compute in E; discriminate E].
  exists ts, s'. split; [reflexivity|]. split.
  - intros ->. vm_compute in E. discriminate E.
  - exact (proj1 (deref_idempotent 5 example_bound _ ts s' E)).
Defined.

(** ** Kernel/KBO.cpp: [KBO::comparePredicates] *)

Module KBOPredicates.
Import KBO KBOUnbounded KBOSpec.

Section Predicates.
Variable functionColored : nat -> bool.
Variable compareFunctionPrecedences : nat -> nat -> Result.
Variable arityOf : nat -> nat.
Hypothesis precedence_total : forall f g,
  f <> g -> compareFunctionPrecedences f g = GREATER \/ compareFunctionPrecedences f g = LESS.

(** [PrecedenceOrdering::predicatePrecedence] *)
Variable predicatePrecedence : nat -> Z.

Abbreviation W := (weight functionColored).

(** A literal as the [Term] object it is. *)
Definition asTerm (l : Literal) : TermList := Term (lit_functor l) (lit_args l).

(** [KBO::State::result] on two literals ([t1->isLiteral()]): distinct
    predicate symbols are compared by their precedences. *)
Definition resultLiteral (st : State) (l1 l2 : Literal) : Result :=
  applyVariableCondition st
    (if negb (_weightDiff st =? 0) then
       if 0 <? _weightDiff st then GREATER else LESS
     else if negb (Nat.eqb (lit_functor l1) (lit_functor l2)) then
       if predicatePrecedence (lit_functor l1) >? predicatePrecedence (lit_functor l2)
       then GREATER else LESS
     else _lexResult st).

(** The two [while] loops of [comparePredicates] over the arguments. *)
Definition traverseArgs (st : State) (ts : list TermList) (coef : Z) : State :=
  fold_left (fun st a => KBO.traverse functionColored st a coef) ts st.

(** [KBO::comparePredicates] *)
Definition comparePredicates (l1 l2 : Literal) : Result :=
  let st :=
    if negb (Nat.eqb (lit_functor l1) (lit_functor l2)) then
      traverseArgs (traverseArgs init (lit_args l1) 1) (lit_args l2) (-1)
    else KBO.traverse2 functionColored compareFunctionPrecedences init (asTerm l1) (asTerm l2) in
  resultLiteral st l1 l2.

(** The same with counters that do not overflow. *)
Definition traverseArgsUnbounded (st : State) (ts : list TermList) (coef : Z) : State :=
  fold_left (fun st a => traverse functionColored st a coef) ts st.

Definition comparePredicatesUnbounded (l1 l2 : Literal) : Result :=
  let st :=
    if negb (Nat.eqb (lit_functor l1) (lit_functor l2)) then
      traverseArgsUnbounded (traverseArgsUnbounded init (lit_args l1) 1) (lit_args l2) (-1)
    else traverse2 functionColored compareFunctionPrecedences init (asTerm l1) (asTerm l2) in
  resultLiteral st l1 l2.

(** The table for two atoms: the arguments are weighed, not the predicate
    symbols; equal weights are decided by the precedence of distinct
    predicate symbols, and by the first pair of arguments that differ for
    the same predicate symbol. *)
Definition predicateTable (l1 l2 : Literal) : Result :=
  let d := sumZ (map W (lit_args l1)) - sumZ (map W (lit_args l2)) in
  variableCondition (asTerm l1) (asTerm l2)
    (if negb (d =? 0) then sign d
     else if negb (Nat.eqb (lit_functor l1) (lit_functor l2)) then
       if predicatePrecedence (lit_functor l1) >? predicatePrecedence (lit_functor l2)
       then GREATER else LESS
     else lexicographic functionColored compareFunctionPrecedences (lit_args l1) (lit_args l2)).

Lemma traverseArgsUnbounded_shifted coef l : coef = 1 \/ coef = -1 -> forall st,
  countersOk st ->
  shifted st (traverseArgsUnbounded st l coef) (coef * sumZ (map W l))
    (fun w => coef * sumZ (map (occurrences w) l)).
Proof.
  intros Hcoef. induction l as [|a l IH]; intros st Hc.
  - cbn. rewrite Z.mul_0_r. split; [exact Hc|]. split; [lia|]. split; [reflexivity|].
    intros w. lia.
  - pose proof (traverse_shifted functionColored coef a st Hcoef Hc) as Ha.
    cbn [traverseArgsUnbounded fold_left].
    eapply shifted_trans; [exact Ha|apply IH, Ha| |].
    + simpl. lia.
    + intros w. simpl. lia.
Qed.

Lemma applyVariableCondition_counters st s t r :
  countersOk st -> (forall w, varDiff st w = occurrences w s - occurrences w t) ->
  applyVariableCondition st r = variableCondition s t r.
Proof.
  intros Hc Hv.
  apply (applyVariableCondition_holds functionColored
           (mkState (W s - W t) (_varDiffs st) (_posNum st) (_negNum st) (_lexResult st))).
  split; [exact Hc|]. split; [reflexivity|exact Hv].
Qed.

Lemma comparePredicatesUnbounded_table l1 l2 :
  forallb (wellFormed arityOf) (lit_args l1) = true ->
  forallb (wellFormed arityOf) (lit_args l2) = true ->
  (lit_functor l1 = lit_functor l2 ->
   length (lit_args l1) = length (lit_args l2) /\ lit_args l1 <> lit_args l2) ->
  comparePredicatesUnbounded l1 l2 = predicateTable l1 l2.
Proof.
  intros Hwf1 Hwf2 Hsame. unfold comparePredicatesUnbounded, predicateTable.
  destruct l1 as [p pol1 ss srt1], l2 as [q pol2 ts srt2]. cbn [lit_functor lit_args] in *.
  unfold asTerm. cbn [lit_functor lit_args].
  destruct (Nat.eqb_spec p q) as [<-|Hpq]; cbn [negb].
  - destruct (Hsame eq_refl) as [Hlen Hne].
    rewrite forallb_forall in Hwf1, Hwf2. apply List.Forall_forall in Hwf1, Hwf2.
    destruct (listSteps_wellFormed functionColored compareFunctionPrecedences arityOf
                ss ts Hlen Hwf1 Hwf2) as (k & Hk & Hsteps).
    assert (Hall : Forall2 (fun s t => s <> t ->
                     firstWalk functionColored compareFunctionPrecedences s t) ss ts).
    { clear Hk Hsteps Hne Hsame. revert ts Hwf2 Hlen.
      induction ss as [|a ss IHss]; intros [|b ts] Hwf2 Hlen; try discriminate.
      - apply Forall2_nil. exact I.
      - apply Forall_cons in Hwf1, Hwf2. destruct Hwf1 as [Hwa Hwf1], Hwf2 as [Hwb Hwf2].
        apply Forall2_cons. split.
        + intros Hab.
          apply (firstWalk_wellFormed functionColored compareFunctionPrecedences arityOf
                   precedence_total); assumption.
        + apply IHss; [assumption..|simpl in Hlen; lia]. }
    destruct (walkList_first functionColored compareFunctionPrecedences
                p ss ts Hlen Hall
                (settledWalk_list functionColored compareFunctionPrecedences arityOf
                   ss ts Hlen Hwf1 Hwf2)
                Hne 1%nat 0%nat init (clean_init))
      as (st1 & E1 & Hh1 & Hl1 & Hn1).
    destruct (closeLevel_first functionColored compareFunctionPrecedences 0 st1 p ss ts
                Hh1 Hl1 Hn1) as (st2 & E2 & Hh2 & Hl2).
    assert (Htr : traverse2 functionColored compareFunctionPrecedences init
                    (Term p ss) (Term p ts) = st2).
    { cbn [traverse2].
      replace (2 * tsize (Term p ss))%nat with (k + (2 * tsize (Term p ss) - k))%nat
        by (simpl; lia).
      rewrite Hsteps. cbn [Nat.sub]. rewrite E1. cbn [fst snd]. rewrite E2. cbn [fst snd].
      destruct (2 * tsize (Term p ss) - k)%nat; reflexivity. }
    rewrite Htr. unfold resultLiteral. cbn [lit_functor]. rewrite Nat.eqb_refl. cbn [negb].
    rewrite (applyVariableCondition_holds _ _ _ _ _ Hh2).
    rewrite (proj1 (proj2 Hh2)). cbn [weight].
    replace (functionSymbolWeight functionColored p + sumZ (map W ss) -
             (functionSymbolWeight functionColored p + sumZ (map W ts)))
      with (sumZ (map W ss) - sumZ (map W ts)) by lia.
    fold (sign (sumZ (map W ss) - sumZ (map W ts))).
    destruct (sumZ (map W ss) - sumZ (map W ts) =? 0) eqn:Hd; cbn [negb]; [|reflexivity].
    rewrite Hl2, decisionTable_eq. cbn [weight sameTopFunctor]. rewrite Nat.eqb_refl.
    replace (functionSymbolWeight functionColored p + sumZ (map W ss) -
             (functionSymbolWeight functionColored p + sumZ (map W ts)))
      with (sumZ (map W ss) - sumZ (map W ts)) by lia.
    rewrite Hd. cbn [negb]. apply variableCondition_idempotent.
  - pose proof (traverseArgsUnbounded_shifted 1 ss (or_introl eq_refl) init (proj1 clean_init)) as H1.
    pose proof (traverseArgsUnbounded_shifted (-1) ts (or_intror eq_refl) _ (proj1 H1)) as H2.
    destruct H1 as (_ & Hw1 & _ & Hv1), H2 as (Hc2 & Hw2 & _ & Hv2).
    unfold resultLiteral. cbn [lit_functor].
    destruct (Nat.eqb_spec p q) as [|_]; [contradiction|]. cbn [negb].
    rewrite (applyVariableCondition_counters _ (Term p ss) (Term q ts)).
    + rewrite Hw2, Hw1. cbn [init _weightDiff].
      replace (0 + 1 * sumZ (map W ss) + -1 * sumZ (map W ts))
        with (sumZ (map W ss) - sumZ (map W ts)) by lia.
      reflexivity.
    + exact Hc2.
    + intros w. rewrite Hv2, Hv1, (proj1 (proj2 (proj2 clean_init)) w). cbn. lia.
Qed.

(** **** The range of [int] *)

Lemma traverseArgs_exact coef l : coef = 1 \/ coef = -1 -> forall st P N,
  KBOInt.bounded P N st ->
  P + KBOInt.up coef (sumZ (map W l)) <= INT_MAX ->
  N + KBOInt.down coef (sumZ (map W l)) <= INT_MAX ->
  traverseArgs st l coef = traverseArgsUnbounded st l coef /\
  KBOInt.bounded (P + KBOInt.up coef (sumZ (map W l)))
    (N + KBOInt.down coef (sumZ (map W l))) (traverseArgsUnbounded st l coef).
Proof.
  intros Hcoef. induction l as [|a l IH]; intros st P N Hb H1 H2.
  - cbn [traverseArgs traverseArgsUnbounded fold_left]. split; [reflexivity|].
    cbn [map sumZ fold_right].
    replace (KBOInt.up coef 0) with 0 by (unfold KBOInt.up; destruct (coef =? 1); reflexivity).
    replace (KBOInt.down coef 0) with 0
      by (unfold KBOInt.down; destruct (coef =? 1); reflexivity).
    rewrite !Z.add_0_r. exact Hb.
  - rewrite (KBOInt.weights_cons functionColored a l) in *.
    rewrite KBOInt.up_add, KBOInt.down_add in *.
    pose proof (KBOInt.weights_nonneg functionColored l) as Hl.
    pose proof (KBOInt.up_nonneg coef _ Hl). pose proof (KBOInt.down_nonneg coef _ Hl).
    destruct (KBOInt.traverse_exact functionColored P N st a coef Hcoef Hb ltac:(lia)
                ltac:(lia)) as [Ea Hba].
    cbn [traverseArgs traverseArgsUnbounded fold_left]. rewrite Ea.
    destruct (IH _ _ _ Hba ltac:(lia) ltac:(lia)) as [El Hbl].
    unfold traverseArgs, traverseArgsUnbounded in El. rewrite El.
    split; [reflexivity|]. rewrite !Z.add_assoc. exact Hbl.
Qed.

(** [KBO::comparePredicates] on two atoms whose arguments weigh no more
    than the largest [int] answers as the comparison whose counters do not
    overflow. *)
Lemma comparePredicates_exact l1 l2 :
  sumZ (map W (lit_args l1)) <= INT_MAX -> sumZ (map W (lit_args l2)) <= INT_MAX ->
  comparePredicates l1 l2 = comparePredicatesUnbounded l1 l2.
Proof.
  intros H1 H2. unfold comparePredicates, comparePredicatesUnbounded.
  pose proof (KBOInt.weights_nonneg functionColored (lit_args l1)) as Hn1.
  pose proof (KBOInt.weights_nonneg functionColored (lit_args l2)) as Hn2.
  destruct (negb (Nat.eqb (lit_functor l1) (lit_functor l2))).
  - destruct (traverseArgs_exact 1 (lit_args l1) (or_introl eq_refl) init 0 0
                KBOInt.bounded_init) as [E1 Hb1];
      [change (KBOInt.up 1 (sumZ (map W (lit_args l1)))) with (sumZ (map W (lit_args l1))); lia
      |change (KBOInt.down 1 (sumZ (map W (lit_args l1)))) with 0; unfold INT_MAX; lia|].
    change (KBOInt.up 1 (sumZ (map W (lit_args l1)))) with (sumZ (map W (lit_args l1))) in Hb1.
    change (KBOInt.down 1 (sumZ (map W (lit_args l1)))) with 0 in Hb1.
    destruct (traverseArgs_exact (-1) (lit_args l2) (or_intror eq_refl) _ _ _ Hb1)
      as [E2 _];
      [change (KBOInt.up (-1) (sumZ (map W (lit_args l2)))) with 0; lia
      |change (KBOInt.down (-1) (sumZ (map W (lit_args l2))))
         with (sumZ (map W (lit_args l2))); lia|].
    rewrite E1, E2. reflexivity.
  - unfold asTerm. cbn [KBO.traverse2 traverse2].
    rewrite (KBOInt.traverse2_loop_exact functionColored compareFunctionPrecedences _ _ _ _ _
               0 0 KBOInt.bounded_init); [reflexivity| |];
      rewrite ?KBOInt.pendingLeft_cons, ?KBOInt.pendingRight_cons;
      cbn [KBOInt.pendingLeft KBOInt.pendingRight map sumZ fold_right]; lia.
Qed.

Lemma comparePredicates_table l1 l2 :
  forallb (wellFormed arityOf) (lit_args l1) = true ->
  forallb (wellFormed arityOf) (lit_args l2) = true ->
  (lit_functor l1 = lit_functor l2 ->
   length (lit_args l1) = length (lit_args l2) /\ lit_args l1 <> lit_args l2) ->
  sumZ (map W (lit_args l1)) <= INT_MAX -> sumZ (map W (lit_args l2)) <= INT_MAX ->
  comparePredicates l1 l2 = predicateTable l1 l2.
Proof.
  intros Hwf1 Hwf2 Hsame H1 H2. rewrite (comparePredicates_exact l1 l2 H1 H2).
  apply comparePredicatesUnbounded_table; assumption.
Qed.

End Predicates.
End KBOPredicates.

(** X11.  [KBO::comparePredicates] on two atoms over a signature (with
    different arguments when the predicate symbol is the same), the
    arguments of each weighing no more than the largest [int], answers by
    the table for atoms: the sign of the difference of the weights of the
    arguments when it is not zero; otherwise the precedence of two distinct
    predicate symbols, or, for the same predicate symbol, the outcome on the
    first pair of arguments that differ; and INCOMPARABLE in place of that
    when the variable condition is against it.  The predicate symbols
    themselves are not weighed. *)
Theorem kbo_compare_predicates
    (functionColored : nat -> bool) (compareFunctionPrecedences : nat -> nat -> Result)
    (arityOf : nat -> nat) (predicatePrecedence : nat -> Z) (l1 l2 : Literal) :
  (forall f g, f <> g ->
     compareFunctionPrecedences f g = GREATER \/ compareFunctionPrecedences f g = LESS) ->
  forallb (KBOSpec.wellFormed arityOf) (lit_args l1) = true ->
  forallb (KBOSpec.wellFormed arityOf) (lit_args l2) = true ->
  (lit_functor l1 = lit_functor l2 ->
   length (lit_args l1) = length (lit_args l2) /\ lit_args l1 <> lit_args l2) ->
  KBOSpec.sumZ (map (KBOSpec.weight functionColored) (lit_args l1)) <= KBO.INT_MAX ->
  KBOSpec.sumZ (map (KBOSpec.weight functionColored) (lit_args l2)) <= KBO.INT_MAX ->
  KBOPredicates.comparePredicates functionColored compareFunctionPrecedences
    predicatePrecedence l1 l2
  = KBOPredicates.predicateTable functionColored compareFunctionPrecedences
      predicatePrecedence l1 l2.
Proof.
  intros Htotal. apply KBOPredicates.comparePredicates_table. exact Htotal.
Qed.

(** The atoms p(x, f(a)) and p(x, f(b)). *)
Definition example_atom_a : Literal := mkLiteral 7 true [Var 0; Term 2 [Term 0 []]] 0.
Definition example_atom_b : Literal := mkLiteral 7 true [Var 0; Term 2 [Term 1 []]] 0.

Lemma kbo_compare_predicates_witness :
  KBOPredicates.comparePredicates (fun _ => false) example_precedence
    (fun p => Z.of_nat p) example_atom_a example_atom_b = LESS.
Proof.
  rewrite (kbo_compare_predicates (fun _ => false) example_precedence example_arity
             (fun p => Z.of_nat p) example_atom_a example_atom_b).
  - reflexivity.
  - exact example_precedence_total.
  - reflexivity.
  - reflexivity.
  - intros _. split; [reflexivity|discriminate].
  - vm_compute. discriminate.
  - vm_compute. discriminate.
Defined.

(** ** Kernel/Ordering.cpp: [Ordering::removeNonMaximal] *)

Module Ordering.
Section NonMaximal.

(** [Ordering::compare] on literals. *)
Variable compare : Literal -> Literal -> Result.

(** The inner loop of [removeNonMaximal]: [ptr2] runs over the literals
    that follow the literal [x] at [ptr1].  A literal that [x] is greater
    than or equal to is popped; when [x] is less than one that it meets, the
    loop is left to pop [x].  The answer tells whether [x] stays, with the
    literals that follow it then. *)
Fixpoint removeNonMaximal_inner (x : Literal) (rest : list Literal) : bool * list Literal :=
  match rest with
  | [] => (true, [])
  | y :: rest' =>
      match compare x y with
      | GREATER | GREATER_EQ | EQUAL => removeNonMaximal_inner x rest'
      | LESS | LESS_EQ => (false, y :: rest')
      | INCOMPARABLE =>
          let (stays, r) := removeNonMaximal_inner x rest' in (stays, y :: r)
      end
  end.

(** The outer loop over [ptr1]; it runs at most once for every literal of
    the list. *)
Fixpoint removeNonMaximal_loop (fuel : nat) (lits : list Literal) : option (list Literal) :=
  match lits with
  | [] => Some []
  | x :: rest =>
      match fuel with
      | O => None
      | S fuel' =>
          let (stays, rest') := removeNonMaximal_inner x rest in
          if stays then cons x <$> removeNonMaximal_loop fuel' rest'
          else removeNonMaximal_loop fuel' rest'
      end
  end.

(** [Ordering::removeNonMaximal] *)
Definition removeNonMaximal (lits : list Literal) : option (list Literal) :=
  removeNonMaximal_loop (length lits) lits.

(** Every literal of the list is incomparable with the ones after it. *)
Fixpoint incomparable (lits : list Literal) : Prop :=
  match lits with
  | [] => True
  | x :: rest => Forall (fun y => compare x y = INCOMPARABLE) rest /\ incomparable rest
  end.

(** The two properties of an ordering that make the literals kept the
    maximal ones, asked of the literals of [all] only: exchanging the
    arguments reverses the answer, and being greater or equal is
    transitive. *)
Definition reverses (all : list Literal) : Prop :=
  forall x y, In x all -> In y all -> compare y x = reverse (compare x y).

Definition geTransitive (all : list Literal) : Prop :=
  forall x y z, In x all -> In y all -> In z all ->
    isGorGEorE (compare x y) = true -> isGorGEorE (compare y z) = true ->
    isGorGEorE (compare x z) = true.

(** [x] is not below [y]. *)
Definition notBelow (x y : Literal) : Prop :=
  compare x y <> LESS /\ compare x y <> LESS_EQ.

Lemma removeNonMaximal_inner_spec x rest : forall stays rest',
  removeNonMaximal_inner x rest = (stays, rest') ->
  rest' `sublist_of` rest /\
  (stays = true -> Forall (fun y => compare x y = INCOMPARABLE) rest') /\
  (stays = false ->
   exists z, In z rest' /\ (compare x z = LESS \/ compare x z = LESS_EQ)) /\
  (forall y, In y rest -> In y rest' \/ isGorGEorE (compare x y) = true).
Proof.
  induction rest as [|y rest IH]; intros stays rest' H; cbn [removeNonMaximal_inner] in H.
  - injection H as <- <-. split; [reflexivity|]. split; [constructor|].
    split; [discriminate|]. intros y [].
  - destruct (compare x y) eqn:Hc.
    1,3,5: destruct (IH _ _ H) as (Hsub & Hinc & Hpop & Hall);
      (split; [apply sublist_cons, Hsub|]); (split; [exact Hinc|]); split;
      [exact Hpop
      |intros y' [<-|Hy];
       [right; rewrite Hc; reflexivity
       |destruct (Hall _ Hy); [left|right]; assumption]].
    1,2: injection H as <- <-; (split; [reflexivity|]); (split; [discriminate|]); split;
      [intros _; exists y; split; [left; reflexivity|rewrite Hc; auto]
      |intros y' Hy; left; exact Hy].
    destruct (removeNonMaximal_inner x rest) as [stays0 r] eqn:E.
    injection H as <- <-. destruct (IH _ _ eq_refl) as (Hsub & Hinc & Hpop & Hall).
    split; [apply sublist_skip, Hsub|]. split; [|split].
    + intros Hs. constructor; [exact Hc|apply Hinc, Hs].
    + intros Hs. destruct (Hpop Hs) as (z & Hz & Hd).
      exists z. split; [right; exact Hz|exact Hd].
    + intros y' [<-|Hy]; [left; left; reflexivity|].
      destruct (Hall _ Hy) as [Hin|Hd]; [left; right; exact Hin|right; exact Hd].
Qed.

Lemma removeNonMaximal_loop_spec fuel : forall lits,
  (length lits <= fuel)%nat ->
  exists res, removeNonMaximal_loop fuel lits = Some res /\
    res `sublist_of` lits /\ incomparable res /\ (lits <> [] -> res <> []).
Proof.
  induction fuel as [|fuel IH]; intros lits Hlen.
  { destruct lits; [|simpl in Hlen; lia]. exists []. cbn.
    split; [reflexivity|]. split; [reflexivity|]. split; [exact I|]. auto. }
  destruct lits as [|x rest].
  { exists []. cbn. split; [reflexivity|]. split; [reflexivity|]. split; [exact I|]. auto. }
  cbn [removeNonMaximal_loop].
  destruct (removeNonMaximal_inner x rest) as [stays rest'] eqn:E.
  destruct (removeNonMaximal_inner_spec _ _ _ _ E) as (Hsub & Hinc & Hpop & _).
  destruct (IH rest') as (res & Hres & Hsub' & Hinc' & Hne').
  { apply sublist_length in Hsub. simpl in Hlen. lia. }
  rewrite Hres. destruct stays.
  - exists (x :: res). cbn. split; [reflexivity|].
    split; [apply sublist_skip; etransitivity; eassumption|].
    split; [|discriminate].
    split; [|exact Hinc'].
    apply List.Forall_forall. intros y Hy.
    pose proof (Hinc eq_refl) as Hf. rewrite List.Forall_forall in Hf. apply Hf.
    apply list_elem_of_In. apply (sublist_subseteq _ _ Hsub'). apply list_elem_of_In, Hy.
  - destruct (Hpop eq_refl) as (z & Hz & _).
    exists res. split; [reflexivity|].
    split; [apply sublist_cons; etransitivity; eassumption|].
    split; [exact Hinc'|]. intros _. apply Hne'. intros ->. destruct Hz.
Qed.

Lemma sublist_In (l1 l2 : list Literal) x : l1 `sublist_of` l2 -> In x l1 -> In x l2.
Proof.
  intros Hsub Hx. apply list_elem_of_In. apply (sublist_subseteq _ _ Hsub).
  apply list_elem_of_In, Hx.
Qed.

(** Every literal of the list is kept, or a kept literal is greater than
    or equal to it. *)
Lemma removeNonMaximal_loop_covers all fuel : forall lits res,
  reverses all -> geTransitive all -> incl lits all ->
  (length lits <= fuel)%nat ->
  removeNonMaximal_loop fuel lits = Some res ->
  forall y, In y lits ->
    In y res \/ exists z, In z res /\ isGorGEorE (compare z y) = true.
Proof.
  intros lits res Hrev Htrans. revert lits res.
  induction fuel as [|fuel IH]; intros lits res Hall Hlen H y Hy.
  { destruct lits; [destruct Hy|simpl in Hlen; lia]. }
  destruct lits as [|x rest]; [destruct Hy|].
  cbn [removeNonMaximal_loop] in H.
  destruct (removeNonMaximal_inner x rest) as [stays rest'] eqn:E.
  destruct (removeNonMaximal_inner_spec _ _ _ _ E) as (Hsub & _ & Hpop & Hmet).
  assert (Hlen' : (length rest' <= fuel)%nat).
  { apply sublist_length in Hsub. simpl in Hlen. lia. }
  assert (Hall' : incl rest' all).
  { intros z Hz. apply Hall. right. exact (sublist_In _ _ _ Hsub Hz). }
  destruct (removeNonMaximal_loop_spec fuel rest' Hlen') as (res0 & Hres0 & Hsub0 & _).
  assert (Hin0 : forall z, In z res0 -> In z all).
  { intros z Hz. apply Hall'. exact (sublist_In _ _ _ Hsub0 Hz). }
  pose proof (IH rest' res0 Hall' Hlen' Hres0) as Hcov.
  rewrite Hres0 in H. destruct stays; cbn in H; injection H as <-.
  - destruct Hy as [<-|Hy]; [left; left; reflexivity|].
    destruct (Hmet _ Hy) as [Hin|Hge].
    + destruct (Hcov _ Hin) as [?|(z & Hz & Hge)]; [left; right; assumption|].
      right. exists z. split; [right; exact Hz|exact Hge].
    + right. exists x. split; [left; reflexivity|exact Hge].
  - destruct (Hpop eq_refl) as (z & Hz & Hlt).
    assert (Hzx : isGorGEorE (compare z x) = true).
    { rewrite (Hrev x z) by (first [apply Hall; left; reflexivity|apply Hall', Hz]).
      destruct Hlt as [-> | ->]; reflexivity. }
    assert (Hx : exists k, In k res0 /\ isGorGEorE (compare k x) = true).
    { destruct (Hcov _ Hz) as [Hin|(k & Hk & Hge)]; [exists z; auto|].
      exists k. split; [exact Hk|].
      apply (Htrans k z x); [apply Hin0, Hk|apply Hall', Hz|apply Hall; left; reflexivity
                            |exact Hge|exact Hzx]. }
    destruct Hy as [<-|Hy]; [right; exact Hx|].
    destruct (Hmet _ Hy) as [Hin|Hge]; [apply Hcov, Hin|].
    destruct Hx as (k & Hk & Hkx). right. exists k. split; [exact Hk|].
    apply (Htrans k x y); [apply Hin0, Hk|apply Hall; left; reflexivity
                          |apply Hall; right; exact Hy|exact Hkx|exact Hge].
Qed.

Lemma incomparable_In res : forall x y,
  incomparable res -> In x res -> In y res ->
  x = y \/ compare x y = INCOMPARABLE \/ compare y x = INCOMPARABLE.
Proof.
  induction res as [|h res IH]; intros x y Hinc Hx Hy; [destruct Hx|].
  destruct Hinc as [Hh Hinc]. rewrite List.Forall_forall in Hh.
  destruct Hx as [<-|Hx], Hy as [<-|Hy]; auto.
Qed.

(** The literals kept are maximal among the literals of the list. *)
Lemma kept_maximal all lits res :
  reverses all -> geTransitive all -> incl lits all -> incl res lits ->
  incomparable res ->
  (forall y, In y lits ->
     In y res \/ exists z, In z res /\ isGorGEorE (compare z y) = true) ->
  forall x y, In x res -> In y lits -> notBelow x y.
Proof.
  intros Hrev Htrans Hall Hres Hinc Hcov x y Hx Hy.
  assert (Hxa : In x all) by (apply Hall, Hres, Hx).
  assert (Hya : In y all) by (apply Hall, Hy).
  assert (Hnot : ~ (compare x y = LESS \/ compare x y = LESS_EQ)).
  { intros Hlt.
    assert (Hyx : isGorGEorE (compare y x) = true).
    { rewrite (Hrev x y Hxa Hya). destruct Hlt as [-> | ->]; reflexivity. }
    assert (Hno : forall z, In z res -> isGorGEorE (compare z x) = true -> z = x).
    { intros z Hz Hzx.
      destruct (incomparable_In res z x Hinc Hz Hx) as [E|[E|E]]; [exact E| |].
      - rewrite E in Hzx. discriminate.
      - rewrite (Hrev x z Hxa (Hall _ (Hres _ Hz))), E in Hzx. discriminate. }
    destruct (Hcov y Hy) as [Hin|(z & Hz & Hzy)].
    - rewrite (Hno y Hin Hyx) in Hlt.
      pose proof (Hrev x x Hxa Hxa) as Hxx.
      destruct Hlt as [E|E]; rewrite E in Hxx; discriminate.
    - assert (Hzx : isGorGEorE (compare z x) = true).
      { apply (Htrans z y x); [apply Hall, Hres, Hz|exact Hya|exact Hxa|exact Hzy|exact Hyx]. }
      rewrite (Hno z Hz Hzx) in Hzy. destruct Hlt as [E|E]; rewrite E in Hzy; discriminate. }
  split; intros E; apply Hnot; auto.
Qed.

Lemma removeNonMaximal_maximal lits res :
  reverses lits -> geTransitive lits ->
  removeNonMaximal lits = Some res ->
  (forall y, In y lits ->
     In y res \/ exists z, In z res /\ isGorGEorE (compare z y) = true) /\
  (forall x y, In x res -> In y lits -> notBelow x y).
Proof.
  intros Hrev Htrans H. unfold removeNonMaximal in H.
  destruct (removeNonMaximal_loop_spec (length lits) lits (le_n _))
    as (res' & Hres' & Hsub & Hinc & _).
  assert (res' = res) as -> by congruence.
  pose proof (removeNonMaximal_loop_covers lits (length lits) lits res Hrev Htrans
                (incl_refl _) (le_n _) H) as Hcov.
  split; [exact Hcov|].
  apply (kept_maximal lits lits res Hrev Htrans (incl_refl _)); [|exact Hinc|exact Hcov].
  intros z Hz. exact (sublist_In _ _ _ Hsub Hz).
Qed.

End NonMaximal.
End Ordering.

(** X12.  [Ordering::removeNonMaximal], whatever [compare] answers: it
    ends; it keeps a sub-list of the literals, in their order; every literal
    it keeps is incomparable with each kept literal after it; and it keeps
    at least one literal of a list that has one.  When, on the literals of
    the list, exchanging the arguments of [compare] reverses its answer and
    being greater or equal is transitive, the literals kept are the maximal
    ones: every literal of the list is kept or a kept literal is greater
    than or equal to it, and no kept literal is less than, or less than or
    equal to, a literal of the list. *)
Theorem remove_non_maximal (compare : Literal -> Literal -> Result) (lits : list Literal) :
  exists res,
    Ordering.removeNonMaximal compare lits = Some res /\
    res `sublist_of` lits /\
    Ordering.incomparable compare res /\
    (lits <> [] -> res <> []) /\
    (Ordering.reverses compare lits -> Ordering.geTransitive compare lits ->
     (forall y, In y lits ->
        In y res \/ exists z, In z res /\ isGorGEorE (compare z y) = true) /\
     (forall x y, In x res -> In y lits ->
        compare x y <> LESS /\ compare x y <> LESS_EQ)).
Proof.
  destruct (Ordering.removeNonMaximal_loop_spec compare (length lits) lits (le_n _))
    as (res & Hres & Hsub & Hinc & Hne).
  exists res. split; [exact Hres|]. split; [exact Hsub|]. split; [exact Hinc|].
  split; [exact Hne|]. intros Hrev Htrans.
  exact (Ordering.removeNonMaximal_maximal compare lits res Hrev Htrans Hres).
Qed.

(** ** Kernel/MaximalLiteralSelector.cpp *)

Module MaximalLiteralSelector.
Section Selector.

(** [LiteralSelector::isNegativeForSelection] and the ordering [_ord]. *)
Variable isNegativeForSelection : Literal -> bool.
Variable compare : Literal -> Literal -> Result.

(** [swap] of the literals at the positions [i] and [j] of the clause. *)
Definition swapAt (c : list Literal) (i j : nat) : list Literal :=
  match c !! i, c !! j with
  | Some x, Some y => <[i := y]> (<[j := x]> c)
  | _, _ => c
  end.

(** The last loop of [doSelection]: the literals of [sel] are looked for
    from position [li] on and moved to the positions from [selCnt] on.  A
    read past the end of the clause gives [None]. *)
Fixpoint moveToFront (fuel : nat) (c : list Literal) (li selCnt : nat) (sel : list Literal)
  : option (list Literal * nat) :=
  match sel with
  | [] => Some (c, selCnt)
  | h :: sel' =>
      match fuel with
      | O => None
      | S fuel' =>
          match c !! li with
          | None => None
          | Some x =>
              if bool_decide (x = h) then
                moveToFront fuel' (if Nat.eqb li selCnt then c else swapAt c li selCnt)
                  (S li) (S selCnt) sel'
              else moveToFront fuel' c (S li) selCnt sel
          end
      end
  end.

(** The literals pushed on [sel] by the first two loops, which read the
    positions below [eligible] from the last to the first and push on the
    front: the negative ones when there is one, all of them otherwise. *)
Definition candidates (c : list Literal) (eligible : nat) : list Literal :=
  let anyNegative := existsb isNegativeForSelection (take eligible c) in
  List.filter (fun lit => negb anyNegative || isNegativeForSelection lit) (take eligible c).

(** What is left in [sel] before the last loop: the first negative literal
    among the maximal ones alone, if there is one. *)
Definition selection (sel : list Literal) : list Literal :=
  match List.find isNegativeForSelection sel with
  | Some singleSel => [singleSel]
  | None => sel
  end.

(** [MaximalLiteralSelector::doSelection] up to [c->setSelected(selCnt)]:
    the literals of the clause and the number of selected ones.  (The call
    of [ensureSomeColoredSelected] that follows is defined in
    Kernel/LiteralSelector.cpp, which is not among the sources.) *)
Definition doSelection (c : list Literal) (eligible : nat) : option (list Literal * nat) :=
  match Ordering.removeNonMaximal compare (candidates c eligible) with
  | None => None
  | Some sel => moveToFront (length c) c 0 0 (selection sel)
  end.

Lemma swapAt_front done m mid h rest :
  swapAt (done ++ m :: mid ++ h :: rest) (length done + S (length mid)) (length done)
  = done ++ h :: mid ++ m :: rest.
Proof.
  unfold swapAt.
  assert (H1 : (done ++ m :: mid ++ h :: rest) !! (length done + S (length mid))%nat = Some h).
  { rewrite lookup_app_r by lia.
    replace (length done + S (length mid) - length done)%nat with (S (length mid)) by lia.
    cbn. apply list_lookup_middle. reflexivity. }
  assert (H2 : (done ++ m :: mid ++ h :: rest) !! length done = Some m).
  { apply list_lookup_middle. reflexivity. }
  rewrite H1, H2.
  rewrite (insert_app_r_alt done (m :: mid ++ h :: rest) (length done) h) by lia.
  rewrite Nat.sub_diag. simpl.
  rewrite (insert_app_r_alt done) by lia.
  replace (length done + S (length mid) - length done)%nat with (S (length mid)) by lia.
  simpl. do 2 f_equal.
  rewrite (insert_app_r_alt mid) by lia. rewrite Nat.sub_diag. reflexivity.
Qed.

Lemma sublist_cons_inv (h x : Literal) sel rest :
  (h :: sel) `sublist_of` (x :: rest) ->
  (x = h /\ sel `sublist_of` rest) \/ (x <> h /\ (h :: sel) `sublist_of` rest).
Proof.
  intros H. destruct (decide (x = h)) as [->|Hne].
  - left. split; [reflexivity|]. apply sublist_cons_r in H.
    destruct H as [H|(l' & E & H)].
    + etransitivity; [|exact H]. apply sublist_cons. reflexivity.
    + injection E as <-. exact H.
  - right. split; [exact Hne|]. apply sublist_cons_r in H.
    destruct H as [H|(l' & E & H)]; [exact H|]. injection E as E _. congruence.
Qed.

Lemma moveToFront_spec fuel : forall done mid rest others sel,
  sel `sublist_of` rest -> (length rest <= fuel)%nat ->
  exists mid',
    moveToFront fuel (done ++ mid ++ rest ++ others) (length done + length mid)
      (length done) sel
    = Some (done ++ sel ++ mid' ++ others, (length done + length sel)%nat) /\
    Permutation (sel ++ mid') (mid ++ rest).
Proof.
  induction fuel as [|fuel IH]; intros done mid rest others sel Hsub Hlen.
  { destruct rest; [|simpl in Hlen; lia]. apply sublist_nil_r in Hsub. subst sel.
    exists mid. cbn. rewrite Nat.add_0_r, !app_nil_r. split; reflexivity. }
  destruct sel as [|h sel].
  { exists (mid ++ rest). cbn. rewrite Nat.add_0_r, <- !app_assoc. split; reflexivity. }
  destruct rest as [|x rest]; [apply sublist_nil_r in Hsub; discriminate|].
  cbn [moveToFront].
  assert (Hx : (done ++ mid ++ (x :: rest) ++ others) !! (length done + length mid)%nat
               = Some x).
  { rewrite app_assoc, <- length_app. apply list_lookup_middle. reflexivity. }
  rewrite Hx. simpl in Hlen.
  destruct (sublist_cons_inv _ _ _ _ Hsub) as [[-> Hs]|[Hne Hs]].
  - rewrite bool_decide_eq_true_2 by reflexivity.
    destruct mid as [|m mid].
    + rewrite Nat.add_0_r, Nat.eqb_refl.
      destruct (IH (done ++ [h]) [] rest others sel Hs ltac:(lia)) as (mid' & E & Hp).
      exists mid'. rewrite length_app, Nat.add_0_r in E. cbn [length] in E.
      rewrite Nat.add_1_r in E. cbn [app] in *. rewrite <- !app_assoc in E. cbn [app] in E.
      rewrite E. split; [f_equal; f_equal; cbn [length]; lia|]. constructor. exact Hp.
    + replace (Nat.eqb (length done + length (m :: mid)) (length done)) with false
        by (symmetry; apply Nat.eqb_neq; simpl; lia).
      cbn [length app]. rewrite swapAt_front.
      destruct (IH (done ++ [h]) (mid ++ [m]) rest others sel Hs ltac:(lia))
        as (mid' & E & Hp).
      exists mid'. rewrite !length_app in E. cbn [length] in E.
      replace (length done + 1 + (length mid + 1))%nat
        with (S (length done + S (length mid))) in E by lia.
      replace (length done + 1)%nat with (S (length done)) in E by lia.
      rewrite <- !app_assoc in E. cbn [app] in E.
      rewrite E. split; [f_equal; f_equal; cbn [length]; lia|].
      cbn [app]. rewrite Hp. rewrite <- app_assoc. cbn [app].
      rewrite <- Permutation_middle. rewrite <- (Permutation_middle mid rest h).
      apply perm_swap.
  - rewrite bool_decide_eq_false_2 by exact Hne.
    destruct (IH done (mid ++ [x]) rest others (h :: sel) Hs ltac:(lia)) as (mid' & E & Hp).
    exists mid'. rewrite length_app in E. cbn [length] in E.
    replace (length done + (length mid + 1))%nat with (S (length done + length mid)) in E
      by lia.
    rewrite <- !app_assoc in E. cbn [app] in E. cbn [app]. rewrite E.
    split; [reflexivity|]. rewrite Hp, <- app_assoc. reflexivity.
Qed.

Lemma filter_sublist (f : Literal -> bool) l : List.filter f l `sublist_of` l.
Proof.
  induction l as [|x l IH]; cbn; [reflexivity|].
  destruct (f x); [apply sublist_skip, IH|apply sublist_cons, IH].
Qed.

Lemma reverses_incl l1 l2 :
  incl l1 l2 -> Ordering.reverses compare l2 -> Ordering.reverses compare l1.
Proof. intros Hincl H x y Hx Hy. apply H; apply Hincl; assumption. Qed.

Lemma geTransitive_incl l1 l2 :
  incl l1 l2 -> Ordering.geTransitive compare l2 -> Ordering.geTransitive compare l1.
Proof. intros Hincl H x y z Hx Hy Hz. apply H; apply Hincl; assumption. Qed.

Lemma doSelection_spec c eligible :
  (1 <= eligible <= length c)%nat ->
  exists c' selCnt,
    doSelection c eligible = Some (c', selCnt) /\
    Permutation c' c /\ drop eligible c' = drop eligible c /\
    (1 <= selCnt <= eligible)%nat /\
    take selCnt c' `sublist_of` take eligible c /\
    if existsb isNegativeForSelection (take eligible c)
    then exists s, take selCnt c' = [s] /\ isNegativeForSelection s = true /\
         (Ordering.reverses compare (take eligible c) ->
          Ordering.geTransitive compare (take eligible c) ->
          forall y, In y (take eligible c) -> isNegativeForSelection y = true ->
                    Ordering.notBelow compare s y)
    else Ordering.incomparable compare (take selCnt c') /\
         (Ordering.reverses compare (take eligible c) ->
          Ordering.geTransitive compare (take eligible c) ->
          (forall y, In y (take eligible c) ->
             In y (take selCnt c') \/
             exists z, In z (take selCnt c') /\ isGorGEorE (compare z y) = true) /\
          (forall x y, In x (take selCnt c') -> In y (take eligible c) ->
             Ordering.notBelow compare x y)).
Proof.
  intros Hel. unfold doSelection.
  set (elig := take eligible c). set (others := drop eligible c).
  assert (Hc : c = elig ++ others) by (symmetry; apply take_drop).
  assert (Hlenel : length elig = eligible) by (unfold elig; rewrite length_take; lia).
  assert (Hcand : candidates c eligible `sublist_of` elig) by apply filter_sublist.
  assert (Hcne : candidates c eligible <> []).
  { unfold candidates. fold elig. destruct (existsb isNegativeForSelection elig) eqn:Hany.
    - apply existsb_exists in Hany. destruct Hany as (x & Hx & Hneg).
      intros E. assert (Hin : In x (List.filter
                  (fun lit => negb true || isNegativeForSelection lit) elig)).
      { apply filter_In. split; [exact Hx|]. cbn. exact Hneg. }
      rewrite E in Hin. destruct Hin.
    - destruct elig as [|x elig']; [simpl in Hlenel; lia|]. cbn. discriminate. }
  destruct (Ordering.removeNonMaximal_loop_spec compare (length (candidates c eligible))
              (candidates c eligible) (le_n _))
    as (sel & Hsel & Hsub & Hinc & Hne).
  assert (Hsel' : Ordering.removeNonMaximal compare (candidates c eligible) = Some sel)
    by exact Hsel.
  rewrite Hsel'. clear Hsel.
  specialize (Hne Hcne).
  assert (Hsel2 : selection sel `sublist_of` sel /\ selection sel <> []).
  { unfold selection. destruct (find isNegativeForSelection sel) as [s|] eqn:Hf.
    - apply find_some in Hf. destruct Hf as [Hin _]. split; [|discriminate].
      apply list_elem_of_In, list_elem_of_split in Hin. destruct Hin as (l1 & l2 & ->).
      apply sublist_inserts_l. apply sublist_skip, sublist_nil_l.
    - split; [reflexivity|exact Hne]. }
  destruct Hsel2 as [Hsub2 Hne2].
  assert (Hsubel : selection sel `sublist_of` elig).
  { etransitivity; [exact Hsub2|]. etransitivity; eassumption. }
  destruct (moveToFront_spec (length c) [] [] elig others (selection sel) Hsubel)
    as (mid' & E & Hp).
  { rewrite Hc, length_app. lia. }
  cbn [app length Nat.add] in E, Hp. rewrite <- Hc in E.
  exists (selection sel ++ mid' ++ others), (length (selection sel)).
  split; [exact E|].
  assert (Hlen2 : length (selection sel ++ mid') = eligible).
  { rewrite (Permutation_length Hp). exact Hlenel. }
  split; [rewrite app_assoc, Hp, <- Hc; reflexivity|].
  split; [rewrite app_assoc, <- Hlen2; apply drop_app_length|].
  split.
  { split; [destruct (selection sel); [congruence|simpl; lia]|].
    rewrite <- Hlenel. apply sublist_length, Hsubel. }
  rewrite take_app_length. split; [exact Hsubel|].
  unfold candidates in *. fold elig in Hsub, Hsel', Hcand, Hcne |- *.
  destruct (existsb isNegativeForSelection elig) eqn:Hany.
  - assert (Hall : forall x, In x sel -> isNegativeForSelection x = true).
    { intros x Hx. apply (Ordering.sublist_In _ _ _ Hsub) in Hx. apply filter_In in Hx.
      destruct Hx as [_ Hx]. exact Hx. }
    unfold selection. destruct (find isNegativeForSelection sel) as [s|] eqn:Hf.
    + exists s. split; [reflexivity|]. apply find_some in Hf. destruct Hf as [Hin Hneg].
      split; [exact Hneg|]. intros Hrev Htrans y Hy Hnegy.
      assert (Hci : incl (List.filter (fun lit => negb true || isNegativeForSelection lit) elig)
                      elig).
      { intros z Hz. exact (Ordering.sublist_In _ _ _ Hcand Hz). }
      destruct (Ordering.removeNonMaximal_maximal compare _ sel
                  (reverses_incl _ _ Hci Hrev) (geTransitive_incl _ _ Hci Htrans) Hsel')
        as [_ Hmax].
      apply Hmax; [exact Hin|]. apply filter_In. split; [exact Hy|exact Hnegy].
    + destruct sel as [|x sel']; [congruence|].
      pose proof (find_none _ _ Hf x (or_introl eq_refl)) as Hx.
      rewrite (Hall x (or_introl eq_refl)) in Hx. discriminate.
  - assert (Hnone : forall x, In x elig -> isNegativeForSelection x = false).
    { intros x Hx. destruct (isNegativeForSelection x) eqn:Hneg; [|reflexivity].
      assert (Hex : existsb isNegativeForSelection elig = true)
        by (apply existsb_exists; exists x; auto).
      congruence. }
    assert (Hfilter : List.filter (fun lit => negb false || isNegativeForSelection lit) elig
                      = elig).
    { clear. induction elig as [|x l IH]; cbn; [reflexivity|]. f_equal. exact IH. }
    rewrite Hfilter in Hsub, Hsel'.
    assert (Hs : selection sel = sel).
    { unfold selection. destruct (find isNegativeForSelection sel) as [s|] eqn:Hf;
        [|reflexivity].
      apply find_some in Hf. destruct Hf as [Hin Hneg].
      rewrite (Hnone s (Ordering.sublist_In _ _ _ Hsub Hin)) in Hneg. discriminate. }
    rewrite Hs. split; [exact Hinc|]. intros Hrev Htrans.
    exact (Ordering.removeNonMaximal_maximal compare elig sel Hrev Htrans Hsel').
Qed.

End Selector.
End MaximalLiteralSelector.

(** X13.  [MaximalLiteralSelector::doSelection], up to the point where it
    calls [setSelected], on a clause with at least one eligible literal: the
    last loop finds every literal it looks for without reading past the
    eligible ones; the clause is left with the same literals, those from
    position [eligible] on in place; between 1 and [eligible] literals are
    selected, and they stand first, in the order they had in the clause.
    When some eligible literal is negative for selection, exactly one
    literal is selected and it is negative; otherwise the selected literals
    are pairwise incomparable.  When, on the eligible literals, exchanging
    the arguments of the ordering reverses its answer and being greater or
    equal is transitive, the selection is maximal: the one negative literal
    selected is not below any negative eligible literal; and without
    negative literals, no selected literal is below an eligible literal and
    every eligible literal is selected or a selected one is greater than or
    equal to it. *)
Theorem maximal_literal_selection
    (isNegativeForSelection : Literal -> bool) (compare : Literal -> Literal -> Result)
    (c : list Literal) (eligible : nat) :
  (1 <= eligible <= length c)%nat ->
  exists c' selCnt,
    MaximalLiteralSelector.doSelection isNegativeForSelection compare c eligible
    = Some (c', selCnt) /\
    Permutation c' c /\ drop eligible c' = drop eligible c /\
    (1 <= selCnt <= eligible)%nat /\
    take selCnt c' `sublist_of` take eligible c /\
    if existsb isNegativeForSelection (take eligible c)
    then exists s, take selCnt c' = [s] /\ isNegativeForSelection s = true /\
         (Ordering.reverses compare (take eligible c) ->
          Ordering.geTransitive compare (take eligible c) ->
          forall y, In y (take eligible c) -> isNegativeForSelection y = true ->
                    compare s y <> LESS /\ compare s y <> LESS_EQ)
    else Ordering.incomparable compare (take selCnt c') /\
         (Ordering.reverses compare (take eligible c) ->
          Ordering.geTransitive compare (take eligible c) ->
          (forall y, In y (take eligible c) ->
             In y (take selCnt c') \/
             exists z, In z (take selCnt c') /\ isGorGEorE (compare z y) = true) /\
          (forall x y, In x (take selCnt c') -> In y (take eligible c) ->
             compare x y <> LESS /\ compare x y <> LESS_EQ)).
Proof. apply MaximalLiteralSelector.doSelection_spec. Qed.

(** Three positive atoms, compared by the number of their predicate
    symbol. *)
Definition example_selection_clause : list Literal :=
  [mkLiteral 5 true [Term 0 []] 0; mkLiteral 7 true [Term 1 []] 0; mkLiteral 6 true [] 0].
Definition example_literal_compare (l1 l2 : Literal) : Result :=
  example_precedence (lit_functor l1) (lit_functor l2).

Lemma example_literal_compare_reverses lits :
  Ordering.reverses example_literal_compare lits.
Proof.
  intros x y _ _. unfold example_literal_compare, example_precedence.
  destruct (Nat.ltb_spec (lit_functor x) (lit_functor y)),
           (Nat.ltb_spec (lit_functor y) (lit_functor x)); try reflexivity; lia.
Defined.

Lemma example_literal_compare_transitive lits :
  Ordering.geTransitive example_literal_compare lits.
Proof.
  intros x y z _ _ _. unfold example_literal_compare, example_precedence.
  destruct (Nat.ltb_spec (lit_functor x) (lit_functor y)); [discriminate|].
  destruct (Nat.ltb_spec (lit_functor y) (lit_functor z)); [discriminate|].
  destruct (Nat.ltb_spec (lit_functor x) (lit_functor z)); [lia|].
  destruct (Nat.ltb_spec (lit_functor y) (lit_functor x)),
           (Nat.ltb_spec (lit_functor z) (lit_functor y)),
           (Nat.ltb_spec (lit_functor z) (lit_functor x)); reflexivity.
Defined.

Lemma remove_non_maximal_witness :
  Ordering.removeNonMaximal example_literal_compare example_selection_clause
  = Some [mkLiteral 7 true [Term 1 []] 0] /\
  forall x y, In x [mkLiteral 7 true [Term 1 []] 0] -> In y example_selection_clause ->
    example_literal_compare x y <> LESS /\ example_literal_compare x y <> LESS_EQ.
Proof.
  destruct (remove_non_maximal example_literal_compare example_selection_clause)
    as (res & E & _ & _ & _ & Hmax).
  pose proof E as E'. vm_compute in E'. injection E' as <-.
  split; [exact E|].
  exact (proj2 (Hmax (example_literal_compare_reverses _)
                     (example_literal_compare_transitive _))).
Defined.

Lemma maximal_literal_selection_witness :
  MaximalLiteralSelector.doSelection (fun l => negb (polarity l)) example_literal_compare
    example_selection_clause 3
  = Some ([mkLiteral 7 true [Term 1 []] 0; mkLiteral 5 true [Term 0 []] 0;
           mkLiteral 6 true [] 0], 1%nat) /\
  forall y, In y example_selection_clause ->
    example_literal_compare (mkLiteral 7 true [Term 1 []] 0) y <> LESS /\
    example_literal_compare (mkLiteral 7 true [Term 1 []] 0) y <> LESS_EQ.
Proof.
  destruct (maximal_literal_selection (fun l => negb (polarity l)) example_literal_compare
              example_selection_clause 3) as (c' & selCnt & E & _ & _ & _ & _ & Hsel).
  - simpl. lia.
  - pose proof E as E'. vm_compute in E'. injection E' as <- <-.
    split; [exact E|].
    cbn [existsb take example_selection_clause polarity negb orb] in Hsel.
    destruct Hsel as [_ Hmax].
    intros y Hy.
    exact (proj2 (Hmax (example_literal_compare_reverses _)
                       (example_literal_compare_transitive _))
             (mkLiteral 7 true [Term 1 []] 0) y (or_introl eq_refl) Hy).
Defined.

(** ** Kernel/Ordering.cpp: the precedence of function symbols *)

Module PrecedenceOrdering.

(** [Lib::Comparison] (Lib/Comparison.hpp) *)
Inductive Comparison := Lib_LESS | Lib_EQUAL | Lib_GREATER.

(** [Int::compare] (Lib/Int.hpp) *)
Definition Int_compare (i1 i2 : Z) : Comparison :=
  if i1 <? i2 then Lib_LESS else if i1 =? i2 then Lib_EQUAL else Lib_GREATER.

(** [Ordering::fromComparison] *)
Definition fromComparison (c : Comparison) : Result :=
  match c with
  | Lib_GREATER => GREATER
  | Lib_EQUAL => EQUAL
  | Lib_LESS => LESS
  end.

(** What [compareFunctionPrecedences] reads of a [Signature::Symbol]. *)
Record Symbol := mkSymbol {
  termAlgebraCons : bool;
  interpreted : bool;
  arity : nat;
  numericConstant : bool;
  integerConstant : bool;
  rationalConstant : bool;
  realConstant : bool
}.

Section Precedence.

(** The signature [env.signature]: its symbols, the test for the two
    constants of FOOL, and, for two numeric constants of the same sort, the
    precedence [comparePrecedence] of their values. *)
Variable getFunction : nat -> Symbol.
Variable isFoolConstantSymbol : bool -> nat -> bool.
Variable integerPrecedence : nat -> nat -> Comparison.
Variable rationalPrecedence : nat -> nat -> Comparison.
Variable realPrecedence : nat -> nat -> Comparison.

(** The members [_functions] and [_functionPrecedences]. *)
Variable _functions : nat.
Variable _functionPrecedences : list Z.

(** [fun >= _functions ? (int)fun : _functionPrecedences[fun]] *)
Definition precedence (fn : nat) : Z :=
  if Nat.leb _functions fn then Z.of_nat fn else default 0 (_functionPrecedences !! fn).

(** The end of [compareFunctionPrecedences]: two interpreted constants. *)
Definition compareConstants (fun1 fun2 : nat) : Comparison :=
  let s1 := getFunction fun1 in
  let s2 := getFunction fun2 in
  if negb (numericConstant s1) || negb (numericConstant s2) then
    Int_compare (Z.of_nat fun1) (Z.of_nat fun2)
  else if integerConstant s1 && integerConstant s2 then integerPrecedence fun1 fun2
  else if rationalConstant s1 && rationalConstant s2 then rationalPrecedence fun1 fun2
  else if realConstant s1 && realConstant s2 then realPrecedence fun1 fun2
  else if integerConstant s1 then Lib_LESS
  else if integerConstant s2 then Lib_GREATER
  else if rationalConstant s1 then Lib_LESS
  else if rationalConstant s2 then Lib_GREATER
  else Int_compare (Z.of_nat fun1) (Z.of_nat fun2).

(** [PrecedenceOrdering::compareFunctionPrecedences] *)
Definition compareFunctionPrecedences (fun1 fun2 : nat) : Result :=
  if Nat.eqb fun1 fun2 then EQUAL
  else if isFoolConstantSymbol false fun1 then LESS
  else if isFoolConstantSymbol false fun2 then GREATER
  else if isFoolConstantSymbol true fun1 then LESS
  else if isFoolConstantSymbol true fun2 then GREATER
  else
    let s1 := getFunction fun1 in
    let s2 := getFunction fun2 in
    if termAlgebraCons s1 && negb (termAlgebraCons s2) then LESS
    else if negb (termAlgebraCons s1) && termAlgebraCons s2 then GREATER
    else if negb (interpreted s1) then
      if interpreted s2 then GREATER
      else fromComparison (Int_compare (precedence fun1) (precedence fun2))
    else if negb (interpreted s2) then LESS
    else if negb (Nat.eqb (arity s1) 0) then
      if Nat.eqb (arity s2) 0 then GREATER
      else fromComparison (Int_compare (Z.of_nat fun1) (Z.of_nat fun2))
    else if negb (Nat.eqb (arity s2) 0) then LESS
    else fromComparison (compareConstants fun1 fun2).

(** [PrecedenceOrdering::compareFunctors] *)
Definition compareFunctors (fun1 fun2 : nat) : option Comparison :=
  if Nat.eqb fun1 fun2 then Some Lib_EQUAL
  else match compareFunctionPrecedences fun1 fun2 with
       | GREATER => Some Lib_GREATER
       | LESS => Some Lib_LESS
       | _ => None
       end.

(** A comparison that is decided on distinct arguments and is turned round
    by exchanging them. *)
Definition strict (cmp : nat -> nat -> Comparison) (P : nat -> Prop) : Prop :=
  forall f g, f <> g -> P f -> P g ->
    (cmp f g = Lib_LESS /\ cmp g f = Lib_GREATER) \/
    (cmp f g = Lib_GREATER /\ cmp g f = Lib_LESS).

(** The signature has at most one constant for each truth value; the
    precedences given to the uninterpreted symbols are distinct; the
    precedences of numeric constants of the same sort are strict. *)
Definition properSignature : Prop :=
  (forall b f g, isFoolConstantSymbol b f = true -> isFoolConstantSymbol b g = true -> f = g) /\
  (forall f g, f <> g -> interpreted (getFunction f) = false ->
     interpreted (getFunction g) = false -> precedence f <> precedence g) /\
  strict integerPrecedence (fun f => integerConstant (getFunction f) = true) /\
  strict rationalPrecedence (fun f => rationalConstant (getFunction f) = true) /\
  strict realPrecedence (fun f => realConstant (getFunction f) = true).

Definition decided (r r' : Result) : Prop :=
  (r = LESS /\ r' = GREATER) \/ (r = GREATER /\ r' = LESS).

Lemma Int_compare_decided i j :
  i <> j ->
  decided (fromComparison (Int_compare i j)) (fromComparison (Int_compare j i)).
Proof.
  intros Hne. unfold Int_compare.
  destruct (Z.ltb_spec i j), (Z.ltb_spec j i), (Z.eqb_spec i j), (Z.eqb_spec j i);
    try lia; cbn; unfold decided; auto.
Qed.

Lemma strict_decided cmp (P : nat -> Prop) f g :
  strict cmp P -> f <> g -> P f -> P g ->
  decided (fromComparison (cmp f g)) (fromComparison (cmp g f)).
Proof.
  intros Hs Hne Hf Hg. destruct (Hs f g Hne Hf Hg) as [[-> ->]|[-> ->]];
    [left|right]; split; reflexivity.
Qed.

Lemma compareConstants_decided f g :
  properSignature -> f <> g ->
  decided (fromComparison (compareConstants f g)) (fromComparison (compareConstants g f)).
Proof.
  intros (_ & _ & Hint & Hrat & Hreal) Hne. unfold compareConstants.
  assert (Hid : decided (fromComparison (Int_compare (Z.of_nat f) (Z.of_nat g)))
                        (fromComparison (Int_compare (Z.of_nat g) (Z.of_nat f))))
    by (apply Int_compare_decided; lia).
  destruct (numericConstant (getFunction f)), (numericConstant (getFunction g));
    cbn [negb orb]; try exact Hid.
  destruct (integerConstant (getFunction f)) eqn:I1,
           (integerConstant (getFunction g)) eqn:I2; cbn [andb].
  - apply (strict_decided _ _ f g Hint Hne I1 I2).
  - destruct (rationalConstant (getFunction f)) eqn:R1,
             (rationalConstant (getFunction g)) eqn:R2; cbn [andb];
      try (apply (strict_decided _ _ f g Hrat Hne R1 R2));
      destruct (realConstant (getFunction f)) eqn:E1,
               (realConstant (getFunction g)) eqn:E2; cbn [andb];
      try (apply (strict_decided _ _ f g Hreal Hne E1 E2));
      left; split; reflexivity.
  - destruct (rationalConstant (getFunction f)) eqn:R1,
             (rationalConstant (getFunction g)) eqn:R2; cbn [andb];
      try (apply (strict_decided _ _ f g Hrat Hne R1 R2));
      destruct (realConstant (getFunction f)) eqn:E1,
               (realConstant (getFunction g)) eqn:E2; cbn [andb];
      try (apply (strict_decided _ _ f g Hreal Hne E1 E2));
      right; split; reflexivity.
  - destruct (rationalConstant (getFunction f)) eqn:R1,
             (rationalConstant (getFunction g)) eqn:R2; cbn [andb];
      try (apply (strict_decided _ _ f g Hrat Hne R1 R2));
      destruct (realConstant (getFunction f)) eqn:E1,
               (realConstant (getFunction g)) eqn:E2; cbn [andb];
      try (apply (strict_decided _ _ f g Hreal Hne E1 E2));
      try exact Hid;
      solve [left; split; reflexivity | right; split; reflexivity].
Qed.

Lemma compareFunctionPrecedences_decided f g :
  properSignature -> f <> g ->
  decided (compareFunctionPrecedences f g) (compareFunctionPrecedences g f).
Proof.
  intros Hwf Hne. pose proof Hwf as (Hfool & Hprec & _).
  unfold compareFunctionPrecedences.
  destruct (Nat.eqb_spec f g) as [|_]; [contradiction|].
  destruct (Nat.eqb_spec g f) as [|_]; [congruence|].
  destruct (isFoolConstantSymbol false f) eqn:F1.
  { destruct (isFoolConstantSymbol false g) eqn:F2;
      [destruct Hne; apply (Hfool false); assumption|].
    left; split; reflexivity. }
  destruct (isFoolConstantSymbol false g) eqn:F2; [right; split; reflexivity|].
  destruct (isFoolConstantSymbol true f) eqn:T1.
  { destruct (isFoolConstantSymbol true g) eqn:T2;
      [destruct Hne; apply (Hfool true); assumption|].
    left; split; reflexivity. }
  destruct (isFoolConstantSymbol true g) eqn:T2; [right; split; reflexivity|].
  cbv zeta.
  destruct (termAlgebraCons (getFunction f)), (termAlgebraCons (getFunction g));
    cbn [andb negb]; try (left; split; reflexivity); try (right; split; reflexivity).
  all: destruct (interpreted (getFunction f)) eqn:I1,
                (interpreted (getFunction g)) eqn:I2; cbn [negb];
    try (left; split; reflexivity); try (right; split; reflexivity);
    try (apply Int_compare_decided, Hprec; assumption).
  all: destruct (Nat.eqb (arity (getFunction f)) 0), (Nat.eqb (arity (getFunction g)) 0);
    cbn [negb]; try (left; split; reflexivity); try (right; split; reflexivity);
    try (apply Int_compare_decided; lia);
    apply compareConstants_decided; assumption.
Qed.

End Precedence.
End PrecedenceOrdering.

(** X14.  [PrecedenceOrdering::compareFunctionPrecedences] is a strict
    total comparison of distinct function symbols: when the signature has at
    most one constant for each truth value, the uninterpreted symbols have
    distinct precedences and the precedences of the numeric constants of one
    sort are strict, it answers GREATER or LESS on two distinct symbols, and
    the opposite when they are exchanged; [compareFunctors] then never
    reaches its assertion violation. *)
Theorem function_precedence_strict
    (getFunction : nat -> PrecedenceOrdering.Symbol)
    (isFoolConstantSymbol : bool -> nat -> bool)
    (integerPrecedence rationalPrecedence realPrecedence :
       nat -> nat -> PrecedenceOrdering.Comparison)
    (_functions : nat) (_functionPrecedences : list Z) (f g : nat) :
  PrecedenceOrdering.properSignature getFunction isFoolConstantSymbol integerPrecedence
    rationalPrecedence realPrecedence _functions _functionPrecedences ->
  f <> g ->
  let cmp := PrecedenceOrdering.compareFunctionPrecedences getFunction isFoolConstantSymbol
               integerPrecedence rationalPrecedence realPrecedence _functions
               _functionPrecedences in
  (cmp f g = GREATER \/ cmp f g = LESS) /\
  cmp g f = reverse (cmp f g) /\
  PrecedenceOrdering.compareFunctors getFunction isFoolConstantSymbol integerPrecedence
    rationalPrecedence realPrecedence _functions _functionPrecedences f g <> None.
Proof.
  intros Hwf Hne cmp.
  pose proof (PrecedenceOrdering.compareFunctionPrecedences_decided getFunction
                isFoolConstantSymbol integerPrecedence rationalPrecedence realPrecedence
                _functions _functionPrecedences f g Hwf Hne) as Hd.
  unfold PrecedenceOrdering.compareFunctors. fold cmp in Hd |- *.
  destruct (Nat.eqb_spec f g) as [|_]; [contradiction|].
  destruct Hd as [[-> ->]|[-> ->]]; (split; [auto|]); split; (reflexivity || discriminate).
Qed.

(** A signature for the examples: the symbols 0 and 1 are integer
    constants, the others are uninterpreted; four symbols have been given
    precedences, in the reverse order of their numbers. *)
Definition example_symbol (f : nat) : PrecedenceOrdering.Symbol :=
  PrecedenceOrdering.mkSymbol false (Nat.ltb f 2) (example_arity f)
    (Nat.ltb f 2) (Nat.ltb f 2) false false.
Definition example_number_order (f g : nat) : PrecedenceOrdering.Comparison :=
  PrecedenceOrdering.Int_compare (Z.of_nat f) (Z.of_nat g).
Definition example_function_precedence : nat -> nat -> Result :=
  PrecedenceOrdering.compareFunctionPrecedences example_symbol (fun _ _ => false)
    example_number_order example_number_order example_number_order 4 [3; 2; 1; 0].

Lemma example_signature_proper :
  PrecedenceOrdering.properSignature example_symbol (fun _ _ => false)
    example_number_order example_number_order example_number_order 4 [3; 2; 1; 0].
Proof.
  assert (Hstrict : forall P, PrecedenceOrdering.strict example_number_order P).
  { intros P f g Hne _ _. unfold example_number_order, PrecedenceOrdering.Int_compare.
    destruct (Z.ltb_spec (Z.of_nat f) (Z.of_nat g)), (Z.ltb_spec (Z.of_nat g) (Z.of_nat f)),
      (Z.eqb_spec (Z.of_nat f) (Z.of_nat g)), (Z.eqb_spec (Z.of_nat g) (Z.of_nat f));
      try lia; auto. }
  split; [intros b f g H; discriminate H|].
  split; [|split; [apply Hstrict|split; apply Hstrict]].
  intros f g Hne _ _. unfold PrecedenceOrdering.precedence.
  destruct f as [|[|[|[|f]]]], g as [|[|[|[|g]]]]; cbn; try discriminate; try congruence; lia.
Defined.

Lemma function_precedence_strict_witness :
  example_function_precedence 2 3 = GREATER /\
  example_function_precedence 3 2 = LESS.
Proof.
  destruct (function_precedence_strict example_symbol (fun _ _ => false)
              example_number_order example_number_order example_number_order 4 [3; 2; 1; 0]
              2%nat 3%nat example_signature_proper ltac:(discriminate)) as (_ & Hrev & _).
  split; [reflexivity|]. unfold example_function_precedence. rewrite Hrev. reflexivity.
Defined.

(** X15.  [KBO::compare] with the precedence of function symbols that
    [PrecedenceOrdering] computes: over such a signature, comparing two
    terms whose weights are in the range of [int] the other way round gives
    the reverse answer (LESS for GREATER, GREATER for LESS, and the same
    answer for EQUAL and INCOMPARABLE). *)
Theorem kbo_compare_reverse
    (functionColored : nat -> bool) (arityOf : nat -> nat)
    (getFunction : nat -> PrecedenceOrdering.Symbol)
    (isFoolConstantSymbol : bool -> nat -> bool)
    (integerPrecedence rationalPrecedence realPrecedence :
       nat -> nat -> PrecedenceOrdering.Comparison)
    (_functions : nat) (_functionPrecedences : list Z) (s t : TermList) :
  PrecedenceOrdering.properSignature getFunction isFoolConstantSymbol integerPrecedence
    rationalPrecedence realPrecedence _functions _functionPrecedences ->
  KBOSpec.wellFormed arityOf s = true -> KBOSpec.wellFormed arityOf t = true ->
  KBOSpec.weight functionColored s <= KBO.INT_MAX ->
  KBOSpec.weight functionColored t <= KBO.INT_MAX ->
  let cmp := PrecedenceOrdering.compareFunctionPrecedences getFunction isFoolConstantSymbol
               integerPrecedence rationalPrecedence realPrecedence _functions
               _functionPrecedences in
  KBO.compare functionColored cmp t s = reverse (KBO.compare functionColored cmp s t).
Proof.
  intros Hwf Hs Ht Hws Hwt cmp.
  assert (Hd : forall f g, f <> g -> PrecedenceOrdering.decided (cmp f g) (cmp g f)).
  { intros f g Hne. apply PrecedenceOrdering.compareFunctionPrecedences_decided; assumption. }
  assert (Htotal : forall f g, f <> g -> cmp f g = GREATER \/ cmp f g = LESS).
  { intros f g Hne. destruct (Hd f g Hne) as [[-> _]|[-> _]]; auto. }
  assert (Hanti : forall f g, f <> g -> cmp g f = reverse (cmp f g)).
  { intros f g Hne. destruct (Hd f g Hne) as [[-> ->]|[-> ->]]; reflexivity. }
  destruct (decide (s = t)) as [<-|Hne].
  { unfold KBO.compare. rewrite bool_decide_eq_true_2 by reflexivity. reflexivity. }
  rewrite (KBOInt.compare_exact _ _ s t Hws Hwt), (KBOInt.compare_exact _ _ t s Hwt Hws).
  rewrite (KBOSpec.compare_decisionTable _ _ arityOf Htotal s t Hs Ht Hne).
  rewrite (KBOSpec.compare_decisionTable _ _ arityOf Htotal t s Ht Hs ltac:(congruence)).
  apply (KBOSpec.decisionTable_reverse _ _ arityOf Hanti); assumption.
Qed.

Lemma kbo_compare_reverse_witness :
  KBO.compare (fun _ => false) example_function_precedence example_t example_s
  = reverse (KBO.compare (fun _ => false) example_function_precedence example_s example_t).
Proof.
  apply (kbo_compare_reverse (fun _ => false) example_arity example_symbol (fun _ _ => false)
           example_number_order example_number_order example_number_order 4 [3; 2; 1; 0]
           example_s example_t example_signature_proper).
  - reflexivity.
  - reflexivity.
  - vm_compute. discriminate.
  - vm_compute. discriminate.
Defined.

(** ** Kernel/Ordering.cpp: the precedences set up by the constructor *)

Module PrecedenceSetup.

(** [tmp = aux[j]; aux[j] = aux[i]; aux[i] = tmp]; [None] when a position
    is outside the array. *)
Definition swapEntries (aux : list nat) (i j : nat) : option (list nat) :=
  match aux !! i, aux !! j with
  | Some x, Some y => Some (<[i := y]> (<[j := x]> aux))
  | _, _ => None
  end.

(** The loop of the case [SymbolPrecedence::SCRAMBLE], from [i] on.
    [draws] are the answers of the successive calls
    [Random::getInteger(_functions-i)]. *)
Fixpoint scramble (i : nat) (draws : list nat) (aux : list nat) : option (list nat) :=
  match draws with
  | [] => Some aux
  | d :: draws' =>
      match swapEntries aux i (d + i) with
      | None => None
      | Some aux' => scramble (S i) draws' aux'
      end
  end.

(** The loop [_functionPrecedences[aux[i]]=i], from [i] on; [None] when an
    entry of [aux] is outside [_functionPrecedences]. *)
Fixpoint assign (i : nat) (aux : list nat) (prec : list Z) : option (list Z) :=
  match aux with
  | [] => Some prec
  | a :: aux' =>
      match prec !! a with
      | None => None
      | Some _ => assign (S i) aux' (<[a := Z.of_nat i]> prec)
      end
  end.

(** The function precedences that the constructor of [PrecedenceOrdering]
    computes under [SymbolPrecedence::SCRAMBLE] (and, with no draws, under
    [SymbolPrecedence::OCCURRENCE]): [aux] starts as the range from 0 to
    [_functions]. *)
Definition scrambled (_functions : nat) (draws : list nat) : option (list nat) :=
  scramble 0 draws (seq 0 _functions).
Definition functionPrecedences (_functions : nat) (aux : list nat) : option (list Z) :=
  assign 0 aux (replicate _functions 0%Z).

Lemma scramble_spec draws : forall i aux,
  (forall k d, draws !! k = Some d -> (d + (i + k) < length aux)%nat) ->
  exists aux', scramble i draws aux = Some aux' /\ aux' ≡ₚ aux.
Proof.
  induction draws as [|d draws IH]; intros i aux Hd; cbn [scramble].
  { exists aux. split; reflexivity. }
  pose proof (Hd 0%nat d eq_refl) as H0. rewrite Nat.add_0_r in H0.
  unfold swapEntries.
  destruct (lookup_lt_is_Some_2 aux i ltac:(lia)) as [x Hx].
  destruct (lookup_lt_is_Some_2 aux (d + i) ltac:(lia)) as [y Hy].
  rewrite Hx, Hy.
  destruct (IH (S i) (<[i:=y]> (<[(d + i)%nat:=x]> aux))) as (aux' & E & Hp).
  { intros k e He. rewrite !length_insert.
    pose proof (Hd (S k) e He). lia. }
  exists aux'. split; [exact E|]. rewrite Hp.
  apply Permutation_insert_swap; assumption.
Qed.

Lemma assign_spec aux : forall i prec,
  NoDup aux -> (forall a, a ∈ aux -> (a < length prec)%nat) ->
  exists prec', assign i aux prec = Some prec' /\ length prec' = length prec /\
    (forall k f, aux !! k = Some f -> prec' !! f = Some (Z.of_nat (i + k))) /\
    (forall f, f ∉ aux -> prec' !! f = prec !! f).
Proof.
  induction aux as [|a aux IH]; intros i prec Hnd Hlt; cbn [assign].
  { exists prec. split; [reflexivity|]. split; [reflexivity|]. split; [|reflexivity].
    intros k f Hk. discriminate. }
  apply NoDup_cons in Hnd. destruct Hnd as [Ha Hnd].
  destruct (lookup_lt_is_Some_2 prec a (Hlt a ltac:(left))) as [z Hz]. rewrite Hz.
  destruct (IH (S i) (<[a := Z.of_nat i]> prec) Hnd) as (prec' & E & Hlen & Hin & Hout).
  { intros b Hb. rewrite length_insert. apply Hlt. right. exact Hb. }
  exists prec'. split; [exact E|]. split; [rewrite Hlen; apply length_insert|]. split.
  - intros [|k] f Hk; cbn in Hk.
    + injection Hk as ->. rewrite (Hout _ Ha), Nat.add_0_r.
      apply list_lookup_insert_eq. apply Hlt. left.
    + replace (i + S k)%nat with (S i + k)%nat by lia. apply Hin, Hk.
  - intros f Hf. rewrite not_elem_of_cons in Hf. destruct Hf as [Hne Hf].
    rewrite (Hout _ Hf). apply list_lookup_insert_ne. congruence.
Qed.

Lemma functionPrecedences_spec n aux :
  aux ≡ₚ seq 0 n ->
  exists prec, functionPrecedences n aux = Some prec /\ length prec = n /\
    (forall i f, aux !! i = Some f -> prec !! f = Some (Z.of_nat i)) /\
    (forall f, (f < n)%nat ->
       exists i, (i < n)%nat /\ aux !! i = Some f /\ prec !! f = Some (Z.of_nat i)).
Proof.
  intros Hp. unfold functionPrecedences.
  assert (Hnd : NoDup aux) by (rewrite Hp; apply NoDup_seq).
  destruct (assign_spec aux 0 (replicate n 0%Z) Hnd) as (prec & E & Hlen & Hin & _).
  { intros a Ha. rewrite Hp in Ha. apply elem_of_seq in Ha. rewrite length_replicate. lia. }
  exists prec. split; [exact E|]. split; [rewrite Hlen; apply length_replicate|].
  split; [exact Hin|].
  intros f Hf.
  assert (Hf' : f ∈ aux) by (rewrite Hp; apply elem_of_seq; lia).
  apply list_elem_of_lookup in Hf'. destruct Hf' as (i & Hi).
  exists i. split; [|split; [exact Hi|apply (Hin i f Hi)]].
  apply lookup_lt_Some in Hi. rewrite (Permutation_length Hp), length_seq in Hi. exact Hi.
Qed.

(** The precedences are distinct, those that [precedence] reads for the
    symbols added later included. *)
Lemma precedence_injective n aux prec f g :
  aux ≡ₚ seq 0 n -> functionPrecedences n aux = Some prec -> f <> g ->
  PrecedenceOrdering.precedence n prec f <> PrecedenceOrdering.precedence n prec g.
Proof.
  intros Hp E Hne.
  destruct (functionPrecedences_spec n aux Hp) as (prec' & E' & _ & _ & Hsur).
  rewrite E in E'. injection E' as <-.
  assert (Hnd : NoDup aux) by (rewrite Hp; apply NoDup_seq).
  unfold PrecedenceOrdering.precedence.
  destruct (Nat.leb_spec n f) as [Hf|Hf], (Nat.leb_spec n g) as [Hg|Hg].
  - lia.
  - destruct (Hsur g Hg) as (j & Hj & _ & ->). cbn. lia.
  - destruct (Hsur f Hf) as (i & Hi & _ & ->). cbn. lia.
  - destruct (Hsur f Hf) as (i & Hi & Hai & ->). destruct (Hsur g Hg) as (j & Hj & Haj & ->).
    cbn. intros Hij. assert (i = j) by lia. subst j. congruence.
Qed.

End PrecedenceSetup.

(** X16.  The function precedences set up by the constructor of
    [PrecedenceOrdering] under [SymbolPrecedence::SCRAMBLE]: whatever
    [Random::getInteger] answers within its range, no position outside the
    arrays is touched, [aux] ends as a permutation of the symbols, the symbol
    at position [i] of [aux] is given the precedence [i], and any two
    distinct symbols, the ones introduced later included, are read with
    distinct precedences. *)
Theorem scrambled_precedences (_functions : nat) (draws : list nat) :
  length draws = _functions ->
  (forall k d, draws !! k = Some d -> (d < _functions - k)%nat) ->
  exists aux prec,
    PrecedenceSetup.scrambled _functions draws = Some aux /\
    PrecedenceSetup.functionPrecedences _functions aux = Some prec /\
    aux ≡ₚ seq 0 _functions /\
    (forall i f, aux !! i = Some f -> prec !! f = Some (Z.of_nat i)) /\
    (forall f g, f <> g ->
       PrecedenceOrdering.precedence _functions prec f
       <> PrecedenceOrdering.precedence _functions prec g).
Proof.
  intros _ Hd.
  destruct (PrecedenceSetup.scramble_spec draws 0 (seq 0 _functions)) as (aux & E & Hp).
  { intros k d Hk. rewrite length_seq. pose proof (Hd k d Hk). lia. }
  destruct (PrecedenceSetup.functionPrecedences_spec _functions aux Hp)
    as (prec & E' & _ & Hin & _).
  exists aux, prec. split; [exact E|]. split; [exact E'|]. split; [exact Hp|].
  split; [exact Hin|].
  intros f g Hne. exact (PrecedenceSetup.precedence_injective _ _ _ f g Hp E' Hne).
Qed.

Lemma scrambled_precedences_witness :
  PrecedenceSetup.scrambled 3 [2; 0; 0]%nat = Some [2; 1; 0]%nat /\
  PrecedenceSetup.functionPrecedences 3 [2; 1; 0]%nat = Some [2; 1; 0].
Proof.
  destruct (scrambled_precedences 3 [2; 0; 0]%nat) as (aux & prec & E & E' & _).
  - reflexivity.
  - intros [|[|[|k]]] d Hk; cbn in Hk; try discriminate; injection Hk as <-; lia.
  - assert (Ha : aux = [2; 1; 0]%nat) by (vm_compute in E; congruence).
    subst aux. split; [exact E|]. rewrite E'. vm_compute in E'. symmetry. exact E'.
Defined.

(** ** Lib/Int.hpp: checked arithmetic *)

Module Int.

(** The type [INT] is taken to be [int]: 32 bits, two's complement.
    [wrap] is the value that an arithmetic operation leaves in an [int]. *)
Definition INT_MIN : Z := - 2 ^ 31.
Definition INT_MAX : Z := 2 ^ 31 - 1.
Definition wrap (z : Z) : Z := (z + 2 ^ 31) mod 2 ^ 32 - 2 ^ 31.
Definition inRange (z : Z) : Prop := INT_MIN <= z <= INT_MAX.

(** [Int::safeUnaryMinus]; [None] is the answer false, which leaves [res]
    as it was. *)
Definition safeUnaryMinus (num : Z) : option Z :=
  if num =? INT_MIN then None else Some (wrap (- num)).

(** [Int::safePlus] *)
Definition safePlus (arg1 arg2 : Z) : option Z :=
  if arg2 <? 0 then
    if wrap (INT_MIN - arg2) >? arg1 then None else Some (wrap (arg1 + arg2))
  else
    if wrap (INT_MAX - arg2) <? arg1 then None else Some (wrap (arg1 + arg2)).

(** [Int::safeMinus] *)
Definition safeMinus (num sub : Z) : option Z :=
  if sub <? 0 then
    if wrap (INT_MAX + sub) <? num then None else Some (wrap (num - sub))
  else
    if wrap (INT_MIN + sub) >? num then None else Some (wrap (num - sub)).

(** [Int::sgn] *)
Definition sgn (val : Z) : Z :=
  (if 0 <? val then 1 else 0) - (if val <? 0 then 1 else 0).

(** [Int::safeMultiply].  The division of C++ truncates: it is [Z.quot]. *)
Definition safeMultiply (arg1 arg2 : Z) : option Z :=
  let mres := wrap (arg1 * arg2) in
  if (arg1 =? 0) || (arg1 =? 1) || (arg2 =? 0) || (arg2 =? 1) then Some mres
  else if (arg1 =? INT_MIN) || (arg2 =? INT_MIN) then None
  else
    let arg1abs := if arg1 <? 0 then wrap (- arg1) else arg1 in
    let arg2abs := if arg2 <? 0 then wrap (- arg2) else arg2 in
    if arg1abs >? wrap (Z.quot INT_MAX arg2abs) then None
    else if ((mres =? INT_MIN) && (arg1 =? -1)) ||
            negb (wrap (sgn arg1 * sgn arg2) =? sgn mres) ||
            (negb (arg1 =? 0) && negb (wrap (Z.quot mres arg1) =? arg2))
    then None
    else Some mres.

(** The loop of [Int::gcd]. *)
Fixpoint gcd_loop (fuel : nat) (i j : Z) : option Z :=
  match fuel with
  | O => None
  | S fuel' =>
      let i' := Z.rem i j in
      if i' =? 0 then Some j
      else
        let j' := Z.rem j i' in
        if j' =? 0 then Some i' else gcd_loop fuel' i' j'
  end.

(** [Int::gcd] *)
Definition gcd (fuel : nat) (i j : Z) : option Z :=
  let i := wrap (Z.abs i) in
  let j := wrap (Z.abs j) in
  if (i =? 0) || (j =? 0) then Some 1 else gcd_loop fuel i j.

Lemma wrap_inRange z : inRange z -> wrap z = z.
Proof.
  unfold inRange, wrap, INT_MIN, INT_MAX. intros H.
  rewrite Z.mod_small by lia. lia.
Qed.

Lemma wrap_range z : inRange (wrap z).
Proof.
  unfold inRange, wrap, INT_MIN, INT_MAX.
  pose proof (Z.mod_pos_bound (z + 2 ^ 31) (2 ^ 32) ltac:(lia)). lia.
Qed.

Lemma safeUnaryMinus_spec num :
  inRange num ->
  safeUnaryMinus num = if bool_decide (inRange (- num)) then Some (- num) else None.
Proof.
  unfold safeUnaryMinus, inRange, INT_MIN, INT_MAX. intros H.
  destruct (Z.eqb_spec num (- 2 ^ 31)) as [->|Hne].
  - rewrite bool_decide_eq_false_2 by lia. reflexivity.
  - rewrite bool_decide_eq_true_2 by lia. rewrite wrap_inRange; [reflexivity|].
    unfold inRange, INT_MIN, INT_MAX. lia.
Qed.

Lemma safePlus_spec arg1 arg2 :
  inRange arg1 -> inRange arg2 ->
  safePlus arg1 arg2 =
  if bool_decide (inRange (arg1 + arg2)) then Some (arg1 + arg2) else None.
Proof.
  unfold safePlus, inRange, INT_MIN, INT_MAX. intros H1 H2.
  destruct (Z.ltb_spec arg2 0).
  - rewrite (wrap_inRange (- 2 ^ 31 - arg2)) by (unfold inRange, INT_MIN, INT_MAX; lia).
    destruct (Z.gtb_spec (- 2 ^ 31 - arg2) arg1).
    + rewrite bool_decide_eq_false_2 by lia. reflexivity.
    + rewrite bool_decide_eq_true_2 by lia.
      rewrite wrap_inRange by (unfold inRange, INT_MIN, INT_MAX; lia). reflexivity.
  - rewrite (wrap_inRange (2 ^ 31 - 1 - arg2)) by (unfold inRange, INT_MIN, INT_MAX; lia).
    destruct (Z.ltb_spec (2 ^ 31 - 1 - arg2) arg1).
    + rewrite bool_decide_eq_false_2 by lia. reflexivity.
    + rewrite bool_decide_eq_true_2 by lia.
      rewrite wrap_inRange by (unfold inRange, INT_MIN, INT_MAX; lia). reflexivity.
Qed.

Lemma safeMinus_spec num sub :
  inRange num -> inRange sub ->
  safeMinus num sub =
  if bool_decide (inRange (num - sub)) then Some (num - sub) else None.
Proof.
  unfold safeMinus, inRange, INT_MIN, INT_MAX. intros H1 H2.
  destruct (Z.ltb_spec sub 0).
  - rewrite (wrap_inRange (2 ^ 31 - 1 + sub)) by (unfold inRange, INT_MIN, INT_MAX; lia).
    destruct (Z.ltb_spec (2 ^ 31 - 1 + sub) num).
    + rewrite bool_decide_eq_false_2 by lia. reflexivity.
    + rewrite bool_decide_eq_true_2 by lia.
      rewrite wrap_inRange by (unfold inRange, INT_MIN, INT_MAX; lia). reflexivity.
  - rewrite (wrap_inRange (- 2 ^ 31 + sub)) by (unfold inRange, INT_MIN, INT_MAX; lia).
    destruct (Z.gtb_spec (- 2 ^ 31 + sub) num).
    + rewrite bool_decide_eq_false_2 by lia. reflexivity.
    + rewrite bool_decide_eq_true_2 by lia.
      rewrite wrap_inRange by (unfold inRange, INT_MIN, INT_MAX; lia). reflexivity.
Qed.

Lemma sgn_mul a b : a <> 0 -> b <> 0 -> sgn a * sgn b = sgn (a * b).
Proof.
  intros Ha Hb. unfold sgn.
  destruct (Z.ltb_spec 0 a), (Z.ltb_spec a 0), (Z.ltb_spec 0 b), (Z.ltb_spec b 0),
    (Z.ltb_spec 0 (a * b)), (Z.ltb_spec (a * b) 0); try lia; nia.
Qed.

Lemma safeMultiply_spec arg1 arg2 :
  inRange arg1 -> inRange arg2 ->
  safeMultiply arg1 arg2 =
  if bool_decide (arg1 = 0 \/ arg1 = 1 \/ arg2 = 0 \/ arg2 = 1 \/
                  Z.abs (arg1 * arg2) <= INT_MAX)
  then Some (arg1 * arg2) else None.
Proof.
  intros H1 H2. unfold safeMultiply.
  assert (Hr1 := H1). assert (Hr2 := H2). unfold inRange, INT_MIN, INT_MAX in Hr1, Hr2.
  destruct ((arg1 =? 0) || (arg1 =? 1) || (arg2 =? 0) || (arg2 =? 1)) eqn:Htriv.
  { rewrite bool_decide_eq_true_2.
    - f_equal. apply wrap_inRange. unfold inRange, INT_MIN, INT_MAX.
      rewrite !orb_true_iff, !Z.eqb_eq in Htriv.
      destruct Htriv as [[[-> | ->] | ->] | ->]; lia.
    - rewrite !orb_true_iff, !Z.eqb_eq in Htriv. tauto. }
  rewrite !orb_false_iff, !Z.eqb_neq in Htriv. destruct Htriv as [[[Ha0 Ha1] Hb0] Hb1].
  destruct ((arg1 =? INT_MIN) || (arg2 =? INT_MIN)) eqn:Hmin.
  { rewrite bool_decide_eq_false_2; [reflexivity|].
    rewrite orb_true_iff, !Z.eqb_eq in Hmin. unfold INT_MIN, INT_MAX in *.
    intros [?|[?|[?|[?|Habs]]]]; try contradiction.
    rewrite Z.abs_mul in Habs. destruct Hmin as [-> | ->]; nia. }
  rewrite orb_false_iff, !Z.eqb_neq in Hmin. destruct Hmin as [Ham Hbm].
  unfold INT_MIN in Ham, Hbm.
  assert (Habs1 : (if arg1 <? 0 then wrap (- arg1) else arg1) = Z.abs arg1).
  { destruct (Z.ltb_spec arg1 0).
    - rewrite wrap_inRange by (unfold inRange, INT_MIN, INT_MAX; lia). lia.
    - lia. }
  assert (Habs2 : (if arg2 <? 0 then wrap (- arg2) else arg2) = Z.abs arg2).
  { destruct (Z.ltb_spec arg2 0).
    - rewrite wrap_inRange by (unfold inRange, INT_MIN, INT_MAX; lia). lia.
    - lia. }
  rewrite Habs1, Habs2.
  assert (Hb1pos : 0 < Z.abs arg2) by lia.
  assert (Hq : wrap (Z.quot INT_MAX (Z.abs arg2)) = INT_MAX / Z.abs arg2).
  { rewrite Z.quot_div_nonneg by (unfold INT_MAX; lia).
    apply wrap_inRange. unfold inRange, INT_MIN, INT_MAX.
    pose proof (Z.div_pos (2 ^ 31 - 1) (Z.abs arg2) ltac:(lia) Hb1pos).
    pose proof (Z.div_le_upper_bound (2 ^ 31 - 1) (Z.abs arg2) (2 ^ 31 - 1) Hb1pos ltac:(nia)).
    lia. }
  rewrite Hq.
  destruct (Z.gtb_spec (Z.abs arg1) (INT_MAX / Z.abs arg2)) as [Hgt|Hle].
  { rewrite bool_decide_eq_false_2; [reflexivity|].
    intros [?|[?|[?|[?|Habs]]]]; try contradiction.
    rewrite Z.abs_mul in Habs.
    pose proof (Z.div_le_lower_bound INT_MAX (Z.abs arg2) (Z.abs arg1) Hb1pos
                  ltac:(rewrite Z.mul_comm; exact Habs)).
    lia. }
  assert (Hprod : Z.abs arg1 * Z.abs arg2 <= INT_MAX).
  { pose proof (Z.mul_div_le INT_MAX (Z.abs arg2) Hb1pos). nia. }
  assert (Hin : inRange (arg1 * arg2)).
  { rewrite <- Z.abs_mul in Hprod. unfold inRange, INT_MIN, INT_MAX in *. lia. }
  rewrite (wrap_inRange _ Hin).
  rewrite bool_decide_eq_true_2 by (rewrite Z.abs_mul; tauto).
  assert (T1 : ((arg1 * arg2 =? INT_MIN) && (arg1 =? -1)) = false).
  { apply andb_false_iff. left. apply Z.eqb_neq.
    rewrite <- Z.abs_mul in Hprod. unfold INT_MIN, INT_MAX in *. lia. }
  assert (T2 : negb (wrap (sgn arg1 * sgn arg2) =? sgn (arg1 * arg2)) = false).
  { rewrite sgn_mul by assumption.
    rewrite wrap_inRange; [rewrite Z.eqb_refl; reflexivity|].
    unfold inRange, INT_MIN, INT_MAX, sgn.
    destruct (0 <? arg1 * arg2), (arg1 * arg2 <? 0); lia. }
  assert (T3 : (negb (arg1 =? 0) && negb (wrap (Z.quot (arg1 * arg2) arg1) =? arg2)) = false).
  { apply andb_false_iff. right.
    rewrite (Z.mul_comm arg1 arg2), Z.quot_mul by exact Ha0.
    rewrite (wrap_inRange _ H2), Z.eqb_refl. reflexivity. }
  rewrite T1, T2, T3. reflexivity.
Qed.

Lemma gcd_loop_spec fuel : forall i j,
  0 <= i -> 0 < j -> j <= Z.of_nat fuel ->
  gcd_loop fuel i j = Some (Z.gcd i j).
Proof.
  induction fuel as [|fuel IH]; intros i j Hi Hj Hfuel; [lia|].
  cbn [gcd_loop]. rewrite (Z.rem_mod_nonneg i j) by lia.
  pose proof (Z.mod_pos_bound i j Hj) as Hi'.
  assert (E1 : Z.gcd i j = Z.gcd (i mod j) j).
  { rewrite Z.gcd_mod by lia. apply Z.gcd_comm. }
  destruct (Z.eqb_spec (i mod j) 0) as [E0|Hne0].
  { rewrite E1, E0, Z.gcd_0_l. f_equal. lia. }
  rewrite (Z.rem_mod_nonneg j (i mod j)) by lia.
  pose proof (Z.mod_pos_bound j (i mod j) ltac:(lia)) as Hj'.
  assert (E2 : Z.gcd (i mod j) j = Z.gcd (j mod (i mod j)) (i mod j)).
  { rewrite (Z.gcd_mod j (i mod j)) by lia. reflexivity. }
  destruct (Z.eqb_spec (j mod (i mod j)) 0) as [E0|Hne0'].
  { rewrite E1, E2, E0, Z.gcd_0_l. f_equal. lia. }
  rewrite IH by lia. rewrite E1, E2. f_equal. apply Z.gcd_comm.
Qed.

Lemma gcd_spec fuel i j :
  inRange i -> inRange j -> i <> INT_MIN -> j <> INT_MIN ->
  Z.abs j <= Z.of_nat fuel ->
  gcd fuel i j = Some (if bool_decide (i = 0 \/ j = 0) then 1 else Z.gcd i j).
Proof.
  unfold inRange, INT_MIN, INT_MAX. intros Hi Hj Him Hjm Hfuel. unfold gcd.
  rewrite !wrap_inRange by (unfold inRange, INT_MIN, INT_MAX; lia).
  destruct (Z.eqb_spec (Z.abs i) 0) as [E|Hi0]; cbn [orb].
  { rewrite bool_decide_eq_true_2 by lia. reflexivity. }
  destruct (Z.eqb_spec (Z.abs j) 0) as [E|Hj0].
  { rewrite bool_decide_eq_true_2 by lia. reflexivity. }
  rewrite bool_decide_eq_false_2 by lia.
  rewrite gcd_loop_spec by lia. rewrite Z.gcd_abs_l, Z.gcd_abs_r. reflexivity.
Qed.

End Int.

(** X17.  The checked operations [Int::safePlus], [Int::safeMinus] and
    [Int::safeUnaryMinus] on 32-bit integers are exact: they answer true
    exactly when the mathematical result fits in an [int], and then [res] is
    that result; none of the intermediate computations overflows. *)
Theorem checked_addition (a b : Z) :
  Int.inRange a -> Int.inRange b ->
  Int.safePlus a b = (if bool_decide (Int.inRange (a + b)) then Some (a + b) else None) /\
  Int.safeMinus a b = (if bool_decide (Int.inRange (a - b)) then Some (a - b) else None) /\
  Int.safeUnaryMinus a = (if bool_decide (Int.inRange (- a)) then Some (- a) else None).
Proof.
  intros Ha Hb. split; [apply Int.safePlus_spec; assumption|].
  split; [apply Int.safeMinus_spec; assumption|apply Int.safeUnaryMinus_spec; assumption].
Qed.

Lemma checked_addition_witness :
  Int.safePlus (2 ^ 31 - 1) 1 = None /\ Int.safeMinus (2 ^ 31 - 1) 1 = Some (2 ^ 31 - 2).
Proof.
  destruct (checked_addition (2 ^ 31 - 1) 1) as (H1 & H2 & _).
  - unfold Int.inRange, Int.INT_MIN, Int.INT_MAX. lia.
  - unfold Int.inRange, Int.INT_MIN, Int.INT_MAX. lia.
  - rewrite H1, H2. split; vm_compute; reflexivity.
Defined.

(** X18.  [Int::safeMultiply] on 32-bit integers: when it answers true,
    [res] is the mathematical product.  It answers true exactly when one
    factor is 0 or 1 or the absolute value of the product is at most the
    largest [int]; so the one product that fits and is refused is the
    smallest [int] obtained from factors other than 1, and the tests made
    after the comparison with [max()/arg2abs] never reject anything. *)
Theorem checked_multiplication (a b : Z) :
  Int.inRange a -> Int.inRange b ->
  Int.safeMultiply a b =
  if bool_decide (a = 0 \/ a = 1 \/ b = 0 \/ b = 1 \/ Z.abs (a * b) <= Int.INT_MAX)
  then Some (a * b) else None.
Proof. apply Int.safeMultiply_spec. Qed.

Lemma checked_multiplication_witness :
  Int.safeMultiply (- 2 ^ 30) 2 = None /\ Int.inRange (- 2 ^ 30 * 2).
Proof.
  split.
  - rewrite (checked_multiplication (- 2 ^ 30) 2).
    + vm_compute. reflexivity.
    + unfold Int.inRange, Int.INT_MIN, Int.INT_MAX. lia.
    + unfold Int.inRange, Int.INT_MIN, Int.INT_MAX. lia.
  - unfold Int.inRange, Int.INT_MIN, Int.INT_MAX. lia.
Defined.

(** X19.  [Int::gcd] on 32-bit integers other than the smallest one: its
    loop ends within as many rounds as the absolute value of the second
    argument, and the answer is the greatest common divisor of the two
    arguments when neither is 0, and 1 when one of them is 0. *)
Theorem gcd_computes (fuel : nat) (i j : Z) :
  Int.inRange i -> Int.inRange j -> i <> Int.INT_MIN -> j <> Int.INT_MIN ->
  Z.abs j <= Z.of_nat fuel ->
  Int.gcd fuel i j = Some (if bool_decide (i = 0 \/ j = 0) then 1 else Z.gcd i j).
Proof. apply Int.gcd_spec. Qed.

Lemma gcd_computes_witness :
  Int.gcd 18 (-12) 18 = Some 6 /\ Int.gcd 5 0 5 = Some 1.
Proof.
  split.
  - rewrite (gcd_computes 18 (-12) 18); [reflexivity| | | | |];
      unfold Int.inRange, Int.INT_MIN, Int.INT_MAX; lia.
  - rewrite (gcd_computes 5 0 5); [reflexivity| | | | |];
      unfold Int.inRange, Int.INT_MIN, Int.INT_MAX; lia.
Defined.

(** ** Saturation/ClauseContainer.cpp: [ActiveClauseContainer] *)

Module ActiveClauseContainer.

(** The events fired by the container. *)
Inductive Event :=
| AddedEvent (c : nat)
| RemovedEvent (c : nat).

(** The container and the clauses it is used on: [_size], the clauses
    whose flag [_in_active] is set (a clause is named by a number), and the
    events fired so far. *)
Record container := mkContainer {
  _size : Z;
  in_active : gset nat;
  fired : list Event
}.

Definition empty : container := mkContainer 0 ∅ [].

(** [Clause::toggle_in_active] *)
Definition toggle_in_active (c : nat) (flags : gset nat) : gset nat :=
  if bool_decide (c ∈ flags) then flags ∖ {[c]} else flags ∪ {[c]}.

(** [ActiveClauseContainer::add] *)
Definition add (c : nat) (s : container) : container :=
  if bool_decide (c ∈ in_active s)
  then mkContainer (_size s + 1) (in_active s) (fired s)
  else mkContainer (_size s + 1) (toggle_in_active c (in_active s))
         (fired s ++ [AddedEvent c]).

(** [ActiveClauseContainer::remove] *)
Definition remove (c : nat) (s : container) : container :=
  mkContainer (_size s - 1) (toggle_in_active c (in_active s))
    (fired s ++ [RemovedEvent c]).

Inductive op :=
| Add (c : nat)
| Remove (c : nat).

(** Runs the calls in order; a [remove] of a clause that is not in the
    active index, which the sources exclude by assertion, aborts the run. *)
Fixpoint run (ops : list op) (s : container) : option container :=
  match ops with
  | [] => Some s
  | Add c :: ops' => run ops' (add c s)
  | Remove c :: ops' =>
      if bool_decide (c ∈ in_active s) then run ops' (remove c s) else None
  end.

(** The events about the clause [c]: [true] for [addedEvent]. *)
Definition eventsOf (c : nat) (l : list Event) : list bool :=
  omap (fun e => match e with
                 | AddedEvent d => if Nat.eqb c d then Some true else None
                 | RemovedEvent d => if Nat.eqb c d then Some false else None
                 end) l.

(** The list alternates between [b] and its negation, starting with [b]. *)
Fixpoint alternates (b : bool) (l : list bool) : Prop :=
  match l with
  | [] => True
  | x :: l' => x = b /\ alternates (negb b) l'
  end.

Lemma alternates_snoc l : forall b x,
  alternates b l -> x = match last l with Some y => negb y | None => b end ->
  alternates b (l ++ [x]).
Proof.
  induction l as [|y l IH]; intros b x Hl Hx; cbn [app alternates] in *.
  { cbn in Hx. auto. }
  destruct Hl as [-> Hl]. split; [reflexivity|]. apply IH; [exact Hl|]. clear IH Hl.
  destruct l as [|z l]; [exact Hx|].
  change (last (b :: z :: l)) with (last (z :: l)) in Hx.
  destruct (last (z :: l)) eqn:E; [exact Hx|].
  apply last_None in E. discriminate E.
Qed.

Lemma eventsOf_snoc c l e :
  eventsOf c (l ++ [e]) = eventsOf c l ++ eventsOf c [e].
Proof. unfold eventsOf. apply omap_app. Qed.

(** The invariant of the container: the events about every clause
    alternate, the flag of a clause is set when the last event about it is
    an [addedEvent], and [_size] is not below the number of clauses whose
    flag is set. *)
Definition invariant (s : container) : Prop :=
  (forall c, alternates true (eventsOf c (fired s))) /\
  (forall c, c ∈ in_active s <-> last (eventsOf c (fired s)) = Some true) /\
  Z.of_nat (size (in_active s)) <= _size s.

Lemma invariant_empty : invariant empty.
Proof.
  split; [intros c; exact I|]. split; [|cbn; rewrite size_empty; lia].
  intros c. cbn. split; [intros H; apply not_elem_of_empty in H; destruct H|discriminate].
Qed.

#[local] Set Warnings "-clear-no-such-hyp".

Lemma invariant_add c s : invariant s -> invariant (add c s).
Proof.
  intros (Halt & Hflag & Hsize). unfold add.
  destruct (bool_decide (c ∈ in_active s)) eqn:Hc; cbn.
  { split; [exact Halt|]. split; [exact Hflag|]. cbn. lia. }
  apply bool_decide_eq_false in Hc. unfold toggle_in_active.
  rewrite bool_decide_eq_false_2 by exact Hc.
  split; [|split].
  - intros d. cbn [fired]. rewrite eventsOf_snoc. cbn.
    destruct (Nat.eqb_spec d c) as [->|Hne]; [|rewrite app_nil_r; apply Halt].
    apply alternates_snoc; [apply Halt|].
    destruct (last (eventsOf c (fired s))) as [[|]|] eqn:E; try reflexivity.
    destruct Hc. apply Hflag, E.
  - intros d. cbn [fired in_active]. rewrite eventsOf_snoc. cbn.
    destruct (Nat.eqb_spec d c) as [->|Hne].
    + rewrite last_snoc. split; [reflexivity|]. intros _. set_solver.
    + rewrite app_nil_r, <- Hflag. set_solver.
  - cbn [in_active _size]. rewrite size_union by set_solver. rewrite size_singleton. lia.
Qed.

Lemma invariant_remove c s :
  invariant s -> c ∈ in_active s -> invariant (remove c s).
Proof.
  intros (Halt & Hflag & Hsize) Hc. unfold remove, toggle_in_active.
  rewrite bool_decide_eq_true_2 by exact Hc.
  split; [|split].
  - intros d. cbn [fired]. rewrite eventsOf_snoc. cbn.
    destruct (Nat.eqb_spec d c) as [->|Hne]; [|rewrite app_nil_r; apply Halt].
    apply alternates_snoc; [apply Halt|].
    rewrite (proj1 (Hflag c) Hc). reflexivity.
  - intros d. cbn [fired in_active]. rewrite eventsOf_snoc. cbn.
    destruct (Nat.eqb_spec d c) as [->|Hne].
    + rewrite last_snoc. split; [set_solver|discriminate].
    + rewrite app_nil_r, <- Hflag. set_solver.
  - cbn [in_active _size].
    assert (Hs : size (in_active s) = S (size (in_active s ∖ {[c]}))).
    { rewrite (union_difference_L {[c]} (in_active s)) at 1 by set_solver.
      rewrite size_union by set_solver. rewrite size_singleton. reflexivity. }
    lia.
Qed.

Lemma run_invariant ops : forall s s',
  invariant s -> run ops s = Some s' -> invariant s'.
Proof.
  induction ops as [|[c|c] ops IH]; intros s s' Hinv H; cbn in H.
  - injection H as <-. exact Hinv.
  - apply (IH _ _ (invariant_add c s Hinv) H).
  - destruct (bool_decide (c ∈ in_active s)) eqn:Hc; [|discriminate].
    apply bool_decide_eq_true in Hc. apply (IH _ _ (invariant_remove c s Hinv Hc) H).
Qed.

End ActiveClauseContainer.

(** X20.  [ActiveClauseContainer::add] and [remove], from the empty
    container and over any sequence of calls in which [remove] is only
    called on a clause of the active index: the [addedEvent]s and
    [removedEvent]s fired for a clause alternate, starting with an
    [addedEvent], so that a clause is never handed to the indices twice in a
    row; the flag [in_active] of a clause is set exactly when the last event
    fired for it is an [addedEvent]; and [_size], which counts the calls and
    not the clauses, is never below the number of clauses in the index. *)
Theorem active_container_events (ops : list ActiveClauseContainer.op)
    (s : ActiveClauseContainer.container) (c : nat) :
  ActiveClauseContainer.run ops ActiveClauseContainer.empty = Some s ->
  ActiveClauseContainer.alternates true
    (ActiveClauseContainer.eventsOf c (ActiveClauseContainer.fired s)) /\
  (c ∈ ActiveClauseContainer.in_active s <->
   last (ActiveClauseContainer.eventsOf c (ActiveClauseContainer.fired s)) = Some true) /\
  Z.of_nat (size (ActiveClauseContainer.in_active s)) <= ActiveClauseContainer._size s.
Proof.
  intros H.
  destruct (ActiveClauseContainer.run_invariant ops _ _
              ActiveClauseContainer.invariant_empty H) as (Halt & Hflag & Hsize).
  split; [apply Halt|]. split; [apply Hflag|exact Hsize].
Qed.

Definition example_calls : list ActiveClauseContainer.op :=
  [ActiveClauseContainer.Add 1; ActiveClauseContainer.Add 1;
   ActiveClauseContainer.Remove 1; ActiveClauseContainer.Add 2].

Lemma active_container_events_witness :
  exists s, ActiveClauseContainer.run example_calls ActiveClauseContainer.empty = Some s /\
    ActiveClauseContainer._size s = 2 /\
    ActiveClauseContainer.fired s =
      [ActiveClauseContainer.AddedEvent 1; ActiveClauseContainer.RemovedEvent 1;
       ActiveClauseContainer.AddedEvent 2] /\
    (1%nat ∈ ActiveClauseContainer.in_active s <-> False).
Proof.
  destruct (ActiveClauseContainer.run example_calls ActiveClauseContainer.empty)
    as [s|] eqn:E; [|vm_compute in E; discriminate E].
  exists s. split; [reflexivity|].
  destruct (active_container_events example_calls s 1%nat E) as (_ & Hflag & _).
  assert (Hs : ActiveClauseContainer._size s = 2 /\
               ActiveClauseContainer.fired s =
                 [ActiveClauseContainer.AddedEvent 1; ActiveClauseContainer.RemovedEvent 1;
                  ActiveClauseContainer.AddedEvent 2]).
  { vm_compute in E. injection E as <-. split; reflexivity. }
  destruct Hs as [Hsz Hf]. split; [exact Hsz|]. split; [exact Hf|].
  rewrite Hflag, Hf. cbn. split; [discriminate|intros []].
Defined.

(** ** Saturation/ClauseContainer.cpp: [ActiveClauseContainer::onLimitsUpdated] *)

Module ActiveLimits.
Import ActiveClauseContainer.

(** [LimitsChangeType] *)
Inductive LimitsChangeType := LIMITS_TIGHTENED | LIMITS_LOOSENED.

Section Limits.

(** What the method reads of a clause (named by a number): [age()],
    [weight()], [numSelected()], the weight of its literal at a position,
    and the answer of the test [getEffectiveWeight(_opt)>weightLimit] made
    on a [float]. *)
Variable age : nat -> Z.
Variable weight : nat -> Z.
Variable numSelected : nat -> nat.
Variable literalWeight : nat -> nat -> Z.
Variable effectiveWeightAbove : nat -> Z -> bool.

Variable limits : Superposition.Limits.

(** The [for] loop that computes [maxSelWeight]. *)
Definition maxSelWeight (cl : nat) : Z :=
  fold_left (fun m i => Z.max (literalWeight cl i) m) (seq 0 (numSelected cl)) 0.

(** The value of [shouldRemove] for a clause that is not younger than the
    age limit. *)
Definition shouldRemove (cl : nat) : bool :=
  if age cl >? Superposition.ageLimit limits
  then effectiveWeightAbove cl (Superposition.weightLimit limits)
  else to_unsigned (weight cl - maxSelWeight cl) >=? Superposition.weightLimit limits.

(** The loop over the iterator [rit] of the clauses of the generating
    index; the head of [toRemove] is the top of the stack. *)
Fixpoint scan (rit : list nat) (checked : gset nat) (toRemove : list nat) : list nat :=
  match rit with
  | [] => toRemove
  | cl :: rit' =>
      if (age cl <? Superposition.ageLimit limits) || bool_decide (cl ∈ checked)
      then scan rit' checked toRemove
      else if shouldRemove cl
           then scan rit' ({[cl]} ∪ checked) (cl :: toRemove)
           else scan rit' ({[cl]} ∪ checked) toRemove
  end.

(** [ActiveClauseContainer::onLimitsUpdated].  [gis] is the content of the
    generating literal index ([None] when there is no such index), the
    second component of the state the counter
    [discardedNonRedundantClauses]. *)
Definition onLimitsUpdated (change : LimitsChangeType) (gis : option (list nat))
    (s : container * Z) : container * Z :=
  match change, gis with
  | LIMITS_LOOSENED, _ => s
  | _, None => s
  | _, Some rit =>
      if negb (Superposition.ageLimited limits) || negb (Superposition.weightLimited limits)
      then s
      else fold_left (fun s removed => (remove removed s.1, s.2 + 1)) (scan rit ∅ []) s
  end.

#[local] Set Warnings "-clear-no-such-hyp".

Lemma scan_spec rit : forall checked toRemove,
  exists new, scan rit checked toRemove = new ++ toRemove /\ NoDup new /\
    forall cl, cl ∈ new <->
      cl ∈ rit /\ (cl ∉ checked) /\ Superposition.ageLimit limits <= age cl /\
      shouldRemove cl = true.
Proof.
  induction rit as [|cl rit IH]; intros checked toRemove; cbn [scan].
  { exists []. split; [reflexivity|]. split; [constructor|]. set_solver. }
  destruct (Z.ltb_spec (age cl) (Superposition.ageLimit limits)) as [Hage|Hage]; cbn [orb].
  { destruct (IH checked toRemove) as (new & E & Hnd & Hin).
    exists new. split; [exact E|]. split; [exact Hnd|].
    intros d. rewrite Hin, elem_of_cons. split; [tauto|].
    intros ([->|H] & H1 & H2 & H3); [lia|tauto]. }
  destruct (bool_decide (cl ∈ checked)) eqn:Hc.
  { apply bool_decide_eq_true in Hc.
    destruct (IH checked toRemove) as (new & E & Hnd & Hin).
    exists new. split; [exact E|]. split; [exact Hnd|].
    intros d. rewrite Hin, elem_of_cons. split; [tauto|].
    intros ([->|H] & H1 & H2 & H3); [contradiction|tauto]. }
  apply bool_decide_eq_false in Hc.
  destruct (shouldRemove cl) eqn:Hs.
  - destruct (IH ({[cl]} ∪ checked) (cl :: toRemove)) as (new & E & Hnd & Hin).
    exists (new ++ [cl]). split; [rewrite E, <- app_assoc; reflexivity|]. split.
    + apply NoDup_app. split; [exact Hnd|]. split; [|apply NoDup_singleton].
      intros d Hd Hd'. apply list_elem_of_singleton in Hd'. subst d.
      apply Hin in Hd. set_solver.
    + intros d. rewrite elem_of_app, Hin, list_elem_of_singleton, elem_of_cons. split.
      * intros [(H0 & H1 & H2 & H3)| ->]; [|tauto].
        split; [tauto|]. split; [set_solver|tauto].
      * intros ([->|H0] & H1 & H2 & H3); [tauto|].
        destruct (decide (d = cl)) as [->|Hne]; [tauto|]. left.
        split; [exact H0|]. split; [set_solver|tauto].
  - destruct (IH ({[cl]} ∪ checked) toRemove) as (new & E & Hnd & Hin).
    exists new. split; [exact E|]. split; [exact Hnd|].
    intros d. rewrite Hin, elem_of_cons. split.
    + intros (H0 & H1 & H2 & H3). split; [tauto|]. split; [set_solver|tauto].
    + intros ([->|H0] & H1 & H2 & H3); [congruence|].
      split; [exact H0|]. split; [|tauto].
      destruct (decide (d = cl)) as [->|Hne]; [congruence|set_solver].
Qed.

Lemma removeAll_spec l : forall s,
  fired (fold_left (fun s removed => (remove removed s.1, s.2 + 1)) l s).1
    = fired s.1 ++ map RemovedEvent l /\
  (fold_left (fun s removed => (remove removed s.1, s.2 + 1)) l s).2
    = s.2 + Z.of_nat (length l) /\
  _size (fold_left (fun s removed => (remove removed s.1, s.2 + 1)) l s).1
    = _size s.1 - Z.of_nat (length l).
Proof.
  induction l as [|c l IH]; intros s; cbn [fold_left map length].
  { rewrite app_nil_r. split; [reflexivity|]. split; lia. }
  destruct (IH (remove c s.1, s.2 + 1)) as (H1 & H2 & H3).
  rewrite H1, H2, H3. cbn. rewrite <- app_assoc. split; [reflexivity|]. split; lia.
Qed.

End Limits.
End ActiveLimits.

(** X21.  [ActiveClauseContainer::onLimitsUpdated] does nothing when the
    limits were loosened, when there is no generating literal index, or
    when the age or the weight is not limited.  Otherwise it removes a list
    of clauses without repetition, however often a clause occurs in the
    index: exactly the clauses of the index that are not younger than the age
    limit and for which [shouldRemove] holds; one [removedEvent] is fired
    for each, and [discardedNonRedundantClauses] and [_size] move by their
    number. *)
Theorem limits_update_removes
    (age weight : nat -> Z) (numSelected : nat -> nat) (literalWeight : nat -> nat -> Z)
    (effectiveWeightAbove : nat -> Z -> bool) (limits : Superposition.Limits)
    (change : ActiveLimits.LimitsChangeType) (gis : option (list nat))
    (s : ActiveClauseContainer.container) (discarded : Z) :
  let s' := ActiveLimits.onLimitsUpdated age weight numSelected literalWeight
              effectiveWeightAbove limits change gis (s, discarded) in
  match change, gis with
  | ActiveLimits.LIMITS_TIGHTENED, Some rit =>
      if Superposition.ageLimited limits && Superposition.weightLimited limits then
        exists removed,
          NoDup removed /\
          (forall cl, cl ∈ removed <->
             cl ∈ rit /\ Superposition.ageLimit limits <= age cl /\
             ActiveLimits.shouldRemove age weight numSelected literalWeight
               effectiveWeightAbove limits cl = true) /\
          ActiveClauseContainer.fired s'.1
            = ActiveClauseContainer.fired s
              ++ map ActiveClauseContainer.RemovedEvent removed /\
          s'.2 = discarded + Z.of_nat (length removed) /\
          ActiveClauseContainer._size s'.1
            = ActiveClauseContainer._size s - Z.of_nat (length removed)
      else s' = (s, discarded)
  | _, _ => s' = (s, discarded)
  end.
Proof.
  intros s'. unfold ActiveLimits.onLimitsUpdated in s'. subst s'.
  destruct change; [|reflexivity]. destruct gis as [rit|]; [|reflexivity].
  destruct (Superposition.ageLimited limits), (Superposition.weightLimited limits);
    cbn [negb orb andb]; try reflexivity.
  destruct (ActiveLimits.scan_spec age weight numSelected literalWeight effectiveWeightAbove
              limits rit ∅ []) as (removed & E & Hnd & Hin).
  rewrite app_nil_r in E. rewrite E.
  exists removed. split; [exact Hnd|]. split.
  - intros cl. rewrite Hin. split; [tauto|]. intros (H1 & H2 & H3).
    split; [exact H1|]. split; [apply not_elem_of_empty|tauto].
  - apply (ActiveLimits.removeAll_spec removed (s, discarded)).
Qed.

(** ** Inferences/Superposition.cpp: the conclusion of a superposition *)

Module SuperpositionFacts.
Import Superposition.

Section Engine.
Variable Subst : Type.
Variable substApply : Subst -> TermList -> bool -> TermList.
Variable substApplyLit : Subst -> Literal -> bool -> Literal.
Variable applyToQuery : Subst -> TermList -> TermList.
Variable applyToResult : Subst -> TermList -> TermList.
Variable getTermSort : TermList -> Literal -> nat.
Variable getResultSort : TermList -> nat.
Variable checkClauseColorCompatibility : Clause -> Clause -> bool.
Variable isGoal : Clause -> bool.
Variable litWeight : Literal -> Z.
Variable compare : TermList -> TermList -> Result.
Variable compareLit : Literal -> Literal -> Result.
Variable getEqualityArgumentOrder : Literal -> Result.
Variable isInterpreted : TermList -> bool.
Variable earlyWeightLimitCheck :
  Clause -> Literal -> Clause -> Literal -> TermList -> TermList -> TermList ->
  Subst -> bool -> Z -> bool.
Variable afterCheck : bool.
Variable uwaGround : bool.

(** The instances of the literals of a premise other than the one used. *)
Definition sideLiterals (subst : Subst) (bank : bool) (used : Literal) (lits : list Literal)
  : list Literal :=
  map (fun l => substApplyLit subst l bank)
      (List.filter (fun l => negb (bool_decide (l = used))) lits).

Lemma otherLiterals_Some subst bank used wLimit check lits : forall i weight res w,
  otherLiterals Subst substApplyLit litWeight subst bank used wLimit check i lits weight
    = Some (res, w) ->
  res = sideLiterals subst bank used lits /\
  Forall (fun l => isEqTautology l = false) res.
Proof.
  induction lits as [|curr lits IH]; intros i weight res w H; cbn in H.
  { injection H as <- _. split; [reflexivity|constructor]. }
  unfold sideLiterals. cbn [List.filter].
  destruct (bool_decide (curr = used)); cbn [negb]; [apply (IH _ _ _ _ H)|].
  destruct (isEqTautology (substApplyLit subst curr bank)) eqn:Htaut; [discriminate|].
  destruct (negb (wLimit =? -1) && _); [discriminate|].
  destruct (check _ i); [discriminate|].
  destruct (otherLiterals _ _ _ _ _ _ _ _ _ _ _) as [[res' w']|] eqn:E; [|discriminate].
  injection H as <- _. destruct (IH _ _ _ _ E) as [-> Hall].
  split; [reflexivity|]. constructor; assumption.
Qed.

Lemma constraintLiterals_length subst constraints : forall res,
  constraintLiterals Subst applyToQuery applyToResult getResultSort isInterpreted uwaGround
    subst constraints = Some res ->
  length res = length constraints /\
  Forall (fun l => isEquality l = true /\ polarity l = false) res.
Proof.
  induction constraints as [|con constraints IH]; intros res H; cbn in H.
  { injection H as <-. split; [reflexivity|constructor]. }
  destruct (uwaGround && _ && _ && _); [discriminate|].
  destruct (constraintLiterals _ _ _ _ _ _ _ _) as [res'|] eqn:E; [|discriminate].
  injection H as <-. destruct (IH _ eq_refl) as [Hlen Hall].
  split; [cbn; lia|]. constructor; [split; reflexivity|exact Hall].
Qed.

Lemma performSuperposition_shape rwClause rwLit rwTerm eqClause eqLit eqLHS subst
    eqIsResult limits constraints res :
  performSuperposition Subst substApply substApplyLit applyToQuery applyToResult
    getTermSort getResultSort checkClauseColorCompatibility isGoal litWeight compare
    compareLit getEqualityArgumentOrder isInterpreted earlyWeightLimitCheck afterCheck
    uwaGround rwClause rwLit rwTerm eqClause eqLit eqLHS subst eqIsResult limits
    constraints = Some res ->
  let tgtTermS := substApply subst (getOtherEqualitySide eqLit eqLHS) eqIsResult in
  let rwTermS := substApply subst rwTerm (negb eqIsResult) in
  let tgtLitS := replace (substApplyLit subst rwLit (negb eqIsResult)) rwTermS tgtTermS in
  getTermSort rwTerm rwLit = eqArgSort eqLit /\
  checkClauseColorCompatibility eqClause rwClause = true /\
  isGorGEorE (compare tgtTermS rwTermS) = false /\
  Forall (fun l => isEqTautology l = false)
    (tgtLitS :: sideLiterals subst (negb eqIsResult) rwLit (_literals rwClause)
             ++ sideLiterals subst eqIsResult eqLit (_literals eqClause)) /\
  exists conLits,
    length conLits = length constraints /\
    Forall (fun l => isEquality l = true /\ polarity l = false) conLits /\
    _literals res =
      tgtLitS :: sideLiterals subst (negb eqIsResult) rwLit (_literals rwClause)
              ++ sideLiterals subst eqIsResult eqLit (_literals eqClause) ++ conLits.
Proof.
  unfold performSuperposition. intros H.
  destruct (Nat.eqb_spec (getTermSort rwTerm rwLit) (eqArgSort eqLit)) as [Hsort|];
    [|discriminate H]. cbn [negb] in H.
  destruct (isVar eqLHS && _); [discriminate H|].
  destruct (checkClauseColorCompatibility eqClause rwClause) eqn:Hcolor;
    [|discriminate H]. cbn [negb] in H.
  destruct (negb _ && negb (earlyWeightLimitCheck _ _ _ _ _ _ _ _ _ _)); [discriminate H|].
  destruct (isGorGEorE (compare _ _)) eqn:Hord; [discriminate H|].
  destruct (isEquality _ && _); [discriminate H|].
  destruct (isEqTautology (replace _ _ _)) eqn:Htaut; [discriminate H|].
  destruct (otherLiterals _ _ _ _ _ _ _ _ _ (_literals rwClause) _)
    as [[rwLits weight1]|] eqn:Erw; [|discriminate H].
  destruct (otherLiterals _ _ _ _ _ _ _ _ _ (_literals eqClause) _)
    as [[eqLits weight2]|] eqn:Eeq; [|discriminate H].
  apply otherLiterals_Some in Erw, Eeq. destruct Erw as [-> Hrw], Eeq as [-> Heq].
  cbv zeta.
  split; [exact Hsort|]. split; [reflexivity|]. split; [first [exact Hord|reflexivity]|].
  split; [constructor; [first [exact Htaut|reflexivity]|apply Forall_app; split; assumption]|].
  destruct (negb (Nat.eqb (length constraints) 0)) eqn:Hcon.
  - destruct (constraintLiterals _ _ _ _ _ _ _ _) as [conLits|] eqn:Ec; [|discriminate H].
    destruct (negb _ && _); [discriminate H|]. injection H as <-.
    apply constraintLiterals_length in Ec. destruct Ec as [Hlen Hall].
    exists conLits. split; [exact Hlen|]. split; [exact Hall|reflexivity].
  - destruct (negb _ && _); [discriminate H|]. injection H as <-.
    apply negb_false_iff, Nat.eqb_eq in Hcon.
    exists []. split; [symmetry; exact Hcon|]. split; [constructor|reflexivity].
Qed.

End Engine.
End SuperpositionFacts.

(** X22.  What [Superposition::performSuperposition] builds when it does
    not answer null: the sort of the rewritten term is the sort of the
    equality and the colors of the premises are compatible; the instance of
    the other side of the equality is not greater than or equal to the
    instance of the rewritten term; the conclusion consists, in this order,
    of the rewritten literal, the instances of the literals of the rewritten
    clause other than the literal rewritten, the instances of the literals of
    the equality clause other than the equality, and one negative equality
    for each constraint; and none of the literals before the constraints is
    an equational tautology. *)
Theorem superposition_conclusion
    (Subst : Type) (substApply : Subst -> TermList -> bool -> TermList)
    (substApplyLit : Subst -> Literal -> bool -> Literal)
    (applyToQuery applyToResult : Subst -> TermList -> TermList)
    (getTermSort : TermList -> Literal -> nat) (getResultSort : TermList -> nat)
    (checkClauseColorCompatibility : Clause -> Clause -> bool) (isGoal : Clause -> bool)
    (litWeight : Literal -> Z) (compare : TermList -> TermList -> Result)
    (compareLit : Literal -> Literal -> Result) (getEqualityArgumentOrder : Literal -> Result)
    (isInterpreted : TermList -> bool)
    (earlyWeightLimitCheck :
       Clause -> Literal -> Clause -> Literal -> TermList -> TermList -> TermList ->
       Subst -> bool -> Z -> bool)
    (afterCheck uwaGround : bool)
    (rwClause : Clause) (rwLit : Literal) (rwTerm : TermList)
    (eqClause : Clause) (eqLit : Literal) (eqLHS : TermList)
    (subst : Subst) (eqIsResult : bool) (limits : Superposition.Limits)
    (constraints : list (TermList * TermList)) (res : Clause) :
  Superposition.performSuperposition Subst substApply substApplyLit applyToQuery
    applyToResult getTermSort getResultSort checkClauseColorCompatibility isGoal litWeight
    compare compareLit getEqualityArgumentOrder isInterpreted earlyWeightLimitCheck
    afterCheck uwaGround rwClause rwLit rwTerm eqClause eqLit eqLHS subst eqIsResult
    limits constraints = Some res ->
  let tgtTermS :=
    substApply subst (Superposition.getOtherEqualitySide eqLit eqLHS) eqIsResult in
  let rwTermS := substApply subst rwTerm (negb eqIsResult) in
  let tgtLitS :=
    Superposition.replace (substApplyLit subst rwLit (negb eqIsResult)) rwTermS tgtTermS in
  getTermSort rwTerm rwLit = eqArgSort eqLit /\
  checkClauseColorCompatibility eqClause rwClause = true /\
  isGorGEorE (compare tgtTermS rwTermS) = false /\
  Forall (fun l => isEqTautology l = false)
    (tgtLitS
     :: SuperpositionFacts.sideLiterals Subst substApplyLit subst (negb eqIsResult) rwLit
          (_literals rwClause)
     ++ SuperpositionFacts.sideLiterals Subst substApplyLit subst eqIsResult eqLit
          (_literals eqClause)) /\
  exists conLits,
    length conLits = length constraints /\
    Forall (fun l => isEquality l = true /\ polarity l = false) conLits /\
    _literals res =
      tgtLitS
      :: SuperpositionFacts.sideLiterals Subst substApplyLit subst (negb eqIsResult) rwLit
           (_literals rwClause)
      ++ SuperpositionFacts.sideLiterals Subst substApplyLit subst eqIsResult eqLit
           (_literals eqClause)
      ++ conLits.
Proof. apply SuperpositionFacts.performSuperposition_shape. Qed.

(** The superposition of f(a) = a into p(f(a)). *)
Definition example_superposition : option Clause :=
  Superposition.performSuperposition unit (fun _ t _ => t) (fun _ l _ => l)
    (fun _ t => t) (fun _ t => t) (fun _ _ => 0%nat) (fun _ => 0%nat) (fun _ _ => true)
    (fun _ => false) (fun _ => 1) example_ordering (fun _ _ => INCOMPARABLE)
    (fun _ => INCOMPARABLE) (fun _ => false)
    (fun _ _ _ _ _ _ _ _ _ _ => true) false false
    example_target (mkLiteral 1 true [example_fa] 0) example_fa
    example_demodulator (mkLiteral 0 true [example_fa; example_a] 0) example_fa
    tt true (Superposition.mkLimits false 0 false 0 0) [].

Lemma superposition_conclusion_witness :
  exists res, example_superposition = Some res /\
    _literals res = [mkLiteral 1 true [example_a] 0].
Proof.
  destruct example_superposition as [res|] eqn:E; [|vm_compute in E; discriminate E].
  exists res. split; [reflexivity|].
  destruct (superposition_conclusion _ _ _ _ _ _ _ _ _ _ _ _ _ _ _ _ _ _ _ _ _ _ _ _ _ _ _ _ E)
    as (_ & _ & _ & _ & conLits & Hlen & _ & Hlits).
  destruct conLits; [|discriminate Hlen]. rewrite Hlits. vm_compute. reflexivity.
Defined.

(** ** Inferences/InterpretedEvaluation.cpp: the outcome of [simplify] *)

Module InterpretedEvaluationFacts.
Import InterpretedEvaluation.

Section Engine.
Variable hasInterpretedConstants : Literal -> bool.
Variable evaluate : Literal -> Evaluation.

Abbreviation simplifyLit := (simplifyLiteral hasInterpretedConstants evaluate).

(** The literal is evaluated to true. *)
Definition evaluatesToTrue (lit : Literal) : bool :=
  match simplifyLit lit with
  | (true, Some e) => constant e && constantTrue e
  | _ => false
  end.

(** What a literal leaves in the new clause: itself when it is not
    modified, nothing when it is evaluated to false, the literal it is
    evaluated to otherwise. *)
Definition kept (lit : Literal) : list Literal :=
  match simplifyLit lit with
  | (true, Some e) => if constant e then [] else [resLit e]
  | _ => [lit]
  end.

(** The side conditions that the evaluation of a literal pushes. *)
Definition sideConditionsOf (lit : Literal) : list Literal :=
  match (simplifyLit lit).2 with
  | Some e => newSideConditions e
  | None => []
  end.

Lemma simplify_loop_eq lits : forall modified newLits sideConditions,
  simplify_loop hasInterpretedConstants evaluate lits modified newLits sideConditions =
  if existsb evaluatesToTrue lits then None
  else Some (modified || existsb (fun lit => (simplifyLit lit).1) lits,
             newLits ++ flat_map kept lits,
             sideConditions ++ flat_map sideConditionsOf lits).
Proof.
  induction lits as [|lit lits IH]; intros modified newLits sideConditions.
  { cbn. rewrite orb_false_r, !app_nil_r. reflexivity. }
  cbn [simplify_loop existsb flat_map]. unfold evaluatesToTrue, kept, sideConditionsOf.
  destruct (simplifyLit lit) as [[|] [e|]] eqn:E; cbn [fst snd orb].
  - destruct (constant e); cbn [andb].
    + destruct (constantTrue e); [reflexivity|].
      rewrite IH. cbn [app]. rewrite ?orb_true_r, <- ?app_assoc. reflexivity.
    + rewrite IH. cbn [app]. rewrite ?orb_true_r, <- ?app_assoc. reflexivity.
  - unfold simplifyLiteral in E.
    destruct (Nat.eqb _ 0 || _); [discriminate E|]. injection E as _ E. discriminate E.
  - rewrite IH. cbn [app]. rewrite <- ?app_assoc. reflexivity.
  - rewrite IH. cbn [app]. rewrite <- ?app_assoc, ?app_nil_r. reflexivity.
Qed.

Lemma simplify_eq cl :
  simplify hasInterpretedConstants evaluate cl =
  match rule cl with
  | THEORY => Some cl
  | _ =>
      if existsb evaluatesToTrue (_literals cl) then None
      else if existsb (fun lit => (simplifyLit lit).1) (_literals cl) then
        let lits := flat_map kept (_literals cl)
                    ++ rev (flat_map sideConditionsOf (_literals cl)) in
        Some (setAge (mkClause (storedLength (length lits)) lits (inputType cl) EVALUATION
                        [cl] 0 0)
                     (_age cl))
      else Some cl
  end.
Proof.
  unfold simplify. rewrite simplify_loop_eq. cbn [orb app].
  destruct (rule cl); try reflexivity;
    destruct (existsb evaluatesToTrue (_literals cl)); try reflexivity;
    destruct (existsb _ (_literals cl)); reflexivity.
Qed.

End Engine.
End InterpretedEvaluationFacts.

(** X23.  [InterpretedEvaluation::simplify]: a theory axiom is handed
    back as it is; the clause is deleted (null) exactly when one of its
    literals is evaluated to true; when no literal is modified the clause
    itself is handed back; otherwise the new clause, an [EVALUATION] of the
    premise with its age, holds for every literal in order the literal
    itself (not modified), nothing (evaluated to false) or the literal it
    is evaluated to, followed by the side conditions of all the evaluations
    from the last pushed to the first. *)
Theorem evaluation_outcome (hasInterpretedConstants : Literal -> bool)
    (evaluate : Literal -> InterpretedEvaluation.Evaluation) (cl : Clause) :
  InterpretedEvaluation.simplify hasInterpretedConstants evaluate cl =
  match rule cl with
  | THEORY => Some cl
  | _ =>
      if existsb (InterpretedEvaluationFacts.evaluatesToTrue hasInterpretedConstants evaluate)
           (_literals cl)
      then None
      else if existsb
                (fun lit =>
                   (InterpretedEvaluation.simplifyLiteral hasInterpretedConstants evaluate
                      lit).1)
                (_literals cl)
      then
        let lits :=
          flat_map (InterpretedEvaluationFacts.kept hasInterpretedConstants evaluate)
            (_literals cl)
          ++ rev (flat_map
                    (InterpretedEvaluationFacts.sideConditionsOf hasInterpretedConstants
                       evaluate)
                    (_literals cl)) in
        Some (setAge (mkClause (storedLength (length lits)) lits (inputType cl) EVALUATION
                        [cl] 0 0)
                     (_age cl))
      else Some cl
  end.
Proof. apply InterpretedEvaluationFacts.simplify_eq. Qed.

(** ** Kernel/RobSubstitution.cpp: [RobSubstitution::match] *)

Module RobSubstitutionMatch.
Import RobSubstitution RobSubstitutionBacktrack.

(** The end of an iteration of the loop of [match] that did not descend:
    [break] when [subterms] is empty, otherwise pop the next two argument
    positions and push their right neighbours.  [continue_] is the rest of
    the loop. *)
Definition match_next
    (continue_ : subst -> list TermList -> list TermList -> list (list TermList) ->
                 option (bool * subst))
    (s : subst) (subterms : list (list TermList)) : option (bool * subst) :=
  match subterms with
  | [] => Some (false, s)
  | bt :: it :: subterms' =>
      continue_ s bt it
        (match tl bt with
         | [] => subterms'
         | _ :: _ => tl bt :: tl it :: subterms'
         end)
  | [_] => None
  end.

(** The [for(;;)] of [match].  [bt] and [it] are the current argument
    positions (the arguments from the position on; the terms themselves at
    the start and after a special variable is replaced by its binding).  The
    answer is the [mismatch] flag and the substitution. *)
Fixpoint match_loop (fuel : nat) (baseIndex instanceIndex : Z) (s : subst)
    (bt it : list TermList) (subterms : list (list TermList)) : option (bool * subst) :=
  match fuel with
  | O => None
  | S fuel' =>
      match bt, it with
      | b :: _, i :: _ =>
          let bts := mkTermSpec b baseIndex in
          let its := mkTermSpec i instanceIndex in
          if negb (sameTermContent bts its) && sameTopFunctor b i then
            match b, i with
            | Term _ ((_ :: sn) as sargs), Term _ ((_ :: tn) as targs) =>
                match_loop fuel' baseIndex instanceIndex s sargs targs
                  (match sn with
                   | [] => subterms
                   | _ :: _ => sn :: tn :: subterms
                   end)
            | _, _ => None
            end
          else if sameTopFunctor b i then
            match_next (match_loop fuel' baseIndex instanceIndex) s subterms
          else if isSpecialVar b then
            match _bank s !! getVarSpec b baseIndex with
            | Some binding1 =>
                match_loop fuel' baseIndex instanceIndex s [term binding1] it subterms
            | None =>
                match_next (match_loop fuel' baseIndex instanceIndex)
                  (bind s (getVarSpec b baseIndex) its) subterms
            end
          else if isSpecialVar i then
            match _bank s !! getVarSpec i instanceIndex with
            | Some binding2 =>
                match_loop fuel' baseIndex instanceIndex s bt [term binding2] subterms
            | None =>
                match_next (match_loop fuel' baseIndex instanceIndex)
                  (bind s (getVarSpec i instanceIndex) bts) subterms
            end
          else if isOrdinaryVar b then
            match _bank s !! getVarSpec b baseIndex with
            | Some binding1 =>
                if bool_decide (term binding1 = i)
                then match_next (match_loop fuel' baseIndex instanceIndex) s subterms
                else Some (true, s)
            | None =>
                match_next (match_loop fuel' baseIndex instanceIndex)
                  (bind s (getVarSpec b baseIndex) its) subterms
            end
          else Some (true, s)
      | _, _ => None
      end
  end.

(** [RobSubstitution::match(TermSpec, TermSpec)] *)
Definition match_ (fuel : nat) (s : subst) (base instance : TermSpec)
  : option (bool * subst) :=
  if sameTermContent base instance then Some (true, s)
  else
    match match_loop fuel (index base) (index instance) (bdRecord s)
            [term base] [term instance] [] with
    | None => None
    | Some (mismatch, s1) =>
        let (localBD, s2) := bdDone s1 in
        if mismatch then Some (false, backtrack localBD s2)
        else Some (true, if bdIsRecording s2 then bdCommit localBD s2 else s2)
    end.

(** *** A failed match leaves the substitution as it was *)

Lemma same_origin_bind' s v b :
  same_origin s s -> same_origin s (bind s v b) /\ same_origin (bind s v b) (bind s v b).
Proof.
  intros (bd & bd' & rest & H1 & _).
  pose proof (same_origin_bind s v b bd rest H1) as Hb. split; [exact Hb|].
  destruct Hb as (bd1 & bd2 & rest' & _ & H2 & _). exact (same_origin_refl _ _ _ H2).
Qed.

Lemma match_loop_same_origin fuel bi ii : forall s bt it subterms mm s',
  same_origin s s ->
  match_loop fuel bi ii s bt it subterms = Some (mm, s') ->
  same_origin s s'.
Proof.
  induction fuel as [|fuel IH]; intros s bt it subterms mm s' Hrec H; [discriminate|].
  assert (Hnext : forall s1,
    same_origin s s1 -> same_origin s1 s1 ->
    match_next (match_loop fuel bi ii) s1 subterms = Some (mm, s') -> same_origin s s').
  { intros s1 H1 H11 Hn. unfold match_next in Hn.
    destruct subterms as [|bt' [|it' subterms']]; [|discriminate|].
    - injection Hn as <- <-. exact H1.
    - eapply same_origin_trans; [exact H1|]. eapply IH; eassumption. }
  cbn [match_loop] in H.
  destruct bt as [|b btn]; [discriminate|]. destruct it as [|i itn]; [discriminate|].
  cbv zeta in H.
  destruct (negb (sameTermContent _ _) && sameTopFunctor b i).
  { destruct b as [| |f [|s1 sn]]; try discriminate.
    destruct i as [| |g [|t1 tn]]; try discriminate.
    eapply IH; eassumption. }
  destruct (sameTopFunctor b i); [apply (Hnext s Hrec Hrec H)|].
  destruct (isSpecialVar b).
  { destruct (_bank s !! _).
    - eapply IH; eassumption.
    - destruct (same_origin_bind' s (getVarSpec b bi) (mkTermSpec i ii) Hrec) as [H1 H2].
      apply (Hnext _ H1 H2 H). }
  destruct (isSpecialVar i).
  { destruct (_bank s !! _).
    - eapply IH; eassumption.
    - destruct (same_origin_bind' s (getVarSpec i ii) (mkTermSpec b bi) Hrec) as [H1 H2].
      apply (Hnext _ H1 H2 H). }
  destruct (isOrdinaryVar b).
  { destruct (_bank s !! _).
    - destruct (bool_decide _); [apply (Hnext s Hrec Hrec H)|].
      injection H as <- <-. exact Hrec.
    - destruct (same_origin_bind' s (getVarSpec b bi) (mkTermSpec i ii) Hrec) as [H1 H2].
      apply (Hnext _ H1 H2 H). }
  injection H as <- <-. exact Hrec.
Qed.

Lemma match_false_restores fuel s base instance s' :
  match_ fuel s base instance = Some (false, s') -> s' = s.
Proof.
  unfold match_. destruct (sameTermContent base instance); [discriminate|].
  destruct (match_loop fuel _ _ _ _ _ _) as [[mm s1]|] eqn:E; [|discriminate].
  apply match_loop_same_origin in E;
    [|eapply (same_origin_refl (bdRecord s)); reflexivity].
  destruct E as (bd & bd' & rest & H1 & H2 & Hn & Hb). simpl in *.
  injection H1 as <- <-.
  unfold bdDone. rewrite H2.
  destruct mm; [|discriminate].
  intros H. injection H as <-.
  unfold backtrack. simpl. rewrite <- Hb, <- Hn. simpl. destruct s; reflexivity.
Qed.

(** *** A successful match instantiates the base term to the instance *)

(** The base term with its variables replaced by the terms they are bound
    to. *)
Fixpoint substBase (bank : gmap (nat * Z) TermSpec) (baseIndex : Z) (t : TermList)
  : TermList :=
  match t with
  | Var v =>
      match bank !! (v, baseIndex) with
      | Some b => term b
      | None => Var v
      end
  | SpecialVar v => SpecialVar v
  | Term f args => Term f (map (substBase bank baseIndex) args)
  end.

(** The pairs of arguments that wait on the stack [subterms]. *)
Fixpoint pairsOf (subterms : list (list TermList)) : list (TermList * TermList) :=
  match subterms with
  | bt :: (it :: subterms') => zip bt it ++ pairsOf subterms'
  | _ => []
  end.

Lemma substBase_ground bank bi t : ground t = true -> substBase bank bi t = t.
Proof.
  induction t as [v|v|f args IH] using TermList_ind'; try discriminate.
  cbn. intros Hg. f_equal. rewrite forallb_forall in Hg.
  induction args as [|a args IHargs]; [reflexivity|].
  apply List.Forall_cons_iff in IH. destruct IH as [Ha IH]. cbn. f_equal.
  - apply Ha, Hg. left. reflexivity.
  - apply IHargs; [exact IH|]. intros x Hx. apply Hg. right. exact Hx.
Qed.

Lemma sameTermContent_ground b bi i ii :
  bi <> ii -> isSpecialVar b = false ->
  sameTermContent (mkTermSpec b bi) (mkTermSpec i ii) = true ->
  b = i /\ ground b = true.
Proof.
  intros Hne Hsp. unfold sameTermContent. cbn [term index]. rewrite Hsp.
  destruct (bool_decide_reflect (b = i)) as [->|]; [|discriminate].
  destruct (Z.eqb_spec bi ii) as [|_]; [contradiction|]. cbn [andb orb].
  intros H. split; [reflexivity|]. apply andb_true_iff in H. destruct H as [Ht H].
  apply orb_true_iff in H. destruct H as [H|H]; [exact H|].
  destruct i as [| |f [|a args]]; try discriminate. reflexivity.
Qed.

Section Sound.
Variable arityOf : nat -> nat.
Variable baseIndex instanceIndex : Z.
Hypothesis banks_differ : baseIndex <> instanceIndex.

Definition wfPair (p : TermList * TermList) : Prop :=
  KBOSpec.wellFormed arityOf p.1 = true /\ KBOSpec.wellFormed arityOf p.2 = true.

Definition instantiated (bank : gmap (nat * Z) TermSpec) (p : TermList * TermList) : Prop :=
  substBase bank baseIndex p.1 = p.2.

Lemma wfPair_zip l1 : forall l2,
  Forall (fun a => KBOSpec.wellFormed arityOf a = true) l1 ->
  Forall (fun a => KBOSpec.wellFormed arityOf a = true) l2 ->
  Forall wfPair (zip l1 l2).
Proof.
  induction l1 as [|a l1 IH]; intros [|b l2] H1 H2; cbn; try constructor.
  - apply Forall_cons in H1, H2. split; [apply H1|apply H2].
  - apply Forall_cons in H1, H2. apply IH; [apply H1|apply H2].
Qed.

Lemma instantiated_zip bank l1 : forall l2,
  length l1 = length l2 -> Forall (instantiated bank) (zip l1 l2) ->
  map (substBase bank baseIndex) l1 = l2.
Proof.
  induction l1 as [|a l1 IH]; intros [|b l2] Hlen H; try discriminate; [reflexivity|].
  cbn in H. apply Forall_cons in H. destruct H as [Ha H]. cbn. f_equal; [exact Ha|].
  apply IH; [simpl in Hlen; lia|exact H].
Qed.

Lemma match_loop_nil fuel s it subterms :
  match_loop fuel baseIndex instanceIndex s [] it subterms = None.
Proof. destruct fuel; reflexivity. Qed.

Lemma match_loop_nil_r fuel s bt subterms :
  match_loop fuel baseIndex instanceIndex s bt [] subterms = None.
Proof. destruct fuel; [reflexivity|]. destruct bt; reflexivity. Qed.

Lemma match_loop_sound fuel : forall s b btn i itn subterms s',
  Forall wfPair ((b, i) :: pairsOf subterms) ->
  match_loop fuel baseIndex instanceIndex s (b :: btn) (i :: itn) subterms
    = Some (false, s') ->
  _bank s ⊆ _bank s' /\ Forall (instantiated (_bank s')) ((b, i) :: pairsOf subterms).
Proof.
  induction fuel as [|fuel IH]; intros s b btn i itn subterms s' Hwf H; [discriminate|].
  apply Forall_cons in Hwf. destruct Hwf as [[Hwb Hwi] Hwf]. cbn [fst snd] in Hwb, Hwi.
  assert (Hnext : forall s1,
    match_next (match_loop fuel baseIndex instanceIndex) s1 subterms = Some (false, s') ->
    _bank s1 ⊆ _bank s' /\ Forall (instantiated (_bank s')) (pairsOf subterms)).
  { intros s1 Hn. unfold match_next in Hn.
    destruct subterms as [|bt' [|it' subterms']]; [|discriminate|].
    - injection Hn as <-. split; [reflexivity|constructor].
    - destruct bt' as [|b' btn']; [rewrite match_loop_nil in Hn; discriminate|].
      destruct it' as [|i' itn']; [rewrite match_loop_nil_r in Hn; discriminate|].
      cbn [tl] in Hn. cbn [pairsOf zip zip_with app] in Hwf |- *.
      apply IH in Hn; [|destruct btn'; exact Hwf].
      destruct btn'; exact Hn. }
  cbn [match_loop] in H. cbv zeta in H.
  assert (Hspb : isSpecialVar b = false) by (destruct b; [reflexivity|discriminate|reflexivity]).
  assert (Hspi : isSpecialVar i = false) by (destruct i; [reflexivity|discriminate|reflexivity]).
  destruct (sameTermContent (mkTermSpec b baseIndex) (mkTermSpec i instanceIndex)) eqn:Hsame;
    cbn [negb andb] in H.
  - apply (sameTermContent_ground _ _ _ _ banks_differ Hspb) in Hsame.
    destruct Hsame as [<- Hg].
    assert (Htop : sameTopFunctor b b = true).
    { destruct b; try discriminate. cbn. apply Nat.eqb_refl. }
    rewrite Htop in H. destruct (Hnext s H) as [Hsub Hall].
    split; [exact Hsub|]. constructor; [|exact Hall].
    apply substBase_ground, Hg.
  - destruct (sameTopFunctor b i) eqn:Htop.
    + destruct b as [| |f [|s1 sn]]; try discriminate.
      destruct i as [| |g [|t1 tn]]; try discriminate.
      cbn in Htop. apply Nat.eqb_eq in Htop. subst g.
      destruct (KBOSpec.wellFormed_args _ _ _ Hwb) as [Hlb Hab].
      destruct (KBOSpec.wellFormed_args _ _ _ Hwi) as [Hli Hai].
      assert (Hwf' : Forall wfPair (zip (s1 :: sn) (t1 :: tn) ++ pairsOf subterms)).
      { apply Forall_app. split; [apply wfPair_zip; assumption|exact Hwf]. }
      apply IH in H.
      2:{ destruct sn; [|exact Hwf'].
          cbn in Hwf'. apply Forall_cons in Hwf'. destruct Hwf' as [Hp Hrest].
          constructor; [exact Hp|exact Hrest]. }
      destruct H as [Hsub Hall]. split; [exact Hsub|].
      assert (Hall' : Forall (instantiated (_bank s')) (zip (s1 :: sn) (t1 :: tn))
                      /\ Forall (instantiated (_bank s')) (pairsOf subterms)).
      { destruct sn as [|s2 sn].
        - apply Forall_cons in Hall. destruct Hall as [Hp Hrest].
          split; [|exact Hrest]. cbn. constructor; [exact Hp|constructor].
        - cbn [pairsOf] in Hall. apply Forall_cons in Hall. destruct Hall as [Hp Hrest].
          apply Forall_app in Hrest. destruct Hrest as [Hz Hrest].
          split; [|exact Hrest]. cbn [zip zip_with]. constructor; assumption. }
      destruct Hall' as [Hz Hrest]. constructor; [|exact Hrest].
      unfold instantiated. cbn [fst snd substBase]. f_equal.
      apply instantiated_zip; [congruence|exact Hz].
    + rewrite Hspb, Hspi in H.
      destruct b as [v| |]; cbn [isOrdinaryVar] in H; try discriminate.
      cbn [getVarSpec] in H.
      destruct (_bank s !! (v, baseIndex)) as [binding1|] eqn:Hb.
      * destruct (bool_decide_reflect (term binding1 = i)) as [Hi|]; [|discriminate].
        destruct (Hnext s H) as [Hsub Hall].
        split; [exact Hsub|]. constructor; [|exact Hall].
        unfold instantiated. cbn [fst snd substBase].
        rewrite (lookup_weaken _ _ _ _ Hb Hsub). exact Hi.
      * destruct (Hnext _ H) as [Hsub Hall]. cbn [bind _bank] in Hsub.
        split; [etransitivity; [apply insert_subseteq, Hb|exact Hsub]|].
        constructor; [|exact Hall].
        unfold instantiated. cbn [fst snd substBase].
        rewrite (lookup_weaken _ _ (v, baseIndex) (mkTermSpec i instanceIndex)
                   ltac:(apply lookup_insert_eq) Hsub).
        reflexivity.
Qed.

Lemma match_sound fuel s base instance s' :
  index base = baseIndex -> index instance = instanceIndex ->
  KBOSpec.wellFormed arityOf (term base) = true ->
  KBOSpec.wellFormed arityOf (term instance) = true ->
  match_ fuel s base instance = Some (true, s') ->
  _bank s ⊆ _bank s' /\ substBase (_bank s') baseIndex (term base) = term instance.
Proof.
  intros Hbi Hii Hwb Hwi. unfold match_.
  destruct (sameTermContent base instance) eqn:Hsame.
  { intros H. injection H as <-. split; [reflexivity|].
    destruct base as [b bi], instance as [i ii]. cbn [term index] in *. subst bi ii.
    apply sameTermContent_ground in Hsame; [|exact banks_differ|].
    - destruct Hsame as [<- Hg]. apply substBase_ground, Hg.
    - destruct b; [reflexivity|discriminate|reflexivity]. }
  rewrite Hbi, Hii.
  destruct (match_loop fuel _ _ _ _ _ _) as [[mm s1]|] eqn:E; [|discriminate].
  destruct (bdDone s1) as [localBD s2] eqn:Hdone.
  destruct mm; [discriminate|]. intros H. injection H as <-.
  apply match_loop_sound in E; [|constructor; [split; assumption|constructor]].
  destruct E as [Hsub Hall]. apply Forall_cons in Hall. destruct Hall as [Hall _].
  assert (Hs2 : _bank s2 = _bank s1).
  { unfold bdDone in Hdone. destruct (_bdStack s1) as [|[bd|] rest];
      injection Hdone as _ <-; reflexivity. }
  assert (Hc : _bank (if bdIsRecording s2 then bdCommit localBD s2 else s2) = _bank s1).
  { rewrite <- Hs2. destruct (bdIsRecording s2); [|reflexivity].
    unfold bdCommit. destruct (_bdStack s2) as [|[outer|] rest]; reflexivity. }
  rewrite Hc. split; [exact Hsub|exact Hall].
Qed.

End Sound.

End RobSubstitutionMatch.

(** X24.  [RobSubstitution::match] on two terms over a signature, without
    special variables, taken from two different banks: when it answers true,
    every binding made before is still there, and the base term with its
    variables replaced by the terms they are bound to is the instance term;
    when it answers false, the substitution is left exactly as it was. *)
Theorem match_instantiates (arityOf : nat -> nat) (fuel : nat) (s : RobSubstitution.subst)
    (base : TermList) (baseIndex : Z) (instance : TermList) (instanceIndex : Z)
    (b : bool) (s' : RobSubstitution.subst) :
  baseIndex <> instanceIndex ->
  KBOSpec.wellFormed arityOf base = true ->
  KBOSpec.wellFormed arityOf instance = true ->
  RobSubstitutionMatch.match_ fuel s (RobSubstitution.mkTermSpec base baseIndex)
    (RobSubstitution.mkTermSpec instance instanceIndex) = Some (b, s') ->
  if b then
    RobSubstitution._bank s ⊆ RobSubstitution._bank s' /\
    RobSubstitutionMatch.substBase (RobSubstitution._bank s') baseIndex base = instance
  else s' = s.
Proof.
  intros Hne Hwb Hwi H. destruct b.
  - apply (RobSubstitutionMatch.match_sound arityOf baseIndex instanceIndex Hne fuel s
             (RobSubstitution.mkTermSpec base baseIndex)
             (RobSubstitution.mkTermSpec instance instanceIndex) s'
             eq_refl eq_refl Hwb Hwi H).
  - apply (RobSubstitutionMatch.match_false_restores _ _ _ _ _ H).
Qed.

(** The base term f(x, g(x)) and its instance f(a, g(a)). *)
Definition example_base : TermList := Term 3 [Var 0; Term 2 [Var 0]].
Definition example_instance : TermList := Term 3 [Term 0 []; Term 2 [Term 0 []]].

Lemma match_instantiates_witness :
  exists s',
    RobSubstitutionMatch.match_ 20 RobSubstitution.empty
      (RobSubstitution.mkTermSpec example_base 0)
      (RobSubstitution.mkTermSpec example_instance 1) = Some (true, s') /\
    RobSubstitutionMatch.substBase (RobSubstitution._bank s') 0 example_base
    = example_instance.
Proof.
  destruct (RobSubstitutionMatch.match_ 20 RobSubstitution.empty
              (RobSubstitution.mkTermSpec example_base 0)
              (RobSubstitution.mkTermSpec example_instance 1)) as [[b s']|] eqn:E;
    [|vm_compute in E; discriminate E].
  assert (Hb : b = true).
  { vm_compute in E. injection E as <- _. reflexivity. }
  subst b. exists s'. split; [reflexivity|].
  apply (match_instantiates example_arity 20 RobSubstitution.empty example_base 0
           example_instance 1 true s'); [discriminate|reflexivity|reflexivity|exact E].
Defined.

(** ** Kernel/Clause.hpp: the auxiliary value of a clause *)

Module ClauseAux.

(** The static member [_auxCurrTimestamp] and, for every clause (named by
    a number), its members [_auxTimestamp] and [_auxData]; the timestamps
    are of type [size_t], taken to have 64 bits. *)
Record state := mkState {
  _auxCurrTimestamp : Z;
  _auxTimestamp : nat -> Z;
  _auxData : nat -> nat
}.

Definition SIZE_MOD : Z := 2 ^ 64.

(** [Clause::setAux] *)
Definition setAux (c : nat) (ptr : nat) (st : state) : state :=
  mkState (_auxCurrTimestamp st)
    (fun d => if Nat.eqb d c then _auxCurrTimestamp st else _auxTimestamp st d)
    (fun d => if Nat.eqb d c then ptr else _auxData st d).

(** [Clause::tryGetAux]: the value assigned to [ptr] when the answer is
    true. *)
Definition tryGetAux (c : nat) (st : state) : option nat :=
  if _auxTimestamp st c =? _auxCurrTimestamp st then Some (_auxData st c) else None.

(** [Clause::hasAux] *)
Definition hasAux (c : nat) (st : state) : bool :=
  _auxTimestamp st c =? _auxCurrTimestamp st.

(** [Clause::requestAux]; [None] is the exception thrown by
    [INVALID_OPERATION] when the timestamp overflows. *)
Definition requestAux (st : state) : option state :=
  let t := (_auxCurrTimestamp st + 1) mod SIZE_MOD in
  if t =? 0 then None else Some (mkState t (_auxTimestamp st) (_auxData st)).

Inductive op :=
| RequestAux
| SetAux (c : nat) (ptr : nat).

Fixpoint run (ops : list op) (st : state) : option state :=
  match ops with
  | [] => Some st
  | RequestAux :: ops' =>
      match requestAux st with
      | None => None
      | Some st' => run ops' st'
      end
  | SetAux c ptr :: ops' => run ops' (setAux c ptr st)
  end.

(** No clause carries a timestamp of the future. *)
Definition invariant (st : state) : Prop :=
  0 <= _auxCurrTimestamp st < SIZE_MOD /\
  forall c, 0 <= _auxTimestamp st c <= _auxCurrTimestamp st.

(** The call neither requests the auxiliary values nor sets the one of
    [c]. *)
Definition keeps (c : nat) (o : op) : Prop :=
  match o with
  | RequestAux => False
  | SetAux d _ => d <> c
  end.

Lemma requestAux_spec st st' :
  invariant st -> requestAux st = Some st' ->
  invariant st' /\ forall c, hasAux c st' = false.
Proof.
  unfold invariant, requestAux, hasAux, SIZE_MOD. intros [Hc Ht].
  destruct (Z.eqb_spec ((_auxCurrTimestamp st + 1) mod 2 ^ 64) 0) as [|Hne]; [discriminate|].
  intros H. injection H as <-. cbn.
  assert (Hlt : _auxCurrTimestamp st + 1 < 2 ^ 64).
  { destruct (Z.eq_dec (_auxCurrTimestamp st + 1) (2 ^ 64)) as [E|]; [|lia].
    rewrite E, Z.mod_same in Hne by lia. contradiction. }
  rewrite Z.mod_small by lia. split.
  - split; [lia|]. intros c. specialize (Ht c). lia.
  - intros c. specialize (Ht c). apply Z.eqb_neq. lia.
Qed.

Lemma setAux_invariant c ptr st : invariant st -> invariant (setAux c ptr st).
Proof.
  intros [Hc Ht]. split; [exact Hc|]. intros d. cbn.
  destruct (Nat.eqb d c); [lia|apply Ht].
Qed.

Lemma run_tryGetAux c ptr ops : forall st st',
  invariant st -> run ops st = Some st' -> tryGetAux c st' = Some ptr ->
  (exists pre post, ops = pre ++ SetAux c ptr :: post /\ Forall (keeps c) post) \/
  (tryGetAux c st = Some ptr /\ Forall (keeps c) ops).
Proof.
  induction ops as [|o ops IH]; intros st st' Hinv H Hget; cbn in H.
  { injection H as <-. right. split; [exact Hget|constructor]. }
  destruct o as [|d q].
  - destruct (requestAux st) as [st1|] eqn:E; [|discriminate].
    destruct (requestAux_spec st st1 Hinv E) as [Hinv1 Hnone].
    destruct (IH st1 st' Hinv1 H Hget) as [(pre & post & -> & Hk)|[Hg _]].
    + left. exists (RequestAux :: pre), post. split; [reflexivity|exact Hk].
    + unfold tryGetAux in Hg. specialize (Hnone c). unfold hasAux in Hnone.
      rewrite Hnone in Hg. discriminate.
  - destruct (IH _ st' (setAux_invariant d q st Hinv) H Hget)
      as [(pre & post & -> & Hk)|[Hg Hk]].
    + left. exists (SetAux d q :: pre), post. split; [reflexivity|exact Hk].
    + destruct (Nat.eq_dec d c) as [->|Hne].
      * left. exists [], ops. unfold tryGetAux, setAux in Hg. cbn in Hg.
        rewrite Nat.eqb_refl, Z.eqb_refl in Hg. injection Hg as ->.
        split; [reflexivity|exact Hk].
      * right. split; [|constructor; [exact Hne|exact Hk]].
        unfold tryGetAux, setAux in Hg. cbn in Hg.
        replace (Nat.eqb c d) with false in Hg
          by (symmetry; apply Nat.eqb_neq; congruence).
        exact Hg.
Qed.

End ClauseAux.

(** X25.  The auxiliary values of clauses ([Clause::requestAux],
    [setAux], [tryGetAux], [hasAux]): as long as no clause carries a
    timestamp of the future, a call of [requestAux] that does not overflow
    discards the auxiliary value of every clause, and after any sequence of
    calls the value that [tryGetAux] finds in a clause is the one given by
    the last [setAux] on that clause, made after the last [requestAux] (or
    the value the clause had at the start, when the sequence has neither). *)
Theorem aux_values_are_current (c ptr : nat) (ops : list ClauseAux.op)
    (st st' : ClauseAux.state) :
  ClauseAux.invariant st -> ClauseAux.run ops st = Some st' ->
  (forall st1, ClauseAux.requestAux st = Some st1 ->
               forall d, ClauseAux.hasAux d st1 = false) /\
  (ClauseAux.tryGetAux c st' = Some ptr ->
   (exists pre post, ops = pre ++ ClauseAux.SetAux c ptr :: post /\
                     Forall (ClauseAux.keeps c) post) \/
   (ClauseAux.tryGetAux c st = Some ptr /\ Forall (ClauseAux.keeps c) ops)).
Proof.
  intros Hinv H. split.
  - intros st1 E. apply (ClauseAux.requestAux_spec st st1 Hinv E).
  - apply (ClauseAux.run_tryGetAux c ptr ops st st' Hinv H).
Qed.

Definition example_aux_state : ClauseAux.state :=
  ClauseAux.mkState 3 (fun c => if Nat.eqb c 1 then 3 else 0) (fun _ => 7%nat).

Lemma aux_values_are_current_witness :
  exists st',
    ClauseAux.run [ClauseAux.SetAux 2 5; ClauseAux.RequestAux; ClauseAux.SetAux 1 9]
      example_aux_state = Some st' /\
    ClauseAux.tryGetAux 1 st' = Some 9%nat /\ ClauseAux.tryGetAux 2 st' = None.
Proof.
  destruct (ClauseAux.run [ClauseAux.SetAux 2 5; ClauseAux.RequestAux; ClauseAux.SetAux 1 9]
              example_aux_state) as [st'|] eqn:E; [|vm_compute in E; discriminate E].
  exists st'. split; [reflexivity|].
  assert (Hinv : ClauseAux.invariant example_aux_state).
  { split; [unfold ClauseAux.SIZE_MOD; cbn; lia|].
    intros c. cbn. destruct (Nat.eqb c 1); lia. }
  pose proof (aux_values_are_current 1 9 _ _ _ Hinv E) as [_ Hget].
  assert (E' := E). vm_compute in E'. injection E' as <-.
  split; reflexivity.
Defined.

(** ** Lib/Stack.hpp: the array behind a stack *)

Module Stack.
Section Stack.
Variable C : Type.

(** [Stack<C>]: the allocated cells ([None] for a cell that holds no
    object), [_capacity], and [_cursor] as the number of cells below it;
    [_end] is [_stack + _capacity]. *)
Record Stack := mkStack {
  _capacity : nat;
  _stack : list (option C);
  _cursor : nat
}.

(** [Stack::Stack(size_t initialCapacity)] *)
Definition create (initialCapacity : nat) : Stack :=
  mkStack initialCapacity (replicate initialCapacity None) 0.

(** [Stack::expand], which copies [_capacity] cells and puts the cursor
    behind them. *)
Definition expand (s : Stack) : Stack :=
  let newCapacity := if Nat.eqb (_capacity s) 0 then 8%nat else (2 * _capacity s)%nat in
  mkStack newCapacity
    (take (_capacity s) (_stack s) ++ replicate (newCapacity - _capacity s) None)
    (_capacity s).

(** [Stack::push] *)
Definition push (elem : C) (s : Stack) : Stack :=
  let s1 := if Nat.eqb (_cursor s) (_capacity s) then expand s else s in
  mkStack (_capacity s1) (<[_cursor s1 := Some elem]> (_stack s1)) (S (_cursor s1)).

(** [Stack::pop]; [None] when the stack is empty, which the sources
    exclude by assertion. *)
Definition pop (s : Stack) : option (C * Stack) :=
  match _cursor s with
  | O => None
  | S cursor' =>
      match _stack s !! cursor' with
      | Some (Some res) =>
          Some (res, mkStack (_capacity s) (<[cursor' := None]> (_stack s)) cursor')
      | _ => None
      end
  end.

(** [Stack::top] *)
Definition top (s : Stack) : option C :=
  match _cursor s with
  | O => None
  | S cursor' => mjoin (_stack s !! cursor')
  end.

(** [Stack::length], [Stack::isEmpty] *)
Definition length (s : Stack) : nat := _cursor s.
Definition isEmpty (s : Stack) : bool := Nat.eqb (_cursor s) 0.

(** [Stack::truncate], [Stack::reset]: the objects in the cells from
    [len] on are destroyed. *)
Definition truncate (len : nat) (s : Stack) : Stack :=
  mkStack (_capacity s)
    (take len (_stack s) ++ replicate (List.length (_stack s) - len) None) len.
Definition reset (s : Stack) : Stack := truncate 0 s.

(** The array holds the elements [l], the bottom of the stack first. *)
Definition holds (s : Stack) (l : list C) : Prop :=
  _cursor s = List.length l /\ take (_cursor s) (_stack s) = map Some l /\
  (_cursor s <= _capacity s)%nat /\ List.length (_stack s) = _capacity s.

Lemma create_holds n : holds (create n) [].
Proof.
  unfold holds, create. cbn. rewrite length_replicate.
  split; [reflexivity|]. split; [apply take_0|]. split; [lia|reflexivity].
Qed.

Lemma expand_holds s l :
  holds s l -> _cursor s = _capacity s ->
  holds (expand s) l /\ (_cursor (expand s) < _capacity (expand s))%nat.
Proof.
  intros (Hc & Ht & Hle & Hlen) Hfull. unfold holds, expand.
  cbn [_capacity _stack _cursor].
  assert (Hlt : (_capacity s < (if Nat.eqb (_capacity s) 0 then 8 else 2 * _capacity s))%nat).
  { destruct (Nat.eqb_spec (_capacity s) 0); lia. }
  split; [|exact Hlt].
  split; [congruence|]. split; [|split; [lia|]].
  - rewrite take_app_le by (rewrite length_take; lia).
    rewrite take_take, Nat.min_id. rewrite <- Hfull. exact Ht.
  - rewrite length_app, length_take, length_replicate. lia.
Qed.

Lemma push_holds elem s l : holds s l -> holds (push elem s) (l ++ [elem]).
Proof.
  intros H. unfold push.
  assert (H1 : exists s1, (if Nat.eqb (_cursor s) (_capacity s) then expand s else s) = s1 /\
                          holds s1 l /\ (_cursor s1 < _capacity s1)%nat).
  { destruct (Nat.eqb_spec (_cursor s) (_capacity s)) as [Hfull|Hne].
    - exists (expand s). split; [reflexivity|]. apply expand_holds; assumption.
    - exists s. split; [reflexivity|]. split; [exact H|].
      destruct H as (_ & _ & Hle & _). lia. }
  destruct H1 as (s1 & -> & (Hc & Ht & Hle & Hlen) & Hlt).
  unfold holds. cbn. rewrite length_app, length_insert. cbn.
  split; [lia|]. split; [|split; [lia|exact Hlen]].
  rewrite map_app. cbn. rewrite <- Ht.
  rewrite (take_S_r _ _ (Some elem)) by (apply list_lookup_insert_eq; lia).
  rewrite take_insert_ge by lia. reflexivity.
Qed.

Lemma pop_holds s l :
  holds s l ->
  match pop s, rev l with
  | None, [] => True
  | Some (res, s'), e :: r => res = e /\ holds s' (rev r)
  | _, _ => False
  end.
Proof.
  intros (Hc & Ht & Hle & Hlen). unfold pop.
  destruct l as [|x l] using rev_ind.
  { cbn in Hc. rewrite Hc. exact I. }
  clear IHl. rewrite rev_app_distr. cbn [rev app].
  rewrite length_app in Hc. cbn in Hc. rewrite Nat.add_1_r in Hc. rewrite Hc.
  assert (Hx : _stack s !! List.length l = Some (Some x)).
  { rewrite <- (lookup_take_lt (_stack s) (_cursor s)) by lia.
    rewrite Ht, map_app. cbn.
    rewrite lookup_app_r by (rewrite length_map; lia).
    rewrite length_map, Nat.sub_diag. reflexivity. }
  rewrite Hx. split; [reflexivity|]. rewrite rev_involutive.
  unfold holds. cbn. rewrite length_insert.
  split; [reflexivity|]. split; [|split; [lia|exact Hlen]].
  rewrite take_insert_ge by lia.
  assert (Ht' : take (List.length l) (take (_cursor s) (_stack s)) = map Some l).
  { rewrite Ht, map_app, take_app_le by (rewrite length_map; lia).
    rewrite take_ge by (rewrite length_map; lia). reflexivity. }
  rewrite take_take in Ht'. replace (Nat.min (List.length l) (_cursor s)) with (List.length l)
    in Ht' by lia.
  exact Ht'.
Qed.

Lemma top_holds s l : holds s l -> top s = last l.
Proof.
  intros (Hc & Ht & Hle & Hlen). unfold top.
  destruct l as [|x l] using rev_ind.
  { cbn in Hc. rewrite Hc. reflexivity. }
  clear IHl. rewrite length_app in Hc. cbn in Hc. rewrite Nat.add_1_r in Hc. rewrite Hc.
  assert (Hx : _stack s !! List.length l = Some (Some x)).
  { rewrite <- (lookup_take_lt (_stack s) (_cursor s)) by lia.
    rewrite Ht, map_app. cbn.
    rewrite lookup_app_r by (rewrite length_map; lia).
    rewrite length_map, Nat.sub_diag. reflexivity. }
  rewrite Hx, last_snoc. reflexivity.
Qed.

Lemma truncate_holds len s l :
  holds s l -> (len <= List.length l)%nat -> holds (truncate len s) (take len l).
Proof.
  intros (Hc & Ht & Hle & Hlen) Hlen'. unfold holds, truncate. cbn.
  rewrite length_take, length_app, length_take, length_replicate.
  split; [lia|]. split; [|split; [lia|lia]].
  rewrite take_app_le by (rewrite length_take; lia).
  rewrite take_take, Nat.min_id.
  assert (Ht' : take len (take (_cursor s) (_stack s)) = take len (map Some l))
    by (rewrite Ht; reflexivity).
  rewrite take_take in Ht'. replace (Nat.min len (_cursor s)) with len in Ht' by lia.
  rewrite Ht'. symmetry. apply fmap_take.
Qed.

End Stack.
End Stack.

(** X26.  [Stack<C>] is a stack: when its array holds the elements [l]
    (bottom first) below the cursor, [length] is the length of [l] and [top]
    its last element; [push] leaves the array holding [l] with the element
    added, also when it has to [expand] the array, whose capacity never
    shrinks; [pop] answers the last element and leaves the others, and fails
    only on an empty stack; [truncate] keeps the first [len] elements and
    [reset] none.  A stack just created holds nothing. *)
Theorem stack_array_is_a_stack (C : Type) (s : Stack.Stack C) (l : list C) :
  Stack.holds C s l ->
  Stack.length C s = length l /\
  Stack.top C s = last l /\
  (forall elem,
     Stack.holds C (Stack.push C elem s) (l ++ [elem]) /\
     (Stack._capacity C s <= Stack._capacity C (Stack.push C elem s))%nat) /\
  match Stack.pop C s, rev l with
  | None, [] => True
  | Some (res, s'), e :: r => res = e /\ Stack.holds C s' (rev r)
  | _, _ => False
  end /\
  (forall len, (len <= length l)%nat ->
     Stack.holds C (Stack.truncate C len s) (take len l)) /\
  Stack.holds C (Stack.reset C s) [] /\
  forall initialCapacity, Stack.holds C (Stack.create C initialCapacity) [].
Proof.
  intros H. split; [apply H|]. split; [apply Stack.top_holds, H|].
  split; [|split; [apply Stack.pop_holds, H|]].
  - intros elem. split; [apply Stack.push_holds, H|].
    unfold Stack.push, Stack.expand.
    destruct (Nat.eqb (Stack._cursor C s) (Stack._capacity C s));
      cbn [Stack._capacity]; [|lia].
    destruct (Nat.eqb (Stack._capacity C s) 0) eqn:E; [|lia].
    apply Nat.eqb_eq in E. lia.
  - split; [intros len Hlen; apply Stack.truncate_holds; assumption|].
    split; [|apply Stack.create_holds].
    apply (Stack.truncate_holds C 0 s l H). lia.
Qed.

Lemma stack_array_is_a_stack_witness :
  Stack.holds nat (Stack.push nat 5%nat (Stack.push nat 4%nat (Stack.create nat 0)))
    [4%nat; 5%nat].
Proof.
  assert (H : Stack.holds nat (Stack.push nat 4%nat (Stack.create nat 0)) [4%nat]).
  { unfold Stack.holds. cbn. repeat split; lia. }
  exact (proj1 (proj1 (proj2 (proj2 (stack_array_is_a_stack nat _ _ H))) 5%nat)).
Defined.

(** ** Kernel/RobSubstitution.cpp: [getApplicationResultWeight] *)

Module RobSubstitutionWeight.
Import RobSubstitution.

(** [size_t]: the sums of weights are taken modulo 2^64. *)
Definition SIZE_MOD : Z := 2 ^ 64.
Definition size_add (a b : Z) : Z := (a + b) mod SIZE_MOD.

(** The range of the weight cached in a term. *)
Definition WEIGHT_MOD : Z := 2 ^ 32.

Section Weight.

(** Modelled from the spec: [Term::weight] (Kernel/Term.hpp, not among the
    sources) is the weight cached in a shared term, "sum of symbol weights";
    "weights are unsigned 32-bit".  What the cache holds for a term with
    2^32 symbols or more (a saturated or a wrapped value) is left open. *)
Variable weight : TermList -> Z.

(** [RobSubstitution::getApplicationResultWeight(TermList, int)], written
    like [apply]: the traversal is recursive, [known] is the cache of the
    weights of the instances of the variables already met. *)
Fixpoint weight_args
    (rec : subst -> gmap (nat * Z) Z -> TermList ->
           option (Z * subst * gmap (nat * Z) Z))
    (l : list TermList) (s : subst) (known : gmap (nat * Z) Z)
  : option (list Z * subst * gmap (nat * Z) Z) :=
  match l with
  | [] => Some ([], s, known)
  | a :: l' =>
      match rec s known a with
      | None => None
      | Some (a', s', known') =>
          match weight_args rec l' s' known' with
          | None => None
          | Some (l'', s'', known'') => Some (a' :: l'', s'', known'')
          end
      end
  end.

Definition weight_term
    (rec : subst -> gmap (nat * Z) Z -> TermList -> Z ->
           option (Z * subst * gmap (nat * Z) Z))
    (t : TermList) (tidx : Z) (ref : option VarSpec)
    (s : subst) (known : gmap (nat * Z) Z)
  : option (Z * subst * gmap (nat * Z) Z) :=
  match t with
  | Term f targs =>
      if ground t then Some (weight t, s, known)
      else
        match weight_args (fun s known a => rec s known a tidx) targs s known with
        | None => None
        | Some (szArr, s', known') =>
            let sz := fold_left size_add szArr 1 in
            Some (sz, s',
                  match ref with
                  | Some vs =>
                      match known' !! vs with
                      | Some _ => known'
                      | None => <[vs := sz]> known'
                      end
                  | None => known'
                  end)
        end
  | _ => None
  end.

Fixpoint weight_rec (fuel : nat) (s : subst) (known : gmap (nat * Z) Z)
    (trm : TermList) (idx : Z) {struct fuel}
  : option (Z * subst * gmap (nat * Z) Z) :=
  match fuel with
  | O => None
  | S fuel' =>
      if isVar trm then
        match root fuel' (_bank s) (getVarSpec trm idx) with
        | None => None
        | Some vs =>
            match known !! vs with
            | Some found => Some (found, s, known)
            | None =>
                match deref fuel' s vs with
                | None => None
                | Some (ts, s') =>
                    if isVar (term ts) then Some (1, s', known)
                    else weight_term (weight_rec fuel') (term ts) (index ts) (Some vs) s' known
                end
            end
        end
      else weight_term (weight_rec fuel') trm idx None s known
  end.

Definition getApplicationResultWeight (fuel : nat) (s : subst) (trm : TermList) (idx : Z)
  : option (Z * subst) :=
  match weight_rec fuel s ∅ trm idx with
  | None => None
  | Some (w, s', _) => Some (w, s')
  end.

(** The cached weight is in its range, and it is the number of symbols and
    variables of a term that has fewer than 2^32 of them. *)
Hypothesis weight_range : forall t, 0 <= weight t < WEIGHT_MOD.
Hypothesis weight_small : forall t,
  Z.of_nat (KBO.tsize t) < WEIGHT_MOD -> weight t = Z.of_nat (KBO.tsize t).

(** [w] stands for the weight of [t]: it is a [size_t], and it is the
    number of symbols and variables of [t] when that is below 2^32. *)
Definition weighs (w : Z) (t : TermList) : Prop :=
  0 <= w < SIZE_MOD /\
  (Z.of_nat (KBO.tsize t) < WEIGHT_MOD -> w = Z.of_nat (KBO.tsize t)).

(** The two caches hold the same variables, with weights that stand for
    the instances. *)
Definition knownWeighs (kw : gmap (nat * Z) Z) (ka : gmap (nat * Z) TermList) : Prop :=
  forall v,
    match kw !! v, ka !! v with
    | Some w, Some t => weighs w t
    | None, None => True
    | _, _ => False
    end.

(** The answer of the weight computation that corresponds to an answer of
    [apply]. *)
Definition weighed (rw : option (Z * subst * gmap (nat * Z) Z))
    (ra : option (TermList * subst * gmap (nat * Z) TermList)) : Prop :=
  match rw, ra with
  | Some (w, s, kw), Some (t, s', ka) => weighs w t /\ s = s' /\ knownWeighs kw ka
  | None, None => True
  | _, _ => False
  end.

Lemma weighs_ground t : weighs (weight t) t.
Proof.
  split; [|apply weight_small].
  pose proof (weight_range t). unfold SIZE_MOD, WEIGHT_MOD in *. lia.
Qed.

Lemma weighs_sum ws ts : Forall2 weighs ws ts ->
  forall acc n, 0 <= acc < SIZE_MOD -> 0 <= n ->
    (n + Z.of_nat (list_sum (map KBO.tsize ts)) < WEIGHT_MOD -> acc = n) ->
    0 <= fold_left size_add ws acc < SIZE_MOD /\
    (n + Z.of_nat (list_sum (map KBO.tsize ts)) < WEIGHT_MOD ->
     fold_left size_add ws acc = n + Z.of_nat (list_sum (map KBO.tsize ts))).
Proof.
  induction 1 as [|w t ws ts [Hw Ht] _ IH]; intros acc n Hacc Hn Hex; cbn [fold_left map].
  - split; [exact Hacc|]. cbn. rewrite Z.add_0_r in *. exact Hex.
  - cbn [map] in Hex.
    change (list_sum (KBO.tsize t :: map KBO.tsize ts))
      with (KBO.tsize t + list_sum (map KBO.tsize ts))%nat in *.
    rewrite Nat2Z.inj_add in *.
    specialize (IH (size_add acc w) (n + Z.of_nat (KBO.tsize t))).
    destruct IH as [IH1 IH2].
    + unfold size_add. apply Z.mod_pos_bound. unfold SIZE_MOD. lia.
    + lia.
    + intros Hlt. unfold size_add.
      pose proof (Nat2Z.is_nonneg (list_sum (map KBO.tsize ts))) as Hs.
      pose proof (Nat2Z.is_nonneg (KBO.tsize t)) as Hp.
      rewrite Hex by lia. rewrite Ht by lia.
      apply Z.mod_small. unfold SIZE_MOD, WEIGHT_MOD in *. lia.
    + split; [exact IH1|]. intros Hlt. rewrite IH2 by lia. lia.
Qed.

Lemma weighs_application f ws ts :
  Forall2 weighs ws ts -> weighs (fold_left size_add ws 1) (Term f ts).
Proof.
  intros H.
  destruct (weighs_sum ws ts H 1 1) as [H1 H2];
    [unfold SIZE_MOD; lia|lia|reflexivity|].
  split; [exact H1|]. intros Hlt.
  assert (E : KBO.tsize (Term f ts) = S (list_sum (map KBO.tsize ts))) by reflexivity.
  rewrite E in *. rewrite H2 by lia. lia.
Qed.

Lemma knownWeighs_insert kw ka v w t :
  knownWeighs kw ka -> weighs w t -> knownWeighs (<[v := w]> kw) (<[v := t]> ka).
Proof.
  intros Hk Hw u. destruct (decide (v = u)) as [<-|Hne].
  - rewrite !lookup_insert_eq. exact Hw.
  - rewrite !lookup_insert_ne by exact Hne. apply Hk.
Qed.

Section Step.
Variable recA : subst -> gmap (nat * Z) TermList -> TermList -> Z ->
                option (TermList * subst * gmap (nat * Z) TermList).
Variable recW : subst -> gmap (nat * Z) Z -> TermList -> Z ->
                option (Z * subst * gmap (nat * Z) Z).
Hypothesis rec_weighed : forall s kw ka a idx,
  knownWeighs kw ka -> weighed (recW s kw a idx) (recA s ka a idx).

Lemma weight_args_weighed tidx l : forall s kw ka,
  knownWeighs kw ka ->
  match weight_args (fun s known a => recW s known a tidx) l s kw,
        apply_args (fun s known a => recA s known a tidx) l s ka with
  | Some (ws, s1, kw'), Some (ts, s2, ka') =>
      Forall2 weighs ws ts /\ s1 = s2 /\ knownWeighs kw' ka'
  | None, None => True
  | _, _ => False
  end.
Proof.
  induction l as [|a l IH]; intros s kw ka Hk; cbn [weight_args apply_args].
  { split; [constructor|]. split; [reflexivity|exact Hk]. }
  pose proof (rec_weighed s kw ka a tidx Hk) as Ha. unfold weighed in Ha.
  destruct (recW s kw a tidx) as [[[w s1] kw1]|], (recA s ka a tidx) as [[[t s2] ka1]|];
    try contradiction; [|exact I].
  destruct Ha as (Hw & <- & Hk1).
  specialize (IH s1 kw1 ka1 Hk1).
  destruct (weight_args _ l s1 kw1) as [[[ws s3] kw3]|],
           (apply_args _ l s1 ka1) as [[[ts s4] ka3]|]; try contradiction; [|exact I].
  destruct IH as (Hws & <- & Hk3).
  split; [constructor; assumption|]. split; [reflexivity|exact Hk3].
Qed.

Lemma weight_term_weighed t tidx ref s kw ka :
  knownWeighs kw ka ->
  weighed (weight_term recW t tidx ref s kw) (apply_term recA t tidx ref s ka).
Proof.
  intros Hk. destruct t as [v|v|f targs]; try exact I.
  unfold weight_term, apply_term. destruct (ground (Term f targs)).
  { split; [apply weighs_ground|]. split; [reflexivity|exact Hk]. }
  pose proof (weight_args_weighed tidx targs s kw ka Hk) as Hargs.
  destruct (weight_args _ targs s kw) as [[[ws s1] kw1]|],
           (apply_args _ targs s ka) as [[[ts s2] ka1]|]; try contradiction; [|exact I].
  destruct Hargs as (Hws & <- & Hk1).
  pose proof (weighs_application f ws ts Hws) as Hsz.
  split; [exact Hsz|]. split; [reflexivity|].
  destruct ref as [vs|]; [|exact Hk1].
  pose proof (Hk1 vs) as Hvs.
  destruct (kw1 !! vs), (ka1 !! vs); try contradiction; [exact Hk1|].
  apply knownWeighs_insert; assumption.
Qed.

End Step.

Lemma weight_rec_weighed fuel : forall s kw ka trm idx,
  knownWeighs kw ka ->
  weighed (weight_rec fuel s kw trm idx) (apply_rec fuel s ka trm idx).
Proof.
  induction fuel as [|fuel IH]; intros s kw ka trm idx Hk; [exact I|].
  cbn [weight_rec apply_rec]. destruct (isVar trm) eqn:Hv.
  - destruct (root fuel (_bank s) _) as [vs|]; [|exact I].
    pose proof (Hk vs) as Hvs.
    destruct (kw !! vs) as [found|], (ka !! vs) as [t|]; try contradiction.
    { split; [exact Hvs|]. split; [reflexivity|exact Hk]. }
    destruct (deref fuel s vs) as [[ts s']|]; [|exact I].
    destruct (isVar (term ts)) eqn:Hts.
    + split; [|split; [reflexivity|exact Hk]].
      destruct (term ts); try discriminate;
        (split; [unfold SIZE_MOD; lia|intros _; reflexivity]).
    + apply weight_term_weighed; [exact IH|exact Hk].
  - apply weight_term_weighed; [exact IH|exact Hk].
Qed.

Lemma getApplicationResultWeight_apply fuel s trm idx :
  match apply fuel s trm idx with
  | Some (t, s') =>
      exists w, getApplicationResultWeight fuel s trm idx = Some (w, s') /\ weighs w t
  | None => getApplicationResultWeight fuel s trm idx = None
  end.
Proof.
  unfold getApplicationResultWeight, apply.
  assert (Hk : knownWeighs ∅ ∅) by (intros v; rewrite !lookup_empty; exact I).
  pose proof (weight_rec_weighed fuel s ∅ ∅ trm idx Hk) as H. unfold weighed in H.
  destruct (weight_rec fuel s ∅ trm idx) as [[[w s1] kw]|],
           (apply_rec fuel s ∅ trm idx) as [[[t s2] ka]|]; try contradiction;
    [|reflexivity].
  destruct H as (Hw & <- & _). exists w. split; [reflexivity|exact Hw].
Qed.

End Weight.
End RobSubstitutionWeight.

(** X27.  [RobSubstitution::getApplicationResultWeight] on a term, with
    its sums in [size_t] and the weights cached in the terms in 32 bits:
    it gives up exactly when [apply] does for the same arguments, and
    otherwise it leaves the substitution as [apply] leaves it and answers a
    [size_t] that is the weight (the number of symbols and variables) of the
    term [apply] builds whenever that weight is below 2^32. *)
Theorem application_result_weight (weight : TermList -> Z) (fuel : nat)
    (s : RobSubstitution.subst) (trm : TermList) (idx : Z) :
  (forall t, 0 <= weight t < 2 ^ 32) ->
  (forall t, Z.of_nat (KBO.tsize t) < 2 ^ 32 -> weight t = Z.of_nat (KBO.tsize t)) ->
  match RobSubstitution.apply fuel s trm idx with
  | Some (t, s') =>
      exists w,
        RobSubstitutionWeight.getApplicationResultWeight weight fuel s trm idx
        = Some (w, s') /\
        0 <= w < 2 ^ 64 /\
        (Z.of_nat (KBO.tsize t) < 2 ^ 32 -> w = Z.of_nat (KBO.tsize t))
  | None =>
      RobSubstitutionWeight.getApplicationResultWeight weight fuel s trm idx = None
  end.
Proof.
  intros Hrange Hsmall.
  exact (RobSubstitutionWeight.getApplicationResultWeight_apply weight Hrange Hsmall
           fuel s trm idx).
Qed.

(** A cache of weights that saturates at 2^32 - 1. *)
Definition example_weight (t : TermList) : Z :=
  Z.min (Z.of_nat (KBO.tsize t)) (2 ^ 32 - 1).

Lemma application_result_weight_witness :
  exists s',
    RobSubstitutionWeight.getApplicationResultWeight example_weight 10 example_bound
      (Term 3 [Var 0; Term 2 [Var 0]]) 0 = Some (4, s').
Proof.
  pose proof (application_result_weight example_weight 10 example_bound
                (Term 3 [Var 0; Term 2 [Var 0]]) 0) as H.
  destruct (RobSubstitution.apply 10 example_bound (Term 3 [Var 0; Term 2 [Var 0]]) 0)
    as [[t s']|] eqn:E; [|vm_compute in E; discriminate E].
  destruct H as (w & Hw & _ & Hex).
  - intros t0. unfold example_weight. lia.
  - intros t0 Hlt. unfold example_weight. lia.
  - exists s'. rewrite Hw. do 2 f_equal.
    vm_compute in E. injection E as <- _. apply Hex. vm_compute. reflexivity.
Defined.

(** ** Kernel/Ordering.cpp: [PrecedenceOrdering::compare] on literals *)

Module LiteralOrdering.
Import KBO KBOUnbounded KBOSpec.

(** Modelled from the spec: [TermSharing::tryGetOpposite]
    (Indexing/TermSharing.cpp, not among the sources) looks up, among the
    shared literals, the literal "complementary(literal) – flip polarity,
    preserving sort tag".  Literals are hash-consed, so the pointer
    comparison of a shared literal with its answer is the comparison with
    the complementary literal. *)
Definition complementary (l : Literal) : Literal :=
  mkLiteral (lit_functor l) (negb (polarity l)) (lit_args l) (eqArgSort l).

Definition NONINTERPRETED_PRECEDENCE_BOOST : Z := 0x1000%Z.
Definition NONINTERPRETED_LEVEL_BOOST : Z := 0x1000%Z.
Definition COLORED_LEVEL_BOOST : Z := 0x10000%Z.

Section Compare.
Variable functionColored : nat -> bool.
Variable compareFunctionPrecedences : nat -> nat -> Result.

(** The signature [env.signature]: [getPredicate(pred)->interpreted()] and
    [predicateColored(pred)]. *)
Variable predicateInterpreted : nat -> bool.
Variable predicateColored : nat -> bool.

(** The members [_predicates], [_predicateLevels], [_predicatePrecedences]
    and [_reverseLCM]. *)
Variable _predicates : nat.
Variable _predicateLevels : list Z.
Variable _predicatePrecedences : list Z.
Variable _reverseLCM : bool.

(** The cached fields [Term::weight] and [Term::vars] of a literal. *)
Variable litWeight : Literal -> nat.
Variable litVars : Literal -> nat.

(** [PrecedenceOrdering::compareEqualities] is declared in Ordering.hpp; its
    definition is not among the sources. *)
Variable compareEqualities : Literal -> Literal -> Result.

(** [PrecedenceOrdering::predicateLevel] *)
Definition predicateLevel (pred : nat) : Z :=
  let basic :=
    if Nat.leb _predicates pred then 1 else default 0 (_predicateLevels !! pred) in
  let basic :=
    if negb (predicateInterpreted pred) then basic + NONINTERPRETED_LEVEL_BOOST
    else basic in
  if predicateColored pred then COLORED_LEVEL_BOOST * basic else basic.

(** [PrecedenceOrdering::predicatePrecedence] *)
Definition predicatePrecedence (pred : nat) : Z :=
  let res :=
    if Nat.leb _predicates pred then Z.of_nat pred
    else default 0 (_predicatePrecedences !! pred) in
  let res := res * 2 in
  if predicateInterpreted pred then res + 1 else res + NONINTERPRETED_PRECEDENCE_BOOST.

(** [KBO::comparePredicates], with the precedence of predicate symbols of
    the class it extends. *)
Definition comparePredicates : Literal -> Literal -> Result :=
  KBOPredicates.comparePredicates functionColored compareFunctionPrecedences
    predicatePrecedence.

(** [PrecedenceOrdering::compare] on two literals *)
Definition compare (l1 l2 : Literal) : Result :=
  if bool_decide (l1 = l2) then EQUAL
  else
    let p1 := lit_functor l1 in
    let p2 := lit_functor l2 in
    if xorb (isNegative l1) (isNegative l2) && Nat.eqb p1 p2 &&
       Nat.eqb (litWeight l1) (litWeight l2) && Nat.eqb (litVars l1) (litVars l2) &&
       bool_decide (l1 = complementary l2)
    then (if isNegative l1 then LESS else GREATER)
    else
      let rest :=
        if isEquality l1 then compareEqualities l1 l2
        else if _reverseLCM && (isNegative l1 || isNegative l2) then
          if isNegative l1 && isNegative l2 then reverse (comparePredicates l1 l2)
          else if isNegative l1 then LESS else GREATER
        else comparePredicates l1 l2 in
      if negb (Nat.eqb p1 p2) then
        match PrecedenceOrdering.Int_compare (predicateLevel p1) (predicateLevel p2) with
        | PrecedenceOrdering.Lib_EQUAL => rest
        | levComp => PrecedenceOrdering.fromComparison levComp
        end
      else rest.

(** The precedences given to the predicate symbols of the signature are a
    rearrangement of their numbers, as the constructor sets them up. *)
Definition properPrecedences : Prop :=
  length _predicatePrecedences = _predicates /\
  NoDup _predicatePrecedences /\
  Forall (fun z => 0 <= z < Z.of_nat _predicates) _predicatePrecedences.

Lemma predicatePrecedence_injective p q :
  properPrecedences -> p <> q -> predicatePrecedence p <> predicatePrecedence q.
Proof.
  intros (Hlen & Hnd & Hrange) Hpq. unfold predicatePrecedence.
  assert (Hentry : forall i, (i < _predicates)%nat ->
            exists z, _predicatePrecedences !! i = Some z /\ 0 <= z < Z.of_nat _predicates).
  { intros i Hi. destruct (lookup_lt_is_Some_2 _predicatePrecedences i) as [z Hz]; [lia|].
    exists z. split; [exact Hz|].
    rewrite Forall_forall in Hrange. apply Hrange. eapply list_elem_of_lookup_2, Hz. }
  assert (Hbase :
    (if Nat.leb _predicates p then Z.of_nat p
     else default 0 (_predicatePrecedences !! p)) <>
    (if Nat.leb _predicates q then Z.of_nat q
     else default 0 (_predicatePrecedences !! q))).
  { destruct (Nat.leb_spec _predicates p) as [Hp|Hp], (Nat.leb_spec _predicates q) as [Hq|Hq].
    - lia.
    - destruct (Hentry q Hq) as (z & -> & Hz). cbn. lia.
    - destruct (Hentry p Hp) as (z & -> & Hz). cbn. lia.
    - destruct (Hentry p Hp) as (z & Ep & Hz), (Hentry q Hq) as (z' & Eq & Hz').
      rewrite Ep, Eq. cbn. intros <-. apply Hpq.
      exact (NoDup_lookup _ _ _ _ Hnd Ep Eq). }
  unfold NONINTERPRETED_PRECEDENCE_BOOST.
  destruct (predicateInterpreted p), (predicateInterpreted q); cbv zeta; lia.
Qed.

Lemma lexicographic_reverse (arityOf : nat -> nat) ss :
  (forall f g, f <> g ->
     compareFunctionPrecedences g f = reverse (compareFunctionPrecedences f g)) ->
  forall ts,
  forallb (wellFormed arityOf) ss = true -> forallb (wellFormed arityOf) ts = true ->
  lexicographic functionColored compareFunctionPrecedences ts ss =
  reverse (lexicographic functionColored compareFunctionPrecedences ss ts).
Proof.
  intros Hanti. induction ss as [|s ss IH]; intros [|t ts] Hs Ht; try reflexivity.
  cbn [forallb] in Hs, Ht. apply andb_prop in Hs, Ht.
  destruct Hs as [Hs Hss], Ht as [Ht Hts]. cbn [lexicographic].
  destruct (decide (s = t)) as [<-|Hne].
  - rewrite bool_decide_eq_true_2 by reflexivity. apply IH; assumption.
  - rewrite (bool_decide_eq_false_2 (s = t)) by exact Hne.
    rewrite (bool_decide_eq_false_2 (t = s)) by congruence.
    apply (decisionTable_reverse _ _ arityOf Hanti); assumption.
Qed.

Lemma predicateTable_reverse (arityOf : nat -> nat) l1 l2 :
  (forall f g, f <> g ->
     compareFunctionPrecedences g f = reverse (compareFunctionPrecedences f g)) ->
  properPrecedences ->
  forallb (wellFormed arityOf) (lit_args l1) = true ->
  forallb (wellFormed arityOf) (lit_args l2) = true ->
  KBOPredicates.predicateTable functionColored compareFunctionPrecedences
    predicatePrecedence l2 l1 =
  reverse (KBOPredicates.predicateTable functionColored compareFunctionPrecedences
             predicatePrecedence l1 l2).
Proof.
  intros Hanti Hprec Hwf1 Hwf2. unfold KBOPredicates.predicateTable.
  rewrite <- variableCondition_reverse. f_equal.
  set (d := sumZ (map (weight functionColored) (lit_args l1)) -
            sumZ (map (weight functionColored) (lit_args l2))).
  replace (sumZ (map (weight functionColored) (lit_args l2)) -
           sumZ (map (weight functionColored) (lit_args l1))) with (- d) by (unfold d; lia).
  destruct (Z.eqb_spec d 0) as [Hd|Hd].
  - rewrite Hd. cbn [Z.opp Z.eqb negb].
    destruct (Nat.eqb_spec (lit_functor l1) (lit_functor l2)) as [E|Hne].
    + rewrite E, Nat.eqb_refl. cbn [negb].
      apply (lexicographic_reverse arityOf); assumption.
    + rewrite (proj2 (Nat.eqb_neq _ _)) by congruence. cbn [negb].
      pose proof (predicatePrecedence_injective _ _ Hprec Hne) as Hinj.
      rewrite !Z.gtb_ltb.
      destruct (Z.ltb_spec (predicatePrecedence (lit_functor l1))
                  (predicatePrecedence (lit_functor l2))),
               (Z.ltb_spec (predicatePrecedence (lit_functor l2))
                  (predicatePrecedence (lit_functor l1))); try lia; reflexivity.
  - rewrite (proj2 (Z.eqb_neq (- d) 0)) by lia. cbn [negb].
    apply sign_reverse, Hd.
Qed.

Lemma complementary_involutive l : complementary (complementary l) = l.
Proof. destruct l as [p pol ss srt]. unfold complementary. cbn. rewrite negb_involutive. reflexivity. Qed.

Lemma complementary_differs l : l <> complementary l.
Proof. destruct l as [p [] ss srt]; unfold complementary; cbn; congruence. Qed.

Lemma compare_reverse (arityOf : nat -> nat) l1 l2 :
  (forall f g, f <> g ->
     compareFunctionPrecedences f g = GREATER \/ compareFunctionPrecedences f g = LESS) ->
  (forall f g, f <> g ->
     compareFunctionPrecedences g f = reverse (compareFunctionPrecedences f g)) ->
  properPrecedences ->
  (forall l, litWeight (complementary l) = litWeight l) ->
  (forall l, litVars (complementary l) = litVars l) ->
  isEquality l1 = false -> isEquality l2 = false ->
  eqArgSort l1 = eqArgSort l2 ->
  forallb (wellFormed arityOf) (lit_args l1) = true ->
  forallb (wellFormed arityOf) (lit_args l2) = true ->
  (lit_functor l1 = lit_functor l2 -> length (lit_args l1) = length (lit_args l2)) ->
  sumZ (map (weight functionColored) (lit_args l1)) <= INT_MAX ->
  sumZ (map (weight functionColored) (lit_args l2)) <= INT_MAX ->
  compare l2 l1 = reverse (compare l1 l2).
Proof.
  intros Htotal Hanti Hprec Hw Hv He1 He2 Hsort Hwf1 Hwf2 Harity Hw1 Hw2.
  unfold compare.
  destruct (decide (l1 = l2)) as [<-|Hne].
  { rewrite bool_decide_eq_true_2 by reflexivity. reflexivity. }
  rewrite (bool_decide_eq_false_2 (l1 = l2)) by exact Hne.
  rewrite (bool_decide_eq_false_2 (l2 = l1)) by congruence.
  destruct (decide (l1 = complementary l2)) as [->|Hnc].
  { rewrite complementary_involutive, Hw, Hv.
    rewrite !bool_decide_eq_true_2 by reflexivity.
    rewrite !Nat.eqb_refl.
    destruct l2 as [p [] ss srt]; reflexivity. }
  assert (Hnc' : l2 <> complementary l1).
  { intros E. apply Hnc. rewrite E, complementary_involutive. reflexivity. }
  rewrite (bool_decide_eq_false_2 (l1 = complementary l2)) by exact Hnc.
  rewrite (bool_decide_eq_false_2 (l2 = complementary l1)) by exact Hnc'.
  rewrite !andb_false_r. cbv zeta. rewrite He1, He2.
  assert (Hcp : comparePredicates l2 l1 = reverse (comparePredicates l1 l2)).
  { unfold comparePredicates.
    assert (Hargs : lit_functor l1 = lit_functor l2 -> lit_args l1 <> lit_args l2).
    { intros Ef Ea. destruct l1 as [p pol1 ss srt1], l2 as [q pol2 ts srt2].
      cbn in Ef, Ea, Hsort. subst q ts srt2.
      destruct pol1, pol2; first [apply Hne; reflexivity|apply Hnc; reflexivity]. }
    rewrite (KBOPredicates.comparePredicates_table _ _ arityOf Htotal _ l1 l2 Hwf1 Hwf2)
      by first [assumption|intros Ef; split; [apply Harity, Ef|apply Hargs, Ef]].
    rewrite (KBOPredicates.comparePredicates_table _ _ arityOf Htotal _ l2 l1 Hwf2 Hwf1)
      by first [assumption|
                intros Ef; split; [symmetry; apply Harity; congruence|
                                   intros Ea; apply (Hargs (eq_sym Ef)); congruence]].
    apply (predicateTable_reverse arityOf); assumption. }
  assert (Hrest :
    (if _reverseLCM && (isNegative l2 || isNegative l1) then
       if isNegative l2 && isNegative l1 then reverse (comparePredicates l2 l1)
       else if isNegative l2 then LESS else GREATER
     else comparePredicates l2 l1) =
    reverse
      (if _reverseLCM && (isNegative l1 || isNegative l2) then
         if isNegative l1 && isNegative l2 then reverse (comparePredicates l1 l2)
         else if isNegative l1 then LESS else GREATER
       else comparePredicates l1 l2)).
  { rewrite Hcp. destruct _reverseLCM, (isNegative l1), (isNegative l2); reflexivity. }
  destruct (Nat.eqb_spec (lit_functor l1) (lit_functor l2)) as [E|Hf].
  - rewrite E, Nat.eqb_refl. cbn [negb]. exact Hrest.
  - rewrite (proj2 (Nat.eqb_neq (lit_functor l2) (lit_functor l1))) by congruence.
    cbn [negb]. unfold PrecedenceOrdering.Int_compare.
    destruct (Z.ltb_spec (predicateLevel (lit_functor l1)) (predicateLevel (lit_functor l2))),
             (Z.ltb_spec (predicateLevel (lit_functor l2)) (predicateLevel (lit_functor l1))),
             (Z.eqb_spec (predicateLevel (lit_functor l1)) (predicateLevel (lit_functor l2))),
             (Z.eqb_spec (predicateLevel (lit_functor l2)) (predicateLevel (lit_functor l1)));
      try lia; first [exact Hrest|reflexivity].
Qed.

End Compare.
End LiteralOrdering.

(** X28.  [PrecedenceOrdering::compare] on two literals that are not
    equalities and whose arguments weigh no more than the largest [int],
    over a signature whose function precedence is total and whose predicate
    symbols have distinct precedences, the weight and the variable count
    cached in a literal being those of its atom: comparing the literals the
    other way round gives the reverse answer. *)
Theorem literal_compare_reverse
    (functionColored : nat -> bool) (compareFunctionPrecedences : nat -> nat -> Result)
    (predicateInterpreted predicateColored : nat -> bool)
    (_predicates : nat) (_predicateLevels _predicatePrecedences : list Z)
    (_reverseLCM : bool) (litWeight litVars : Literal -> nat)
    (compareEqualities : Literal -> Literal -> Result)
    (arityOf : nat -> nat) (l1 l2 : Literal) :
  (forall f g, f <> g ->
     compareFunctionPrecedences f g = GREATER \/ compareFunctionPrecedences f g = LESS) ->
  (forall f g, f <> g ->
     compareFunctionPrecedences g f = reverse (compareFunctionPrecedences f g)) ->
  LiteralOrdering.properPrecedences _predicates _predicatePrecedences ->
  (forall l, litWeight (LiteralOrdering.complementary l) = litWeight l) ->
  (forall l, litVars (LiteralOrdering.complementary l) = litVars l) ->
  isEquality l1 = false -> isEquality l2 = false ->
  eqArgSort l1 = eqArgSort l2 ->
  forallb (KBOSpec.wellFormed arityOf) (lit_args l1) = true ->
  forallb (KBOSpec.wellFormed arityOf) (lit_args l2) = true ->
  (lit_functor l1 = lit_functor l2 -> length (lit_args l1) = length (lit_args l2)) ->
  KBOSpec.sumZ (map (KBOSpec.weight functionColored) (lit_args l1)) <= KBO.INT_MAX ->
  KBOSpec.sumZ (map (KBOSpec.weight functionColored) (lit_args l2)) <= KBO.INT_MAX ->
  let compare :=
    LiteralOrdering.compare functionColored compareFunctionPrecedences predicateInterpreted
      predicateColored _predicates _predicateLevels _predicatePrecedences _reverseLCM
      litWeight litVars compareEqualities in
  compare l2 l1 = reverse (compare l1 l2).
Proof.
  intros Htotal Hanti Hprec Hw Hv He1 He2 Hsort Hwf1 Hwf2 Harity Hw1 Hw2 compare.
  apply (LiteralOrdering.compare_reverse _ _ _ _ _ _ _ _ _ _ _ arityOf); assumption.
Qed.

Lemma literal_compare_reverse_witness :
  LiteralOrdering.compare (fun _ => false) example_precedence (fun _ => false)
    (fun _ => false) 2 [0; 1] [1; 0] true (fun l => length (lit_args l)) (fun _ => 0%nat)
    (fun _ _ => INCOMPARABLE) example_atom_b example_atom_a
  = reverse
      (LiteralOrdering.compare (fun _ => false) example_precedence (fun _ => false)
         (fun _ => false) 2 [0; 1] [1; 0] true (fun l => length (lit_args l)) (fun _ => 0%nat)
         (fun _ _ => INCOMPARABLE) example_atom_a example_atom_b).
Proof.
  apply (literal_compare_reverse (fun _ => false) example_precedence (fun _ => false)
           (fun _ => false) 2 [0; 1] [1; 0] true (fun l => length (lit_args l))
           (fun _ => 0%nat) (fun _ _ => INCOMPARABLE) example_arity
           example_atom_a example_atom_b).
  - exact example_precedence_total.
  - exact example_precedence_antisymmetric.
  - split; [reflexivity|]. split.
    + apply (bool_decide_unpack (NoDup [1; 0])). vm_compute. exact I.
    + repeat (apply Forall_cons; split; [lia|]). apply Forall_nil. exact I.
  - intros l. reflexivity.
  - intros l. reflexivity.
  - reflexivity.
  - reflexivity.
  - reflexivity.
  - reflexivity.
  - reflexivity.
  - intros _. reflexivity.
  - vm_compute. discriminate.
  - vm_compute. discriminate.
Defined.

(** ** Kernel/Ordering.cpp: [Ordering::getEqualityArgumentOrder] *)

Module EqualityArgumentOrder.

(** The values of [Ordering::Result], which are those of
    [ArgumentOrderVals] from [AO_GREATER] on; [AO_UNKNOWN] is 0. *)
Definition resultValue (r : Result) : Z :=
  match r with
  | GREATER => 1
  | LESS => 2
  | GREATER_EQ => 3
  | LESS_EQ => 4
  | EQUAL => 5
  | INCOMPARABLE => 6
  end.

(** [static_cast<Result>]: a value that names no element of the enum gives
    no result. *)
Definition resultOfValue (v : Z) : option Result :=
  if v =? 1 then Some GREATER
  else if v =? 2 then Some LESS
  else if v =? 3 then Some GREATER_EQ
  else if v =? 4 then Some LESS_EQ
  else if v =? 5 then Some EQUAL
  else if v =? 6 then Some INCOMPARABLE
  else None.

(** The static member [s_globalOrdering] (an ordering object is named by a
    number, the null pointer is [None]), and, modelled from the spec, the
    "dedicated cached orientation bits" of the shared equality literals
    ([Literal::getArgumentOrderValue] and [setArgumentOrderValue] of
    Kernel/Term.hpp, which is not among the sources); the bits of a new
    literal are [AO_UNKNOWN]. *)
Record state := mkState {
  s_globalOrdering : option nat;
  getArgumentOrderValue : Literal -> Z
}.

Definition init : state := mkState None (fun _ => 0).

Definition setArgumentOrderValue (st : state) (eq : Literal) (v : Z) : state :=
  mkState (s_globalOrdering st)
    (fun l => if decide (l = eq) then v else getArgumentOrderValue st l).

(** [Ordering::trySetGlobalOrdering] *)
Definition trySetGlobalOrdering (ordering : nat) (st : state) : bool * state :=
  match s_globalOrdering st with
  | Some _ => (false, st)
  | None => (true, mkState (Some ordering) (getArgumentOrderValue st))
  end.

(** [Ordering::tryGetGlobalOrdering] *)
Definition tryGetGlobalOrdering (st : state) : option nat := s_globalOrdering st.

Section Orderings.

(** The virtual [compare(TermList, TermList)] of the ordering objects. *)
Variable compare : nat -> TermList -> TermList -> Result.

(** [Ordering::getEqualityArgumentOrder], called on the ordering [this]. *)
Definition getEqualityArgumentOrder (this : nat) (eq : Literal) (st : state)
    : option Result * state :=
  if negb (bool_decide (tryGetGlobalOrdering st = Some this)) then
    (Some (compare this (nthArgument eq 0) (nthArgument eq 1)), st)
  else
    let precomputed := getArgumentOrderValue st eq in
    if negb (precomputed =? 0) then (resultOfValue precomputed, st)
    else
      let res := compare this (nthArgument eq 0) (nthArgument eq 1) in
      (Some res, setArgumentOrderValue st eq (resultValue res)).

(** The calls made on the orderings of a run of the prover. *)
Inductive op :=
| TrySetGlobalOrdering (ordering : nat)
| GetEqualityArgumentOrder (this : nat) (eq : Literal).

(** The answers of the calls of [getEqualityArgumentOrder] in a sequence of
    calls, and the state after them. *)
Fixpoint run (ops : list op) (st : state) : list (option Result) * state :=
  match ops with
  | [] => ([], st)
  | TrySetGlobalOrdering o :: ops' => run ops' (snd (trySetGlobalOrdering o st))
  | GetEqualityArgumentOrder this eq :: ops' =>
      let (r, st') := getEqualityArgumentOrder this eq st in
      let (rs, st'') := run ops' st' in
      (r :: rs, st'')
  end.

(** What the calls answer without the cache. *)
Fixpoint uncached (ops : list op) : list (option Result) :=
  match ops with
  | [] => []
  | TrySetGlobalOrdering _ :: ops' => uncached ops'
  | GetEqualityArgumentOrder this eq :: ops' =>
      Some (compare this (nthArgument eq 0) (nthArgument eq 1)) :: uncached ops'
  end.

(** The first ordering offered as the global one. *)
Fixpoint firstOffered (ops : list op) : option nat :=
  match ops with
  | [] => None
  | TrySetGlobalOrdering o :: _ => Some o
  | GetEqualityArgumentOrder _ _ :: ops' => firstOffered ops'
  end.

(** The bits that are set in a literal are the answer of the global
    ordering on its arguments. *)
Definition invariant (st : state) : Prop :=
  forall eq, getArgumentOrderValue st eq <> 0 ->
    exists g, s_globalOrdering st = Some g /\
      getArgumentOrderValue st eq =
      resultValue (compare g (nthArgument eq 0) (nthArgument eq 1)).

Lemma resultOfValue_resultValue r : resultOfValue (resultValue r) = Some r.
Proof. destruct r; reflexivity. Qed.

Lemma resultValue_set r : resultValue r <> 0.
Proof. destruct r; discriminate. Qed.

Lemma invariant_init : invariant init.
Proof. intros eq H. cbn in H. congruence. Qed.

Lemma trySetGlobalOrdering_invariant o st :
  invariant st -> invariant (snd (trySetGlobalOrdering o st)).
Proof.
  intros Hinv. unfold trySetGlobalOrdering.
  destruct (s_globalOrdering st) as [g|] eqn:Eg; cbn [snd]; [exact Hinv|].
  intros eq Hne. cbn in Hne. destruct (Hinv eq Hne) as (g & Hg & _). congruence.
Qed.

Lemma getEqualityArgumentOrder_spec this eq st :
  invariant st ->
  fst (getEqualityArgumentOrder this eq st) =
    Some (compare this (nthArgument eq 0) (nthArgument eq 1)) /\
  invariant (snd (getEqualityArgumentOrder this eq st)) /\
  s_globalOrdering (snd (getEqualityArgumentOrder this eq st)) = s_globalOrdering st.
Proof.
  intros Hinv. unfold getEqualityArgumentOrder, tryGetGlobalOrdering.
  destruct (decide (s_globalOrdering st = Some this)) as [Hg|Hg].
  - rewrite bool_decide_eq_true_2 by exact Hg. cbn [negb]. cbv zeta.
    destruct (Z.eqb_spec (getArgumentOrderValue st eq) 0) as [Hz|Hz]; cbn [negb fst snd].
    + split; [reflexivity|]. split; [|reflexivity].
      intros l Hl. cbn in Hl |- *. exists this. split; [exact Hg|].
      destruct (decide (l = eq)) as [->|Hne]; [reflexivity|].
      destruct (Hinv l Hl) as (g & Hg' & Hv). rewrite Hv. congruence.
    + split; [|split; [exact Hinv|reflexivity]].
      destruct (Hinv eq Hz) as (g & Hg' & Hv). rewrite Hv, resultOfValue_resultValue.
      congruence.
  - rewrite bool_decide_eq_false_2 by exact Hg. cbn [negb fst snd].
    split; [reflexivity|]. split; [exact Hinv|reflexivity].
Qed.

Lemma run_spec ops : forall st,
  invariant st ->
  fst (run ops st) = uncached ops /\
  s_globalOrdering (snd (run ops st)) =
    match s_globalOrdering st with
    | Some g => Some g
    | None => firstOffered ops
    end.
Proof.
  induction ops as [|[o|this eq] ops IH]; intros st Hinv.
  - cbn. split; [reflexivity|]. destruct (s_globalOrdering st); reflexivity.
  - cbn [run uncached firstOffered].
    destruct (IH _ (trySetGlobalOrdering_invariant o st Hinv)) as [Ha Hg].
    split; [exact Ha|]. rewrite Hg. unfold trySetGlobalOrdering.
    destruct (s_globalOrdering st) as [g|] eqn:Eg; cbn [snd]; [rewrite Eg|]; reflexivity.
  - cbn [run uncached firstOffered].
    destruct (getEqualityArgumentOrder_spec this eq st Hinv) as (Hr & Hinv' & Hsame).
    destruct (getEqualityArgumentOrder this eq st) as [r st'] eqn:E.
    cbn [fst snd] in Hr, Hinv', Hsame.
    destruct (IH st' Hinv') as [Ha Hg].
    destruct (run ops st') as [rs st''] eqn:E'. cbn [fst snd] in Ha, Hg |- *.
    rewrite Hr, Ha, Hg, Hsame. split; reflexivity.
Qed.

End Orderings.
End EqualityArgumentOrder.

(** X29.  [Ordering::getEqualityArgumentOrder] with the orientation cached
    in the shared equality literals: in every sequence of calls of
    [trySetGlobalOrdering] and [getEqualityArgumentOrder] on any orderings,
    started with no global ordering and no orientation cached, each call of
    [getEqualityArgumentOrder] answers what [compare] of the ordering it is
    called on answers on the two arguments of the equality; and the global
    ordering is, in the end, the first one that was offered. *)
Theorem equality_argument_order_cache
    (compare : nat -> TermList -> TermList -> Result)
    (ops : list EqualityArgumentOrder.op) :
  fst (EqualityArgumentOrder.run compare ops EqualityArgumentOrder.init) =
    EqualityArgumentOrder.uncached compare ops /\
  EqualityArgumentOrder.s_globalOrdering
    (snd (EqualityArgumentOrder.run compare ops EqualityArgumentOrder.init)) =
    EqualityArgumentOrder.firstOffered ops.
Proof.
  apply (EqualityArgumentOrder.run_spec compare ops EqualityArgumentOrder.init).
  apply EqualityArgumentOrder.invariant_init.
Qed.
